(** * Long: an emulated 64-bit two's-complement integer (src/mod.ts)

    A shallow embedding of the [Long] class of [src/mod.ts] and the
    verification of its specification.

    Modelling conventions.
    - A 32-bit word ([this.low], [this.high]) is a [Z] in the signed
      range, as the constructor stores it ([low | 0]); the JavaScript
      bit operators are written out with [Z.land], [Z.lor], [Z.shiftl],
      [Z.shiftr] and an explicit wrap-around.
    - A JavaScript [number] known to hold an integer (a limb, a bit
      count, a radix, an index) is a [Z].  A general [number] is the type
      [number] below: NaN, the infinities, or a rational; arithmetic on
      it rounds to IEEE-754 binary64 (round to nearest, ties to even)
      through [fl].  The two zeros are not distinguished.
    - A string is a [string] whose characters are the UTF-16 code units
      below 256.
    - [throw] and unbounded recursion or iteration are explicit: a
      function that may throw, recurse or loop returns an [outcome] and
      takes a [fuel]; [OutOfFuel] is not a behaviour of the program.
    - The module variable [wasm] (the WebAssembly instance, or [null]
      where the host has none) and the host function [Math.log], whose
      result ECMAScript leaves implementation-approximated, are
      parameters of the embedding.  [Math.pow] is only called at a small
      integer base and exponent and is taken correctly rounded. *)

From Stdlib Require Import ZArith QArith Qpower Qround Qabs Lqa Lia Bool List.
From Stdlib Require Import String Ascii.
From coqutil Require Import Z.bitblast.
Import ListNotations.

Local Open Scope Z_scope.

(** ** 32-bit words and the JavaScript bit operators *)

Module Int32.

(** ToInt32: [x | 0]. *)
Definition toInt32 (z : Z) : Z := (z + 2 ^ 31) mod 2 ^ 32 - 2 ^ 31.

(** ToUint32: [x >>> 0]. *)
Definition toUint32 (z : Z) : Z := z mod 2 ^ 32.

(** [a & b], [a | b], [a ^ b], [~a]. *)
Definition and (a b : Z) : Z := Z.land (toInt32 a) (toInt32 b).
Definition or (a b : Z) : Z := Z.lor (toInt32 a) (toInt32 b).
Definition xor (a b : Z) : Z := Z.lxor (toInt32 a) (toInt32 b).
Definition not (a : Z) : Z := Z.lnot (toInt32 a).

(** [a << n], [a >> n], [a >>> n]: the count is taken modulo 32. *)
Definition shl (a n : Z) : Z := toInt32 (Z.shiftl (toInt32 a) (Z.land n 31)).
Definition shr (a n : Z) : Z := Z.shiftr (toInt32 a) (Z.land n 31).
Definition shru (a n : Z) : Z := Z.shiftr (toUint32 a) (Z.land n 31).

Definition is_int32 (z : Z) : Prop := - 2 ^ 31 <= z < 2 ^ 31.

End Int32.

(** ** JavaScript numbers *)

Inductive number : Type :=
| NaN
| Inf (negative : bool)
| Fin (q : Q).

Module Num.

(** [2 ^ e] for any integer [e]. *)
Definition pow2 (e : Z) : Q := Qpower 2 e.

(** The binade of a positive rational: the [k] with [2^k <= q < 2^(k+1)]. *)
Definition binade (q : Q) : Z :=
  let k := Z.log2 (Qnum q) - Z.log2 (Zpos (Qden q)) in
  if Qle_bool (pow2 k) q then k else k - 1.

Local Open Scope Q_scope.

(** Nearest integer of a non-negative rational, ties to even. *)
Definition rne (t : Q) : Z :=
  let f := Qfloor t in
  match Qcompare (t - inject_Z f) (1 # 2) with
  | Lt => f
  | Gt => (f + 1)%Z
  | Eq => if Z.even f then f else (f + 1)%Z
  end.

(** binary64 rounding of a positive rational: 53 significant bits,
    least exponent -1074, overflow to infinity from [2^1024]. *)
Definition fl_pos (q : Q) : number :=
  let e := Z.max (binade q - 52) (- 1074) in
  let r := inject_Z (rne (q / pow2 e)) * pow2 e in
  if Qle_bool (pow2 1024) r then Inf false else Fin (Qred r).

Definition neg (x : number) : number :=
  match x with
  | NaN => NaN
  | Inf s => Inf (negb s)
  | Fin q => Fin (Qred (- q))
  end.

(** binary64 rounding of a rational. *)
Definition fl (q : Q) : number :=
  match Qcompare q 0 with
  | Eq => Fin 0
  | Gt => fl_pos q
  | Lt => neg (fl_pos (- q))
  end.

Definition of_Z (z : Z) : number := fl (inject_Z z).

Definition isNaN (x : number) : bool :=
  match x with NaN => true | _ => false end.

(** [x + y], [x - y], [x * y], [x / y]. *)
Definition add (x y : number) : number :=
  match x, y with
  | NaN, _ | _, NaN => NaN
  | Inf s, Inf s' => if Bool.eqb s s' then Inf s else NaN
  | Inf s, Fin _ | Fin _, Inf s => Inf s
  | Fin a, Fin b => fl (a + b)
  end.

Definition sub (x y : number) : number := add x (neg y).

Definition sign_neg (q : Q) : bool :=
  match Qcompare q 0 with Lt => true | _ => false end.

Definition mul (x y : number) : number :=
  match x, y with
  | NaN, _ | _, NaN => NaN
  | Inf s, Inf s' => Inf (xorb s s')
  | Inf s, Fin q | Fin q, Inf s =>
      if Qeq_bool q 0 then NaN else Inf (xorb s (sign_neg q))
  | Fin a, Fin b => fl (a * b)
  end.

Definition div (x y : number) : number :=
  match x, y with
  | NaN, _ | _, NaN => NaN
  | Inf _, Inf _ => NaN
  | Inf s, Fin q => Inf (xorb s (sign_neg q))
  | Fin _, Inf _ => Fin 0
  | Fin a, Fin b =>
      if Qeq_bool b 0
      then (if Qeq_bool a 0 then NaN else Inf (sign_neg a))
      else fl (a / b)
  end.

(** Truncation toward zero. *)
Definition trunc (q : Q) : Z := Z.quot (Qnum q) (Zpos (Qden q)).

(** [x % y]: the remainder has the sign of the dividend and is exact. *)
Definition rem (x y : number) : number :=
  match x, y with
  | NaN, _ | _, NaN => NaN
  | Inf _, _ => NaN
  | Fin a, Inf _ => Fin a
  | Fin a, Fin b =>
      if Qeq_bool b 0 then NaN
      else Fin (Qred (a - b * inject_Z (trunc (a / b))))
  end.

(** Comparisons; any comparison with NaN is false. *)
Definition lt (x y : number) : bool :=
  match x, y with
  | NaN, _ | _, NaN => false
  | Inf s, Inf s' => s && negb s'
  | Inf s, Fin _ => s
  | Fin _, Inf s => negb s
  | Fin a, Fin b => match Qcompare a b with Lt => true | _ => false end
  end.

Definition le (x y : number) : bool :=
  match x, y with
  | NaN, _ | _, NaN => false
  | Inf s, Inf s' => s || negb s'
  | Inf s, Fin _ => s
  | Fin _, Inf s => negb s
  | Fin a, Fin b => Qle_bool a b
  end.

Definition gt (x y : number) : bool := lt y x.
Definition ge (x y : number) : bool := le y x.

(** ToInt32 of a number: [x | 0]. *)
Definition toInt32 (x : number) : Z :=
  match x with
  | NaN | Inf _ => 0%Z
  | Fin q => Int32.toInt32 (trunc q)
  end.

(** [Math.floor], [Math.ceil], [Math.max]. *)
Definition floor (x : number) : number :=
  match x with Fin q => Fin (inject_Z (Qfloor q)) | _ => x end.

Definition ceil (x : number) : number :=
  match x with Fin q => Fin (inject_Z (Qceiling q)) | _ => x end.

Definition max (x y : number) : number :=
  match x, y with
  | NaN, _ | _, NaN => NaN
  | _, _ => if lt x y then y else x
  end.

(** [Math.pow] at an integer base and an integer exponent. *)
Definition pow (b e : Z) : number := fl (Qpower (inject_Z b) e).

(** [Math.pow(2, e)] at a number [e] that is NaN, infinite or an
    integer. *)
Definition pow2_num (e : number) : number :=
  match e with
  | NaN => NaN
  | Inf false => Inf false
  | Inf true => Fin 0
  | Fin q => pow 2 (Qfloor q)
  end.

(** [Math.LN2], the binary64 number 0x3FE62E42FEFA39EF. *)
Definition LN2 : number := Fin (6243314768165359 # 9007199254740992).

(** The numbers that binary64 holds. *)
Definition is_double (x : number) : bool :=
  match x with
  | Fin q => match fl q with Fin r => Qeq_bool q r | _ => false end
  | _ => true
  end.

Local Close Scope Q_scope.

End Num.

(** ** Thrown errors, fuel and the outcome of a call *)

Inductive Error : Type :=
| EmptyInput              (* Error('empty string') *)
| InvalidRadix            (* RangeError('radix') *)
| MalformedInput          (* Error('interior hyphen') *)
| DivisionByZero          (* Error('division by zero') *)
| WasmDivideByZero        (* WebAssembly.RuntimeError: integer divide by zero *)
| WasmIntegerOverflow.    (* WebAssembly.RuntimeError: integer overflow *)

Inductive outcome (A : Type) : Type :=
| Ret (a : A)
| Throw (e : Error)
| OutOfFuel.

Arguments Ret {A} a.
Arguments Throw {A} e.
Arguments OutOfFuel {A}.

Definition bind {A B : Type} (m : outcome A) (k : A -> outcome B) : outcome B :=
  match m with
  | Ret a => k a
  | Throw e => Throw e
  | OutOfFuel => OutOfFuel
  end.

Declare Scope outcome_scope.
Delimit Scope outcome_scope with outcome.
Notation "x <- m ;; k" := (bind m (fun x => k))
  (at level 61, m at next level, right associativity) : outcome_scope.
Notation "' p <- m ;; k" := (bind m (fun x => match x with p => k end))
  (at level 61, p pattern, m at next level, right associativity) : outcome_scope.

(** ** The WebAssembly module of [src/mod.ts]

    The byte array instantiated at the top of the file decodes to one
    mutable i32 global and six exported functions.  [get_high] returns
    the global.  Each of [mul], [div_s], [div_u], [rem_s], [rem_u] takes
    four i32 parameters, builds two i64 operands
    [extend_i32_u lo | (extend_i32_u hi << 32)], applies [i64.mul],
    [i64.div_s], [i64.div_u], [i64.rem_s] or [i64.rem_u], stores the high
    word of the result ([shr_s 32], [i32.wrap_i64]) in the global and
    returns the low word.  A call followed by [get_high] is modelled as
    one call that returns both words. *)

Module Wasm.

Inductive op : Type := mul | div_s | div_u | rem_s | rem_u.

(** The i64 operand, as its unsigned value. *)
Definition operand (lo hi : Z) : Z :=
  Z.lor (Int32.toUint32 lo) (Z.shiftl (Int32.toUint32 hi) 32).

(** The signed reading of an i64. *)
Definition signed (x : Z) : Z := (x + 2 ^ 63) mod 2 ^ 64 - 2 ^ 63.

(** The i64 result of an operation, or the trap. *)
Definition exec (o : op) (x y : Z) : Error + Z :=
  match o with
  | mul => inr ((x * y) mod 2 ^ 64)
  | div_u => if y =? 0 then inl WasmDivideByZero else inr (x / y)
  | rem_u => if y =? 0 then inl WasmDivideByZero else inr (x mod y)
  | div_s =>
      if y =? 0 then inl WasmDivideByZero
      else if (signed x =? - 2 ^ 63) && (signed y =? -1)
           then inl WasmIntegerOverflow
           else inr (Z.quot (signed x) (signed y) mod 2 ^ 64)
  | rem_s =>
      if y =? 0 then inl WasmDivideByZero
      else inr (Z.rem (signed x) (signed y) mod 2 ^ 64)
  end.

(** [wasm[o](lo1, hi1, lo2, hi2)] then [wasm.get_high()]:
    the low and the high word of the result, as signed i32. *)
Definition call (o : op) (lo1 hi1 lo2 hi2 : Z) : Error + (Z * Z) :=
  match exec o (operand lo1 hi1) (operand lo2 hi2) with
  | inl t => inl t
  | inr r => inr (Int32.toInt32 r, Int32.toInt32 (Z.shiftr (signed r) 32))
  end.

End Wasm.

(** ** The Long value *)

Record Long : Type := mkLong { low : Z; high : Z; unsigned : bool }.

(** [new Long(low, high, unsigned)]: both words are truncated by [| 0]. *)
Definition new_Long (low high : Z) (unsigned : bool) : Long :=
  mkLong (Int32.toInt32 low) (Int32.toInt32 high) unsigned.

(** The values the constructor builds. *)
Definition wf (v : Long) : Prop :=
  Int32.is_int32 (low v) /\ Int32.is_int32 (high v).

Definition fromBits (lowBits highBits : Z) (unsigned : bool) : Long :=
  new_Long lowBits highBits unsigned.

(** [fromInt].  The two caches only share instances: a cached object is
    the one [fromBits] builds for the same value, and none is mutated. *)
Definition fromInt (value : Z) (unsigned : bool) : Long :=
  if unsigned then
    let value := Int32.toUint32 value in
    fromBits value 0 true
  else
    let value := Int32.toInt32 value in
    fromBits value (if value <? 0 then -1 else 0) false.

Definition ZERO : Long := fromInt 0 false.
Definition UZERO : Long := fromInt 0 true.
Definition ONE : Long := fromInt 1 false.
Definition UONE : Long := fromInt 1 true.
Definition MAX_VALUE : Long :=
  fromBits (Int32.or 0xFFFFFFFF 0) (Int32.or 0x7FFFFFFF 0) false.
Definition NEG_ONE : Long := fromInt (-1) false.
Definition MIN_VALUE : Long := fromBits 0 (Int32.or 0x80000000 0) false.
Definition MAX_UNSIGNED_VALUE : Long :=
  fromBits (Int32.or 0xFFFFFFFF 0) (Int32.or 0xFFFFFFFF 0) true.

Definition TWO_PWR_16_DBL : number := Num.of_Z (Int32.shl 1 16).
Definition TWO_PWR_24_DBL : Z := Int32.shl 1 24.
Definition TWO_PWR_32_DBL : number := Num.mul TWO_PWR_16_DBL TWO_PWR_16_DBL.
Definition TWO_PWR_64_DBL : number := Num.mul TWO_PWR_32_DBL TWO_PWR_32_DBL.
Definition TWO_PWR_63_DBL : number := Num.div TWO_PWR_64_DBL (Num.of_Z 2).
Definition TWO_PWR_24 : Long := fromInt TWO_PWR_24_DBL false.

Definition toInt (this : Long) : Z :=
  if unsigned this then Int32.shru (low this) 0 else low this.

Definition toNumber (this : Long) : number :=
  if unsigned this then
    Num.add (Num.mul (Num.of_Z (Int32.shru (high this) 0)) TWO_PWR_32_DBL)
            (Num.of_Z (Int32.shru (low this) 0))
  else
    Num.add (Num.mul (Num.of_Z (high this)) TWO_PWR_32_DBL)
            (Num.of_Z (Int32.shru (low this) 0)).

Definition isZero (this : Long) : bool := (high this =? 0) && (low this =? 0).

Definition isNegative (this : Long) : bool :=
  negb (unsigned this) && (high this <? 0).

Definition isOdd (this : Long) : bool := Int32.and (low this) 1 =? 1.

(** [equals], for a Long argument. *)
Definition equals (this other : Long) : bool :=
  if negb (Bool.eqb (unsigned this) (unsigned other))
     && (Int32.shru (high this) 31 =? 1)
     && (Int32.shru (high other) 31 =? 1)
  then false
  else (high this =? high other) && (low this =? low other).

Definition eq (this other : Long) : bool := equals this other.

Definition not (this : Long) : Long :=
  fromBits (Int32.not (low this)) (Int32.not (high this)) (unsigned this).

(** [add], for a Long argument: four 16-bit chunks, summed with carry. *)
Definition add (this addend : Long) : Long :=
  let a48 := Int32.shru (high this) 16 in
  let a32 := Int32.and (high this) 0xFFFF in
  let a16 := Int32.shru (low this) 16 in
  let a00 := Int32.and (low this) 0xFFFF in
  let b48 := Int32.shru (high addend) 16 in
  let b32 := Int32.and (high addend) 0xFFFF in
  let b16 := Int32.shru (low addend) 16 in
  let b00 := Int32.and (low addend) 0xFFFF in
  let c48 := 0 in let c32 := 0 in let c16 := 0 in let c00 := 0 in
  let c00 := c00 + (a00 + b00) in
  let c16 := c16 + Int32.shru c00 16 in
  let c00 := Int32.and c00 0xFFFF in
  let c16 := c16 + (a16 + b16) in
  let c32 := c32 + Int32.shru c16 16 in
  let c16 := Int32.and c16 0xFFFF in
  let c32 := c32 + (a32 + b32) in
  let c48 := c48 + Int32.shru c32 16 in
  let c32 := Int32.and c32 0xFFFF in
  let c48 := c48 + (a48 + b48) in
  let c48 := Int32.and c48 0xFFFF in
  fromBits (Int32.or (Int32.shl c16 16) c00) (Int32.or (Int32.shl c48 16) c32)
           (unsigned this).

Definition negate (this : Long) : Long :=
  if negb (unsigned this) && eq this MIN_VALUE then MIN_VALUE
  else add (not this) ONE.

Definition neg (this : Long) : Long := negate this.

Definition subtract (this subtrahend : Long) : Long :=
  add this (neg subtrahend).

Definition sub (this subtrahend : Long) : Long := subtract this subtrahend.

(** [compare], for a Long argument. *)
Definition compare (this other : Long) : Z :=
  if eq this other then 0
  else
    let thisNeg := isNegative this in
    let otherNeg := isNegative other in
    if thisNeg && negb otherNeg then -1
    else if negb thisNeg && otherNeg then 1
    else if negb (unsigned this) then
      (if isNegative (sub this other) then -1 else 1)
    else
      if (Int32.shru (high other) 0 >? Int32.shru (high this) 0)
         || ((high other =? high this)
             && (Int32.shru (low other) 0 >? Int32.shru (low this) 0))
      then -1 else 1.

Definition comp (this other : Long) : Z := compare this other.
Definition lessThan (this other : Long) : bool := comp this other <? 0.
Definition lt (this other : Long) : bool := lessThan this other.
Definition greaterThan (this other : Long) : bool := comp this other >? 0.
Definition gt (this other : Long) : bool := greaterThan this other.
Definition greaterThanOrEqual (this other : Long) : bool := comp this other >=? 0.
Definition gte (this other : Long) : bool := greaterThanOrEqual this other.

Definition toSigned (this : Long) : Long :=
  if negb (unsigned this) then this
  else fromBits (low this) (high this) false.

Definition toUnsigned (this : Long) : Long :=
  if unsigned this then this
  else fromBits (low this) (high this) true.

(** The shifts and rotates, for a [number] bit count that is an integer. *)
Definition shiftLeft (this : Long) (numBits : Z) : Long :=
  let numBits := Int32.and numBits 63 in
  if numBits =? 0 then this
  else if numBits <? 32 then
    fromBits (Int32.shl (low this) numBits)
             (Int32.or (Int32.shl (high this) numBits)
                       (Int32.shru (low this) (32 - numBits)))
             (unsigned this)
  else fromBits 0 (Int32.shl (low this) (numBits - 32)) (unsigned this).

Definition shl (this : Long) (numBits : Z) : Long := shiftLeft this numBits.

Definition shiftRight (this : Long) (numBits : Z) : Long :=
  let numBits := Int32.and numBits 63 in
  if numBits =? 0 then this
  else if numBits <? 32 then
    fromBits (Int32.or (Int32.shru (low this) numBits)
                       (Int32.shl (high this) (32 - numBits)))
             (Int32.shr (high this) numBits)
             (unsigned this)
  else fromBits (Int32.shr (high this) (numBits - 32))
                (if high this >=? 0 then 0 else -1) (unsigned this).

Definition shr (this : Long) (numBits : Z) : Long := shiftRight this numBits.

Definition shiftRightUnsigned (this : Long) (numBits : Z) : Long :=
  let numBits := Int32.and numBits 63 in
  if numBits =? 0 then this
  else if numBits <? 32 then
    fromBits (Int32.or (Int32.shru (low this) numBits)
                       (Int32.shl (high this) (32 - numBits)))
             (Int32.shru (high this) numBits)
             (unsigned this)
  else if numBits =? 32 then fromBits (high this) 0 (unsigned this)
  else fromBits (Int32.shru (high this) (numBits - 32)) 0 (unsigned this).

Definition shru (this : Long) (numBits : Z) : Long :=
  shiftRightUnsigned this numBits.

(** [rotateLeft].  After the [numBits < 32] case the function assigns
    [numBits] and [b] and ends without a [return]: the call evaluates to
    [undefined], which is [None] here. *)
Definition rotateLeft (this : Long) (numBits : Z) : option Long :=
  let numBits := Int32.and numBits 63 in
  if numBits =? 0 then Some this
  else if numBits =? 32 then
    Some (fromBits (high this) (low this) (unsigned this))
  else if numBits <? 32 then
    let b := 32 - numBits in
    Some (fromBits (Int32.or (Int32.shl (low this) numBits)
                             (Int32.shru (high this) b))
                   (Int32.or (Int32.shl (high this) numBits)
                             (Int32.shru (low this) b))
                   (unsigned this))
  else
    let numBits := numBits - 32 in
    let b := 32 - numBits in
    None.

Definition rotateRight (this : Long) (numBits : Z) : Long :=
  let numBits := Int32.and numBits 63 in
  if numBits =? 0 then this
  else if numBits =? 32 then
    fromBits (high this) (low this) (unsigned this)
  else if numBits <? 32 then
    let b := 32 - numBits in
    fromBits (Int32.or (Int32.shl (high this) b)
                       (Int32.shru (low this) numBits))
             (Int32.or (Int32.shl (low this) b)
                       (Int32.shru (high this) numBits))
             (unsigned this)
  else
    let numBits := numBits - 32 in
    let b := 32 - numBits in
    fromBits (Int32.or (Int32.shl (low this) b)
                       (Int32.shru (high this) numBits))
             (Int32.or (Int32.shl (high this) b)
                       (Int32.shru (low this) numBits))
             (unsigned this).

(** ** Strings: the host operations the class uses *)

Module JS.

(** [str.length]. *)
Definition length (s : string) : Z := Z.of_nat (String.length s).

Fixpoint indexOf_from (c : ascii) (s : string) (i : Z) : Z :=
  match s with
  | EmptyString => -1
  | String a s' => if Ascii.eqb a c then i else indexOf_from c s' (i + 1)
  end.

(** [str.indexOf(c)] for a one-character [c]: the first index, or -1. *)
Definition indexOf (s : string) (c : ascii) : Z := indexOf_from c s 0.

(** [str.substring(start, end)]: both indices are clamped to the
    string and swapped when out of order. *)
Definition substring (s : string) (start finish : Z) : string :=
  let len := length s in
  let a := Z.min (Z.max start 0) len in
  let b := Z.min (Z.max finish 0) len in
  let from := Z.min a b in
  let to := Z.max a b in
  String.substring (Z.to_nat from) (Z.to_nat (to - from)) s.

(** [str.substring(start)]. *)
Definition substring_from (s : string) (start : Z) : string :=
  substring s start (length s).

(** White space, among the code units below 256. *)
Definition isWhiteSpace (c : ascii) : bool :=
  let n := Z.of_nat (nat_of_ascii c) in
  ((9 <=? n) && (n <=? 13)) || (n =? 32) || (n =? 160).

Fixpoint trimStart (s : string) : string :=
  match s with
  | String c s' => if isWhiteSpace c then trimStart s' else s
  | EmptyString => s
  end.

(** The value of a digit: 0-9, then a-z or A-Z for 10 to 35. *)
Definition digitValue (c : ascii) : option Z :=
  let n := Z.of_nat (nat_of_ascii c) in
  if (48 <=? n) && (n <=? 57) then Some (n - 48)
  else if (97 <=? n) && (n <=? 122) then Some (n - 87)
  else if (65 <=? n) && (n <=? 90) then Some (n - 55)
  else None.

(** The value of the longest prefix of radix-[R] digits, from an
    accumulator; [None] while no digit has been read. *)
Fixpoint parseDigits (R : Z) (s : string) (acc : option Z) : option Z :=
  match s with
  | String c s' =>
      match digitValue c with
      | Some d =>
          if d <? R
          then parseDigits R s'
                 (Some (match acc with Some a => a * R + d | None => d end))
          else acc
      | None => acc
      end
  | EmptyString => acc
  end.

(** [parseInt(string, radix)], after ECMAScript: leading white space
    and a sign are skipped, a radix of 0 means 10, [0x] is skipped for
    radix 16 (or 0), the longest prefix of digits is read and the
    result is NaN when it is empty.  The value is rounded to binary64
    (exact below 2^53). *)
Definition parseInt (s : string) (radix : Z) : number :=
  let S0 := trimStart s in
  let '(sign, S1) :=
    match S0 with
    | String "-"%char r => (-1, r)
    | String "+"%char r => (1, r)
    | _ => (1, S0)
    end in
  let R := Int32.toInt32 radix in
  if negb (R =? 0) && ((R <? 2) || (36 <? R)) then NaN
  else
    let stripPrefix := (R =? 0) || (R =? 16) in
    let R := if R =? 0 then 10 else R in
    let '(R, S2) :=
      if stripPrefix then
        match S1 with
        | String "0"%char (String "x"%char r) => (16, r)
        | String "0"%char (String "X"%char r) => (16, r)
        | _ => (R, S1)
        end
      else (R, S1) in
    match parseDigits R S2 None with
    | None => NaN
    | Some mathInt => Num.of_Z (sign * mathInt)
    end.

Definition digitChar (d : Z) : ascii :=
  ascii_of_nat (Z.to_nat (if d <? 10 then 48 + d else 87 + d)).

Fixpoint digits (fuel : nat) (n radix : Z) (acc : string) : string :=
  match fuel with
  | O => acc
  | S fuel =>
      let acc := String (digitChar (n mod radix)) acc in
      if n / radix =? 0 then acc else digits fuel (n / radix) radix acc
  end.

(** [n.toString(radix)] for an integer [n] and a radix in 2..36. *)
Definition Number_toString (n radix : Z) : string :=
  if n =? 0 then "0"%string
  else if n <? 0
       then ("-" ++ digits (S (Z.to_nat (Z.log2 (- n)))) (- n) radix "")%string
       else digits (S (Z.to_nat (Z.log2 n))) n radix ""%string.

End JS.

(** ** Construction from numbers *)

Local Open Scope outcome_scope.

Fixpoint fromNumber (fuel : nat) (value : number) (unsigned : bool)
  : outcome Long :=
  match fuel with
  | O => OutOfFuel
  | S fuel =>
      if Num.isNaN value then Ret (if unsigned then UZERO else ZERO)
      else
        match
          (if unsigned then
             if Num.lt value (Num.of_Z 0) then Some UZERO
             else if Num.ge value TWO_PWR_64_DBL then Some MAX_UNSIGNED_VALUE
             else None
           else
             if Num.le value (Num.neg TWO_PWR_63_DBL) then Some MIN_VALUE
             else if Num.ge (Num.add value (Num.of_Z 1)) TWO_PWR_63_DBL
                  then Some MAX_VALUE
                  else None)
        with
        | Some clamped => Ret clamped
        | None =>
            if Num.lt value (Num.of_Z 0) then
              r <- fromNumber fuel (Num.neg value) unsigned ;;
              Ret (neg r)
            else
              Ret (fromBits (Num.toInt32 (Num.rem value TWO_PWR_32_DBL))
                            (Num.toInt32 (Num.div value TWO_PWR_32_DBL))
                            unsigned)
        end
  end.

(** ** Arithmetic and string conversion, over the host *)

Section Host.

(** [wasm] is [true] where the WebAssembly module was instantiated and
    [false] where the [catch] left the variable [null]. *)
Variable wasm : bool.

(** [Math.log]. *)
Variable Math_log : number -> number.

Definition wasm_call (o : Wasm.op) (this other : Long) : outcome Long :=
  match Wasm.call o (low this) (high this) (low other) (high other) with
  | inl trap => Throw trap
  | inr (lo, hi) => Ret (fromBits lo hi (unsigned this))
  end.

(** [multiply], for a Long argument. *)
Fixpoint multiply (fuel : nat) (this multiplier : Long) : outcome Long :=
  match fuel with
  | O => OutOfFuel
  | S fuel =>
      if isZero this then Ret this
      else if wasm then wasm_call Wasm.mul this multiplier
      else if isZero multiplier
           then Ret (if unsigned this then UZERO else ZERO)
      else if eq this MIN_VALUE
           then Ret (if isOdd multiplier then MIN_VALUE else ZERO)
      else if eq multiplier MIN_VALUE
           then Ret (if isOdd this then MIN_VALUE else ZERO)
      else if isNegative this then
        if isNegative multiplier
        then multiply fuel (neg this) (neg multiplier)
        else r <- multiply fuel (neg this) multiplier ;; Ret (neg r)
      else if isNegative multiplier then
        r <- multiply fuel this (neg multiplier) ;; Ret (neg r)
      else if lt this TWO_PWR_24 && lt multiplier TWO_PWR_24 then
        fromNumber fuel (Num.mul (toNumber this) (toNumber multiplier))
                   (unsigned this)
      else
        let a48 := Int32.shru (high this) 16 in
        let a32 := Int32.and (high this) 0xFFFF in
        let a16 := Int32.shru (low this) 16 in
        let a00 := Int32.and (low this) 0xFFFF in
        let b48 := Int32.shru (high multiplier) 16 in
        let b32 := Int32.and (high multiplier) 0xFFFF in
        let b16 := Int32.shru (low multiplier) 16 in
        let b00 := Int32.and (low multiplier) 0xFFFF in
        let c48 := 0 in let c32 := 0 in let c16 := 0 in let c00 := 0 in
        let c00 := c00 + a00 * b00 in
        let c16 := c16 + Int32.shru c00 16 in
        let c00 := Int32.and c00 0xFFFF in
        let c16 := c16 + a16 * b00 in
        let c32 := c32 + Int32.shru c16 16 in
        let c16 := Int32.and c16 0xFFFF in
        let c16 := c16 + a00 * b16 in
        let c32 := c32 + Int32.shru c16 16 in
        let c16 := Int32.and c16 0xFFFF in
        let c32 := c32 + a32 * b00 in
        let c48 := c48 + Int32.shru c32 16 in
        let c32 := Int32.and c32 0xFFFF in
        let c32 := c32 + a16 * b16 in
        let c48 := c48 + Int32.shru c32 16 in
        let c32 := Int32.and c32 0xFFFF in
        let c32 := c32 + a00 * b32 in
        let c48 := c48 + Int32.shru c32 16 in
        let c32 := Int32.and c32 0xFFFF in
        let c48 := c48 + (a48 * b00 + a32 * b16 + a16 * b32 + a00 * b48) in
        let c48 := Int32.and c48 0xFFFF in
        Ret (fromBits (Int32.or (Int32.shl c16 16) c00)
                      (Int32.or (Int32.shl c48 16) c32) (unsigned this))
  end.

Definition mul := multiply.

(** The inner loop of [divide]: the approximation is decreased while
    its product with the divisor is negative or exceeds the remainder. *)
Fixpoint divide_decrease (fuel : nat) (this divisor rem : Long)
    (delta approx : number) (approxRes approxRem : Long)
  : outcome (Long * Long) :=
  match fuel with
  | O => OutOfFuel
  | S fuel =>
      if isNegative approxRem || gt approxRem rem then
        let approx := Num.sub approx delta in
        approxRes <- fromNumber fuel approx (unsigned this) ;;
        approxRem <- mul fuel approxRes divisor ;;
        divide_decrease fuel this divisor rem delta approx approxRes approxRem
      else Ret (approxRes, approxRem)
  end.

(** The outer loop of [divide], from [rem = this] and the initial [res]. *)
Fixpoint divide_loop (fuel : nat) (this divisor res rem : Long)
  : outcome Long :=
  match fuel with
  | O => OutOfFuel
  | S fuel =>
      if gte rem divisor then
        let approx :=
          Num.max (Num.of_Z 1)
            (Num.floor (Num.div (toNumber rem) (toNumber divisor))) in
        let log2 := Num.ceil (Num.div (Math_log approx) Num.LN2) in
        let delta :=
          if Num.le log2 (Num.of_Z 48) then Num.of_Z 1
          else Num.pow2_num (Num.sub log2 (Num.of_Z 48)) in
        approxRes <- fromNumber fuel approx false ;;
        approxRem <- mul fuel approxRes divisor ;;
        ' (approxRes, approxRem) <-
          divide_decrease fuel this divisor rem delta approx
                          approxRes approxRem ;;
        let approxRes := if isZero approxRes then ONE else approxRes in
        divide_loop fuel this divisor (add res approxRes) (sub rem approxRem)
      else Ret res
  end.

(** [divide], for a Long argument. *)
Fixpoint divide (fuel : nat) (this divisor : Long) : outcome Long :=
  match fuel with
  | O => OutOfFuel
  | S fuel =>
      if isZero divisor then Throw DivisionByZero
      else if wasm then
        if negb (unsigned this) && (high this =? - 0x80000000)
           && (low divisor =? -1) && (high divisor =? -1)
        then Ret this
        else wasm_call (if unsigned this then Wasm.div_u else Wasm.div_s)
                       this divisor
      else if isZero this then Ret (if unsigned this then UZERO else ZERO)
      else if negb (unsigned this) then
        if eq this MIN_VALUE then
          if eq divisor ONE || eq divisor NEG_ONE then Ret MIN_VALUE
          else if eq divisor MIN_VALUE then Ret ONE
          else
            let halfThis := shr this 1 in
            q <- divide fuel halfThis divisor ;;
            let approx := shl q 1 in
            if eq approx ZERO
            then Ret (if isNegative divisor then ONE else NEG_ONE)
            else
              p <- mul fuel divisor approx ;;
              let rem := sub this p in
              q' <- divide fuel rem divisor ;;
              let res := add approx q' in
              Ret res
        else if eq divisor MIN_VALUE
             then Ret (if unsigned this then UZERO else ZERO)
        else if isNegative this then
          if isNegative divisor
          then divide fuel (neg this) (neg divisor)
          else q <- divide fuel (neg this) divisor ;; Ret (neg q)
        else if isNegative divisor then
          q <- divide fuel this (neg divisor) ;; Ret (neg q)
        else divide_loop fuel this divisor ZERO this
      else
        let divisor :=
          if negb (unsigned divisor) then toUnsigned divisor else divisor in
        if gt divisor this then Ret UZERO
        else if gt divisor (shru this 1) then Ret UONE
        else divide_loop fuel this divisor UZERO this
  end.

Definition div := divide.

(** [modulo], for a Long argument. *)
Definition modulo (fuel : nat) (this divisor : Long) : outcome Long :=
  if wasm then
    wasm_call (if unsigned this then Wasm.rem_u else Wasm.rem_s) this divisor
  else
    q <- div fuel this divisor ;;
    p <- mul fuel q divisor ;;
    Ret (sub this p).

Definition mod_ := modulo.

(** The loop of [fromString], from index [i]. *)
Fixpoint fromString_loop (fuel : nat) (str : string) (radix : Z)
    (radixToPower : Long) (i : Z) (result : Long) : outcome Long :=
  match fuel with
  | O => OutOfFuel
  | S fuel =>
      if i <? JS.length str then
        let size := Z.min 8 (JS.length str - i) in
        let value := JS.parseInt (JS.substring str i (i + size)) radix in
        if size <? 8 then
          power <- fromNumber fuel (Num.pow radix size) false ;;
          m <- mul fuel result power ;;
          v <- fromNumber fuel value false ;;
          fromString_loop fuel str radix radixToPower (i + 8) (add m v)
        else
          m <- mul fuel result radixToPower ;;
          v <- fromNumber fuel value false ;;
          fromString_loop fuel str radix radixToPower (i + 8) (add m v)
      else Ret result
  end.

(** [fromString(str, unsigned, radix)]: [unsigned] is a boolean or,
    for compatibility, the radix; [radix] may be absent. *)
Fixpoint fromString (fuel : nat) (str : string) (unsigned : bool + Z)
    (radix : option Z) : outcome Long :=
  match fuel with
  | O => OutOfFuel
  | S fuel =>
      if JS.length str =? 0 then Throw EmptyInput
      else
        let '(radix, unsigned) :=
          match unsigned with
          | inr n => (Some n, false)
          | inl b => (radix, b)
          end in
        if String.eqb str "NaN" || String.eqb str "Infinity"
           || String.eqb str "+Infinity" || String.eqb str "-Infinity"
        then Ret (if unsigned then UZERO else ZERO)
        else
          let radix :=
            match radix with
            | Some r => if r =? 0 then 10 else r
            | None => 10
            end in
          if (radix <? 2) || (36 <? radix) then Throw InvalidRadix
          else
            let p := JS.indexOf str "-" in
            if p >? 0 then Throw MalformedInput
            else if p =? 0 then
              r <- fromString fuel (JS.substring_from str 1) (inl unsigned)
                              (Some radix) ;;
              Ret (neg r)
            else
              radixToPower <- fromNumber fuel (Num.pow radix 8) false ;;
              result <- fromString_loop fuel str radix radixToPower 0 ZERO ;;
              (* result.unsigned = unsigned: the string is not empty, so
                 [result] is the fresh object of the last [add] *)
              Ret (mkLong (low result) (high result) unsigned)
  end.

(** [while (digits.length < 6) digits = '0' + digits]. *)
Fixpoint pad (n : nat) (digits : string) : string :=
  match n with
  | O => digits
  | S n =>
      if JS.length digits <? 6 then pad n (String "0" digits) else digits
  end.

(** The loop of [toString]. *)
Fixpoint toString_loop (fuel : nat) (radix : Z) (radixToPower rem : Long)
    (result : string) : outcome string :=
  match fuel with
  | O => OutOfFuel
  | S fuel =>
      remDiv <- div fuel rem radixToPower ;;
      p <- mul fuel remDiv radixToPower ;;
      let intval := Int32.shru (toInt (sub rem p)) 0 in
      let digits := JS.Number_toString intval radix in
      let rem := remDiv in
      if isZero rem then Ret (digits ++ result)%string
      else
        let digits := pad 6 digits in
        toString_loop fuel radix radixToPower rem (digits ++ result)%string
  end.

(** [toString(radix)]; [radix] may be absent. *)
Fixpoint toString (fuel : nat) (this : Long) (radix : option Z)
  : outcome string :=
  match fuel with
  | O => OutOfFuel
  | S fuel =>
      let radix :=
        match radix with
        | Some r => if r =? 0 then 10 else r
        | None => 10
        end in
      if (radix <? 2) || (36 <? radix) then Throw InvalidRadix
      else if isZero this then Ret "0"%string
      else if isNegative this then
        if eq this MIN_VALUE then
          radixLong <- fromNumber fuel (Num.of_Z radix) false ;;
          d <- div fuel this radixLong ;;
          p <- mul fuel d radixLong ;;
          let rem1 := sub p this in
          s <- toString fuel d (Some radix) ;;
          Ret (s ++ JS.Number_toString (toInt rem1) radix)%string
        else
          s <- toString fuel (neg this) (Some radix) ;;
          Ret ("-" ++ s)%string
      else
        radixToPower <- fromNumber fuel (Num.pow radix 6) (unsigned this) ;;
        toString_loop fuel radix radixToPower this ""%string
  end.

End Host.

(** ** The rest of the class *)

Definition getHighBits (this : Long) : Z := high this.
Definition getHighBitsUnsigned (this : Long) : Z := Int32.shru (high this) 0.
Definition getLowBits (this : Long) : Z := low this.
Definition getLowBitsUnsigned (this : Long) : Z := Int32.shru (low this) 0.

Definition eqz (this : Long) : bool := (high this =? 0) && (low this =? 0).

Definition isPositive (this : Long) : bool :=
  unsigned this || (high this >=? 0).

Definition isEven (this : Long) : bool := Int32.and (low this) 1 =? 0.

Definition notEquals (this other : Long) : bool := negb (eq this other).
Definition neq (this other : Long) : bool := notEquals this other.
Definition ne (this other : Long) : bool := notEquals this other.

Definition lessThanOrEqual (this other : Long) : bool := comp this other <=? 0.
Definition lte (this other : Long) : bool := lessThanOrEqual this other.
Definition le (this other : Long) : bool := lessThanOrEqual this other.
Definition ge (this other : Long) : bool := greaterThanOrEqual this other.

(** [Math.clz32]: the number of leading zero bits of the operand as an
    unsigned 32-bit word. *)
Definition clz32 (x : Z) : Z :=
  let n := Int32.toUint32 x in
  if n =? 0 then 32 else 31 - Z.log2 n.

(** The function [ctz32] of the module. *)
Definition ctz32 (value : Z) : Z :=
  let c := clz32 (Int32.and value (- value)) in
  if negb (value =? 0) then 31 - c else c.

Definition countLeadingZeros (this : Long) : Z :=
  if negb (high this =? 0) then clz32 (high this)
  else clz32 (low this) + 32.

Definition clz (this : Long) : Z := countLeadingZeros this.

Definition countTrailingZeros (this : Long) : Z :=
  if negb (low this =? 0) then ctz32 (low this)
  else ctz32 (high this) + 32.

Definition ctz (this : Long) : Z := countTrailingZeros this.

(** The loop of [getNumBitsAbs]: [bit] goes down from 31 and stops at
    the first bit of [val] that is set, or at 0. *)
Fixpoint getNumBitsAbs_loop (val : Z) (bit : nat) : Z :=
  match bit with
  | O => 0
  | S bit' =>
      if negb (Int32.and val (Int32.shl 1 (Z.of_nat bit)) =? 0)
      then Z.of_nat bit
      else getNumBitsAbs_loop val bit'
  end.

Fixpoint getNumBitsAbs (fuel : nat) (this : Long) : outcome Z :=
  match fuel with
  | O => OutOfFuel
  | S fuel =>
      if isNegative this then
        if eq this MIN_VALUE then Ret 64
        else getNumBitsAbs fuel (neg this)
      else
        let val := if negb (high this =? 0) then high this else low this in
        let bit := getNumBitsAbs_loop val 31 in
        Ret (if negb (high this =? 0) then bit + 33 else bit + 1)
  end.

(** [and], [or], [xor], for a Long argument. *)
Definition and (this other : Long) : Long :=
  fromBits (Int32.and (low this) (low other))
           (Int32.and (high this) (high other)) (unsigned this).

Definition or (this other : Long) : Long :=
  fromBits (Int32.or (low this) (low other))
           (Int32.or (high this) (high other)) (unsigned this).

Definition xor (this other : Long) : Long :=
  fromBits (Int32.xor (low this) (low other))
           (Int32.xor (high this) (high other)) (unsigned this).

Definition shr_u (this : Long) (numBits : Z) : Long :=
  shiftRightUnsigned this numBits.

Definition rotl (this : Long) (numBits : Z) : option Long :=
  rotateLeft this numBits.

Definition rotr (this : Long) (numBits : Z) : Long :=
  rotateRight this numBits.

(** The byte arrays, as lists of integers. *)
Definition toBytesLE (this : Long) : list Z :=
  let hi := high this in
  let lo := low this in
  [ Int32.and lo 0xff;
    Int32.and (Int32.shru lo 8) 0xff;
    Int32.and (Int32.shru lo 16) 0xff;
    Int32.shru lo 24;
    Int32.and hi 0xff;
    Int32.and (Int32.shru hi 8) 0xff;
    Int32.and (Int32.shru hi 16) 0xff;
    Int32.shru hi 24 ].

Definition toBytesBE (this : Long) : list Z :=
  let hi := high this in
  let lo := low this in
  [ Int32.shru hi 24;
    Int32.and (Int32.shru hi 16) 0xff;
    Int32.and (Int32.shru hi 8) 0xff;
    Int32.and hi 0xff;
    Int32.shru lo 24;
    Int32.and (Int32.shru lo 16) 0xff;
    Int32.and (Int32.shru lo 8) 0xff;
    Int32.and lo 0xff ].

Definition toBytes (this : Long) (le : bool) : list Z :=
  if le then toBytesLE this else toBytesBE this.

(** [bytes[i]] as an operand of [|] or [<<]: an index past the end
    reads [undefined], which these operators take as 0. *)
Definition byteAt (bytes : list Z) (i : nat) : Z := nth i bytes 0.

Definition fromBytesLE (bytes : list Z) (unsigned : bool) : Long :=
  new_Long
    (Int32.or (Int32.or (Int32.or (byteAt bytes 0)
                                  (Int32.shl (byteAt bytes 1) 8))
                        (Int32.shl (byteAt bytes 2) 16))
              (Int32.shl (byteAt bytes 3) 24))
    (Int32.or (Int32.or (Int32.or (byteAt bytes 4)
                                  (Int32.shl (byteAt bytes 5) 8))
                        (Int32.shl (byteAt bytes 6) 16))
              (Int32.shl (byteAt bytes 7) 24))
    unsigned.

Definition fromBytesBE (bytes : list Z) (unsigned : bool) : Long :=
  new_Long
    (Int32.or (Int32.or (Int32.or (Int32.shl (byteAt bytes 4) 24)
                                  (Int32.shl (byteAt bytes 5) 16))
                        (Int32.shl (byteAt bytes 6) 8))
              (byteAt bytes 7))
    (Int32.or (Int32.or (Int32.or (Int32.shl (byteAt bytes 0) 24)
                                  (Int32.shl (byteAt bytes 1) 16))
                        (Int32.shl (byteAt bytes 2) 8))
              (byteAt bytes 3))
    unsigned.

Definition fromBytes (bytes : list Z) (unsigned : bool) (le : bool) : Long :=
  if le then fromBytesLE bytes unsigned else fromBytesBE bytes unsigned.

(** [rem], the other name of [modulo]. *)
Definition rem (wasm : bool) (Math_log : number -> number) (fuel : nat)
    (this divisor : Long) : outcome Long :=
  modulo wasm Math_log fuel this divisor.

(** ** What a Long denotes *)

(** The 64-bit pattern, as an unsigned integer. *)
Definition ubits (v : Long) : Z :=
  Int32.toUint32 (low v) + 2 ^ 32 * Int32.toUint32 (high v).

(** The 64-bit integer the value represents. *)
Definition value (v : Long) : Z :=
  if unsigned v then ubits v else Wasm.signed (ubits v).

(** The Long with a given 64-bit pattern. *)
Definition of_bits (b : Z) (u : bool) : Long :=
  fromBits b (Z.shiftr b 32) u.

(** [z] is an integer nearest to [x] among those from [lo] to [hi]. *)
Definition nearest_in (lo hi : Z) (x : Q) (z : Z) : Prop :=
  lo <= z <= hi /\
  forall z' : Z, lo <= z' <= hi ->
    (Qabs (x - inject_Z z) <= Qabs (x - inject_Z z'))%Q.

(** The 64-bit left rotation of a bit pattern. *)
Definition rotl64 (b n : Z) : Z :=
  Z.lor (Z.shiftl b (n mod 64) mod 2 ^ 64) (Z.shiftr b (64 - n mod 64)).

(** The radix [fromString] works with: the second argument when it is
    a number, else the third; 10 when that is absent or 0. *)
Definition effective_radix (unsigned : bool + Z) (radix : option Z) : Z :=
  match (match unsigned with inr n => Some n | inl _ => radix end) with
  | Some r => if r =? 0 then 10 else r
  | None => 10
  end.

(** The flag [fromString] works with. *)
Definition effective_unsigned (unsigned : bool + Z) : bool :=
  match unsigned with inl b => b | inr _ => false end.

(** The four literals [fromString] maps to zero. *)
Definition is_literal (str : string) : bool :=
  String.eqb str "NaN" || String.eqb str "Infinity"
  || String.eqb str "+Infinity" || String.eqb str "-Infinity".

(** The exponent of the binary64 grid around a positive rational, and the
    rational rounded onto that grid: [Num.fl_pos] without its overflow
    test. *)
Definition expo (q : Q) : Z := Z.max (Num.binade q - 52) (- 1074).

Definition rnd (q : Q) : Q :=
  (inject_Z (Num.rne (q / Num.pow2 (expo q))) * Num.pow2 (expo q))%Q.

(** The least and the greatest value of a signedness, and clamping. *)
Definition min_of (u : bool) : Z := if u then 0 else - 2 ^ 63.
Definition max_of (u : bool) : Z := if u then 2 ^ 64 - 1 else 2 ^ 63 - 1.
Definition clamp (lo hi z : Z) : Z := Z.max lo (Z.min hi z).

(** ** The division loop and the round trip of printing and parsing *)

(** What the division loop needs of the host's [Math.log]: on an integer
    [a] from 1 to 2^64, [Math.ceil(Math.log(a) / Math.LN2)] is an integer
    within one of the ceiling of the binary logarithm of [a]. *)
Definition log_accurate (mlog : number -> number) : Prop :=
  forall a : Z, 1 <= a <= 2 ^ 64 ->
    exists L : Z,
      Num.ceil (Num.div (mlog (Fin (inject_Z a))) Num.LN2) = Fin (inject_Z L)
      /\ a <= 2 ^ (L + 1) /\ 2 ^ L < 4 * a.

(** The integers the division loop handles that binary64 holds: those
    below 2^53, and the multiples of a power of two by a 53-bit factor. *)
Definition on_grid (A : Z) : Prop :=
  A < 2 ^ 53
  \/ exists M E : Z, 0 <= E /\ 0 <= M <= 2 ^ 53 /\ A = M * 2 ^ E.

(** The test of the inner loop of [divide] on a candidate whose product
    with the divisor has the pattern [P], against the remainder [R]:
    [approxRem.isNegative() || approxRem.gt(rem)], where the first
    candidate is a signed value whatever the dividend. *)
Definition rejects (u : bool) (P R : Z) : bool :=
  (2 ^ 63 <=? P)
  || (if u then negb (P =? R) && ((P - R) mod 2 ^ 64 <? 2 ^ 63) else R <? P).

(** A computation with fuel returns [x]: enough fuel gives the result. *)
Definition returns {A : Type} (f : nat -> outcome A) (x : A) : Prop :=
  exists n : nat, forall fuel, (n <= fuel)%nat -> f fuel = Ret x.

(** ** Digit strings *)

(** The code unit of a character. *)
Definition code (c : ascii) : Z := Z.of_nat (nat_of_ascii c).

(** [c] is the digit [toString] writes for a value below [r]. *)
Definition lower_digit (r : Z) (c : ascii) : bool :=
  match JS.digitValue c with
  | Some d => (d <? r) && Ascii.eqb c (JS.digitChar d)
  | None => false
  end.

Fixpoint digit_string (r : Z) (s : string) : bool :=
  match s with
  | EmptyString => true
  | String c s' => lower_digit r c && digit_string r s'
  end.

Definition digit_of (c : ascii) : Z :=
  match JS.digitValue c with Some d => d | None => 0 end.

(** The number a digit string denotes in radix [r], after [acc]. *)
Fixpoint val_acc (r : Z) (s : string) (acc : Z) : Z :=
  match s with
  | EmptyString => acc
  | String c s' => val_acc r s' (acc * r + digit_of c)
  end.

Definition val (r : Z) (s : string) : Z := val_acc r s 0.

Fixpoint take (k : nat) (s : string) : string :=
  match k, s with
  | S k, String c s' => String c (take k s')
  | _, _ => EmptyString
  end.

Fixpoint drop (k : nat) (s : string) : string :=
  match k, s with
  | S k, String c s' => drop k s'
  | _, _ => s
  end.

(** [fromString(v.toString(r), v.unsigned, r).equals(v)]. *)
Definition round_trip (w : bool) (mlog : number -> number) (fuel : nat)
    (v : Long) (r : Z) : outcome bool :=
  (s <- toString w mlog fuel v (Some r) ;;
   x <- fromString w fuel s (inl (unsigned v)) (Some r) ;;
   Ret (equals x v))%outcome.

(** A logarithm that is exact at the powers of two and constant between
    them: an instance of [Math.log] that is accurate in the sense of
    [log_accurate], and that evaluates. *)
Definition step_log (x : number) : number :=
  match x with
  | Fin q => Num.mul (Num.of_Z (Z.log2_up (Qceiling q))) Num.LN2
  | _ => NaN
  end.

(** [Math.ceil(k * LN2 / LN2)] is [k] or [k + 1]. *)
Definition step_ok (k : Z) : bool :=
  match Num.ceil (Num.div (Num.mul (Num.of_Z k) Num.LN2) Num.LN2) with
  | Fin q => (Qden q =? 1)%positive && (k <=? Qnum q) && (Qnum q <=? k + 1)
  | _ => false
  end.

(** ** Bytes, bit counts *)

(** The eight base-256 digits of a 64-bit pattern, least significant
    first. *)
Definition bytes_of (x : Z) : list Z :=
  map (fun i => (x / 2 ^ (8 * Z.of_nat i)) mod 256) (seq 0 8).

(** The number of bits of a natural number: 0 for 0. *)
Definition bit_length (x : Z) : Z := if x =? 0 then 0 else Z.log2 x + 1.

(** * Properties *)

(** ** 32-bit words *)

Lemma toInt32_range z : Int32.is_int32 (Int32.toInt32 z).
Proof.
  unfold Int32.is_int32, Int32.toInt32.
  pose proof (Z.mod_pos_bound (z + 2 ^ 31) (2 ^ 32)). lia.
Qed.

Lemma toInt32_id z : Int32.is_int32 z -> Int32.toInt32 z = z.
Proof.
  unfold Int32.is_int32, Int32.toInt32. intros H.
  rewrite Z.mod_small; lia.
Qed.

Lemma toInt32_mod z : Int32.toInt32 z mod 2 ^ 32 = z mod 2 ^ 32.
Proof.
  unfold Int32.toInt32.
  rewrite <- Zminus_mod_idemp_l, Z.mod_mod by lia.
  rewrite Zminus_mod_idemp_l. f_equal. lia.
Qed.

Lemma toUint32_range z : 0 <= Int32.toUint32 z < 2 ^ 32.
Proof. unfold Int32.toUint32. apply Z.mod_pos_bound. lia. Qed.

Lemma toUint32_toInt32 z : Int32.toUint32 (Int32.toInt32 z) = Int32.toUint32 z.
Proof. apply toInt32_mod. Qed.

Lemma toInt32_toUint32 z : Int32.toInt32 (Int32.toUint32 z) = Int32.toInt32 z.
Proof.
  unfold Int32.toInt32, Int32.toUint32.
  rewrite Zplus_mod_idemp_l. reflexivity.
Qed.

Lemma toInt32_eq_mod a b :
  a mod 2 ^ 32 = b mod 2 ^ 32 -> Int32.toInt32 a = Int32.toInt32 b.
Proof.
  intros H. rewrite <- (toInt32_toUint32 a), <- (toInt32_toUint32 b).
  unfold Int32.toUint32. rewrite H. reflexivity.
Qed.

Lemma int32_eq_mod a b :
  Int32.is_int32 a -> Int32.is_int32 b ->
  a mod 2 ^ 32 = b mod 2 ^ 32 -> a = b.
Proof.
  intros Ha Hb H. rewrite <- (toInt32_id a Ha), <- (toInt32_id b Hb).
  apply toInt32_eq_mod, H.
Qed.

(** [x & 0xFFFF] and [x >>> 16] are the two halves of the word. *)
Lemma and_FFFF x : Int32.and x 0xFFFF = x mod 2 ^ 16.
Proof.
  unfold Int32.and. rewrite (toInt32_id 65535) by (unfold Int32.is_int32; lia).
  change 65535 with (Z.ones 16). rewrite Z.land_ones by lia.
  change (2 ^ 16) with (2 ^ 16 * 1).
  pose proof (toInt32_mod x) as H.
  replace (Int32.toInt32 x mod (2 ^ 16 * 1)) with
    ((Int32.toInt32 x mod 2 ^ 32) mod 2 ^ 16).
  - rewrite H. change (2 ^ 32) with (2 ^ 16 * 2 ^ 16).
    rewrite Z.rem_mul_r by lia. rewrite Z.mul_1_r.
    rewrite Z.add_mod, Z.mod_mod, Z.mul_comm, Z.mod_mul by lia.
    rewrite Z.add_0_r, Z.mod_mod by lia. reflexivity.
  - change (2 ^ 32) with (2 ^ 16 * 2 ^ 16).
    rewrite Z.rem_mul_r by lia. rewrite Z.mul_1_r.
    rewrite Z.add_mod, Z.mod_mod, Z.mul_comm, Z.mod_mul by lia.
    rewrite Z.add_0_r, Z.mod_mod by lia. reflexivity.
Qed.

Lemma shru_16 x : Int32.shru x 16 = (x mod 2 ^ 32) / 2 ^ 16.
Proof.
  unfold Int32.shru, Int32.toUint32. change (Z.land 16 31) with 16.
  apply Z.shiftr_div_pow2. lia.
Qed.

Lemma shru_0 x : Int32.shru x 0 = x mod 2 ^ 32.
Proof. unfold Int32.shru, Int32.toUint32. apply Z.shiftr_0_r. Qed.

Lemma lor_disjoint_16 a c :
  0 <= c < 2 ^ 16 -> Z.lor (a * 2 ^ 16) c = a * 2 ^ 16 + c.
Proof.
  intros Hc. apply Z.or_to_plus.
  apply Z.bits_inj'. intros n Hn.
  rewrite Z.land_spec, Z.bits_0.
  destruct (Z.ltb_spec n 16).
  - rewrite Z.mul_pow2_bits_low by lia. reflexivity.
  - rewrite (Z.bits_above_log2 c n); [apply andb_false_r | lia |].
    destruct (Z.eq_dec c 0) as [-> | Hz]; [simpl; lia |].
    apply Z.log2_lt_pow2; try lia.
    apply Z.lt_le_trans with (2 ^ 16); [lia |].
    apply Z.pow_le_mono_r; lia.
Qed.

(** [(h << 16) | c] assembles a word from its two halves. *)
Lemma or_shl_16 h c :
  0 <= h < 2 ^ 16 -> 0 <= c < 2 ^ 16 ->
  Int32.or (Int32.shl h 16) c = Int32.toInt32 (h * 2 ^ 16 + c).
Proof.
  intros Hh Hc. unfold Int32.or, Int32.shl. change (Z.land 16 31) with 16.
  rewrite (toInt32_id h) by (unfold Int32.is_int32; lia).
  rewrite (toInt32_id c) by (unfold Int32.is_int32; lia).
  rewrite (toInt32_id (Int32.toInt32 _)) by apply toInt32_range.
  rewrite Z.shiftl_mul_pow2 by lia.
  unfold Int32.toInt32.
  destruct (Z.ltb_spec h (2 ^ 15)).
  - rewrite !Z.mod_small by lia.
    replace (h * 2 ^ 16 + 2 ^ 31 - 2 ^ 31) with (h * 2 ^ 16) by lia.
    rewrite lor_disjoint_16 by lia. lia.
  - replace ((h * 2 ^ 16 + 2 ^ 31) mod 2 ^ 32) with (h * 2 ^ 16 + 2 ^ 31 - 2 ^ 32).
    2:{ apply Z.mod_unique with 1; lia. }
    replace ((h * 2 ^ 16 + c + 2 ^ 31) mod 2 ^ 32) with (h * 2 ^ 16 + c + 2 ^ 31 - 2 ^ 32).
    2:{ apply Z.mod_unique with 1; lia. }
    replace (h * 2 ^ 16 + 2 ^ 31 - 2 ^ 32 - 2 ^ 31) with ((h - 2 ^ 16) * 2 ^ 16) by lia.
    rewrite lor_disjoint_16 by lia. lia.
Qed.

(** ** Long values and their bit patterns *)

Lemma wf_fromBits l h u : wf (fromBits l h u).
Proof. split; apply toInt32_range. Qed.

Lemma ubits_range v : 0 <= ubits v < 2 ^ 64.
Proof.
  unfold ubits.
  pose proof (toUint32_range (low v)). pose proof (toUint32_range (high v)). lia.
Qed.

Lemma ubits_fromBits l h u :
  ubits (fromBits l h u) = l mod 2 ^ 32 + 2 ^ 32 * (h mod 2 ^ 32).
Proof.
  unfold ubits, fromBits, new_Long; simpl.
  rewrite !toUint32_toInt32. reflexivity.
Qed.

Lemma unsigned_fromBits l h u : unsigned (fromBits l h u) = u.
Proof. reflexivity. Qed.

(** A Long is determined by its bit pattern and its flag. *)
Lemma long_ext a b :
  wf a -> wf b -> ubits a = ubits b -> unsigned a = unsigned b -> a = b.
Proof.
  destruct a as [al ah au], b as [bl bh bu]. unfold wf, ubits; cbn [low high unsigned].
  intros [Hal Hah] [Hbl Hbh] Hb Hu. subst bu.
  pose proof (toUint32_range al). pose proof (toUint32_range ah).
  pose proof (toUint32_range bl). pose proof (toUint32_range bh).
  assert (Int32.toUint32 al = Int32.toUint32 bl) as Hl by lia.
  assert (Int32.toUint32 ah = Int32.toUint32 bh) as Hh by lia.
  f_equal; apply int32_eq_mod; assumption.
Qed.

Lemma of_bits_ubits v : wf v -> of_bits (ubits v) (unsigned v) = v.
Proof.
  intros Hv. apply long_ext; [apply wf_fromBits | exact Hv | | reflexivity].
  unfold of_bits. rewrite ubits_fromBits, Z.shiftr_div_pow2 by lia.
  unfold ubits, Int32.toUint32.
  pose proof (Z.mod_pos_bound (low v) (2 ^ 32)).
  pose proof (Z.mod_pos_bound (high v) (2 ^ 32)).
  set (l := low v mod 2 ^ 32) in *. set (h := high v mod 2 ^ 32) in *.
  replace ((l + 2 ^ 32 * h) mod 2 ^ 32) with l.
  2:{ apply Z.mod_unique with h; lia. }
  replace ((l + 2 ^ 32 * h) / 2 ^ 32) with h.
  2:{ apply Z.div_unique with l; lia. }
  rewrite Z.mod_small; lia.
Qed.

Lemma ubits_of_bits b u : ubits (of_bits b u) = b mod 2 ^ 64.
Proof.
  unfold of_bits. rewrite ubits_fromBits, Z.shiftr_div_pow2 by lia.
  change (2 ^ 64) with (2 ^ 32 * 2 ^ 32).
  rewrite Z.rem_mul_r by lia. reflexivity.
Qed.

Lemma mod16_mod32 x : x mod 2 ^ 16 = (x mod 2 ^ 32) mod 2 ^ 16.
Proof.
  change (2 ^ 32) with (2 ^ 16 * 2 ^ 16).
  rewrite Z.rem_mul_r by lia.
  rewrite Z.add_mod, Z.mod_mod, Z.mul_comm, Z.mod_mul by lia.
  rewrite Z.add_0_r, Z.mod_mod by lia. reflexivity.
Qed.

(** Split [x] into its low 16 bits [lo] and the rest [hi]. *)
Ltac limbs x lo hi :=
  let H := fresh "Hdm" in
  let Hr := fresh "Hr" in
  pose proof (Z.div_mod x (2 ^ 16) ltac:(lia)) as H;
  pose proof (Z.mod_pos_bound x (2 ^ 16) ltac:(lia)) as Hr;
  generalize dependent (x / 2 ^ 16); intros hi;
  generalize dependent (x mod 2 ^ 16); intros lo; intros.

(** [add] is addition modulo 2^64 on the bit patterns. *)
Lemma add_ubits a b : ubits (add a b) = (ubits a + ubits b) mod 2 ^ 64.
Proof.
  unfold add. rewrite !Z.add_0_l.
  rewrite !and_FFFF, !shru_16.
  rewrite (mod16_mod32 (low a)), (mod16_mod32 (low b)),
          (mod16_mod32 (high a)), (mod16_mod32 (high b)).
  unfold ubits at 2 3. unfold Int32.toUint32.
  pose proof (Z.mod_pos_bound (low a) (2 ^ 32) ltac:(lia)).
  pose proof (Z.mod_pos_bound (high a) (2 ^ 32) ltac:(lia)).
  pose proof (Z.mod_pos_bound (low b) (2 ^ 32) ltac:(lia)).
  pose proof (Z.mod_pos_bound (high b) (2 ^ 32) ltac:(lia)).
  generalize dependent (low a mod 2 ^ 32). generalize dependent (high a mod 2 ^ 32).
  generalize dependent (low b mod 2 ^ 32). generalize dependent (high b mod 2 ^ 32).
  intros bh Hbh bl Hbl ah Hah al Hal.
  limbs al a0 a1. limbs ah a2 a3. limbs bl b0 b1. limbs bh b2 b3.
  rewrite (Z.mod_small (a0 + b0) (2 ^ 32)) by lia.
  limbs (a0 + b0) r0 k0.
  rewrite (Z.mod_small (k0 + (a1 + b1)) (2 ^ 32)) by lia.
  limbs (k0 + (a1 + b1)) r1 k1.
  rewrite (Z.mod_small (k1 + (a2 + b2)) (2 ^ 32)) by lia.
  limbs (k1 + (a2 + b2)) r2 k2.
  limbs (k2 + (a3 + b3)) r3 k3.
  rewrite !or_shl_16 by lia.
  rewrite ubits_fromBits, !toInt32_mod.
  rewrite !Z.mod_small by lia.
  apply Z.mod_unique with k3; lia.
Qed.

Lemma unsigned_add a b : unsigned (add a b) = unsigned a.
Proof. reflexivity. Qed.

Lemma wf_add a b : wf (add a b).
Proof. apply wf_fromBits. Qed.

Lemma lnot_mod32 x : Z.lnot x mod 2 ^ 32 = 2 ^ 32 - 1 - x mod 2 ^ 32.
Proof.
  unfold Z.lnot. replace (Z.pred (- x)) with (- x - 1) by lia.
  pose proof (Z.mod_pos_bound x (2 ^ 32)).
  symmetry. apply Z.mod_unique with (- (x / 2 ^ 32) - 1); [lia |].
  pose proof (Z.div_mod x (2 ^ 32)). lia.
Qed.

(** [not] complements the bit pattern. *)
Lemma not_ubits a : ubits (not a) = 2 ^ 64 - 1 - ubits a.
Proof.
  unfold not. rewrite ubits_fromBits. unfold Int32.not.
  rewrite !lnot_mod32, !toInt32_mod. unfold ubits, Int32.toUint32. lia.
Qed.

Lemma ubits_ONE : ubits ONE = 1.
Proof. reflexivity. Qed.

Lemma ubits_MIN_VALUE : ubits MIN_VALUE = 2 ^ 63.
Proof. reflexivity. Qed.

Lemma equals_refl a : equals a a = true.
Proof.
  unfold equals. rewrite Bool.eqb_reflx. simpl.
  rewrite !Z.eqb_refl. reflexivity.
Qed.

(** On values of the same flag, [equals] compares the two words. *)
Lemma equals_same_flag a b :
  unsigned a = unsigned b ->
  equals a b = (high a =? high b) && (low a =? low b).
Proof.
  intros H. unfold equals. rewrite H, Bool.eqb_reflx. reflexivity.
Qed.

Lemma eq_MIN_VALUE_iff a :
  wf a -> unsigned a = false -> (eq a MIN_VALUE = true <-> a = MIN_VALUE).
Proof.
  intros Hw Hu. unfold eq. split.
  - rewrite equals_same_flag by exact Hu.
    rewrite andb_true_iff, !Z.eqb_eq. intros [Hh Hl].
    destruct a as [l h u]; simpl in *. subst. reflexivity.
  - intros ->. apply equals_refl.
Qed.

(** [negate] is negation modulo 2^64 on the bit patterns. *)
Lemma negate_ubits a : wf a -> ubits (negate a) = (- ubits a) mod 2 ^ 64.
Proof.
  intros Hw. unfold negate.
  destruct (negb (unsigned a) && eq a MIN_VALUE) eqn:E.
  - apply andb_true_iff in E as [Hu He].
    apply negb_true_iff in Hu.
    apply (eq_MIN_VALUE_iff a Hw Hu) in He. subst a. reflexivity.
  - rewrite add_ubits, not_ubits, ubits_ONE.
    replace (2 ^ 64 - 1 - ubits a + 1) with (- ubits a + 1 * 2 ^ 64) by lia.
    apply Z.mod_add. lia.
Qed.

Lemma unsigned_negate a : unsigned (negate a) = unsigned a.
Proof.
  unfold negate.
  destruct (negb (unsigned a) && eq a MIN_VALUE) eqn:E; [| reflexivity].
  apply andb_true_iff in E as [Hu _]. apply negb_true_iff in Hu.
  rewrite Hu. reflexivity.
Qed.

Lemma wf_negate a : wf (negate a).
Proof.
  unfold negate. destruct (negb (unsigned a) && eq a MIN_VALUE).
  - apply wf_fromBits.
  - apply wf_add.
Qed.

Lemma negate_involutive a : wf a -> negate (negate a) = a.
Proof.
  intros Hw. apply long_ext.
  - apply wf_negate.
  - exact Hw.
  - rewrite negate_ubits by apply wf_negate.
    rewrite negate_ubits by exact Hw.
    pose proof (ubits_range a).
    destruct (Z.eq_dec (ubits a) 0) as [-> | Hz]; [reflexivity |].
    rewrite (Z.mod_opp_l_nz (ubits a)) by (rewrite ?Z.mod_small; lia).
    rewrite (Z.mod_small (ubits a)) by lia.
    rewrite Z.mod_opp_l_nz by (rewrite ?Z.mod_small; lia).
    rewrite Z.mod_small; lia.
  - rewrite !unsigned_negate. reflexivity.
Qed.

(** C9: [negate] is [not(x) + 1] except on [MIN_VALUE], which negates to
    itself; it is negation modulo 2^64 of the bit pattern, and negating
    twice gives back a value that [equals] the original. *)
Theorem negate_spec (a : Long) :
  wf a ->
  (a <> MIN_VALUE -> negate a = add (not a) ONE)
  /\ negate MIN_VALUE = MIN_VALUE
  /\ ubits (negate a) = (- ubits a) mod 2 ^ 64
  /\ equals (negate (negate a)) a = true.
Proof.
  intros Hw. repeat split.
  - intros Hne. unfold negate.
    destruct (negb (unsigned a) && eq a MIN_VALUE) eqn:E; [| reflexivity].
    apply andb_true_iff in E as [Hu He]. apply negb_true_iff in Hu.
    apply (eq_MIN_VALUE_iff a Hw Hu) in He. contradiction.
  - apply negate_ubits, Hw.
  - rewrite negate_involutive by exact Hw. apply equals_refl.
Qed.

Lemma negate_spec_witness :
  wf (fromInt 5 false)
  /\ negate (fromInt 5 false) = add (not (fromInt 5 false)) ONE
  /\ equals (negate (negate (fromInt 5 false))) (fromInt 5 false) = true.
Proof.
  pose proof (negate_spec (fromInt 5 false) (wf_fromBits _ _ _)) as [H1 [_ [_ H4]]].
  split; [apply wf_fromBits |]. split; [apply H1; discriminate | exact H4].
Defined.

(** ** Calls that do not throw *)

Definition no_throw {A : Type} (o : outcome A) : Prop :=
  forall e, o <> Throw e.

Lemma no_throw_Ret {A : Type} (a : A) : no_throw (Ret a).
Proof. intros e; discriminate. Qed.

Lemma no_throw_OutOfFuel {A : Type} : no_throw (@OutOfFuel A).
Proof. intros e; discriminate. Qed.

Lemma no_throw_bind {A B : Type} (m : outcome A) (k : A -> outcome B) :
  no_throw m -> (forall a, m = Ret a -> no_throw (k a)) -> no_throw (bind m k).
Proof.
  intros Hm Hk. destruct m as [a | e |]; simpl.
  - apply Hk. reflexivity.
  - exfalso. apply (Hm e). reflexivity.
  - apply no_throw_OutOfFuel.
Qed.

Create HintDb nothrow.
#[local] Hint Resolve no_throw_Ret no_throw_OutOfFuel : nothrow.

Lemma fromNumber_no_throw fuel x u : no_throw (fromNumber fuel x u).
Proof.
  revert x. induction fuel as [| fuel IH]; intros x; cbn [fromNumber];
    auto with nothrow.
  destruct (Num.isNaN x); auto with nothrow.
  match goal with |- no_throw (match ?c with _ => _ end) => destruct c end;
    auto with nothrow.
  destruct (Num.lt x (Num.of_Z 0)); auto with nothrow.
  apply no_throw_bind; auto with nothrow.
Qed.

Lemma operand_ubits v : Wasm.operand (low v) (high v) = ubits v.
Proof.
  unfold Wasm.operand, ubits.
  pose proof (toUint32_range (low v)) as Hl.
  pose proof (toUint32_range (high v)) as Hh.
  rewrite Z.shiftl_mul_pow2 by lia.
  rewrite Z.lor_comm, Z.or_to_plus; [lia |].
  apply Z.bits_inj'. intros n Hn.
  rewrite Z.land_spec, Z.bits_0.
  destruct (Z.ltb_spec n 32).
  - rewrite Z.mul_pow2_bits_low by lia. reflexivity.
  - destruct (Z.eq_dec (Int32.toUint32 (low v)) 0) as [-> | Hz].
    + rewrite Z.bits_0. apply andb_false_r.
    + rewrite (Z.bits_above_log2 (Int32.toUint32 (low v)) n);
        [apply andb_false_r | lia |].
      apply Z.log2_lt_pow2; [lia |].
      apply Z.lt_le_trans with (2 ^ 32); [lia |].
      apply Z.pow_le_mono_r; lia.
Qed.

Lemma wasm_mul_no_throw a b : no_throw (wasm_call Wasm.mul a b).
Proof. unfold wasm_call, Wasm.call; cbn [Wasm.exec]. apply no_throw_Ret. Qed.

Lemma multiply_no_throw w fuel a b : no_throw (multiply w fuel a b).
Proof.
  revert a b. induction fuel as [| fuel IH]; intros a b; cbn [multiply];
    auto with nothrow.
  destruct (isZero a); auto with nothrow.
  destruct w; [apply wasm_mul_no_throw |].
  destruct (isZero b); auto with nothrow.
  destruct (eq a MIN_VALUE); auto with nothrow.
  destruct (eq b MIN_VALUE); auto with nothrow.
  destruct (isNegative a).
  - destruct (isNegative b); auto.
    apply no_throw_bind; auto with nothrow.
  - destruct (isNegative b).
    + apply no_throw_bind; auto with nothrow.
    + destruct (lt a TWO_PWR_24 && lt b TWO_PWR_24); auto with nothrow.
      apply fromNumber_no_throw.
Qed.

Lemma divide_decrease_no_throw w fuel this divisor rem delta approx ares arem :
  no_throw (divide_decrease w fuel this divisor rem delta approx ares arem).
Proof.
  revert approx ares arem.
  induction fuel as [| fuel IH]; intros approx ares arem;
    cbn [divide_decrease]; auto with nothrow.
  destruct (isNegative arem || gt arem rem); auto with nothrow.
  apply no_throw_bind; [apply fromNumber_no_throw |]. intros r _.
  apply no_throw_bind; [apply multiply_no_throw |]. intros p _.
  apply IH.
Qed.

Lemma divide_loop_no_throw w mlog fuel this divisor res rem :
  no_throw (divide_loop w mlog fuel this divisor res rem).
Proof.
  revert res rem.
  induction fuel as [| fuel IH]; intros res rem; cbn [divide_loop];
    auto with nothrow.
  destruct (gte rem divisor); auto with nothrow.
  apply no_throw_bind; [apply fromNumber_no_throw |]. intros r _.
  apply no_throw_bind; [apply multiply_no_throw |]. intros p _.
  apply no_throw_bind; [apply divide_decrease_no_throw |]. intros [r' p'] _.
  apply IH.
Qed.

Lemma isZero_ubits v : wf v -> (isZero v = true <-> ubits v = 0).
Proof.
  intros [Hl Hh]. unfold isZero, ubits, Int32.toUint32, Int32.is_int32 in *.
  rewrite andb_true_iff, !Z.eqb_eq.
  pose proof (Z.mod_pos_bound (low v) (2 ^ 32) ltac:(lia)).
  pose proof (Z.mod_pos_bound (high v) (2 ^ 32) ltac:(lia)).
  split.
  - intros [-> ->]. reflexivity.
  - intros H1.
    assert (low v mod 2 ^ 32 = 0) as Hl0 by lia.
    assert (high v mod 2 ^ 32 = 0) as Hh0 by lia.
    split; apply int32_eq_mod; unfold Int32.is_int32; try lia.
    + rewrite Hh0. reflexivity.
    + rewrite Hl0. reflexivity.
Qed.

Lemma isZero_false_ubits v : wf v -> (isZero v = false <-> ubits v <> 0).
Proof.
  intros Hw. rewrite <- (isZero_ubits v Hw).
  destruct (isZero v); split; congruence.
Qed.

Lemma isZero_neg v : wf v -> isZero v = false -> isZero (neg v) = false.
Proof.
  intros Hw Hz. apply (isZero_false_ubits _ (wf_negate v)).
  apply (isZero_false_ubits _ Hw) in Hz.
  unfold neg. rewrite negate_ubits by exact Hw.
  pose proof (ubits_range v).
  rewrite Z.mod_opp_l_nz; rewrite ?Z.mod_small; lia.
Qed.

Lemma signed_min x : 0 <= x < 2 ^ 64 -> Wasm.signed x = - 2 ^ 63 -> x = 2 ^ 63.
Proof.
  unfold Wasm.signed. intros Hx H.
  destruct (Z.ltb_spec x (2 ^ 63)).
  - rewrite Z.mod_small in H; lia.
  - replace ((x + 2 ^ 63) mod 2 ^ 64) with (x - 2 ^ 63) in H; [lia |].
    apply Z.mod_unique with 1; lia.
Qed.

Lemma signed_m1 x : 0 <= x < 2 ^ 64 -> Wasm.signed x = -1 -> x = 2 ^ 64 - 1.
Proof.
  unfold Wasm.signed. intros Hx H.
  destruct (Z.ltb_spec x (2 ^ 63)).
  - rewrite Z.mod_small in H; lia.
  - replace ((x + 2 ^ 63) mod 2 ^ 64) with (x - 2 ^ 63) in H; [lia |].
    apply Z.mod_unique with 1; lia.
Qed.

Lemma ubits_words v :
  wf v -> low v = Int32.toInt32 (ubits v) /\
          high v = Int32.toInt32 (ubits v / 2 ^ 32).
Proof.
  intros Hw. pose proof (of_bits_ubits v Hw) as H. split.
  - apply (f_equal low) in H. symmetry. exact H.
  - apply (f_equal high) in H. symmetry.
    rewrite <- Z.shiftr_div_pow2 by lia. exact H.
Qed.

(** With the accelerator, [divide] throws only on a zero divisor: the
    guard returns before the one operand pair on which [i64.div_s] traps. *)
Lemma divide_wasm_no_throw mlog fuel a b :
  wf a -> wf b -> isZero b = false -> no_throw (divide true mlog fuel a b).
Proof.
  intros Ha Hb Hz. destruct fuel as [| fuel]; cbn [divide]; auto with nothrow.
  rewrite Hz.
  destruct (negb (unsigned a) && (high a =? - 0x80000000) && (low b =? -1)
            && (high b =? -1)) eqn:G; auto with nothrow.
  unfold wasm_call, Wasm.call. rewrite !operand_ubits.
  apply (isZero_false_ubits _ Hb) in Hz.
  pose proof (ubits_range a). pose proof (ubits_range b).
  destruct (unsigned a) eqn:Ua; cbn [Wasm.exec negb andb].
  - destruct (Z.eqb_spec (ubits b) 0); [contradiction | apply no_throw_Ret].
  - destruct (Z.eqb_spec (ubits b) 0); [contradiction |].
    destruct (Z.eqb_spec (Wasm.signed (ubits a)) (- 2 ^ 63)) as [Ea |];
      [| apply no_throw_Ret].
    destruct (Z.eqb_spec (Wasm.signed (ubits b)) (-1)) as [Eb |];
      [| apply no_throw_Ret].
    exfalso.
    apply signed_min in Ea; [| assumption].
    apply signed_m1 in Eb; [| assumption].
    destruct (ubits_words a Ha) as [_ Hah].
    destruct (ubits_words b Hb) as [Hbl Hbh].
    rewrite Ea in Hah. rewrite Eb in Hbl, Hbh.
    rewrite Hah, Hbl, Hbh in G. vm_compute in G. discriminate.
Qed.

Lemma divide_emulated_no_throw mlog fuel a b :
  wf b -> isZero b = false -> no_throw (divide false mlog fuel a b).
Proof.
  revert a b. induction fuel as [| fuel IH]; intros a b Hb Hz;
    cbn [divide]; auto with nothrow.
  rewrite Hz.
  assert (no_throw (divide false mlog fuel (neg a) (neg b))) as Hnn
    by (apply IH; [apply wf_negate | apply isZero_neg; assumption]).
  assert (forall x, no_throw (divide false mlog fuel x (neg b))) as Hn
    by (intros x; apply IH; [apply wf_negate | apply isZero_neg; assumption]).
  destruct (isZero a); auto with nothrow.
  destruct (negb (unsigned a)).
  - destruct (eq a MIN_VALUE).
    + destruct (eq b ONE || eq b NEG_ONE); auto with nothrow.
      destruct (eq b MIN_VALUE); auto with nothrow.
      apply no_throw_bind; [apply IH; assumption |]. intros q _.
      destruct (eq (shl q 1) ZERO); auto with nothrow.
      apply no_throw_bind; [apply multiply_no_throw |]. intros p _.
      apply no_throw_bind; [apply IH; assumption |]. intros q' _.
      auto with nothrow.
    + destruct (eq b MIN_VALUE); auto with nothrow.
      destruct (isNegative a).
      * destruct (isNegative b); auto.
        apply no_throw_bind; [apply IH; assumption |]. auto with nothrow.
      * destruct (isNegative b).
        -- apply no_throw_bind; [apply Hn |]. auto with nothrow.
        -- apply divide_loop_no_throw.
  - match goal with |- no_throw (if gt ?d a then _ else _) =>
      destruct (gt d a); auto with nothrow;
      destruct (gt d (shru a 1)); auto with nothrow
    end.
    apply divide_loop_no_throw.
Qed.

Lemma modulo_no_throw w mlog fuel a b :
  wf a -> wf b -> isZero b = false -> no_throw (modulo w mlog fuel a b).
Proof.
  intros Ha Hb Hz. unfold modulo. destruct w.
  - unfold wasm_call, Wasm.call. rewrite !operand_ubits.
    apply (isZero_false_ubits _ Hb) in Hz.
    destruct (unsigned a); cbn [Wasm.exec];
      (destruct (Z.eqb_spec (ubits b) 0); [contradiction | apply no_throw_Ret]).
  - apply no_throw_bind; [apply divide_emulated_no_throw; assumption |].
    intros q _. apply no_throw_bind; [apply multiply_no_throw |].
    auto with nothrow.
Qed.

(** Division by zero, both hosts at once: with a zero divisor [divide]
    throws 'division by zero' and [modulo] fails too, with that error or,
    where the accelerator runs, with its integer-divide-by-zero trap, in
    the first step of the call; with a non-zero divisor neither throws. *)
Theorem division_by_zero_spec (w : bool) (mlog : number -> number)
    (fuel : nat) (a b : Long) :
  wf a -> wf b ->
  (isZero b = true ->
     divide w mlog (S fuel) a b = Throw DivisionByZero
     /\ modulo w mlog (S fuel) a b
        = Throw (if w then WasmDivideByZero else DivisionByZero))
  /\ (isZero b = false ->
     no_throw (divide w mlog fuel a b) /\ no_throw (modulo w mlog fuel a b)).
Proof.
  intros Ha Hb. split.
  - intros Hz. split.
    + cbn [divide]. rewrite Hz. reflexivity.
    + unfold modulo. destruct w.
      * unfold wasm_call, Wasm.call. rewrite !operand_ubits.
        apply (isZero_ubits _ Hb) in Hz. rewrite Hz.
        destruct (unsigned a); reflexivity.
      * unfold div. cbn [divide]. rewrite Hz. reflexivity.
  - intros Hz. split.
    + destruct w.
      * apply divide_wasm_no_throw; assumption.
      * apply divide_emulated_no_throw; assumption.
    + apply modulo_no_throw; assumption.
Qed.

Lemma division_by_zero_spec_witness :
  divide true (fun x => x) 1 (fromInt 7 false) ZERO = Throw DivisionByZero
  /\ modulo true (fun x => x) 1 (fromInt 7 false) ZERO = Throw WasmDivideByZero
  /\ no_throw (divide false (fun x => x) 9 (fromInt 7 false) (fromInt 2 false)).
Proof.
  pose proof (division_by_zero_spec true (fun x => x) 0 (fromInt 7 false) ZERO
                (wf_fromBits _ _ _) (wf_fromBits _ _ _)) as [H1 _].
  pose proof (division_by_zero_spec false (fun x => x) 9 (fromInt 7 false)
                (fromInt 2 false)
                (wf_fromBits _ _ _) (wf_fromBits _ _ _)) as [_ H2].
  destruct (H1 eq_refl) as [Hd Hm]. destruct (H2 eq_refl) as [Hn _].
  split; [exact Hd |]. split; [exact Hm | exact Hn].
Defined.

(** C3: where the accelerator runs, [modulo] by zero does not throw
    'division by zero'.  It has no zero test in front of the accelerated
    branch, so the call reaches [i64.rem] and fails with that
    instruction's trap, for every dividend of either signedness.
    [divide] on the same host tests the divisor first, and [modulo]
    without the accelerator goes through [divide]: both throw
    'division by zero' on the same operands. *)
Theorem modulo_by_zero_wasm_trap (mlog : number -> number) (fuel : nat)
    (a b : Long) :
  wf a -> wf b -> isZero b = true ->
  modulo true mlog fuel a b = Throw WasmDivideByZero
  /\ modulo true mlog fuel a b <> Throw DivisionByZero
  /\ divide true mlog (S fuel) a b = Throw DivisionByZero
  /\ modulo false mlog (S fuel) a b = Throw DivisionByZero.
Proof.
  intros Ha Hb Hz.
  assert (T : modulo true mlog fuel a b = Throw WasmDivideByZero).
  { unfold modulo, wasm_call, Wasm.call. rewrite !operand_ubits.
    rewrite (proj1 (isZero_ubits _ Hb) Hz).
    destruct (unsigned a); reflexivity. }
  split; [exact T |]. split; [rewrite T; discriminate |]. split.
  - cbn [divide]. rewrite Hz. reflexivity.
  - unfold modulo, div. cbn [divide]. rewrite Hz. reflexivity.
Qed.

Lemma modulo_by_zero_wasm_trap_witness :
  modulo true (fun x => x) 0 (fromInt 7 false) ZERO = Throw WasmDivideByZero
  /\ modulo true (fun x => x) 0 (fromInt 7 false) ZERO
     <> Throw DivisionByZero
  /\ divide true (fun x => x) 1 (fromInt 7 false) ZERO
     = Throw DivisionByZero
  /\ modulo false (fun x => x) 1 (fromInt 7 false) ZERO
     = Throw DivisionByZero.
Proof.
  exact (modulo_by_zero_wasm_trap (fun x => x) 0 (fromInt 7 false) ZERO
           (wf_fromBits _ _ _) (wf_fromBits _ _ _) eq_refl).
Defined.

(** ** Rotation *)

(** C1: [rotateLeft] by a count that is above 32 after masking falls off
    the end of the function and yields [undefined], where [rotateRight]
    by the complementary count returns the rotated value. *)
Theorem rotateLeft_33_undefined :
  rotateLeft ONE 33 = None
  /\ ubits (rotateRight ONE 31) = rotl64 (ubits ONE) 33.
Proof. split; vm_compute; reflexivity. Qed.

Lemma rotateLeft_above_32 v n :
  32 < Int32.and n 63 -> rotateLeft v n = None.
Proof.
  intros H. unfold rotateLeft.
  destruct (Z.eqb_spec (Int32.and n 63) 0); [lia |].
  destruct (Z.eqb_spec (Int32.and n 63) 32); [lia |].
  destruct (Z.ltb_spec (Int32.and n 63) 32); [lia | reflexivity].
Qed.

Lemma rotateLeft_noop v n :
  Int32.and n 63 = 0 -> rotateLeft v n = Some v.
Proof. intros H. unfold rotateLeft. rewrite H. reflexivity. Qed.

(** ** Division with the accelerator *)

(** C2: where the accelerator runs, the guard of [divide] against
    [MIN_VALUE / -1] looks at the high word only: for the dividend
    -2^63 + 1 and the divisor -1 the quotient is the dividend itself, and
    quotient * divisor + remainder is 2^63 - 1, not the dividend.  The
    emulated path returns the quotient 2^63 - 1 there. *)
Theorem div_mul_mod_wasm_guard (mlog : number -> number) :
  let a := fromBits 1 (- 0x80000000) false in
  let b := NEG_ONE in
  divide true mlog 1 a b = Ret a
  /\ multiply true 1 a b = Ret (fromBits (-1) 0x7FFFFFFF false)
  /\ modulo true mlog 1 a b = Ret ZERO
  /\ equals a (add (fromBits (-1) 0x7FFFFFFF false) ZERO) = false
  /\ divide false mlog 9 a b = Ret (fromBits (-1) 0x7FFFFFFF false).
Proof. repeat split; vm_compute; reflexivity. Qed.

(** ** Parsing: the argument checks of [fromString] *)

Lemma fromString_unfold w fuel str u r :
  fromString w (S fuel) str u r =
  if JS.length str =? 0 then Throw EmptyInput
  else if is_literal str
       then Ret (if effective_unsigned u then UZERO else ZERO)
  else if (effective_radix u r <? 2) || (36 <? effective_radix u r)
       then Throw InvalidRadix
  else if JS.indexOf str "-" >? 0 then Throw MalformedInput
  else if JS.indexOf str "-" =? 0 then
    x <- fromString w fuel (JS.substring_from str 1)
                    (inl (effective_unsigned u)) (Some (effective_radix u r)) ;;
    Ret (neg x)
  else
    radixToPower <- fromNumber fuel (Num.pow (effective_radix u r) 8) false ;;
    result <- fromString_loop w fuel str (effective_radix u r)
                              radixToPower 0 ZERO ;;
    Ret (mkLong (low result) (high result) (effective_unsigned u)).
Proof.
  cbn [fromString]. unfold is_literal, effective_radix, effective_unsigned.
  destruct u as [b | n]; reflexivity.
Qed.

Lemma indexOf_literal str :
  is_literal str = true -> JS.indexOf str "-" <= 0.
Proof.
  unfold is_literal. rewrite !orb_true_iff, !String.eqb_eq.
  intros [[[-> | ->] | ->] | ->]; vm_compute; discriminate.
Qed.

Lemma indexOf_empty c : JS.indexOf ""%string c = -1.
Proof. reflexivity. Qed.

(** C6, as the code has it: when the first hyphen of the text is not at
    position 0 the call throws 'interior hyphen'; when it is at position
    0 the rest of the text is parsed by the same function and the result
    negated, so hyphens that follow it at the start are accepted. *)
Theorem fromString_hyphen (w : bool) (fuel : nat) (str : string)
    (u : bool + Z) (r : option Z) :
  2 <= effective_radix u r <= 36 ->
  (0 < JS.indexOf str "-" ->
     fromString w (S fuel) str u r = Throw MalformedInput)
  /\ (JS.indexOf str "-" = 0 -> is_literal str = false ->
     fromString w (S fuel) str u r =
     (x <- fromString w fuel (JS.substring_from str 1)
                      (inl (effective_unsigned u))
                      (Some (effective_radix u r)) ;;
      Ret (neg x))).
Proof.
  intros Hr.
  assert ((effective_radix u r <? 2) || (36 <? effective_radix u r) = false)
    as Hrb.
  { apply orb_false_iff. split; apply Z.ltb_ge; lia. }
  split.
  - intros Hp. rewrite fromString_unfold.
    destruct (Z.eqb_spec (JS.length str) 0) as [Hl | Hl].
    { destruct str; [rewrite indexOf_empty in Hp; lia | discriminate]. }
    destruct (is_literal str) eqn:Hlit.
    { apply indexOf_literal in Hlit. lia. }
    rewrite Hrb.
    destruct (Z.gtb_spec (JS.indexOf str "-") 0); [reflexivity | lia].
  - intros Hp Hlit. rewrite fromString_unfold.
    destruct (Z.eqb_spec (JS.length str) 0) as [Hl | Hl].
    { destruct str; [rewrite indexOf_empty in Hp; lia | discriminate]. }
    rewrite Hlit, Hrb, Hp. reflexivity.
Qed.

Lemma fromString_hyphen_witness :
  fromString false 9 "1-2" (inl false) None = Throw MalformedInput
  /\ fromString false 9 "-12" (inl false) None
     = (x <- fromString false 8 "12" (inl false) (Some 10) ;; Ret (neg x)).
Proof.
  pose proof (fromString_hyphen false 8 "1-2" (inl false) None) as H1.
  pose proof (fromString_hyphen false 8 "-12" (inl false) None) as H2.
  split.
  - apply H1; [vm_compute; split; discriminate | reflexivity].
  - apply H2; [vm_compute; split; discriminate | reflexivity | reflexivity].
Defined.

(** C6, as stated, fails: in "--5" a hyphen stands at position 1, and the
    call returns 5. *)
Lemma fromString_double_hyphen :
  String.get 1 "--5" = Some "-"%char
  /\ fromString false 9 "--5" (inl false) None = Ret (fromInt 5 false)
  /\ fromString true 9 "--5" (inl false) None = Ret (fromInt 5 false).
Proof. repeat split; vm_compute; reflexivity. Qed.

(** C7, as the code has it: a text that is not empty and not one of the
    four literals is rejected with a range error when the radix, after
    an absent or zero radix has been replaced by 10, is outside 2..36. *)
Theorem fromString_invalid_radix (w : bool) (fuel : nat) (str : string)
    (u : bool + Z) (r : option Z) :
  str <> ""%string -> is_literal str = false ->
  effective_radix u r < 2 \/ 36 < effective_radix u r ->
  fromString w (S fuel) str u r = Throw InvalidRadix.
Proof.
  intros Hne Hlit Hr. rewrite fromString_unfold.
  destruct (Z.eqb_spec (JS.length str) 0) as [Hl | Hl].
  { destruct str; [congruence | discriminate]. }
  rewrite Hlit.
  destruct (Z.ltb_spec (effective_radix u r) 2); [reflexivity |].
  destruct (Z.ltb_spec 36 (effective_radix u r)); [reflexivity | lia].
Qed.

Lemma fromString_invalid_radix_witness :
  fromString false 1 "1" (inl false) (Some 1) = Throw InvalidRadix.
Proof.
  apply (fromString_invalid_radix false 0 "1" (inl false) (Some 1)).
  - discriminate.
  - reflexivity.
  - left. vm_compute. reflexivity.
Defined.

(** C7, as stated, fails: the radix 0 is outside 2..36 and selects the
    default radix 10, and a literal is accepted under any radix. *)
Lemma fromString_radix_zero :
  ~ (2 <= 0 <= 36)
  /\ fromString false 9 "1" (inl false) (Some 0) = Ret (fromInt 1 false)
  /\ fromString false 9 "NaN" (inl false) (Some 1) = Ret ZERO.
Proof. split; [lia |]. split; vm_compute; reflexivity. Qed.

(** C10: a text without a valid digit and without a hyphen is accepted:
    [parseInt] gives NaN, [fromNumber] maps NaN to zero, and the call
    returns zero, with the accelerator or without. *)
Theorem fromString_no_digit_is_zero :
  JS.parseInt "@@@" 10 = NaN
  /\ fromNumber 1 NaN false = Ret ZERO
  /\ fromString false 9 "@@@" (inl false) (Some 10) = Ret ZERO
  /\ fromString true 9 "@@@" (inl false) (Some 10) = Ret ZERO.
Proof. repeat split; vm_compute; reflexivity. Qed.

(** ** Rounding to binary64 *)

Local Open Scope Q_scope.

Lemma pow2_pos e : 0 < Num.pow2 e.
Proof. apply Qpower_0_lt. reflexivity. Qed.

Lemma pow2_add a b : Num.pow2 (a + b) == Num.pow2 a * Num.pow2 b.
Proof. apply Qpower_plus. discriminate. Qed.

Lemma pow2_succ e : Num.pow2 (e + 1) == 2 * Num.pow2 e.
Proof. rewrite pow2_add. change (Num.pow2 1) with 2. ring. Qed.

Lemma pow2_le a b : (a <= b)%Z -> Num.pow2 a <= Num.pow2 b.
Proof. intros H. apply Qpower_le_compat_l; [exact H | discriminate]. Qed.

Lemma pow2_lt a b : (a < b)%Z -> Num.pow2 a < Num.pow2 b.
Proof. intros H. apply Qpower_lt_compat_l; [exact H | reflexivity]. Qed.

Lemma pow2_lt_inv a b : Num.pow2 a < Num.pow2 b -> (a < b)%Z.
Proof. intros H. apply Qpower_lt_compat_l_inv with 2; [exact H | reflexivity]. Qed.

Lemma pow2_Z e : (0 <= e)%Z -> Num.pow2 e == inject_Z (2 ^ e).
Proof. intros H. symmetry. apply (Zpower_Qpower 2 e H). Qed.

Lemma pow2_opp e : Num.pow2 (- e) == / Num.pow2 e.
Proof. apply Qpower_opp. Qed.

Lemma pow2_sub a b : Num.pow2 (a - b) == Num.pow2 a / Num.pow2 b.
Proof.
  unfold Z.sub. rewrite pow2_add, pow2_opp. reflexivity.
Qed.

Lemma div_pow2 q e : q / Num.pow2 e == q * Num.pow2 (- e).
Proof. rewrite pow2_opp. reflexivity. Qed.

Lemma pow2_mul_cancel e : Num.pow2 (- e) * Num.pow2 e == 1.
Proof. rewrite <- pow2_add. replace (- e + e)%Z with 0%Z by lia. reflexivity. Qed.

(** The binade of a positive rational. *)
Lemma binade_spec q :
  0 < q -> Num.pow2 (Num.binade q) <= q /\ q < Num.pow2 (Num.binade q + 1).
Proof.
  intros Hq. destruct q as [n d]. unfold Num.binade. cbn [Qnum Qden].
  assert (0 < n)%Z as Hn by (unfold Qlt in Hq; simpl in Hq; lia).
  pose proof (Z.log2_spec n Hn) as [Hn1 Hn2].
  pose proof (Z.log2_spec (Zpos d) (Pos2Z.is_pos d)) as [Hd1 Hd2].
  pose proof (Z.log2_nonneg n) as Hln. pose proof (Z.log2_nonneg (Zpos d)) as Hld.
  set (ln := Z.log2 n) in *. set (ld := Z.log2 (Zpos d)) in *.
  assert (Num.pow2 ln <= inject_Z n) as A1
    by (rewrite pow2_Z by lia; rewrite <- Zle_Qle; exact Hn1).
  assert (inject_Z n < Num.pow2 (ln + 1)) as A2.
  { rewrite pow2_Z by lia. rewrite <- Zlt_Qlt.
    replace (ln + 1)%Z with (Z.succ ln) by lia. exact Hn2. }
  assert (Num.pow2 ld <= inject_Z (Zpos d)) as B1
    by (rewrite pow2_Z by lia; rewrite <- Zle_Qle; exact Hd1).
  assert (inject_Z (Zpos d) < Num.pow2 (ld + 1)) as B2.
  { rewrite pow2_Z by lia. rewrite <- Zlt_Qlt.
    replace (ld + 1)%Z with (Z.succ ld) by lia. exact Hd2. }
  assert (0 < inject_Z (Zpos d)) as Dpos by reflexivity.
  assert (n # d == inject_Z n / inject_Z (Zpos d)) as E by apply Qmake_Qdiv.
  pose proof (pow2_pos ld) as Pld. pose proof (pow2_pos (ln - ld)) as Pk.
  assert (n # d < Num.pow2 (ln - ld + 1)) as U.
  { rewrite E. apply Qlt_shift_div_r; [exact Dpos |].
    apply Qlt_le_trans with (Num.pow2 (ln + 1)); [exact A2 |].
    replace (ln + 1)%Z with ((ln - ld + 1) + ld)%Z by lia.
    rewrite pow2_add. apply Qmult_le_l; [apply pow2_pos | exact B1]. }
  assert (Num.pow2 (ln - ld - 1) <= n # d) as L.
  { rewrite E. apply Qle_shift_div_l; [exact Dpos |].
    apply Qle_trans with (Num.pow2 ln); [| exact A1].
    replace ln with ((ln - ld - 1) + (ld + 1))%Z at 2 by lia.
    rewrite pow2_add. apply Qmult_le_l; [apply pow2_pos |].
    apply Qlt_le_weak. exact B2. }
  destruct (Qle_bool (Num.pow2 (ln - ld)) (n # d)) eqn:C.
  - apply Qle_bool_iff in C. split; assumption.
  - split; [exact L |].
    replace (ln - ld - 1 + 1)%Z with (ln - ld)%Z by lia.
    apply Qnot_le_lt. intros H. apply Qle_bool_iff in H. congruence.
Qed.

Lemma binade_unique q k :
  Num.pow2 k <= q -> q < Num.pow2 (k + 1) -> Num.binade q = k.
Proof.
  intros H1 H2.
  assert (0 < q) as Hq by (eapply Qlt_le_trans; [apply (pow2_pos k) | exact H1]).
  destruct (binade_spec q Hq) as [B1 B2].
  assert (Num.pow2 k < Num.pow2 (Num.binade q + 1)) as C1
    by (eapply Qle_lt_trans; eassumption).
  assert (Num.pow2 (Num.binade q) < Num.pow2 (k + 1)) as C2
    by (eapply Qle_lt_trans; eassumption).
  apply pow2_lt_inv in C1. apply pow2_lt_inv in C2. lia.
Qed.

Lemma binade_mono q1 q2 :
  0 < q1 -> q1 <= q2 -> (Num.binade q1 <= Num.binade q2)%Z.
Proof.
  intros H1 H12.
  assert (0 < q2) as H2 by (eapply Qlt_le_trans; eassumption).
  destruct (binade_spec q1 H1) as [A1 A2]. destruct (binade_spec q2 H2) as [B1 B2].
  assert (Num.pow2 (Num.binade q1) < Num.pow2 (Num.binade q2 + 1)) as C.
  { eapply Qle_lt_trans; [exact A1 |]. eapply Qle_lt_trans; eassumption. }
  apply pow2_lt_inv in C. lia.
Qed.

Lemma binade_compat q1 q2 : 0 < q1 -> q1 == q2 -> Num.binade q1 = Num.binade q2.
Proof.
  intros H1 E. destruct (binade_spec q1 H1) as [A1 A2].
  symmetry. apply binade_unique; rewrite <- E; assumption.
Qed.

(** Rounding to the nearest integer. *)
Lemma rne_floor t : (Qfloor t <= Num.rne t <= Qfloor t + 1)%Z.
Proof.
  unfold Num.rne.
  destruct (t - inject_Z (Qfloor t) ?= 1 # 2); [destruct (Z.even (Qfloor t)) | |]; lia.
Qed.

Lemma rne_half t : Qabs (inject_Z (Num.rne t) - t) <= 1 # 2.
Proof.
  pose proof (Qfloor_le t) as F1. pose proof (Qlt_floor t) as F2.
  rewrite inject_Z_plus in F2. change (inject_Z 1) with 1 in F2.
  apply Qabs_Qle_condition. unfold Num.rne.
  destruct (Qcompare_spec (t - inject_Z (Qfloor t)) (1 # 2)) as [E | E | E].
  - destruct (Z.even (Qfloor t)); rewrite ?inject_Z_plus;
      change (inject_Z 1) with 1; split; lra.
  - split; lra.
  - rewrite inject_Z_plus. change (inject_Z 1) with 1. split; lra.
Qed.

Lemma rne_Z z : Num.rne (inject_Z z) = z.
Proof.
  unfold Num.rne. rewrite Qfloor_Z.
  destruct (Qcompare_spec (inject_Z z - inject_Z z) (1 # 2)) as [E | E | E].
  - exfalso. lra.
  - reflexivity.
  - exfalso. lra.
Qed.

Lemma rne_compat t1 t2 : t1 == t2 -> Num.rne t1 = Num.rne t2.
Proof.
  intros E. unfold Num.rne.
  assert (Qfloor t1 = Qfloor t2) as F.
  { apply Z.le_antisymm; apply Qfloor_resp_le; rewrite E; apply Qle_refl. }
  rewrite F.
  assert ((t1 - inject_Z (Qfloor t2) ?= 1 # 2) = (t2 - inject_Z (Qfloor t2) ?= 1 # 2)) as C
    by (rewrite E; reflexivity).
  rewrite C. reflexivity.
Qed.

Lemma rne_mono t1 t2 : t1 <= t2 -> (Num.rne t1 <= Num.rne t2)%Z.
Proof.
  intros H. pose proof (Qfloor_resp_le _ _ H) as F.
  pose proof (rne_floor t1) as R1. pose proof (rne_floor t2) as R2.
  destruct (Z.eq_dec (Qfloor t1) (Qfloor t2)) as [E | NE]; [| lia].
  unfold Num.rne in *. rewrite E in *.
  destruct (Qcompare_spec (t1 - inject_Z (Qfloor t2)) (1 # 2)) as [E1 | E1 | E1];
    destruct (Qcompare_spec (t2 - inject_Z (Qfloor t2)) (1 # 2)) as [E2 | E2 | E2];
    try lia; try (exfalso; lra).
Qed.

(** An integer at or above [t] bounds the rounding of [t]. *)
Lemma rne_le_Z t z : t <= inject_Z z -> (Num.rne t <= z)%Z.
Proof. intros H. rewrite <- (rne_Z z). apply rne_mono, H. Qed.

Lemma rne_ge_Z t z : inject_Z z <= t -> (z <= Num.rne t)%Z.
Proof. intros H. rewrite <- (rne_Z z). apply rne_mono, H. Qed.

Lemma fl_pos_rnd q :
  Num.fl_pos q =
  if Qle_bool (Num.pow2 1024) (rnd q) then Inf false else Fin (Qred (rnd q)).
Proof. reflexivity. Qed.

Lemma expo_compat q1 q2 : 0 < q1 -> q1 == q2 -> expo q1 = expo q2.
Proof. intros H E. unfold expo. rewrite (binade_compat q1 q2 H E). reflexivity. Qed.

Lemma rnd_compat q1 q2 : 0 < q1 -> q1 == q2 -> rnd q1 == rnd q2.
Proof.
  intros H E. unfold rnd. rewrite (expo_compat q1 q2 H E).
  rewrite (rne_compat (q1 / Num.pow2 (expo q2)) (q2 / Num.pow2 (expo q2)));
    [reflexivity | rewrite E; reflexivity].
Qed.

Lemma scaled_nonneg q e : 0 < q -> 0 < q / Num.pow2 e.
Proof.
  intros H. apply Qlt_shift_div_l; [apply pow2_pos | lra].
Qed.

Lemma rnd_nonneg q : 0 < q -> 0 <= rnd q.
Proof.
  intros H. unfold rnd. apply Qmult_le_0_compat.
  - change 0 with (inject_Z 0). rewrite <- Zle_Qle.
    apply rne_ge_Z. apply Qlt_le_weak, scaled_nonneg, H.
  - apply Qlt_le_weak, pow2_pos.
Qed.

Lemma rnd_err q : 0 < q -> Qabs (rnd q - q) <= Num.pow2 (expo q) * (1 # 2).
Proof.
  intros H. unfold rnd. set (e := expo q). pose proof (pow2_pos e) as P.
  pose proof (rne_half (q / Num.pow2 e)) as R.
  apply Qabs_Qle_condition in R. apply Qabs_Qle_condition.
  assert (q == q / Num.pow2 e * Num.pow2 e) as E by (field; lra).
  set (t := q / Num.pow2 e) in *. set (m := inject_Z (Num.rne t)) in *.
  destruct R as [R1 R2].
  split.
  - assert ((m - t) * Num.pow2 e >= - (1 # 2) * Num.pow2 e) as X
      by (apply Qmult_le_compat_r; lra).
    lra.
  - assert ((m - t) * Num.pow2 e <= (1 # 2) * Num.pow2 e) as X
      by (apply Qmult_le_compat_r; lra).
    lra.
Qed.

(** In the normal range the rounding stays inside the closed binade. *)
Lemma rnd_lower q :
  0 < q -> (- 1074 <= Num.binade q - 52)%Z -> Num.pow2 (Num.binade q) <= rnd q.
Proof.
  intros H N. destruct (binade_spec q H) as [B1 _].
  unfold rnd, expo. rewrite Z.max_l by lia.
  set (k := Num.binade q) in *.
  assert (inject_Z (2 ^ 52) <= q / Num.pow2 (k - 52)) as T.
  { apply Qle_shift_div_l; [apply pow2_pos |].
    rewrite <- (pow2_Z 52) by lia. rewrite <- pow2_add.
    replace (52 + (k - 52))%Z with k by lia. exact B1. }
  apply rne_ge_Z in T.
  rewrite Zle_Qle in T.
  apply Qle_trans with (inject_Z (2 ^ 52) * Num.pow2 (k - 52)).
  - rewrite <- (pow2_Z 52) by lia. rewrite <- pow2_add.
    replace (52 + (k - 52))%Z with k by lia. apply Qle_refl.
  - apply Qmult_le_compat_r; [exact T | apply Qlt_le_weak, pow2_pos].
Qed.

Lemma rnd_upper q :
  0 < q -> rnd q <= Num.pow2 (Z.max (Num.binade q + 1) (expo q)).
Proof.
  intros H. destruct (binade_spec q H) as [_ B2].
  unfold rnd. set (e := expo q). set (k := Num.binade q) in *.
  pose proof (pow2_pos e) as P.
  destruct (Z.le_gt_cases e (k + 1)) as [C | C].
  - rewrite Z.max_l by lia.
    assert (q / Num.pow2 e <= inject_Z (2 ^ (k + 1 - e))) as T.
    { apply Qle_shift_div_r; [exact P |].
      rewrite <- pow2_Z by lia. rewrite <- pow2_add.
      replace (k + 1 - e + e)%Z with (k + 1)%Z by lia.
      apply Qlt_le_weak, B2. }
    apply rne_le_Z in T. rewrite Zle_Qle in T.
    apply Qle_trans with (inject_Z (2 ^ (k + 1 - e)) * Num.pow2 e).
    + apply Qmult_le_compat_r; [exact T | lra].
    + rewrite <- pow2_Z by lia. rewrite <- pow2_add.
      replace (k + 1 - e + e)%Z with (k + 1)%Z by lia. apply Qle_refl.
  - rewrite Z.max_r by lia.
    assert (q / Num.pow2 e <= inject_Z 1) as T.
    { apply Qle_shift_div_r; [exact P |]. change (inject_Z 1) with 1.
      apply Qlt_le_weak. eapply Qlt_le_trans; [exact B2 |].
      rewrite Qmult_1_l. apply pow2_le. lia. }
    apply rne_le_Z in T. rewrite Zle_Qle in T.
    apply Qle_trans with (inject_Z 1 * Num.pow2 e).
    + apply Qmult_le_compat_r; [exact T | lra].
    + change (inject_Z 1) with 1. lra.
Qed.

(** Rounding is monotone. *)
Lemma rnd_mono q1 q2 : 0 < q1 -> q1 <= q2 -> rnd q1 <= rnd q2.
Proof.
  intros H1 H12.
  assert (0 < q2) as H2 by (eapply Qlt_le_trans; eassumption).
  pose proof (binade_mono q1 q2 H1 H12) as K.
  destruct (Z.eq_dec (expo q1) (expo q2)) as [E | NE].
  - unfold rnd. rewrite E.
    apply Qmult_le_compat_r; [| apply Qlt_le_weak, pow2_pos].
    rewrite <- Zle_Qle. apply rne_mono.
    apply Qmult_le_compat_r; [exact H12 |].
    apply Qlt_le_weak, Qinv_lt_0_compat, pow2_pos.
  - assert (expo q1 < expo q2)%Z as L by (unfold expo in *; lia).
    assert (expo q2 = Num.binade q2 - 52)%Z as E2 by (unfold expo in *; lia).
    assert (Num.binade q1 < Num.binade q2)%Z as KL by (unfold expo in *; lia).
    apply Qle_trans with (Num.pow2 (Num.binade q2)).
    + eapply Qle_trans; [apply rnd_upper, H1 |].
      apply pow2_le. unfold expo in *. lia.
    + apply rnd_lower; [exact H2 | unfold expo in *; lia].
Qed.

(** A rational on the grid is its own rounding. *)
Lemma rnd_exact m e :
  (0 < m < 2 ^ 53)%Z -> (- 1074 <= e)%Z ->
  rnd (inject_Z m * Num.pow2 e) == inject_Z m * Num.pow2 e.
Proof.
  intros Hm He. set (q := inject_Z m * Num.pow2 e).
  pose proof (pow2_pos e) as P.
  assert (0 < q) as Hq.
  { unfold q. apply Qmult_lt_0_compat; [| exact P].
    change 0 with (inject_Z 0). rewrite <- Zlt_Qlt. lia. }
  destruct (binade_spec q Hq) as [B1 _].
  assert (q < Num.pow2 (53 + e)) as U.
  { unfold q. rewrite pow2_add. apply Qmult_lt_compat_r; [exact P |].
    rewrite pow2_Z by lia. rewrite <- Zlt_Qlt. lia. }
  assert (Num.binade q < 53 + e)%Z as K.
  { apply pow2_lt_inv. eapply Qle_lt_trans; eassumption. }
  assert (expo q <= e)%Z as EE by (unfold expo; lia).
  unfold rnd. set (e' := expo q) in *.
  assert (q / Num.pow2 e' == inject_Z (m * 2 ^ (e - e'))) as T.
  { unfold q. rewrite inject_Z_mult, <- pow2_Z by lia.
    rewrite pow2_sub. field. pose proof (pow2_pos e'). lra. }
  rewrite (rne_compat _ _ T), rne_Z.
  rewrite inject_Z_mult, <- pow2_Z by lia. rewrite pow2_sub.
  unfold q. field. pose proof (pow2_pos e'). lra.
Qed.

Lemma rnd_exact_Z z : (0 < z < 2 ^ 53)%Z -> rnd (inject_Z z) == inject_Z z.
Proof.
  intros H. pose proof (rnd_exact z 0 H ltac:(lia)) as E.
  change (Num.pow2 0) with 1 in E.
  rewrite <- (rnd_compat (inject_Z z * 1) (inject_Z z)) ; [| | ring].
  - rewrite E. ring.
  - rewrite Qmult_1_r. change 0 with (inject_Z 0). rewrite <- Zlt_Qlt. lia.
Qed.

Lemma rnd_pow2 k : (- 1074 <= k)%Z -> rnd (Num.pow2 k) == Num.pow2 k.
Proof.
  intros H. pose proof (rnd_exact 1 k ltac:(lia) H) as E.
  change (inject_Z 1) with 1 in E.
  rewrite <- (rnd_compat (1 * Num.pow2 k) (Num.pow2 k)); [| | ring].
  - rewrite E. ring.
  - rewrite Qmult_1_l. apply pow2_pos.
Qed.

(** The rounding lies on the grid of its argument. *)
Lemma rnd_grid q :
  0 < q -> rnd q == inject_Z (Num.rne (q / Num.pow2 (expo q))) * Num.pow2 (expo q)
           /\ (0 <= Num.rne (q / Num.pow2 (expo q)) <= 2 ^ 53)%Z.
Proof.
  intros H. split; [reflexivity |]. split.
  - apply rne_ge_Z. apply Qlt_le_weak, scaled_nonneg, H.
  - apply rne_le_Z. destruct (binade_spec q H) as [_ B2].
    apply Qle_shift_div_r; [apply pow2_pos |].
    rewrite <- pow2_Z by lia. rewrite <- pow2_add.
    apply Qlt_le_weak. eapply Qlt_le_trans; [exact B2 |].
    apply pow2_le. unfold expo. lia.
Qed.

(** ** Numbers *)

Lemma of_Z_0 : Num.of_Z 0 = Fin 0.
Proof. reflexivity. Qed.

Lemma of_Z_1 : Num.of_Z 1 = Fin 1.
Proof. vm_compute. reflexivity. Qed.

Lemma TWO_PWR_32_DBL_eq : TWO_PWR_32_DBL = Fin (inject_Z (2 ^ 32)).
Proof. vm_compute. reflexivity. Qed.

Lemma TWO_PWR_63_DBL_eq : TWO_PWR_63_DBL = Fin (inject_Z (2 ^ 63)).
Proof. vm_compute. reflexivity. Qed.

Lemma TWO_PWR_64_DBL_eq : TWO_PWR_64_DBL = Fin (inject_Z (2 ^ 64)).
Proof. vm_compute. reflexivity. Qed.

Lemma lt_Fin a b : Num.lt (Fin a) (Fin b) = true <-> a < b.
Proof.
  unfold Num.lt. rewrite Qlt_alt. destruct (a ?= b); split; congruence.
Qed.

Lemma lt_Fin_false a b : Num.lt (Fin a) (Fin b) = false <-> b <= a.
Proof.
  rewrite <- not_true_iff_false, lt_Fin. split.
  - apply Qnot_lt_le.
  - intros H1 H2. apply (Qlt_irrefl a). eapply Qlt_le_trans; eassumption.
Qed.

Lemma le_Fin a b : Num.le (Fin a) (Fin b) = true <-> a <= b.
Proof. apply Qle_bool_iff. Qed.

Lemma le_Fin_false a b : Num.le (Fin a) (Fin b) = false <-> b < a.
Proof.
  rewrite <- not_true_iff_false, le_Fin. split.
  - apply Qnot_le_lt.
  - intros H1 H2. apply (Qlt_irrefl a). eapply Qle_lt_trans; eassumption.
Qed.

(** [fl] on a positive rational below the overflow threshold. *)
Lemma fl_pos_Fin q :
  0 < q -> rnd q < Num.pow2 1024 -> Num.fl q = Fin (Qred (rnd q)).
Proof.
  intros H B. unfold Num.fl.
  destruct (Qcompare_spec q 0) as [E | E | E]; try (exfalso; lra).
  rewrite fl_pos_rnd.
  destruct (Qle_bool (Num.pow2 1024) (rnd q)) eqn:C; [| reflexivity].
  apply Qle_bool_iff in C. exfalso. lra.
Qed.

Lemma fl_neg_Fin q :
  q < 0 -> rnd (- q) < Num.pow2 1024 ->
  Num.fl q = Fin (Qred (- Qred (rnd (- q)))).
Proof.
  intros H B. unfold Num.fl.
  destruct (Qcompare_spec q 0) as [E | E | E]; try (exfalso; lra).
  rewrite fl_pos_rnd.
  destruct (Qle_bool (Num.pow2 1024) (rnd (- q))) eqn:C; [| reflexivity].
  apply Qle_bool_iff in C. exfalso. lra.
Qed.

Lemma fl_zero q : q == 0 -> Num.fl q = Fin 0.
Proof.
  intros H. unfold Num.fl.
  destruct (Qcompare_spec q 0) as [E | E | E]; [reflexivity | |]; exfalso; lra.
Qed.

Lemma pow2_1024_big k : (k <= 1024)%Z -> Num.pow2 k <= Num.pow2 1024.
Proof. apply pow2_le. Qed.

(** Below 2^1023 nothing overflows. *)
Lemma rnd_no_overflow q : 0 < q -> q < Num.pow2 1023 -> rnd q < Num.pow2 1024.
Proof.
  intros H B. destruct (binade_spec q H) as [B1 _].
  assert (Num.binade q < 1023)%Z as K
    by (apply pow2_lt_inv; eapply Qle_lt_trans; eassumption).
  eapply Qle_lt_trans; [apply rnd_upper, H |].
  apply pow2_lt. unfold expo. lia.
Qed.

(** [fl] of a positive rational: the value, when there is no overflow. *)
Lemma fl_pos_value q :
  0 < q -> q < Num.pow2 1023 -> exists r, Num.fl q = Fin r /\ r == rnd q.
Proof.
  intros H B. exists (Qred (rnd q)). split.
  - apply fl_pos_Fin; [exact H | apply rnd_no_overflow; assumption].
  - apply Qred_correct.
Qed.

(** An integer below 2^53 is a binary64 number. *)
Lemma of_Z_exact z : (0 <= z < 2 ^ 53)%Z -> exists r, Num.of_Z z = Fin r /\ r == inject_Z z.
Proof.
  intros H. unfold Num.of_Z.
  destruct (Z.eq_dec z 0) as [-> | NZ].
  - exists 0. split; reflexivity.
  - assert (0 < inject_Z z) as P
      by (change 0 with (inject_Z 0); rewrite <- Zlt_Qlt; lia).
    destruct (fl_pos_value (inject_Z z) P) as [r [E1 E2]].
    + eapply Qlt_le_trans with (Num.pow2 53); [| apply pow2_le; lia].
      rewrite pow2_Z by lia. rewrite <- Zlt_Qlt. lia.
    + exists r. split; [exact E1 |]. rewrite E2. apply rnd_exact_Z. lia.
Qed.

Lemma Qfloor_unique x n :
  inject_Z n <= x -> x < inject_Z (n + 1) -> Qfloor x = n.
Proof.
  intros H1 H2. pose proof (Qfloor_le x) as F1. pose proof (Qlt_floor x) as F2.
  assert (inject_Z (Qfloor x) < inject_Z (n + 1)) as A by lra.
  assert (inject_Z n < inject_Z (Qfloor x + 1)) as B by lra.
  rewrite <- Zlt_Qlt in A, B. lia.
Qed.

Lemma Qfloor_sub_Z q z : Qfloor (q - inject_Z z) = (Qfloor q - z)%Z.
Proof.
  pose proof (Qfloor_le q) as F1. pose proof (Qlt_floor q) as F2.
  apply Qfloor_unique.
  - unfold Z.sub. rewrite inject_Z_plus, inject_Z_opp. lra.
  - replace (Qfloor q - z + 1)%Z with ((Qfloor q + 1) - z)%Z by lia.
    unfold Z.sub at 1. rewrite inject_Z_plus, inject_Z_opp. lra.
Qed.

Lemma Qfloor_div_Z q d :
  (0 < d)%Z -> Qfloor (q / inject_Z d) = (Qfloor q / d)%Z.
Proof.
  intros Hd. pose proof (Qfloor_le q) as F1. pose proof (Qlt_floor q) as F2.
  assert (0 < inject_Z d) as Dp
    by (change 0 with (inject_Z 0); rewrite <- Zlt_Qlt; exact Hd).
  pose proof (Z.div_mod (Qfloor q) d ltac:(lia)) as DM.
  pose proof (Z.mod_pos_bound (Qfloor q) d Hd) as MB.
  set (n := (Qfloor q / d)%Z) in *.
  assert (inject_Z (d * n) <= inject_Z (Qfloor q)) as A
    by (rewrite <- Zle_Qle; lia).
  assert (inject_Z (Qfloor q + 1) <= inject_Z (d * (n + 1))) as B
    by (rewrite <- Zle_Qle; lia).
  rewrite inject_Z_mult in A, B.
  apply Qfloor_unique.
  - apply Qle_shift_div_l; [exact Dp |]. lra.
  - apply Qlt_shift_div_r; [exact Dp |]. lra.
Qed.

Lemma trunc_nonneg q : 0 <= q -> Num.trunc q = Qfloor q.
Proof.
  destruct q as [n d]. unfold Qle, Num.trunc, Qfloor; simpl. intros H.
  apply Z.quot_div_nonneg; lia.
Qed.

Lemma trunc_nonpos q : q <= 0 -> Num.trunc q = (- Qfloor (- q))%Z.
Proof.
  destruct q as [n d]. unfold Qle, Num.trunc, Qfloor, Qopp; simpl. intros H.
  rewrite <- (Z.opp_involutive n) at 1. rewrite Z.quot_opp_l by lia.
  rewrite Z.quot_div_nonneg by lia. reflexivity.
Qed.

(** A binary64 number, by sign. *)
Lemma is_double_Fin q :
  Num.is_double (Fin q) = true ->
  q == 0 \/ (0 < q /\ q == rnd q) \/ (q < 0 /\ - q == rnd (- q)).
Proof.
  unfold Num.is_double, Num.fl.
  destruct (Qcompare_spec q 0) as [E | E | E].
  - intros _. left. exact E.
  - intros H. right. right. split; [exact E |].
    rewrite fl_pos_rnd in H.
    destruct (Qle_bool (Num.pow2 1024) (rnd (- q))); [discriminate |].
    cbn [Num.neg] in H. apply Qeq_bool_iff in H.
    rewrite !Qred_correct in H. lra.
  - intros H. right. left. split; [exact E |].
    rewrite fl_pos_rnd in H.
    destruct (Qle_bool (Num.pow2 1024) (rnd q)); [discriminate |].
    apply Qeq_bool_iff in H. rewrite Qred_correct in H. exact H.
Qed.

(** Between 2^62 and 2^63 the binary64 numbers are 1024 apart. *)
Lemma double_lt_2_63 q :
  0 < q -> q == rnd q -> q < inject_Z (2 ^ 63) -> q <= inject_Z (2 ^ 63 - 1024).
Proof.
  intros Hq E B.
  destruct (Qlt_le_dec q (inject_Z (2 ^ 62))) as [S | L].
  - apply Qlt_le_weak. eapply Qlt_le_trans; [exact S |].
    rewrite <- Zle_Qle. lia.
  - assert (Num.binade q = 62%Z) as K.
    { apply binade_unique; rewrite pow2_Z by lia; assumption. }
    destruct (rnd_grid q Hq) as [G [M1 M2]].
    unfold expo in G, M1, M2. rewrite K in G, M1, M2.
    change (Z.max (62 - 52) (- 1074)) with 10%Z in *.
    set (m := Num.rne (q / Num.pow2 10)) in *.
    rewrite G in E. rewrite (pow2_Z 10) in E by lia.
    rewrite <- inject_Z_mult in E.
    rewrite E in B |- *. rewrite <- Zlt_Qlt in B. rewrite <- Zle_Qle. lia.
Qed.

Lemma rnd_2_63_m1023 :
  rnd (inject_Z (2 ^ 63 - 1023)) == inject_Z (2 ^ 63 - 1024).
Proof. vm_compute. reflexivity. Qed.

Lemma add_Fin a b : Num.add (Fin a) (Fin b) = Num.fl (a + b).
Proof. reflexivity. Qed.

(** [value + 1 >= TWO_PWR_63_DBL] fails on the binary64 numbers below
    2^63 and holds from 2^63 on. *)
Lemma add1_below q :
  q <= inject_Z (2 ^ 63 - 1024) ->
  Num.ge (Num.add (Fin q) (Num.of_Z 1)) TWO_PWR_63_DBL = false.
Proof.
  intros B. rewrite of_Z_1, add_Fin, TWO_PWR_63_DBL_eq. unfold Num.ge.
  assert (q + 1 <= inject_Z (2 ^ 63 - 1023)) as B'.
  { replace (2 ^ 63 - 1023)%Z with ((2 ^ 63 - 1024) + 1)%Z by lia.
    rewrite inject_Z_plus. change (inject_Z 1) with 1. lra. }
  unfold Num.fl. destruct (Qcompare_spec (q + 1) 0) as [E | E | E].
  - reflexivity.
  - rewrite fl_pos_rnd.
    destruct (Qle_bool (Num.pow2 1024) (rnd (- (q + 1)))); [reflexivity |].
    cbn [Num.neg]. apply le_Fin_false. rewrite !Qred_correct.
    pose proof (rnd_nonneg (- (q + 1)) ltac:(lra)).
    assert (0 < inject_Z (2 ^ 63)) by reflexivity. lra.
  - pose proof (rnd_mono _ _ E B') as M. rewrite rnd_2_63_m1023 in M.
    rewrite fl_pos_rnd.
    assert (inject_Z (2 ^ 63 - 1024) < inject_Z (2 ^ 63)) as C by reflexivity.
    assert (inject_Z (2 ^ 63) < Num.pow2 1024) as D by reflexivity.
    destruct (Qle_bool (Num.pow2 1024) (rnd (q + 1))) eqn:O.
    + apply Qle_bool_iff in O. exfalso. lra.
    + apply le_Fin_false. rewrite Qred_correct. lra.
Qed.

Lemma add1_above q :
  inject_Z (2 ^ 63) <= q ->
  Num.ge (Num.add (Fin q) (Num.of_Z 1)) TWO_PWR_63_DBL = true.
Proof.
  intros B. rewrite of_Z_1, add_Fin, TWO_PWR_63_DBL_eq. unfold Num.ge.
  assert (0 < inject_Z (2 ^ 63)) as P by reflexivity.
  unfold Num.fl. destruct (Qcompare_spec (q + 1) 0) as [E | E | E];
    try (exfalso; lra).
  rewrite fl_pos_rnd.
  destruct (Qle_bool (Num.pow2 1024) (rnd (q + 1))); [reflexivity |].
  apply le_Fin. rewrite Qred_correct.
  assert (inject_Z (2 ^ 63) <= q + 1) as B' by lra.
  pose proof (rnd_mono _ _ P B') as M.
  assert (rnd (inject_Z (2 ^ 63)) == inject_Z (2 ^ 63)) as X
    by (vm_compute; reflexivity).
  rewrite X in M. exact M.
Qed.

(** The quotient by 2^32 of a binary64 number below 2^64 keeps its
    integer part under rounding. *)
Lemma fl_div32_floor q :
  0 < q -> q == rnd q -> q < inject_Z (2 ^ 64) ->
  exists r, Num.fl (q / inject_Z (2 ^ 32)) = Fin r
            /\ 0 <= r /\ Qfloor r = Qfloor (q / inject_Z (2 ^ 32)).
Proof.
  intros Hq E B. set (t := q / inject_Z (2 ^ 32)).
  assert (0 < inject_Z (2 ^ 32)) as P32 by reflexivity.
  assert (0 < t) as Ht by (apply Qlt_shift_div_l; lra).
  assert (t < inject_Z (2 ^ 32)) as Bt.
  { apply Qlt_shift_div_r; [exact P32 |].
    rewrite <- inject_Z_mult. exact B. }
  assert (t == q * Num.pow2 (- 32)) as Et.
  { unfold t. rewrite <- (pow2_Z 32) by lia. apply div_pow2. }
  destruct (fl_pos_value t Ht) as [r [F1 F2]].
  { eapply Qlt_le_trans; [exact Bt |]. rewrite <- (pow2_Z 32) by lia.
    apply pow2_le. lia. }
  exists r. split; [exact F1 |]. split; [rewrite F2; apply rnd_nonneg, Ht |].
  rewrite F2.
  destruct (rnd_grid q Hq) as [G [M1 M2]].
  set (e := expo q) in *. set (m := Num.rne (q / Num.pow2 e)) in *.
  assert (q == inject_Z m * Num.pow2 e) as Eq by (rewrite E at 1; exact G).
  assert (0 < m)%Z as Mp.
  { destruct (Z.eq_dec m 0) as [Z0 | NZ]; [| lia].
    rewrite Z0 in Eq. exfalso. change (inject_Z 0) with 0 in Eq. lra. }
  assert (t == inject_Z m * Num.pow2 (e - 32)) as Et'.
  { rewrite Et, Eq. replace (e - 32)%Z with (e + (-32))%Z by lia.
    rewrite (pow2_add e). ring. }
  destruct (Z.le_gt_cases (- 1074) (e - 32)) as [N | S].
  - assert (rnd t == t) as X.
    { destruct (Z.eq_dec m (2 ^ 53)) as [M53 | M53].
      - assert (t == Num.pow2 (e + 21)) as Et''.
        { rewrite Et', M53. rewrite <- (pow2_Z 53) by lia.
          rewrite <- pow2_add. replace (53 + (e - 32))%Z with (e + 21)%Z by lia.
          reflexivity. }
        rewrite (rnd_compat t _ Ht Et''). rewrite rnd_pow2 by lia.
        symmetry. exact Et''.
      - rewrite (rnd_compat t _ Ht Et'). rewrite rnd_exact by lia.
        symmetry. exact Et'. }
    rewrite X. reflexivity.
  - assert (t <= Num.pow2 (- 1022)) as Small.
    { rewrite Et'. apply Qle_trans with (inject_Z (2 ^ 53) * Num.pow2 (e - 32)).
      - apply Qmult_le_compat_r; [rewrite <- Zle_Qle; exact M2 |].
        apply Qlt_le_weak, pow2_pos.
      - rewrite <- (pow2_Z 53) by lia. rewrite <- pow2_add. apply pow2_le. lia. }
    destruct (binade_spec t Ht) as [B1 _].
    assert (Num.binade t < - 1021)%Z as K.
    { apply pow2_lt_inv. eapply Qle_lt_trans; [exact B1 |].
      eapply Qle_lt_trans; [exact Small |]. apply pow2_lt. lia. }
    pose proof (rnd_upper t Ht) as U. pose proof (rnd_nonneg t Ht) as L.
    assert (rnd t < 1) as U1.
    { eapply Qle_lt_trans; [exact U |]. change 1 with (Num.pow2 0).
      apply pow2_lt. unfold expo. lia. }
    assert (t < 1) as T1.
    { eapply Qle_lt_trans; [exact Small |]. change 1 with (Num.pow2 0).
      apply pow2_lt. lia. }
    rewrite (Qfloor_unique (rnd t) 0), (Qfloor_unique t 0);
      try reflexivity; change (inject_Z (0 + 1)) with 1;
      change (inject_Z 0) with 0; lra.
Qed.

Lemma neg_TWO_PWR_63_DBL : Num.neg TWO_PWR_63_DBL = Fin (inject_Z (- 2 ^ 63)).
Proof. vm_compute. reflexivity. Qed.

(** The two words of a binary64 number in [0, 2^64) are those of its
    integer part. *)
Lemma words_of_number q u :
  0 <= q -> q == 0 \/ q == rnd q -> q < inject_Z (2 ^ 64) ->
  fromBits (Num.toInt32 (Num.rem (Fin q) TWO_PWR_32_DBL))
           (Num.toInt32 (Num.div (Fin q) TWO_PWR_32_DBL)) u
  = of_bits (Qfloor q) u.
Proof.
  intros H0 D B. rewrite TWO_PWR_32_DBL_eq.
  assert (0 < inject_Z (2 ^ 32)) as P32 by reflexivity.
  assert (0 <= q / inject_Z (2 ^ 32)) as Hq32
    by (apply Qle_shift_div_l; [exact P32 | lra]).
  unfold of_bits, fromBits, new_Long. f_equal.
  - unfold Num.rem.
    change (Qeq_bool (inject_Z (2 ^ 32)) 0) with false. cbv iota.
    unfold Num.toInt32.
    rewrite (trunc_nonneg (q / inject_Z (2 ^ 32)) Hq32).
    rewrite Qfloor_div_Z by lia.
    set (F := Qfloor q).
    assert (Qred (q - inject_Z (2 ^ 32) * inject_Z (F / 2 ^ 32))
            == q - inject_Z (2 ^ 32 * (F / 2 ^ 32))) as R
      by (rewrite Qred_correct, inject_Z_mult; reflexivity).
    assert (Qfloor (Qred (q - inject_Z (2 ^ 32) * inject_Z (F / 2 ^ 32)))
            = (F - 2 ^ 32 * (F / 2 ^ 32))%Z) as FL
      by (rewrite R; apply Qfloor_sub_Z).
    pose proof (Z.div_mod F (2 ^ 32) ltac:(lia)) as DM.
    pose proof (Z.mod_pos_bound F (2 ^ 32) ltac:(lia)) as MB.
    rewrite (toInt32_id (Int32.toInt32 _)) by apply toInt32_range.
    rewrite trunc_nonneg.
    + rewrite FL. apply toInt32_eq_mod.
      replace (F - 2 ^ 32 * (F / 2 ^ 32))%Z with (F mod 2 ^ 32)%Z by lia.
      apply Z.mod_mod. lia.
    + pose proof (Qfloor_le (Qred (q - inject_Z (2 ^ 32) * inject_Z (F / 2 ^ 32)))) as FLE.
      rewrite FL in FLE.
      eapply Qle_trans; [| exact FLE].
      change 0 with (inject_Z 0). rewrite <- Zle_Qle. lia.
  - unfold Num.div.
    change (Qeq_bool (inject_Z (2 ^ 32)) 0) with false. cbv iota.
    rewrite Z.shiftr_div_pow2 by lia.
    destruct (Qle_lt_or_eq _ _ H0) as [Hp | Hz].
    + destruct D as [D | D]; [exfalso; lra |].
      destruct (fl_div32_floor q Hp D B) as [r [F1 [F2 F3]]].
      rewrite F1. unfold Num.toInt32. rewrite (trunc_nonneg r F2), F3.
      rewrite Qfloor_div_Z by lia. apply toInt32_id, toInt32_range.
    + rewrite fl_zero by (rewrite <- Hz; reflexivity).
      assert (Qfloor q = 0%Z) as Fz by (rewrite <- Hz; reflexivity).
      rewrite Fz. reflexivity.
Qed.

Lemma fromNumber_unfold fuel value unsigned :
  fromNumber (S fuel) value unsigned =
  if Num.isNaN value then Ret (if unsigned then UZERO else ZERO)
  else
    match
      (if unsigned then
         if Num.lt value (Num.of_Z 0) then Some UZERO
         else if Num.ge value TWO_PWR_64_DBL then Some MAX_UNSIGNED_VALUE
         else None
       else
         if Num.le value (Num.neg TWO_PWR_63_DBL) then Some MIN_VALUE
         else if Num.ge (Num.add value (Num.of_Z 1)) TWO_PWR_63_DBL
              then Some MAX_VALUE
              else None)
    with
    | Some clamped => Ret clamped
    | None =>
        if Num.lt value (Num.of_Z 0) then
          r <- fromNumber fuel (Num.neg value) unsigned ;;
          Ret (neg r)
        else
          Ret (fromBits (Num.toInt32 (Num.rem value TWO_PWR_32_DBL))
                        (Num.toInt32 (Num.div value TWO_PWR_32_DBL))
                        unsigned)
    end.
Proof. reflexivity. Qed.

Lemma fromNumber_nonneg fuel q (u : bool) :
  0 <= q -> q == 0 \/ q == rnd q ->
  q < inject_Z (if u then 2 ^ 64 else 2 ^ 63)%Z ->
  fromNumber (S fuel) (Fin q) u = Ret (of_bits (Qfloor q) u).
Proof.
  intros H0 D B. rewrite fromNumber_unfold. cbn [Num.isNaN].
  assert (Num.lt (Fin q) (Num.of_Z 0) = false) as L0
    by (rewrite of_Z_0; apply lt_Fin_false; exact H0).
  rewrite L0.
  destruct u.
  - assert (Num.ge (Fin q) TWO_PWR_64_DBL = false) as G
      by (rewrite TWO_PWR_64_DBL_eq; apply le_Fin_false; exact B).
    rewrite G. rewrite words_of_number; [reflexivity | assumption ..].
  - assert (Num.le (Fin q) (Num.neg TWO_PWR_63_DBL) = false) as L.
    { rewrite neg_TWO_PWR_63_DBL. apply le_Fin_false.
      eapply Qlt_le_trans; [| exact H0]. reflexivity. }
    rewrite L.
    assert (q <= inject_Z (2 ^ 63 - 1024)) as B'.
    { destruct (Qle_lt_or_eq _ _ H0) as [Hp | Hz].
      - destruct D as [D | D]; [exfalso; lra |].
        apply double_lt_2_63; assumption.
      - rewrite <- Hz. discriminate. }
    rewrite (add1_below q B').
    rewrite words_of_number; [reflexivity | assumption .. |].
    eapply Qlt_trans; [exact B | reflexivity].
Qed.

Lemma fromNumber_negative fuel q :
  q < 0 -> - q == rnd (- q) -> inject_Z (- 2 ^ 63) < q ->
  fromNumber (S (S fuel)) (Fin q) false =
  Ret (neg (of_bits (Qfloor (- q)) false)).
Proof.
  intros Hn D B. rewrite fromNumber_unfold. cbn [Num.isNaN].
  assert (Num.le (Fin q) (Num.neg TWO_PWR_63_DBL) = false) as L
    by (rewrite neg_TWO_PWR_63_DBL; apply le_Fin_false; exact B).
  rewrite L.
  assert (q <= inject_Z (2 ^ 63 - 1024)) as B'.
  { apply Qlt_le_weak. eapply Qlt_trans; [exact Hn | reflexivity]. }
  rewrite (add1_below q B').
  assert (Num.lt (Fin q) (Num.of_Z 0) = true) as L0
    by (rewrite of_Z_0; apply lt_Fin; exact Hn).
  rewrite L0. cbn [Num.neg].
  assert (Qred (- q) == - q) as R by apply Qred_correct.
  assert (0 < Qred (- q)) as P by lra.
  rewrite fromNumber_nonneg.
  - cbn [bind]. rewrite R. reflexivity.
  - lra.
  - right. rewrite (rnd_compat _ _ P R). lra.
  - rewrite R. rewrite inject_Z_opp in B. lra.
Qed.

(** ** fromNumber *)

Local Open Scope Z_scope.

Lemma signed_small x : 0 <= x < 2 ^ 63 -> Wasm.signed x = x.
Proof. intros H. unfold Wasm.signed. rewrite Z.mod_small; lia. Qed.

Lemma signed_big x : 2 ^ 63 <= x < 2 ^ 64 -> Wasm.signed x = x - 2 ^ 64.
Proof.
  intros H. unfold Wasm.signed.
  replace ((x + 2 ^ 63) mod 2 ^ 64) with (x - 2 ^ 63); [lia |].
  apply Z.mod_unique with 1; lia.
Qed.

Lemma value_of_bits F (u : bool) :
  0 <= F < (if u then 2 ^ 64 else 2 ^ 63) -> value (of_bits F u) = F.
Proof.
  intros H. unfold value. rewrite ubits_of_bits.
  change (unsigned (of_bits F u)) with u. destruct u.
  - apply Z.mod_small. lia.
  - rewrite Z.mod_small by lia. apply signed_small. lia.
Qed.

Lemma value_neg_of_bits F :
  0 <= F < 2 ^ 63 -> value (neg (of_bits F false)) = - F.
Proof.
  intros H. unfold value, neg. rewrite unsigned_negate.
  change (unsigned (of_bits F false)) with false. cbv iota.
  rewrite negate_ubits by apply wf_fromBits. rewrite ubits_of_bits.
  rewrite (Z.mod_small F) by lia.
  destruct (Z.eq_dec F 0) as [-> | NZ]; [reflexivity |].
  rewrite Z.mod_opp_l_nz by (rewrite ?Z.mod_small; lia).
  rewrite Z.mod_small by lia. rewrite signed_big; lia.
Qed.

Lemma Qfloor_bounds q (a b : Z) :
  (inject_Z a <= q)%Q -> (q < inject_Z b)%Q -> a <= Qfloor q < b.
Proof.
  intros H1 H2. pose proof (Qfloor_le q) as F1. pose proof (Qlt_floor q) as F2.
  assert (inject_Z a < inject_Z (Qfloor q + 1))%Q as A by lra.
  assert (inject_Z (Qfloor q) < inject_Z b)%Q as B by lra.
  rewrite <- Zlt_Qlt in A, B. lia.
Qed.

Lemma Qfloor_ge q (a : Z) : (inject_Z a <= q)%Q -> a <= Qfloor q.
Proof.
  intros H1. pose proof (Qlt_floor q) as F2.
  assert (inject_Z a < inject_Z (Qfloor q + 1))%Q as A by lra.
  rewrite <- Zlt_Qlt in A. lia.
Qed.

(** C5, as the code has it: on a binary64 number [fromNumber] returns
    the number truncated toward zero and clamped to the range of the
    signedness; NaN gives zero and the infinities the two bounds. *)
Theorem fromNumber_truncates (fuel : nat) (x : number) (u : bool) :
  Num.is_double x = true ->
  exists v, fromNumber (S (S fuel)) x u = Ret v /\ wf v /\ unsigned v = u /\
    value v = match x with
              | NaN => 0
              | Inf s => if s then min_of u else max_of u
              | Fin q => clamp (min_of u) (max_of u) (Num.trunc q)
              end.
Proof.
  intros D. destruct x as [| s | q].
  - exists (if u then UZERO else ZERO).
    destruct u; repeat split; try apply wf_fromBits.
  - destruct s, u;
      [exists UZERO | exists MIN_VALUE | exists MAX_UNSIGNED_VALUE | exists MAX_VALUE];
      (split; [rewrite fromNumber_unfold; vm_compute; reflexivity |]);
      repeat split; try apply wf_fromBits.
  - destruct (is_double_Fin q D) as [Z0 | [[P E] | [N E]]].
    + exists (of_bits (Qfloor q) u).
      assert (Qfloor q = 0) as F0 by (rewrite Z0; reflexivity).
      split; [| split; [apply wf_fromBits | split; [reflexivity |]]].
      * apply fromNumber_nonneg; [lra | left; exact Z0 |].
        rewrite Z0. destruct u; reflexivity.
      * rewrite trunc_nonneg, F0 by lra. destruct u; reflexivity.
    + rewrite (trunc_nonneg q) by lra.
      pose proof (Qfloor_ge q 0 ltac:(change (inject_Z 0) with 0%Q; lra)) as F0.
      destruct (Qlt_le_dec q (inject_Z (if u then 2 ^ 64 else 2 ^ 63))) as [B | B].
      * exists (of_bits (Qfloor q) u).
        split; [| split; [apply wf_fromBits | split; [reflexivity |]]].
        -- apply fromNumber_nonneg; [lra | right; exact E | exact B].
        -- pose proof (Qfloor_bounds q 0 _ ltac:(change (inject_Z 0) with 0%Q; lra) B) as FB.
           rewrite value_of_bits by exact FB.
           unfold clamp, min_of, max_of. destruct u; lia.
      * pose proof (Qfloor_ge q _ B) as FB.
        exists (if u then MAX_UNSIGNED_VALUE else MAX_VALUE).
        split; [| split; [destruct u; apply wf_fromBits
                         | split; [destruct u; reflexivity |]]].
        -- rewrite fromNumber_unfold. cbn [Num.isNaN]. destruct u.
           ++ assert (Num.lt (Fin q) (Num.of_Z 0) = false) as L0
                by (rewrite of_Z_0; apply lt_Fin_false; lra).
              assert (Num.ge (Fin q) TWO_PWR_64_DBL = true) as G
                by (rewrite TWO_PWR_64_DBL_eq; apply le_Fin; exact B).
              rewrite L0, G. reflexivity.
           ++ assert (Num.le (Fin q) (Num.neg TWO_PWR_63_DBL) = false) as L.
              { rewrite neg_TWO_PWR_63_DBL. apply le_Fin_false.
                eapply Qlt_trans; [| exact P]. reflexivity. }
              rewrite L, (add1_above q B). reflexivity.
        -- unfold clamp, min_of, max_of.
           destruct u; [change (value MAX_UNSIGNED_VALUE) with (2 ^ 64 - 1)
                       | change (value MAX_VALUE) with (2 ^ 63 - 1)]; lia.
    + rewrite (trunc_nonpos q) by lra.
      pose proof (Qfloor_ge (- q) 0 ltac:(change (inject_Z 0) with 0%Q; lra)) as F0.
      destruct u.
      * exists UZERO.
        split; [| split; [apply wf_fromBits | split; [reflexivity |]]].
        -- rewrite fromNumber_unfold. cbn [Num.isNaN].
           assert (Num.lt (Fin q) (Num.of_Z 0) = true) as L0
             by (rewrite of_Z_0; apply lt_Fin; exact N).
           rewrite L0. reflexivity.
        -- change (value UZERO) with 0. unfold clamp, min_of, max_of. lia.
      * destruct (Qlt_le_dec (inject_Z (- 2 ^ 63)) q) as [B | B].
        -- exists (neg (of_bits (Qfloor (- q)) false)).
           split; [| split; [apply wf_negate | split; [apply unsigned_negate |]]].
           ++ apply fromNumber_negative; assumption.
           ++ assert (- q < inject_Z (2 ^ 63))%Q as B'
                by (rewrite inject_Z_opp in B; lra).
              pose proof (Qfloor_bounds (- q) 0 _
                            ltac:(change (inject_Z 0) with 0%Q; lra) B') as FB.
              rewrite value_neg_of_bits by exact FB.
              unfold clamp, min_of, max_of. lia.
        -- exists MIN_VALUE.
           split; [| split; [apply wf_fromBits | split; [reflexivity |]]].
           ++ rewrite fromNumber_unfold. cbn [Num.isNaN].
              assert (Num.le (Fin q) (Num.neg TWO_PWR_63_DBL) = true) as L
                by (rewrite neg_TWO_PWR_63_DBL; apply le_Fin; exact B).
              rewrite L. reflexivity.
           ++ assert (inject_Z (2 ^ 63) <= - q)%Q as B'
                by (rewrite inject_Z_opp in B; lra).
              pose proof (Qfloor_ge (- q) _ B') as FB.
              change (value MIN_VALUE) with (- 2 ^ 63).
              unfold clamp, min_of, max_of. lia.
Qed.

Lemma fromNumber_truncates_witness :
  exists v, fromNumber 2 (Fin (7 # 2)) false = Ret v /\ value v = 3.
Proof.
  destruct (fromNumber_truncates 0 (Fin (7 # 2)) false) as [v [H1 [_ [_ H2]]]].
  - vm_compute. reflexivity.
  - exists v. split; [exact H1 | exact H2].
Defined.

(** C5, as stated, fails: 3/4 is a binary64 number, the signed integer
    nearest to it is 1, and [fromNumber] returns 0. *)
Lemma fromNumber_not_nearest :
  Num.is_double (Fin (3 # 4)) = true
  /\ fromNumber 2 (Fin (3 # 4)) false = Ret ZERO
  /\ ~ nearest_in (- 2 ^ 63) (2 ^ 63 - 1) (3 # 4) (value ZERO).
Proof.
  split; [vm_compute; reflexivity |]. split; [vm_compute; reflexivity |].
  intros [_ H]. specialize (H 1 ltac:(lia)).
  vm_compute in H. apply H. reflexivity.
Qed.

(** ** The division loop without progress *)

Local Open Scope Z_scope.

Lemma log2_of_one mlog :
  mlog (Fin 1) = Fin 0 ->
  Num.ceil (Num.div (mlog (Fin 1)) Num.LN2) = Fin 0.
Proof. intros H. rewrite H. vm_compute. reflexivity. Qed.

Lemma divide_loop_unfold w mlog fuel this divisor res rem :
  divide_loop w mlog (S fuel) this divisor res rem =
  if gte rem divisor then
    let approx :=
      Num.max (Num.of_Z 1)
        (Num.floor (Num.div (toNumber rem) (toNumber divisor))) in
    let log2 := Num.ceil (Num.div (mlog approx) Num.LN2) in
    let delta :=
      if Num.le log2 (Num.of_Z 48) then Num.of_Z 1
      else Num.pow2_num (Num.sub log2 (Num.of_Z 48)) in
    approxRes <- fromNumber fuel approx false ;;
    approxRem <- mul w fuel approxRes divisor ;;
    ' (approxRes, approxRem) <-
      divide_decrease w fuel this divisor rem delta approx approxRes approxRem ;;
    let approxRes := if isZero approxRes then ONE else approxRes in
    divide_loop w mlog fuel this divisor (add res approxRes) (sub rem approxRem)
  else Ret res.
Proof. reflexivity. Qed.

Lemma divide_decrease_unfold w fuel this divisor rem delta approx ares arem :
  divide_decrease w (S fuel) this divisor rem delta approx ares arem =
  if isNegative arem || gt arem rem then
    let approx := Num.sub approx delta in
    approxRes <- fromNumber fuel approx (unsigned this) ;;
    approxRem <- mul w fuel approxRes divisor ;;
    divide_decrease w fuel this divisor rem delta approx approxRes approxRem
  else Ret (ares, arem).
Proof. reflexivity. Qed.

(** From the remainder 1 and the unsigned divisor 2^64 - 1 an iteration
    of the loop leaves the remainder as it is: the first product is
    negative, the decreased approximation is zero, its product is zero,
    and the term forced to one is added to the result only. *)
Lemma divide_loop_stuck mlog fuel res :
  mlog (Fin 1) = Fin 0 ->
  divide_loop false mlog fuel ONE MAX_UNSIGNED_VALUE res ONE = OutOfFuel.
Proof.
  intros Hlog. revert res. induction fuel as [| fuel IH]; intros res;
    [reflexivity |].
  rewrite divide_loop_unfold.
  change (gte ONE MAX_UNSIGNED_VALUE) with true. cbv iota.
  assert (Num.max (Num.of_Z 1)
            (Num.floor (Num.div (toNumber ONE) (toNumber MAX_UNSIGNED_VALUE)))
          = Fin 1) as A by (vm_compute; reflexivity).
  rewrite A. cbv zeta. rewrite (log2_of_one mlog Hlog).
  change (Num.le (Fin 0) (Num.of_Z 48)) with true. cbv iota.
  destruct fuel as [| fuel]; [reflexivity |].
  change (fromNumber (S fuel) (Fin 1) false) with (Ret ONE). cbn [bind].
  change (mul false (S fuel) ONE MAX_UNSIGNED_VALUE)
    with (Ret (fromBits (-1) (-1) false)). cbn [bind].
  rewrite divide_decrease_unfold.
  change (isNegative (fromBits (-1) (-1) false)) with true. cbn [orb].
  cbv zeta. change (Num.sub (Fin 1) (Num.of_Z 1)) with (Fin 0).
  change (unsigned ONE) with false.
  destruct fuel as [| fuel]; [reflexivity |].
  change (fromNumber (S fuel) (Fin 0) false) with (Ret ZERO). cbn [bind].
  change (mul false (S fuel) ZERO MAX_UNSIGNED_VALUE) with (Ret ZERO).
  cbn [bind].
  destruct fuel as [| fuel]; [reflexivity |].
  rewrite divide_decrease_unfold.
  change (isNegative ZERO || gt ZERO ONE) with false. cbv iota. cbn [bind].
  change (isZero ZERO) with true. cbv iota.
  change (sub ONE ZERO) with ONE.
  assert (divide_loop false mlog (S (S (S fuel))) ONE MAX_UNSIGNED_VALUE
            (add res ONE) ONE = OutOfFuel) as X by apply IH.
  exact X.
Qed.

(** C8: without the accelerator, [ONE.div(MAX_UNSIGNED_VALUE)] reaches
    the loop and never leaves it, whatever the fuel: the remainder stays
    1 and is not decreased. *)
Theorem divide_loop_diverges (mlog : number -> number) (fuel : nat) :
  mlog (Fin 1) = Fin 0 ->
  isZero MAX_UNSIGNED_VALUE = false
  /\ divide false mlog fuel ONE MAX_UNSIGNED_VALUE = OutOfFuel.
Proof.
  intros Hlog. split; [reflexivity |].
  destruct fuel as [| fuel]; [reflexivity |].
  cbn [divide].
  change (isZero MAX_UNSIGNED_VALUE) with false.
  change (isZero ONE) with false.
  change (negb (unsigned ONE)) with true.
  change (eq ONE MIN_VALUE) with false.
  change (eq MAX_UNSIGNED_VALUE MIN_VALUE) with false.
  change (isNegative ONE) with false.
  change (isNegative MAX_UNSIGNED_VALUE) with false.
  cbv iota. apply divide_loop_stuck, Hlog.
Qed.

Lemma divide_loop_diverges_witness :
  divide false (fun _ => Fin 0) 1000 ONE MAX_UNSIGNED_VALUE = OutOfFuel.
Proof.
  apply (divide_loop_diverges (fun _ => Fin 0) 1000). reflexivity.
Defined.

(** ** Printing and parsing *)

(** ** Comparison *)

Local Open Scope Z_scope.

Lemma uint32_of_int32 h :
  Int32.is_int32 h ->
  Int32.toUint32 h = if h <? 0 then h + 2 ^ 32 else h.
Proof.
  unfold Int32.is_int32, Int32.toUint32. intros H.
  destruct (Z.ltb_spec h 0).
  - symmetry. apply Z.mod_unique with (-1); lia.
  - apply Z.mod_small. lia.
Qed.

Lemma high_neg_ubits a : wf a -> (high a <? 0) = (2 ^ 63 <=? ubits a).
Proof.
  intros [Hl Hh]. unfold ubits. rewrite (uint32_of_int32 _ Hh).
  pose proof (toUint32_range (low a)). unfold Int32.is_int32 in Hh.
  destruct (Z.ltb_spec (high a) 0); symmetry;
    [apply Z.leb_le | apply Z.leb_gt]; lia.
Qed.

Lemma top_bit_ubits a :
  wf a -> (Int32.shru (high a) 31 =? 1) = (2 ^ 63 <=? ubits a).
Proof.
  intros Hw. rewrite <- (high_neg_ubits a Hw). destruct Hw as [_ Hh].
  unfold Int32.shru. change (Z.land 31 31) with 31.
  rewrite Z.shiftr_div_pow2 by lia. rewrite (uint32_of_int32 _ Hh).
  unfold Int32.is_int32 in Hh.
  destruct (Z.ltb_spec (high a) 0).
  - replace ((high a + 2 ^ 32) / 2 ^ 31) with 1; [reflexivity |].
    apply Z.div_unique with (high a + 2 ^ 31); lia.
  - rewrite Z.div_small by lia. reflexivity.
Qed.

Lemma isNegative_ubits a :
  wf a -> isNegative a = negb (unsigned a) && (2 ^ 63 <=? ubits a).
Proof. intros Hw. unfold isNegative. rewrite (high_neg_ubits a Hw). reflexivity. Qed.

Lemma words_eq_ubits a b :
  wf a -> wf b ->
  (high a =? high b) && (low a =? low b) = (ubits a =? ubits b).
Proof.
  intros [Hal Hah] [Hbl Hbh]. unfold ubits.
  rewrite !uint32_of_int32 by assumption.
  unfold Int32.is_int32 in *.
  destruct (Z.eqb_spec (high a) (high b)) as [E1 | N1];
    destruct (Z.eqb_spec (low a) (low b)) as [E2 | N2]; cbn [andb];
    symmetry; [apply Z.eqb_eq; rewrite E1, E2; reflexivity | apply Z.eqb_neq ..];
    destruct (Z.ltb_spec (high a) 0); destruct (Z.ltb_spec (high b) 0);
    destruct (Z.ltb_spec (low a) 0); destruct (Z.ltb_spec (low b) 0); lia.
Qed.

Lemma equals_ubits a b :
  wf a -> wf b ->
  equals a b =
  if negb (Bool.eqb (unsigned a) (unsigned b))
     && (2 ^ 63 <=? ubits a) && (2 ^ 63 <=? ubits b)
  then false else ubits a =? ubits b.
Proof.
  intros Ha Hb. unfold equals.
  rewrite (top_bit_ubits a Ha), (top_bit_ubits b Hb), (words_eq_ubits a b Ha Hb).
  reflexivity.
Qed.

Lemma sub_ubits a b :
  wf b -> ubits (sub a b) = (ubits a - ubits b) mod 2 ^ 64.
Proof.
  intros Hb. unfold sub, subtract, neg.
  rewrite add_ubits, (negate_ubits b Hb).
  rewrite Zplus_mod_idemp_r. reflexivity.
Qed.

Lemma unsigned_sub a b : unsigned (sub a b) = unsigned a.
Proof. reflexivity. Qed.

Lemma wf_sub a b : wf (sub a b).
Proof. apply wf_add. Qed.

Lemma ucompare_words a b :
  wf a -> wf b ->
  (Int32.shru (high b) 0 >? Int32.shru (high a) 0)
  || ((high b =? high a) && (Int32.shru (low b) 0 >? Int32.shru (low a) 0))
  = (ubits a <? ubits b).
Proof.
  intros [Hal Hah] [Hbl Hbh]. rewrite !shru_0. unfold ubits, Int32.toUint32.
  pose proof (Z.mod_pos_bound (low a) (2 ^ 32) ltac:(lia)).
  pose proof (Z.mod_pos_bound (high a) (2 ^ 32) ltac:(lia)).
  pose proof (Z.mod_pos_bound (low b) (2 ^ 32) ltac:(lia)).
  pose proof (Z.mod_pos_bound (high b) (2 ^ 32) ltac:(lia)).
  assert (high b = high a <-> high b mod 2 ^ 32 = high a mod 2 ^ 32) as HE.
  { split; [intros ->; reflexivity | apply int32_eq_mod; assumption]. }
  destruct (Z.eqb_spec (high b) (high a)) as [E | N].
  - rewrite E. rewrite Z.gtb_ltb, Z.ltb_irrefl. cbn [orb andb].
    rewrite Z.gtb_ltb.
    destruct (Z.ltb_spec (low a mod 2 ^ 32) (low b mod 2 ^ 32));
      symmetry; [apply Z.ltb_lt | apply Z.ltb_ge]; lia.
  - cbn [andb]. rewrite orb_false_r. rewrite Z.gtb_ltb.
    destruct (Z.ltb_spec (high a mod 2 ^ 32) (high b mod 2 ^ 32));
      symmetry; [apply Z.ltb_lt | apply Z.ltb_ge]; lia.
Qed.

(** [compare] in terms of the bit patterns and the flags. *)
Lemma compare_ubits a b :
  wf a -> wf b ->
  compare a b =
  if equals a b then 0
  else if isNegative a && negb (isNegative b) then -1
  else if negb (isNegative a) && isNegative b then 1
  else if negb (unsigned a)
       then (if 2 ^ 63 <=? (ubits a - ubits b) mod 2 ^ 64 then -1 else 1)
       else (if ubits a <? ubits b then -1 else 1).
Proof.
  intros Ha Hb. unfold compare, eq.
  rewrite (isNegative_ubits (sub a b) (wf_sub a b)), unsigned_sub, (sub_ubits a b Hb).
  rewrite (ucompare_words a b Ha Hb).
  destruct (equals a b); [reflexivity |].
  destruct (isNegative a && negb (isNegative b)); [reflexivity |].
  destruct (negb (isNegative a) && isNegative b); [reflexivity |].
  destruct (unsigned a); reflexivity.
Qed.

(** Two values of one flag that are not negative compare as their bit
    patterns. *)
Lemma compare_same a b :
  wf a -> wf b -> unsigned a = unsigned b ->
  isNegative a = false -> isNegative b = false ->
  compare a b = if ubits a =? ubits b then 0
                else if ubits a <? ubits b then -1 else 1.
Proof.
  intros Ha Hb Hu Na Nb. rewrite (compare_ubits a b Ha Hb).
  rewrite (equals_ubits a b Ha Hb), Hu, Bool.eqb_reflx, Na, Nb. cbn [negb andb].
  destruct (Z.eqb_spec (ubits a) (ubits b)) as [E | N]; [reflexivity |].
  rewrite (isNegative_ubits a Ha) in Na. rewrite (isNegative_ubits b Hb) in Nb.
  rewrite Hu in Na.
  pose proof (ubits_range a). pose proof (ubits_range b).
  destruct (unsigned b); cbn [negb andb] in *; [reflexivity |].
  apply Z.leb_gt in Na, Nb.
  destruct (Z.ltb_spec (ubits a) (ubits b)).
  - replace ((ubits a - ubits b) mod 2 ^ 64) with (ubits a - ubits b + 2 ^ 64)
      by (apply Z.mod_unique with (-1); lia).
    destruct (Z.leb_spec (2 ^ 63) (ubits a - ubits b + 2 ^ 64)); [reflexivity | lia].
  - rewrite Z.mod_small by lia.
    destruct (Z.leb_spec (2 ^ 63) (ubits a - ubits b)); [lia | reflexivity].
Qed.

Lemma gte_same a b :
  wf a -> wf b -> unsigned a = unsigned b ->
  isNegative a = false -> isNegative b = false ->
  gte a b = (ubits b <=? ubits a).
Proof.
  intros Ha Hb Hu Na Nb. unfold gte, greaterThanOrEqual, comp.
  rewrite (compare_same a b Ha Hb Hu Na Nb).
  destruct (Z.eqb_spec (ubits a) (ubits b)); destruct (Z.ltb_spec (ubits a) (ubits b));
    destruct (Z.leb_spec (ubits b) (ubits a)); try reflexivity; lia.
Qed.

Lemma gt_same a b :
  wf a -> wf b -> unsigned a = unsigned b ->
  isNegative a = false -> isNegative b = false ->
  gt a b = (ubits b <? ubits a).
Proof.
  intros Ha Hb Hu Na Nb. unfold gt, greaterThan, comp.
  rewrite (compare_same a b Ha Hb Hu Na Nb).
  destruct (Z.eqb_spec (ubits a) (ubits b)); destruct (Z.ltb_spec (ubits a) (ubits b));
    destruct (Z.ltb_spec (ubits b) (ubits a)); try reflexivity; lia.
Qed.

Lemma lt_same a b :
  wf a -> wf b -> unsigned a = unsigned b ->
  isNegative a = false -> isNegative b = false ->
  lt a b = (ubits a <? ubits b).
Proof.
  intros Ha Hb Hu Na Nb. unfold lt, lessThan, comp.
  rewrite (compare_same a b Ha Hb Hu Na Nb).
  destruct (Z.eqb_spec (ubits a) (ubits b)); destruct (Z.ltb_spec (ubits a) (ubits b));
    try reflexivity; lia.
Qed.

(** An unsigned value against a signed one that is not negative. *)
Lemma lt_unsigned_signed a b :
  wf a -> wf b -> unsigned a = true -> unsigned b = false ->
  ubits b < 2 ^ 63 ->
  lt a b = (ubits a <? ubits b).
Proof.
  intros Ha Hb Ua Ub Bb. unfold lt, lessThan, comp.
  rewrite (compare_ubits a b Ha Hb), (equals_ubits a b Ha Hb).
  rewrite !isNegative_ubits by assumption. rewrite Ua, Ub. cbn [negb andb Bool.eqb].
  destruct (Z.leb_spec (2 ^ 63) (ubits b)); [lia |]. rewrite andb_false_r.
  destruct (Z.eqb_spec (ubits a) (ubits b)); destruct (Z.ltb_spec (ubits a) (ubits b));
    try reflexivity; lia.
Qed.

(** A signed value below 2^63 against an unsigned one: the signed
    subtraction decides, and wraps when the two are 2^63 apart. *)
Lemma gt_signed_unsigned a b :
  wf a -> wf b -> unsigned a = false -> unsigned b = true ->
  ubits a < 2 ^ 63 ->
  gt a b = negb (ubits a =? ubits b)
           && ((ubits a - ubits b) mod 2 ^ 64 <? 2 ^ 63).
Proof.
  intros Ha Hb Ua Ub Ba. unfold gt, greaterThan, comp.
  rewrite (compare_ubits a b Ha Hb), (equals_ubits a b Ha Hb).
  rewrite !isNegative_ubits by assumption. rewrite Ua, Ub. cbn [negb andb Bool.eqb].
  destruct (Z.leb_spec (2 ^ 63) (ubits a)); [lia |]. cbn [andb].
  destruct (Z.eqb_spec (ubits a) (ubits b)); [reflexivity |]. cbn [negb andb].
  destruct (Z.leb_spec (2 ^ 63) ((ubits a - ubits b) mod 2 ^ 64));
    destruct (Z.ltb_spec ((ubits a - ubits b) mod 2 ^ 64) (2 ^ 63));
    try reflexivity; lia.
Qed.

(** ** Values written by their bit pattern *)

Lemma of_bits_eq x y u :
  x mod 2 ^ 64 = y mod 2 ^ 64 -> of_bits x u = of_bits y u.
Proof.
  intros H. apply long_ext; try apply wf_fromBits; [| reflexivity].
  rewrite !ubits_of_bits. exact H.
Qed.

Lemma of_bits_mod x u : of_bits (x mod 2 ^ 64) u = of_bits x u.
Proof. apply of_bits_eq. apply Z.mod_mod. lia. Qed.

Lemma wf_of_bits x u : wf (of_bits x u).
Proof. apply wf_fromBits. Qed.

Lemma unsigned_of_bits x u : unsigned (of_bits x u) = u.
Proof. reflexivity. Qed.

Lemma long_of_bits v x u :
  wf v -> unsigned v = u -> ubits v = x mod 2 ^ 64 -> v = of_bits x u.
Proof.
  intros Hw Hu H. apply long_ext; [exact Hw | apply wf_fromBits | | exact Hu].
  rewrite ubits_of_bits. exact H.
Qed.

Lemma add_of_bits x y u u' :
  add (of_bits x u) (of_bits y u') = of_bits (x + y) u.
Proof.
  apply long_of_bits; [apply wf_add | reflexivity |].
  rewrite add_ubits, !ubits_of_bits. symmetry. apply Z.add_mod. lia.
Qed.

Lemma neg_of_bits x u : neg (of_bits x u) = of_bits (- x) u.
Proof.
  apply long_of_bits.
  - apply wf_negate.
  - apply unsigned_negate.
  - unfold neg. rewrite negate_ubits by apply wf_of_bits.
    rewrite ubits_of_bits.
    rewrite <- (Z.sub_0_l (x mod 2 ^ 64)), <- (Z.sub_0_l x).
    rewrite Zminus_mod_idemp_r. reflexivity.
Qed.

Lemma sub_of_bits x y u u' :
  sub (of_bits x u) (of_bits y u') = of_bits (x - y) u.
Proof.
  unfold sub, subtract. rewrite neg_of_bits, add_of_bits. reflexivity.
Qed.

Lemma isZero_of_bits x u : isZero (of_bits x u) = (x mod 2 ^ 64 =? 0).
Proof.
  pose proof (isZero_ubits (of_bits x u) (wf_of_bits x u)) as H.
  rewrite ubits_of_bits in H.
  destruct (Z.eqb_spec (x mod 2 ^ 64) 0) as [E | N].
  - apply H, E.
  - destruct (isZero (of_bits x u)); [| reflexivity].
    exfalso. apply N, H. reflexivity.
Qed.

Lemma isNegative_of_bits x u :
  isNegative (of_bits x u) = negb u && (2 ^ 63 <=? x mod 2 ^ 64).
Proof.
  rewrite isNegative_ubits by apply wf_of_bits.
  rewrite ubits_of_bits. reflexivity.
Qed.

Lemma isOdd_ubits v : isOdd v = Z.odd (ubits v).
Proof.
  unfold isOdd, Int32.and.
  rewrite (toInt32_id 1) by (unfold Int32.is_int32; lia).
  change 1 with (Z.ones 1) at 1. rewrite Z.land_ones by lia.
  change (2 ^ 1) with 2.
  unfold ubits, Int32.toUint32.
  assert (Int32.toInt32 (low v) mod 2 = (low v mod 2 ^ 32 + 2 ^ 32 * (high v mod 2 ^ 32)) mod 2) as E.
  { pose proof (toInt32_mod (low v)) as T.
    change (2 ^ 32) with (2 * 2 ^ 31) in *.
    rewrite <- (Z.mul_assoc 2), (Z.mul_comm 2 (2 ^ 31 * _)), Z.mod_add by lia.
    rewrite <- T. rewrite Z.rem_mul_r by lia.
    rewrite (Z.mul_comm 2), Z.mod_add by lia. rewrite Z.mod_mod by lia.
    reflexivity. }
  rewrite E. rewrite Zmod_odd.
  destruct (Z.odd _); reflexivity.
Qed.

(** ** Multiplication *)

Lemma limb_product_bound x y :
  0 <= x < 2 ^ 16 -> 0 <= y < 2 ^ 16 -> 0 <= x * y <= 2 ^ 32 - 2 ^ 17 + 1.
Proof. intros Hx Hy. nia. Qed.

(** The sixteen-bit schoolbook product of [multiply]. *)
Lemma multiply_limbs a b :
  (let a48 := Int32.shru (high a) 16 in
   let a32 := Int32.and (high a) 0xFFFF in
   let a16 := Int32.shru (low a) 16 in
   let a00 := Int32.and (low a) 0xFFFF in
   let b48 := Int32.shru (high b) 16 in
   let b32 := Int32.and (high b) 0xFFFF in
   let b16 := Int32.shru (low b) 16 in
   let b00 := Int32.and (low b) 0xFFFF in
   let c48 := 0 in let c32 := 0 in let c16 := 0 in let c00 := 0 in
   let c00 := c00 + a00 * b00 in
   let c16 := c16 + Int32.shru c00 16 in
   let c00 := Int32.and c00 0xFFFF in
   let c16 := c16 + a16 * b00 in
   let c32 := c32 + Int32.shru c16 16 in
   let c16 := Int32.and c16 0xFFFF in
   let c16 := c16 + a00 * b16 in
   let c32 := c32 + Int32.shru c16 16 in
   let c16 := Int32.and c16 0xFFFF in
   let c32 := c32 + a32 * b00 in
   let c48 := c48 + Int32.shru c32 16 in
   let c32 := Int32.and c32 0xFFFF in
   let c32 := c32 + a16 * b16 in
   let c48 := c48 + Int32.shru c32 16 in
   let c32 := Int32.and c32 0xFFFF in
   let c32 := c32 + a00 * b32 in
   let c48 := c48 + Int32.shru c32 16 in
   let c32 := Int32.and c32 0xFFFF in
   let c48 := c48 + (a48 * b00 + a32 * b16 + a16 * b32 + a00 * b48) in
   let c48 := Int32.and c48 0xFFFF in
   fromBits (Int32.or (Int32.shl c16 16) c00)
            (Int32.or (Int32.shl c48 16) c32) (unsigned a))
  = of_bits (ubits a * ubits b) (unsigned a).
Proof.
  cbv zeta. rewrite !Z.add_0_l.
  apply long_of_bits; [apply wf_fromBits | reflexivity |].
  rewrite !and_FFFF, !shru_16.
  rewrite (mod16_mod32 (low a)), (mod16_mod32 (low b)),
          (mod16_mod32 (high a)), (mod16_mod32 (high b)).
  unfold ubits at 2 3. unfold Int32.toUint32.
  pose proof (Z.mod_pos_bound (low a) (2 ^ 32) ltac:(lia)).
  pose proof (Z.mod_pos_bound (high a) (2 ^ 32) ltac:(lia)).
  pose proof (Z.mod_pos_bound (low b) (2 ^ 32) ltac:(lia)).
  pose proof (Z.mod_pos_bound (high b) (2 ^ 32) ltac:(lia)).
  generalize dependent (low a mod 2 ^ 32). generalize dependent (high a mod 2 ^ 32).
  generalize dependent (low b mod 2 ^ 32). generalize dependent (high b mod 2 ^ 32).
  intros bh Hbh bl Hbl ah Hah al Hal.
  limbs al a0 a1. limbs ah a2 a3. limbs bl b0 b1. limbs bh b2 b3.
  assert (0 <= a1 < 2 ^ 16) by lia. assert (0 <= a3 < 2 ^ 16) by lia.
  assert (0 <= b1 < 2 ^ 16) by lia. assert (0 <= b3 < 2 ^ 16) by lia.
  pose proof (limb_product_bound a0 b0 ltac:(lia) ltac:(lia)).
  pose proof (limb_product_bound a1 b0 ltac:(lia) ltac:(lia)).
  pose proof (limb_product_bound a0 b1 ltac:(lia) ltac:(lia)).
  pose proof (limb_product_bound a2 b0 ltac:(lia) ltac:(lia)).
  pose proof (limb_product_bound a1 b1 ltac:(lia) ltac:(lia)).
  pose proof (limb_product_bound a0 b2 ltac:(lia) ltac:(lia)).
  rewrite (Z.mod_small (a0 * b0) (2 ^ 32)) by lia.
  limbs (a0 * b0) r0 k0.
  rewrite (Z.mod_small (k0 + a1 * b0) (2 ^ 32)) by lia.
  limbs (k0 + a1 * b0) s1 k1.
  rewrite (Z.mod_small (s1 + a0 * b1) (2 ^ 32)) by lia.
  limbs (s1 + a0 * b1) r1 k1'.
  rewrite (Z.mod_small (k1 + k1' + a2 * b0) (2 ^ 32)) by lia.
  limbs (k1 + k1' + a2 * b0) s2 k2.
  rewrite (Z.mod_small (s2 + a1 * b1) (2 ^ 32)) by lia.
  limbs (s2 + a1 * b1) s2' k2'.
  rewrite (Z.mod_small (s2' + a0 * b2) (2 ^ 32)) by lia.
  limbs (s2' + a0 * b2) r2 k2''.
  limbs (k2 + k2' + k2'' + (a3 * b0 + a2 * b1 + a1 * b2 + a0 * b3)) r3 k3.
  rewrite !or_shl_16 by lia.
  rewrite ubits_fromBits, !toInt32_mod.
  rewrite !Z.mod_small by lia.
  apply Z.mod_unique with
    (k3 + (a3 * b1 + a2 * b2 + a1 * b3) + 2 ^ 16 * (a3 * b2 + a2 * b3)
     + 2 ^ 32 * (a3 * b3)); [lia |].
  subst al ah bl bh. lia.
Qed.

(** ** Exact operations on numbers *)

Lemma Qred_inject z : Qred (inject_Z z) = inject_Z z.
Proof.
  unfold Qred, inject_Z.
  pose proof (Z.ggcd_gcd z 1) as G.
  pose proof (Z.ggcd_correct_divisors z 1) as D.
  destruct (Z.ggcd z 1) as [g [aa bb]]. cbn [fst snd] in *.
  rewrite Z.gcd_1_r in G. subst g. destruct D as [D1 D2].
  rewrite Z.mul_1_l in D1, D2. subst aa bb. reflexivity.
Qed.

Lemma fl_compat q1 q2 : (q1 == q2)%Q -> Num.fl q1 = Num.fl q2.
Proof.
  intros E. unfold Num.fl. rewrite <- E.
  destruct (Qcompare_spec q1 0) as [C | C | C]; [reflexivity | |].
  - assert (0 < - q1)%Q as P by lra.
    assert (- q1 == - q2)%Q as E' by (rewrite E; reflexivity).
    rewrite !fl_pos_rnd.
    pose proof (rnd_compat _ _ P E') as R.
    assert (Qle_bool (Num.pow2 1024) (rnd (- q1))
            = Qle_bool (Num.pow2 1024) (rnd (- q2))) as B.
    { destruct (Qle_bool (Num.pow2 1024) (rnd (- q1))) eqn:B1;
        destruct (Qle_bool (Num.pow2 1024) (rnd (- q2))) eqn:B2;
        try reflexivity.
      - apply Qle_bool_iff in B1. rewrite R in B1. apply Qle_bool_iff in B1. congruence.
      - apply Qle_bool_iff in B2. rewrite <- R in B2. apply Qle_bool_iff in B2. congruence. }
    rewrite B. rewrite (Qred_complete _ _ R). reflexivity.
  - rewrite !fl_pos_rnd.
    pose proof (rnd_compat _ _ C E) as R.
    assert (Qle_bool (Num.pow2 1024) (rnd q1)
            = Qle_bool (Num.pow2 1024) (rnd q2)) as B.
    { destruct (Qle_bool (Num.pow2 1024) (rnd q1)) eqn:B1;
        destruct (Qle_bool (Num.pow2 1024) (rnd q2)) eqn:B2;
        try reflexivity.
      - apply Qle_bool_iff in B1. rewrite R in B1. apply Qle_bool_iff in B1. congruence.
      - apply Qle_bool_iff in B2. rewrite <- R in B2. apply Qle_bool_iff in B2. congruence. }
    rewrite B. rewrite (Qred_complete _ _ R). reflexivity.
Qed.

(** A non-negative integer on the binary64 grid is held exactly. *)
Lemma fl_grid m e :
  0 <= m < 2 ^ 53 -> 0 <= e <= 960 ->
  Num.fl (inject_Z (m * 2 ^ e)) = Fin (inject_Z (m * 2 ^ e)).
Proof.
  intros Hm He. destruct (Z.eq_dec m 0) as [-> | NZ].
  - reflexivity.
  - assert (inject_Z (m * 2 ^ e) == inject_Z m * Num.pow2 e)%Q as E
      by (rewrite inject_Z_mult, pow2_Z by lia; reflexivity).
    assert (0 < inject_Z m * Num.pow2 e)%Q as P.
    { apply Qmult_lt_0_compat; [| apply pow2_pos].
      change 0%Q with (inject_Z 0). rewrite <- Zlt_Qlt. lia. }
    rewrite (fl_compat _ _ E).
    pose proof (rnd_exact m e ltac:(lia) ltac:(lia)) as X.
    rewrite fl_pos_Fin.
    + f_equal. rewrite <- (Qred_inject (m * 2 ^ e)). apply Qred_complete.
      rewrite X. symmetry. exact E.
    + exact P.
    + rewrite X. apply Qlt_le_trans with (Num.pow2 53 * Num.pow2 e)%Q.
      * apply Qmult_lt_compat_r; [apply pow2_pos |].
        rewrite pow2_Z by lia. rewrite <- Zlt_Qlt. lia.
      * rewrite <- pow2_add. apply pow2_le. lia.
Qed.

Lemma fl_int z : 0 <= z < 2 ^ 53 -> Num.fl (inject_Z z) = Fin (inject_Z z).
Proof.
  intros H. pose proof (fl_grid z 0 H ltac:(lia)) as E.
  rewrite Z.mul_1_r in E. exact E.
Qed.

Lemma of_Z_int z : 0 <= z < 2 ^ 53 -> Num.of_Z z = Fin (inject_Z z).
Proof. apply fl_int. Qed.

Lemma mul_int a b :
  0 <= a * b < 2 ^ 53 ->
  Num.mul (Fin (inject_Z a)) (Fin (inject_Z b)) = Fin (inject_Z (a * b)).
Proof.
  intros H. unfold Num.mul. rewrite <- inject_Z_mult. apply fl_int, H.
Qed.

(** [toNumber] rounds the integer a value that is not negative denotes. *)
Lemma toNumber_nonneg v :
  wf v -> isNegative v = false -> toNumber v = Num.fl (inject_Z (ubits v)).
Proof.
  intros Hw Hn. unfold toNumber.
  assert (Num.of_Z (high v) = Num.of_Z (Int32.shru (high v) 0)
          \/ unsigned v = true) as Hh.
  { destruct (unsigned v) eqn:U; [right; reflexivity | left].
    unfold isNegative in Hn. rewrite U in Hn. cbn [negb andb] in Hn.
    apply Z.ltb_ge in Hn. rewrite shru_0.
    destruct Hw as [_ Hh]. unfold Int32.is_int32 in Hh.
    rewrite Z.mod_small by lia. reflexivity. }
  assert (Num.add (Num.mul (Num.of_Z (Int32.shru (high v) 0)) TWO_PWR_32_DBL)
            (Num.of_Z (Int32.shru (low v) 0))
          = Num.fl (inject_Z (ubits v))) as X.
  { rewrite !shru_0.
    pose proof (Z.mod_pos_bound (low v) (2 ^ 32) ltac:(lia)) as Bl.
    pose proof (Z.mod_pos_bound (high v) (2 ^ 32) ltac:(lia)) as Bh.
    rewrite !of_Z_int by lia. rewrite TWO_PWR_32_DBL_eq.
    unfold Num.mul. rewrite <- inject_Z_mult.
    rewrite (fl_grid (high v mod 2 ^ 32) 32) by lia.
    unfold Num.add. apply fl_compat. rewrite <- inject_Z_plus.
    unfold ubits, Int32.toUint32.
    replace (high v mod 2 ^ 32 * 2 ^ 32 + low v mod 2 ^ 32)
      with (low v mod 2 ^ 32 + 2 ^ 32 * (high v mod 2 ^ 32)) by lia.
    reflexivity. }
  destruct (unsigned v) eqn:U; [exact X |].
  destruct Hh as [Hh | Hh]; [| discriminate]. rewrite Hh. exact X.
Qed.

(** The rounding of a positive integer below 2^64. *)
Lemma fl_pos_int n :
  0 < n <= 2 ^ 64 ->
  exists r, Num.fl (inject_Z n) = Fin r /\ (r == rnd (inject_Z n))%Q.
Proof.
  intros H. apply fl_pos_value.
  - change 0%Q with (inject_Z 0). rewrite <- Zlt_Qlt. lia.
  - apply Qle_lt_trans with (Num.pow2 64).
    + rewrite pow2_Z by lia. rewrite <- Zle_Qle. lia.
    + apply pow2_lt. lia.
Qed.

Lemma multiply_unfold w fuel this multiplier :
  multiply w (S fuel) this multiplier =
  if isZero this then Ret this
  else if w then wasm_call Wasm.mul this multiplier
  else if isZero multiplier
       then Ret (if unsigned this then UZERO else ZERO)
  else if eq this MIN_VALUE
       then Ret (if isOdd multiplier then MIN_VALUE else ZERO)
  else if eq multiplier MIN_VALUE
       then Ret (if isOdd this then MIN_VALUE else ZERO)
  else if isNegative this then
    if isNegative multiplier
    then multiply w fuel (neg this) (neg multiplier)
    else r <- multiply w fuel (neg this) multiplier ;; Ret (neg r)
  else if isNegative multiplier then
    r <- multiply w fuel this (neg multiplier) ;; Ret (neg r)
  else if lt this TWO_PWR_24 && lt multiplier TWO_PWR_24 then
    fromNumber fuel (Num.mul (toNumber this) (toNumber multiplier))
               (unsigned this)
  else
    let a48 := Int32.shru (high this) 16 in
    let a32 := Int32.and (high this) 0xFFFF in
    let a16 := Int32.shru (low this) 16 in
    let a00 := Int32.and (low this) 0xFFFF in
    let b48 := Int32.shru (high multiplier) 16 in
    let b32 := Int32.and (high multiplier) 0xFFFF in
    let b16 := Int32.shru (low multiplier) 16 in
    let b00 := Int32.and (low multiplier) 0xFFFF in
    let c48 := 0 in let c32 := 0 in let c16 := 0 in let c00 := 0 in
    let c00 := c00 + a00 * b00 in
    let c16 := c16 + Int32.shru c00 16 in
    let c00 := Int32.and c00 0xFFFF in
    let c16 := c16 + a16 * b00 in
    let c32 := c32 + Int32.shru c16 16 in
    let c16 := Int32.and c16 0xFFFF in
    let c16 := c16 + a00 * b16 in
    let c32 := c32 + Int32.shru c16 16 in
    let c16 := Int32.and c16 0xFFFF in
    let c32 := c32 + a32 * b00 in
    let c48 := c48 + Int32.shru c32 16 in
    let c32 := Int32.and c32 0xFFFF in
    let c32 := c32 + a16 * b16 in
    let c48 := c48 + Int32.shru c32 16 in
    let c32 := Int32.and c32 0xFFFF in
    let c32 := c32 + a00 * b32 in
    let c48 := c48 + Int32.shru c32 16 in
    let c32 := Int32.and c32 0xFFFF in
    let c48 := c48 + (a48 * b00 + a32 * b16 + a16 * b32 + a00 * b48) in
    let c48 := Int32.and c48 0xFFFF in
    Ret (fromBits (Int32.or (Int32.shl c16 16) c00)
                  (Int32.or (Int32.shl c48 16) c32) (unsigned this)).
Proof. reflexivity. Qed.

Lemma eq_MIN_VALUE_ubits a :
  wf a -> eq a MIN_VALUE = negb (unsigned a) && (ubits a =? 2 ^ 63).
Proof.
  intros Hw. unfold eq. rewrite (equals_ubits a MIN_VALUE Hw (wf_fromBits _ _ _)).
  rewrite ubits_MIN_VALUE. change (unsigned MIN_VALUE) with false.
  change (2 ^ 63 <=? 2 ^ 63) with true. rewrite andb_true_r.
  pose proof (ubits_range a).
  destruct (unsigned a); cbn [Bool.eqb negb andb].
  - destruct (Z.leb_spec (2 ^ 63) (ubits a)); [reflexivity |].
    apply Z.eqb_neq. lia.
  - reflexivity.
Qed.

Lemma not_negative_not_MIN a :
  wf a -> isNegative a = false -> eq a MIN_VALUE = false.
Proof.
  intros Hw Hn. rewrite (eq_MIN_VALUE_ubits a Hw).
  rewrite (isNegative_ubits a Hw) in Hn.
  destruct (unsigned a); [reflexivity |]. cbn [negb andb] in *.
  apply Z.leb_gt in Hn. apply Z.eqb_neq. lia.
Qed.

Lemma lt_TWO_PWR_24 a :
  wf a -> isNegative a = false -> lt a TWO_PWR_24 = (ubits a <? 2 ^ 24).
Proof.
  intros Hw Hn. destruct (unsigned a) eqn:U.
  - apply (lt_unsigned_signed a TWO_PWR_24 Hw (wf_fromBits _ _ _) U);
      [reflexivity | vm_compute; reflexivity].
  - apply (lt_same a TWO_PWR_24 Hw (wf_fromBits _ _ _)); [exact U | exact Hn | reflexivity].
Qed.

Lemma zero_of_flag (u : bool) : (if u then UZERO else ZERO) = of_bits 0 u.
Proof. destruct u; reflexivity. Qed.

Lemma min_or_zero x :
  (if Z.odd x then MIN_VALUE else ZERO) = of_bits (2 ^ 63 * x) false.
Proof.
  rewrite (Z.div2_odd x) at 2.
  destruct (Z.odd x); cbn [Z.b2z].
  - change MIN_VALUE with (of_bits (2 ^ 63) false). apply of_bits_eq.
    replace (2 ^ 63 * (2 * Z.div2 x + 1))
      with (2 ^ 63 + Z.div2 x * 2 ^ 64) by lia.
    rewrite Z.mod_add by lia. reflexivity.
  - change ZERO with (of_bits 0 false). apply of_bits_eq.
    replace (2 ^ 63 * (2 * Z.div2 x + 0))
      with (0 + Z.div2 x * 2 ^ 64) by lia.
    rewrite Z.mod_add by lia. reflexivity.
Qed.

(** The emulated product of two values that are not negative. *)
Lemma multiply_nonneg fuel a b :
  wf a -> wf b -> isNegative a = false -> isNegative b = false ->
  multiply false (S (S fuel)) a b = Ret (of_bits (ubits a * ubits b) (unsigned a)).
Proof.
  intros Ha Hb Na Nb. rewrite multiply_unfold.
  destruct (isZero a) eqn:Za.
  { apply (isZero_ubits a Ha) in Za. f_equal.
    apply long_of_bits; [exact Ha | reflexivity | rewrite Za; reflexivity]. }
  destruct (isZero b) eqn:Zb.
  { apply (isZero_ubits b Hb) in Zb. rewrite Zb, Z.mul_0_r.
    rewrite zero_of_flag. reflexivity. }
  rewrite (not_negative_not_MIN a Ha Na), (not_negative_not_MIN b Hb Nb), Na, Nb.
  rewrite (lt_TWO_PWR_24 a Ha Na), (lt_TWO_PWR_24 b Hb Nb).
  pose proof (ubits_range a) as Ra. pose proof (ubits_range b) as Rb.
  destruct (Z.ltb_spec (ubits a) (2 ^ 24)) as [La |]; cbn [andb];
    [destruct (Z.ltb_spec (ubits b) (2 ^ 24)) as [Lb |] |];
    try (rewrite multiply_limbs; reflexivity).
  rewrite (toNumber_nonneg a Ha Na), (toNumber_nonneg b Hb Nb).
  rewrite !fl_int by lia.
  assert (0 <= ubits a * ubits b < 2 ^ 48) as Bp by nia.
  rewrite mul_int by lia.
  rewrite fromNumber_nonneg.
  - rewrite Qfloor_Z. reflexivity.
  - change 0%Q with (inject_Z 0). rewrite <- Zle_Qle. lia.
  - destruct (Z.eq_dec (ubits a * ubits b) 0) as [E | NE].
    + left. rewrite E. reflexivity.
    + right. symmetry. apply rnd_exact_Z. lia.
  - rewrite <- Zlt_Qlt. destruct (unsigned a); lia.
Qed.

Lemma wasm_words r u :
  0 <= r < 2 ^ 64 ->
  fromBits (Int32.toInt32 r) (Int32.toInt32 (Z.shiftr (Wasm.signed r) 32)) u
  = of_bits r u.
Proof.
  intros H. unfold of_bits, fromBits, new_Long.
  rewrite !(toInt32_id (Int32.toInt32 _)) by apply toInt32_range.
  f_equal. apply toInt32_eq_mod. rewrite !Z.shiftr_div_pow2 by lia.
  destruct (Z.ltb_spec r (2 ^ 63)).
  - rewrite signed_small by lia. reflexivity.
  - rewrite signed_big by lia.
    replace (r - 2 ^ 64) with (r + (- 2 ^ 32) * 2 ^ 32) by lia.
    rewrite Z.div_add by lia.
    replace (r / 2 ^ 32 + - 2 ^ 32) with (r / 2 ^ 32 + (-1) * 2 ^ 32) by lia.
    apply Z.mod_add. lia.
Qed.

Lemma wasm_mul_spec a b :
  wasm_call Wasm.mul a b = Ret (of_bits (ubits a * ubits b) (unsigned a)).
Proof.
  unfold wasm_call, Wasm.call. rewrite !operand_ubits. cbn [Wasm.exec].
  rewrite wasm_words by (apply Z.mod_pos_bound; lia).
  rewrite of_bits_mod. reflexivity.
Qed.

(** [multiply] is multiplication modulo 2^64 on the bit patterns, and the
    result has the flag of the receiver. *)
Lemma multiply_spec w fuel a b :
  wf a -> wf b -> unsigned a = false \/ unsigned b = true ->
  multiply w (S (S (S fuel))) a b
  = Ret (of_bits (ubits a * ubits b) (unsigned a)).
Proof.
  intros Ha Hb Hf.
  pose proof (ubits_range a) as Ra. pose proof (ubits_range b) as Rb.
  destruct (isNegative a) eqn:Na; [| destruct (isNegative b) eqn:Nb].
  3:{ destruct w; [| apply multiply_nonneg; assumption].
      rewrite multiply_unfold. destruct (isZero a) eqn:Za; [| apply wasm_mul_spec].
      apply (isZero_ubits a Ha) in Za. f_equal.
      apply long_of_bits; [exact Ha | reflexivity | rewrite Za; reflexivity]. }
  - (* the receiver is negative *)
    rewrite multiply_unfold.
    assert (isZero a = false) as Za.
    { apply (isZero_false_ubits a Ha). rewrite (isNegative_ubits a Ha) in Na.
      apply andb_true_iff in Na as [_ Na]. apply Z.leb_le in Na. lia. }
    rewrite Za. destruct w; [apply wasm_mul_spec |].
    rewrite (isNegative_ubits a Ha) in Na.
    apply andb_true_iff in Na as [Ua Ta]. apply negb_true_iff in Ua.
    apply Z.leb_le in Ta.
    destruct (isZero b) eqn:Zb.
    { apply (isZero_ubits b Hb) in Zb. rewrite Zb, Z.mul_0_r, Ua. reflexivity. }
    rewrite (eq_MIN_VALUE_ubits a Ha), Ua. cbn [negb andb].
    destruct (Z.eqb_spec (ubits a) (2 ^ 63)) as [Ea | NEa].
    { rewrite isOdd_ubits, Ea, min_or_zero. reflexivity. }
    rewrite (eq_MIN_VALUE_ubits b Hb).
    destruct (negb (unsigned b) && (ubits b =? 2 ^ 63)) eqn:Eb.
    { apply andb_true_iff in Eb as [_ Eb]. apply Z.eqb_eq in Eb.
      rewrite isOdd_ubits, Eb, min_or_zero, (Z.mul_comm (2 ^ 63)).
      reflexivity. }
    rewrite (isNegative_ubits a Ha), Ua. cbn [negb andb].
    destruct (Z.leb_spec (2 ^ 63) (ubits a)); [| lia].
    assert (neg a = of_bits (- ubits a) false) as NA
      by (rewrite <- (of_bits_ubits a Ha) at 1; rewrite Ua; apply neg_of_bits).
    assert (isNegative (neg a) = false) as NNa.
    { rewrite NA, isNegative_of_bits. cbn [negb andb]. apply Z.leb_gt.
      rewrite Z.mod_opp_l_nz by (rewrite ?Z.mod_small; lia).
      rewrite Z.mod_small; lia. }
    assert (ubits (neg a) = 2 ^ 64 - ubits a) as UNa.
    { rewrite NA, ubits_of_bits.
      rewrite Z.mod_opp_l_nz by (rewrite ?Z.mod_small; lia).
      rewrite Z.mod_small; lia. }
    destruct (isNegative b) eqn:Nb.
    + rewrite (isNegative_ubits b Hb) in Nb.
      apply andb_true_iff in Nb as [Ub Tb]. apply negb_true_iff in Ub.
      apply Z.leb_le in Tb. rewrite Ub in Eb. cbn [negb andb] in Eb.
      apply Z.eqb_neq in Eb.
      assert (neg b = of_bits (- ubits b) false) as NB
        by (rewrite <- (of_bits_ubits b Hb) at 1; rewrite Ub; apply neg_of_bits).
      assert (isNegative (neg b) = false) as NNb.
      { rewrite NB, isNegative_of_bits. cbn [negb andb]. apply Z.leb_gt.
        rewrite Z.mod_opp_l_nz by (rewrite ?Z.mod_small; lia).
        rewrite Z.mod_small; lia. }
      assert (ubits (neg b) = 2 ^ 64 - ubits b) as UNb.
      { rewrite NB, ubits_of_bits.
        rewrite Z.mod_opp_l_nz by (rewrite ?Z.mod_small; lia).
        rewrite Z.mod_small; lia. }
      rewrite (multiply_nonneg fuel (neg a) (neg b)
                 (wf_negate a) (wf_negate b) NNa NNb).
      rewrite UNa, UNb. unfold neg at 1. rewrite unsigned_negate, Ua.
      f_equal. apply of_bits_eq.
      replace ((2 ^ 64 - ubits a) * (2 ^ 64 - ubits b))
        with (ubits a * ubits b + (2 ^ 64 - ubits a - ubits b) * 2 ^ 64) by lia.
      apply Z.mod_add. lia.
    + rewrite (multiply_nonneg fuel (neg a) b (wf_negate a) Hb NNa Nb).
      cbn [bind]. rewrite UNa. unfold neg at 1. rewrite unsigned_negate, Ua.
      rewrite neg_of_bits. f_equal. apply of_bits_eq.
      replace (- ((2 ^ 64 - ubits a) * ubits b))
        with (ubits a * ubits b + (- ubits b) * 2 ^ 64) by lia.
      apply Z.mod_add. lia.
  - (* only the multiplier is negative *)
    rewrite multiply_unfold.
    destruct (isZero a) eqn:Za.
    { apply (isZero_ubits a Ha) in Za. f_equal.
      apply long_of_bits; [exact Ha | reflexivity | rewrite Za; reflexivity]. }
    destruct w; [apply wasm_mul_spec |].
    rewrite (isNegative_ubits b Hb) in Nb.
    apply andb_true_iff in Nb as [Ub Tb]. apply negb_true_iff in Ub.
    apply Z.leb_le in Tb.
    assert (unsigned a = false) as Ua by (destruct Hf; congruence).
    assert (isZero b = false) as Zb by (apply (isZero_false_ubits b Hb); lia).
    rewrite Zb, (not_negative_not_MIN a Ha Na).
    rewrite (eq_MIN_VALUE_ubits b Hb), Ub. cbn [negb andb].
    destruct (Z.eqb_spec (ubits b) (2 ^ 63)) as [Eb | NEb].
    { rewrite isOdd_ubits, Eb, Ua, min_or_zero, (Z.mul_comm (2 ^ 63)).
      reflexivity. }
    rewrite Na. rewrite (isNegative_ubits b Hb), Ub. cbn [negb andb].
    destruct (Z.leb_spec (2 ^ 63) (ubits b)); [| lia].
    assert (neg b = of_bits (- ubits b) false) as NB
      by (rewrite <- (of_bits_ubits b Hb) at 1; rewrite Ub; apply neg_of_bits).
    assert (isNegative (neg b) = false) as NNb.
    { rewrite NB, isNegative_of_bits. cbn [negb andb]. apply Z.leb_gt.
      rewrite Z.mod_opp_l_nz by (rewrite ?Z.mod_small; lia).
      rewrite Z.mod_small; lia. }
    assert (ubits (neg b) = 2 ^ 64 - ubits b) as UNb.
    { rewrite NB, ubits_of_bits.
      rewrite Z.mod_opp_l_nz by (rewrite ?Z.mod_small; lia).
      rewrite Z.mod_small; lia. }
    rewrite (multiply_nonneg fuel a (neg b) Ha (wf_negate b) Na NNb).
    cbn [bind]. rewrite UNb, neg_of_bits. f_equal. apply of_bits_eq.
    replace (- (ubits a * (2 ^ 64 - ubits b)))
      with (ubits a * ubits b + (- ubits a) * 2 ^ 64) by lia.
    apply Z.mod_add. lia.
Qed.

(** ** The approximation of the division loop *)

Local Open Scope Q_scope.

Lemma rnd_normal_mant q :
  0 < q -> (- 1074 <= Num.binade q - 52)%Z ->
  (2 ^ 52 <= Num.rne (q / Num.pow2 (expo q)))%Z.
Proof.
  intros H N. destruct (binade_spec q H) as [B1 _].
  unfold expo. rewrite Z.max_l by lia. set (k := Num.binade q) in *.
  apply rne_ge_Z. apply Qle_shift_div_l; [apply pow2_pos |].
  rewrite <- (pow2_Z 52) by lia. rewrite <- pow2_add.
  replace (52 + (k - 52))%Z with k by lia. exact B1.
Qed.

(** The relative error of a rounding in the normal range. *)
Lemma rnd_rel_err q :
  1 <= q -> Qabs (rnd q - q) <= q * Num.pow2 (- 53).
Proof.
  intros H. assert (0 < q) as P by lra.
  destruct (binade_spec q P) as [B1 B2].
  assert (0 <= Num.binade q)%Z as K.
  { assert (Num.pow2 0 < Num.pow2 (Num.binade q + 1)) as X
      by (change (Num.pow2 0) with 1; lra).
    apply pow2_lt_inv in X. lia. }
  eapply Qle_trans; [apply rnd_err, P |].
  unfold expo. rewrite Z.max_l by lia.
  replace (Num.binade q - 52)%Z with (Num.binade q + (- 53) + 1)%Z by lia.
  rewrite pow2_succ, pow2_add.
  pose proof (pow2_pos (- 53)) as P53.
  assert (Num.pow2 (Num.binade q) * Num.pow2 (-53) <= q * Num.pow2 (-53)) as X
    by (apply Qmult_le_compat_r; lra).
  lra.
Qed.

Lemma rnd_ge_1 q : 1 <= q -> 1 <= rnd q.
Proof.
  intros H. assert (rnd 1 == 1) as X by (vm_compute; reflexivity).
  rewrite <- X. apply rnd_mono; [reflexivity | exact H].
Qed.

Lemma rnd_int_le n m :
  (0 < n <= m * 2 ^ 62)%Z -> (0 < m < 2 ^ 53)%Z ->
  rnd (inject_Z n) <= inject_Z (m * 2 ^ 62).
Proof.
  intros Hn Hm.
  assert (rnd (inject_Z (m * 2 ^ 62)) == inject_Z (m * 2 ^ 62)) as X.
  { assert (inject_Z (m * 2 ^ 62) == inject_Z m * Num.pow2 62) as E
      by (rewrite inject_Z_mult, pow2_Z by lia; reflexivity).
    assert (0 < inject_Z (m * 2 ^ 62)) as P
      by (change 0 with (inject_Z 0); rewrite <- Zlt_Qlt; lia).
    rewrite (rnd_compat _ _ P E).
    rewrite rnd_exact by lia. symmetry. exact E. }
  rewrite <- X. apply rnd_mono.
  - change 0 with (inject_Z 0). rewrite <- Zlt_Qlt. lia.
  - rewrite <- Zle_Qle. lia.
Qed.

(** The first approximation [Math.max(1, Math.floor(rem / divisor))] of
    an iteration, for a divisor below 2^32: an integer from 1 to 2^62,
    above the true quotient by a relative 2^-51 at most, and on the
    binary64 grid. *)
Lemma approx_spec R D :
  (1 <= D < 2 ^ 32)%Z -> (D <= R)%Z -> (R <= 2 ^ 64)%Z -> (R < D * 2 ^ 62)%Z ->
  exists A0 : Z,
    Num.max (Num.of_Z 1)
      (Num.floor (Num.div (Num.fl (inject_Z R)) (Num.fl (inject_Z D))))
    = Fin (inject_Z A0)
    /\ (1 <= A0 <= 2 ^ 62)%Z
    /\ (A0 * D * 2 ^ 106 <= R * (2 ^ 106 + 2 ^ 54 + 1))%Z
    /\ (A0 = 1%Z -> (R < 2 ^ 34)%Z)
    /\ ((A0 < 2 ^ 53)%Z
        \/ exists M E : Z, (0 <= E)%Z /\ (2 ^ 52 <= M <= 2 ^ 53)%Z
                           /\ A0 = (M * 2 ^ E)%Z).
Proof.
  intros HD HRD HR HRD2.
  assert (0 < inject_Z D) as Dpos
    by (change 0 with (inject_Z 0); rewrite <- Zlt_Qlt; lia).
  assert (0 < inject_Z R) as Rpos
    by (change 0 with (inject_Z 0); rewrite <- Zlt_Qlt; lia).
  assert (1 <= inject_Z R) as R1
    by (change 1 with (inject_Z 1); rewrite <- Zle_Qle; lia).
  destruct (fl_pos_int R ltac:(lia)) as [x [Fx Ex]].
  rewrite Fx, (fl_int D) by lia.
  (* x *)
  pose proof (rnd_rel_err _ R1) as Xerr. rewrite <- Ex in Xerr.
  apply Qabs_Qle_condition in Xerr. destruct Xerr as [Xlo Xhi].
  assert (inject_Z D <= x) as XD.
  { rewrite Ex. rewrite <- (rnd_exact_Z D) by lia.
    apply rnd_mono; [exact Dpos | rewrite <- Zle_Qle; lia]. }
  assert (x <= inject_Z (D * 2 ^ 62)) as XU
    by (rewrite Ex; apply rnd_int_le; lia).
  (* the quotient *)
  set (t := x / inject_Z D).
  assert (1 <= t) as T1 by (apply Qle_shift_div_l; [exact Dpos | lra]).
  assert (t <= inject_Z (2 ^ 62)) as TU.
  { apply Qle_shift_div_r; [exact Dpos |]. rewrite <- inject_Z_mult.
    rewrite Z.mul_comm. exact XU. }
  assert (0 < t) as Tpos by lra.
  unfold Num.div.
  assert (Qeq_bool (inject_Z D) 0 = false) as DZ.
  { destruct (Qeq_bool (inject_Z D) 0) eqn:C; [| reflexivity].
    apply Qeq_bool_iff in C. exfalso. lra. }
  rewrite DZ. fold t.
  destruct (fl_pos_value t Tpos) as [q [Fq Eq]].
  { eapply Qle_lt_trans; [exact TU |]. reflexivity. }
  rewrite Fq. cbn [Num.floor].
  pose proof (rnd_rel_err _ T1) as Qerr. rewrite <- Eq in Qerr.
  apply Qabs_Qle_condition in Qerr. destruct Qerr as [Qlo Qhi].
  assert (1 <= q) as Q1 by (rewrite Eq; apply rnd_ge_1, T1).
  assert (q <= inject_Z (2 ^ 62)) as QU.
  { rewrite Eq. assert (rnd (inject_Z (2 ^ 62)) == inject_Z (2 ^ 62)) as X
      by (vm_compute; reflexivity).
    rewrite <- X. apply rnd_mono; [exact Tpos | exact TU]. }
  set (A0 := Qfloor q).
  pose proof (Qfloor_le q) as FL. fold A0 in FL.
  assert (1 <= A0 <= 2 ^ 62)%Z as A0B.
  { split.
    - apply Qfloor_ge. exact Q1.
    - rewrite Zle_Qle. lra. }
  exists A0. split; [| split; [exact A0B | split; [| split]]].
  - (* the value *)
    rewrite of_Z_1. unfold Num.max.
    destruct (Num.lt (Fin 1) (Fin (inject_Z A0))) eqn:C; [reflexivity |].
    apply lt_Fin_false in C. change 1 with (inject_Z 1) in C.
    rewrite <- Zle_Qle in C. replace A0 with 1%Z by lia. reflexivity.
  - (* the error *)
    pose proof (pow2_pos (- 53)) as P53.
    set (u := Num.pow2 (- 53)) in *.
    assert (t * inject_Z D == x) as TD by (unfold t; field; lra).
    assert (inject_Z A0 * inject_Z D <= inject_Z R * ((1 + u) * (1 + u))) as X.
    { apply Qle_trans with (q * inject_Z D);
        [apply Qmult_le_compat_r; lra |].
      apply Qle_trans with (t * (1 + u) * inject_Z D);
        [apply Qmult_le_compat_r; lra |].
      setoid_replace (t * (1 + u) * inject_Z D) with (x * (1 + u))
        by (rewrite <- TD; ring).
      setoid_replace (inject_Z R * ((1 + u) * (1 + u)))
        with (inject_Z R * (1 + u) * (1 + u)) by ring.
      apply Qmult_le_compat_r; lra. }
    assert ((1 + u) * (1 + u) == inject_Z (2 ^ 106 + 2 ^ 54 + 1) / inject_Z (2 ^ 106)) as U2
      by (vm_compute; reflexivity).
    rewrite U2 in X.
    assert (0 < inject_Z (2 ^ 106)) as P106 by reflexivity.
    assert (inject_Z A0 * inject_Z D * inject_Z (2 ^ 106)
            <= inject_Z R * inject_Z (2 ^ 106 + 2 ^ 54 + 1)) as Y.
    { apply Qmult_le_r with (/ inject_Z (2 ^ 106));
        [apply Qinv_lt_0_compat; exact P106 |].
      setoid_replace (inject_Z A0 * inject_Z D * inject_Z (2 ^ 106) * / inject_Z (2 ^ 106))
        with (inject_Z A0 * inject_Z D) by (field; lra).
      setoid_replace (inject_Z R * inject_Z (2 ^ 106 + 2 ^ 54 + 1) * / inject_Z (2 ^ 106))
        with (inject_Z R * (inject_Z (2 ^ 106 + 2 ^ 54 + 1) / inject_Z (2 ^ 106)))
        by (field; lra).
      exact X. }
    rewrite <- !inject_Z_mult in Y. rewrite <- Zle_Qle in Y. exact Y.
  - (* an approximation of 1 *)
    intros A1. destruct (Z.lt_ge_cases R (2 ^ 34)) as [S | L]; [exact S | exfalso].
    pose proof (Qlt_floor q) as FU. fold A0 in FU. rewrite A1 in FU.
    change (inject_Z (1 + 1)) with 2 in FU.
    assert (inject_Z (2 ^ 34) <= x) as XL.
    { rewrite Ex. assert (rnd (inject_Z (2 ^ 34)) == inject_Z (2 ^ 34)) as X
        by (vm_compute; reflexivity).
      rewrite <- X. apply rnd_mono; [reflexivity | rewrite <- Zle_Qle; exact L]. }
    assert (2 <= t) as T2.
    { apply Qle_shift_div_l; [exact Dpos |].
      assert (inject_Z D <= inject_Z (2 ^ 32)) as DU by (rewrite <- Zle_Qle; lia).
      assert (2 * inject_Z (2 ^ 32) <= inject_Z (2 ^ 34)) as C by discriminate.
      lra. }
    assert (2 <= q) as Q2.
    { rewrite Eq. assert (rnd 2 == 2) as X by (vm_compute; reflexivity).
      rewrite <- X. apply rnd_mono; [reflexivity | exact T2]. }
    lra.
  - (* the grid *)
    destruct (binade_spec t Tpos) as [B1 B2].
    assert (0 <= Num.binade t)%Z as K.
    { assert (Num.pow2 0 < Num.pow2 (Num.binade t + 1)) as X
        by (change (Num.pow2 0) with 1; lra).
      apply pow2_lt_inv in X. lia. }
    destruct (rnd_grid t Tpos) as [G [M1 M2]].
    pose proof (rnd_normal_mant t Tpos ltac:(lia)) as M3.
    assert (expo t = Num.binade t - 52)%Z as EE by (unfold expo; lia).
    set (M := Num.rne (t / Num.pow2 (expo t))) in *.
    rewrite <- Eq in G.
    destruct (Z.le_gt_cases 0 (expo t)) as [Epos | Eneg].
    + right. exists M, (expo t). split; [exact Epos |]. split; [lia |].
      unfold A0. rewrite G, pow2_Z, <- inject_Z_mult by lia. apply Qfloor_Z.
    + left. assert (q <= inject_Z (2 ^ 52)) as Q52.
      { rewrite G. apply Qle_trans with (inject_Z (2 ^ 53) * Num.pow2 (- 1)).
        - apply Qmult_le_compat_nonneg.
          + split; [change 0 with (inject_Z 0); rewrite <- Zle_Qle; lia
                   | rewrite <- Zle_Qle; lia].
          + split; [apply Qlt_le_weak, pow2_pos | apply pow2_le; lia].
        - vm_compute. discriminate. }
      rewrite Zlt_Qlt. eapply Qle_lt_trans; [exact FL |].
      eapply Qle_lt_trans; [exact Q52 |]. reflexivity.
Qed.

Local Open Scope Z_scope.

Lemma of_Z_48 : Num.of_Z 48 = Fin (inject_Z 48).
Proof. vm_compute. reflexivity. Qed.

Lemma sub_num a b :
  Num.sub (Fin (inject_Z a)) (Fin (inject_Z b)) = Num.fl (inject_Z (a - b)).
Proof.
  unfold Num.sub, Num.neg, Num.add. apply fl_compat.
  rewrite Qred_correct. unfold Z.sub. rewrite inject_Z_plus, inject_Z_opp.
  reflexivity.
Qed.

Lemma pow_2_int j :
  0 <= j < 53 -> Num.pow 2 j = Fin (inject_Z (2 ^ j)).
Proof.
  intros H. unfold Num.pow.
  rewrite (fl_compat _ (inject_Z (2 ^ j)))
    by (symmetry; apply (Zpower_Qpower 2 j); lia).
  apply fl_int. split; [apply Z.pow_nonneg; lia |].
  apply Z.pow_lt_mono_r; lia.
Qed.

(** The step [delta] of the inner loop. *)
Lemma delta_spec mlog A0 :
  log_accurate mlog -> 1 <= A0 <= 2 ^ 62 ->
  exists d : Z,
    (if Num.le (Num.ceil (Num.div (mlog (Fin (inject_Z A0))) Num.LN2))
               (Num.of_Z 48)
     then Num.of_Z 1
     else Num.pow2_num
            (Num.sub (Num.ceil (Num.div (mlog (Fin (inject_Z A0))) Num.LN2))
                     (Num.of_Z 48))) = Fin (inject_Z d)
    /\ 1 <= d /\ A0 <= 2 ^ 49 * d
    /\ (d = 1 \/ (d * 2 ^ 46 < A0 /\ exists j, 1 <= j /\ d = 2 ^ j)).
Proof.
  intros Hlog HA. destruct (Hlog A0 ltac:(lia)) as [L [EL [U Lo]]].
  rewrite EL, of_Z_48.
  assert (L < 64) as L64.
  { apply (Z.pow_lt_mono_r_iff 2); [lia | lia |].
    eapply Z.lt_le_trans; [exact Lo |]. lia. }
  destruct (Num.le (Fin (inject_Z L)) (Fin (inject_Z 48))) eqn:C.
  - apply le_Fin in C. rewrite <- Zle_Qle in C.
    exists 1. rewrite of_Z_1. split; [reflexivity |]. split; [lia |].
    split; [| left; reflexivity].
    eapply Z.le_trans; [exact U |]. rewrite Z.mul_1_r.
    apply Z.pow_le_mono_r; lia.
  - apply le_Fin_false in C. rewrite <- Zlt_Qlt in C.
    exists (2 ^ (L - 48)).
    rewrite sub_num, fl_int by lia. cbn [Num.pow2_num]. rewrite Qfloor_Z.
    rewrite pow_2_int by lia. split; [reflexivity |].
    assert (0 < 2 ^ (L - 48)) as P by (apply Z.pow_pos_nonneg; lia).
    split; [lia |].
    assert (2 ^ (L + 1) = 2 ^ 49 * 2 ^ (L - 48)) as E1
      by (rewrite <- Z.pow_add_r by lia; f_equal; lia).
    assert (2 ^ L = 2 ^ (L - 48) * 2 ^ 46 * 4) as E2.
    { change 4 with (2 ^ 2). rewrite <- !Z.pow_add_r by lia. f_equal. lia. }
    split; [lia |]. right. split; [lia |].
    exists (L - 48). split; [lia | reflexivity].
Qed.

Lemma rnd_on_grid A :
  0 < A <= 2 ^ 64 -> on_grid A ->
  (rnd (inject_Z A) == inject_Z A)%Q.
Proof.
  intros HA [S | [M [E [HE [HM EA]]]]].
  - apply rnd_exact_Z. lia.
  - assert (0 < inject_Z A)%Q as P
      by (change 0%Q with (inject_Z 0); rewrite <- Zlt_Qlt; lia).
    destruct (Z.eq_dec M (2 ^ 53)) as [M53 | NM].
    + assert (inject_Z A == Num.pow2 (53 + E))%Q as X.
      { rewrite EA, M53, <- Z.pow_add_r by lia. apply (Zpower_Qpower 2). lia. }
      rewrite (rnd_compat _ _ P X), rnd_pow2 by lia. symmetry. exact X.
    + assert (inject_Z A == inject_Z M * Num.pow2 E)%Q as X
        by (rewrite EA, inject_Z_mult, pow2_Z by lia; reflexivity).
      rewrite (rnd_compat _ _ P X), rnd_exact by lia. symmetry. exact X.
Qed.

Lemma fl_on_grid A :
  0 < A <= 2 ^ 64 -> on_grid A -> Num.fl (inject_Z A) = Fin (inject_Z A).
Proof.
  intros HA G.
  assert (0 < inject_Z A)%Q as P
    by (change 0%Q with (inject_Z 0); rewrite <- Zlt_Qlt; lia).
  assert (inject_Z A < Num.pow2 1023)%Q as B.
  { apply Qle_lt_trans with (Num.pow2 64).
    - rewrite (pow2_Z 64) by lia. rewrite <- Zle_Qle. lia.
    - apply pow2_lt. lia. }
  rewrite (fl_pos_Fin _ P (rnd_no_overflow _ P B)). f_equal.
  etransitivity; [| apply Qred_inject].
  apply Qred_complete, rnd_on_grid; assumption.
Qed.

Lemma fromNumber_int fuel A (u : bool) :
  0 <= A < (if u then 2 ^ 64 else 2 ^ 63) -> on_grid A ->
  fromNumber (S fuel) (Fin (inject_Z A)) u = Ret (of_bits A u).
Proof.
  intros HA G. rewrite fromNumber_nonneg.
  - rewrite Qfloor_Z. reflexivity.
  - change 0%Q with (inject_Z 0). rewrite <- Zle_Qle. lia.
  - destruct (Z.eq_dec A 0) as [-> | NZ]; [left; reflexivity | right].
    symmetry. apply rnd_on_grid; [destruct u; lia | exact G].
  - rewrite <- Zlt_Qlt. destruct u; lia.
Qed.

(** Decreasing the first approximation by [delta] is exact and stays on
    the grid. *)
Lemma decrease_on_grid A0 d :
  (A0 < 2 ^ 53
   \/ exists M E : Z, 0 <= E /\ 2 ^ 52 <= M <= 2 ^ 53 /\ A0 = M * 2 ^ E) ->
  1 <= A0 <= 2 ^ 62 -> 1 <= d -> A0 <= 2 ^ 49 * d ->
  (d = 1 \/ (d * 2 ^ 46 < A0 /\ exists j, 1 <= j /\ d = 2 ^ j)) ->
  1 <= A0 - d ->
  on_grid (A0 - d)
  /\ Num.sub (Fin (inject_Z A0)) (Fin (inject_Z d)) = Fin (inject_Z (A0 - d)).
Proof.
  intros G HA Hd U Dc H1.
  assert (on_grid (A0 - d)) as G'.
  { destruct G as [S | [M [E [HE [HM EA]]]]]; [left; lia |].
    destruct (Z.lt_ge_cases (A0 - d) (2 ^ 53)) as [S | L]; [left; exact S |].
    destruct Dc as [D1 | [_ [j [Hj Ej]]]].
    { exfalso. subst d. lia. }
    assert (0 < 2 ^ E) as PE by (apply Z.pow_pos_nonneg; lia).
    assert (E + 3 <= j) as EJ.
    { assert (2 ^ (52 + E) <= 2 ^ (49 + j)) as X.
      { rewrite !Z.pow_add_r by lia. rewrite <- Ej.
        apply Z.le_trans with A0; [| exact U]. rewrite EA.
        apply Z.mul_le_mono_nonneg_r; lia. }
      apply Z.pow_le_mono_r_iff in X; lia. }
    assert (d = 2 ^ (j - E) * 2 ^ E) as Ed
      by (rewrite <- Z.pow_add_r by lia; rewrite Ej; f_equal; lia).
    assert (0 < 2 ^ (j - E)) by (apply Z.pow_pos_nonneg; lia).
    right. exists (M - 2 ^ (j - E)), E. split; [exact HE |].
    split; [| rewrite EA, Ed; ring].
    assert (A0 - d = (M - 2 ^ (j - E)) * 2 ^ E) as X by (rewrite EA, Ed; ring).
    split; [| lia].
    rewrite X in H1. 
    destruct (Z.lt_ge_cases (M - 2 ^ (j - E)) 0) as [C |]; [| lia].
    exfalso. 
    assert ((M - 2 ^ (j - E)) * 2 ^ E <= 0); [| lia].
    apply Z.mul_nonpos_nonneg; lia. }
  split; [exact G' |].
  rewrite sub_num. apply fl_on_grid; [lia | exact G'].
Qed.

(** What the test of the inner loop tells about the first approximation
    [A0], and that one decrease by [d] is enough when it is rejected. *)
Lemma rejects_spec (u : bool) A0 d D R :
  1 <= D < 2 ^ 32 -> D <= R -> R < (if u then 2 ^ 64 else 2 ^ 63) ->
  1 <= A0 <= 2 ^ 62 ->
  A0 * D * 2 ^ 106 <= R * (2 ^ 106 + 2 ^ 54 + 1) ->
  (A0 = 1 -> R < 2 ^ 34) ->
  1 <= d -> A0 <= 2 ^ 49 * d -> (d = 1 \/ d * 2 ^ 46 < A0) ->
  (rejects u ((A0 * D) mod 2 ^ 64) R = false -> A0 * D <= R)
  /\ (rejects u ((A0 * D) mod 2 ^ 64) R = true ->
      1 <= A0 - d /\ (A0 - d) * D <= R).
Proof.
  intros HD HDR HR HA Up One Hd Ud Dc.
  assert ((A0 - d) * D = A0 * D - d * D) as E by ring. rewrite E. clear E.
  assert (A0 * D <= 2 ^ 49 * (d * D)) as UT.
  { rewrite Z.mul_assoc. apply Z.mul_le_mono_nonneg_r; lia. }
  assert (D <= d * D) as LdD.
  { rewrite <- (Z.mul_1_l D) at 1. apply Z.mul_le_mono_nonneg_r; lia. }
  assert (A0 = 1 \/ 2 * D <= A0 * D) as LT.
  { destruct (Z.eq_dec A0 1); [left; assumption | right].
    apply Z.mul_le_mono_nonneg_r; lia. }
  assert (A0 = 1 -> A0 * D = D) as T1 by (intros ->; ring).
  assert (d * 2 ^ 46 < A0 -> d + 1 <= A0) as Big by lia.
  set (T := A0 * D) in *. set (dD := d * D) in *.
  assert (R < 2 ^ 64) as R64 by (destruct u; lia).
  assert (T < 2 ^ 64 + 2 ^ 13) as TB by lia.
  assert (R < T -> 1 <= A0 - d /\ T - dD <= R) as Step.
  { intros RT. split; [| lia].
    destruct Dc as [-> | B]; [| lia].
    destruct LT as [A1 | L2]; [| lia]. specialize (T1 A1). lia. }
  unfold rejects. destruct u.
  - destruct (Z.lt_ge_cases T (2 ^ 64)) as [S | L].
    + rewrite (Z.mod_small T) by lia.
      destruct (Z.leb_spec (2 ^ 63) T) as [H63 | H63]; cbn [orb].
      * split; [discriminate | intros _].
        destruct (Z.le_gt_cases T R) as [TR | TR]; [| auto].
        split; [| lia].
        destruct Dc as [-> | B]; [| lia].
        destruct LT as [A1 | L2]; [| lia]. specialize (One A1). lia.
      * destruct (Z.eqb_spec T R) as [-> | NE]; cbn [negb andb].
        { split; [lia | discriminate]. }
        destruct (Z.lt_ge_cases T R) as [TR | TR].
        { assert ((T - R) mod 2 ^ 64 = T - R + 2 ^ 64) as ->
            by (symmetry; apply Z.mod_unique with (-1); lia).
          destruct (Z.ltb_spec (T - R + 2 ^ 64) (2 ^ 63)) as [C | C].
          - split; [discriminate | intros _].
            split; [| lia]. destruct Dc as [-> | B]; [| lia].
            destruct LT as [A1 | L2]; [| lia].
            specialize (One A1). specialize (T1 A1). lia.
          - split; [lia | discriminate]. }
        rewrite (Z.mod_small (T - R)) by lia.
        destruct (Z.ltb_spec (T - R) (2 ^ 63)) as [C | C]; [| lia].
        split; [discriminate | intros _; apply Step; lia].
    + assert (T mod 2 ^ 64 = T - 2 ^ 64) as ->
        by (symmetry; apply Z.mod_unique with 1; lia).
      destruct (Z.leb_spec (2 ^ 63) (T - 2 ^ 64)) as [H63 | H63]; [lia |].
      cbn [orb].
      destruct (Z.eqb_spec (T - 2 ^ 64) R) as [X | NE]; [lia |].
      cbn [negb andb].
      assert ((T - 2 ^ 64 - R) mod 2 ^ 64 = T - R) as ->
        by (symmetry; apply Z.mod_unique with (-1); lia).
      destruct (Z.ltb_spec (T - R) (2 ^ 63)) as [C | C]; [| lia].
      split; [discriminate | intros _; apply Step; lia].
  - rewrite (Z.mod_small T) by lia.
    destruct (Z.leb_spec (2 ^ 63) T) as [H63 | H63]; cbn [orb].
    + split; [discriminate | intros _; apply Step; lia].
    + destruct (Z.ltb_spec R T) as [C | C].
      * split; [discriminate | intros _; apply Step; lia].
      * split; [lia | discriminate].
Qed.

(** ** The division loop *)

Lemma multiply_of_bits w fuel x y (u u' : bool) :
  u = false \/ u' = true ->
  multiply w (S (S (S fuel))) (of_bits x u) (of_bits y u')
  = Ret (of_bits (x * y) u).
Proof.
  intros H. rewrite multiply_spec; try apply wf_of_bits.
  - rewrite !ubits_of_bits, unsigned_of_bits. f_equal.
    apply of_bits_eq. rewrite <- Z.mul_mod by lia. reflexivity.
  - rewrite !unsigned_of_bits. exact H.
Qed.

Lemma test_rejects (u : bool) T R :
  0 <= R < (if u then 2 ^ 64 else 2 ^ 63) ->
  isNegative (of_bits T false) || gt (of_bits T false) (of_bits R u)
  = rejects u (T mod 2 ^ 64) R.
Proof.
  intros HR. unfold rejects. rewrite isNegative_of_bits. cbn [negb andb].
  destruct (Z.leb_spec (2 ^ 63) (T mod 2 ^ 64)) as [B | S]; [reflexivity |].
  cbn [orb]. destruct u.
  - rewrite gt_signed_unsigned; try apply wf_of_bits;
      try apply unsigned_of_bits; rewrite !ubits_of_bits; [| exact S].
    rewrite (Z.mod_small R) by lia. reflexivity.
  - rewrite gt_same; try apply wf_of_bits; rewrite ?unsigned_of_bits,
      ?isNegative_of_bits, ?ubits_of_bits; try reflexivity.
    + rewrite (Z.mod_small R) by lia. reflexivity.
    + cbn [negb andb]. apply Z.leb_gt. exact S.
    + cbn [negb andb]. apply Z.leb_gt. rewrite Z.mod_small by lia. lia.
Qed.

Lemma nonneg_of_bits (u : bool) R :
  0 <= R < (if u then 2 ^ 64 else 2 ^ 63) ->
  isNegative (of_bits R u) = false.
Proof.
  intros H. rewrite isNegative_of_bits. destruct u; [reflexivity |].
  cbn [negb andb]. apply Z.leb_gt. rewrite Z.mod_small by lia. lia.
Qed.

Lemma ubits_small (u : bool) R :
  0 <= R < (if u then 2 ^ 64 else 2 ^ 63) -> ubits (of_bits R u) = R.
Proof.
  intros H. rewrite ubits_of_bits. apply Z.mod_small. destruct u; lia.
Qed.

Section Division.

Variable w : bool.
Variable mlog : number -> number.
Hypothesis Hlog : log_accurate mlog.

(** One iteration of the outer loop takes a term [A] of at least one off
    the remainder, and no more than the remainder holds. *)
Lemma divide_loop_step this (u : bool) Q D R :
  unsigned this = u ->
  1 <= D < 2 ^ 32 -> D <= R -> R < (if u then 2 ^ 64 else 2 ^ 63) ->
  R < D * 2 ^ 62 ->
  exists A : Z,
    1 <= A /\ A * D <= R /\
    forall fuel,
      divide_loop w mlog (S (S (S (S (S fuel))))) this
                  (of_bits D u) (of_bits Q u) (of_bits R u)
      = divide_loop w mlog (S (S (S (S fuel)))) this
                    (of_bits D u) (of_bits (Q + A) u) (of_bits (R - A * D) u).
Proof.
  intros Hu HD HDR HR HRD.
  assert (R < 2 ^ 64) as R64 by (destruct u; lia).
  assert (0 <= D < (if u then 2 ^ 64 else 2 ^ 63)) as HD' by (destruct u; lia).
  destruct (approx_spec R D HD HDR ltac:(lia) HRD)
    as [A0 [EA [HA [Up [One G]]]]].
  destruct (delta_spec mlog A0 Hlog HA) as [d [Ed [Hd [Ud Dc]]]].
  assert (d = 1 \/ d * 2 ^ 46 < A0) as Dc' by (destruct Dc; [left | right]; tauto).
  destruct (rejects_spec u A0 d D R HD HDR HR HA Up One Hd Ud Dc')
    as [Acc Rej].
  assert (on_grid A0) as G0.
  { destruct G as [S | [M [E [HE [HM EM]]]]]; [left; exact S | right].
    exists M, E. repeat split; try assumption; lia. }
  assert (forall fuel,
    divide_loop w mlog (S (S (S (S (S fuel))))) this
                (of_bits D u) (of_bits Q u) (of_bits R u)
    = ' (approxRes, approxRem) <-
        (if rejects u ((A0 * D) mod 2 ^ 64) R then
           approxRes <- fromNumber (S (S (S fuel)))
                          (Num.sub (Fin (inject_Z A0)) (Fin (inject_Z d))) u ;;
           approxRem <- mul w (S (S (S fuel))) approxRes (of_bits D u) ;;
           divide_decrease w (S (S (S fuel))) this (of_bits D u) (of_bits R u)
             (Fin (inject_Z d))
             (Num.sub (Fin (inject_Z A0)) (Fin (inject_Z d)))
             approxRes approxRem
         else Ret (of_bits A0 false, of_bits (A0 * D) false)) ;;
      divide_loop w mlog (S (S (S (S fuel)))) this (of_bits D u)
        (add (of_bits Q u) (if isZero approxRes then ONE else approxRes))
        (sub (of_bits R u) approxRem)) as Head.
  { intros fuel. rewrite divide_loop_unfold.
    rewrite gte_same; try apply wf_of_bits;
      rewrite ?unsigned_of_bits, ?nonneg_of_bits by lia; try reflexivity.
    rewrite !ubits_small by lia.
    rewrite (proj2 (Z.leb_le D R) HDR). cbv zeta.
    rewrite !toNumber_nonneg; try apply wf_of_bits;
      rewrite ?nonneg_of_bits by lia; try reflexivity.
    rewrite !ubits_small by lia.
    rewrite EA, Ed.
    rewrite fromNumber_int by (try exact G0; cbv beta iota; lia).
    cbn [bind]. unfold mul.
    rewrite multiply_of_bits by (left; reflexivity). cbn [bind].
    rewrite divide_decrease_unfold, test_rejects by lia.
    rewrite Hu. reflexivity. }
  destruct (rejects u ((A0 * D) mod 2 ^ 64) R) eqn:C.
  - destruct (Rej eq_refl) as [H1 HP].
    destruct (decrease_on_grid A0 d G HA Hd Ud Dc H1) as [G1 Esub].
    assert (A0 - d <= (A0 - d) * D) as LP.
    { rewrite <- (Z.mul_1_r (A0 - d)) at 1.
      apply Z.mul_le_mono_nonneg_l; lia. }
    exists (A0 - d). split; [exact H1 |]. split; [exact HP |].
    intros fuel. rewrite Head, Esub.
    rewrite fromNumber_int by (try exact G1; lia).
    cbn [bind]. unfold mul.
    rewrite multiply_of_bits by (destruct u; [right | left]; reflexivity).
    cbn [bind]. rewrite divide_decrease_unfold.
    rewrite nonneg_of_bits by lia. cbn [orb].
    rewrite gt_same; try apply wf_of_bits;
      rewrite ?unsigned_of_bits, ?nonneg_of_bits by lia; try reflexivity.
    rewrite !ubits_small by lia.
    rewrite (proj2 (Z.ltb_ge R ((A0 - d) * D)) HP). cbn [bind].
    rewrite isZero_of_bits, Z.mod_small by lia.
    rewrite (proj2 (Z.eqb_neq (A0 - d) 0)) by lia.
    rewrite add_of_bits, sub_of_bits. reflexivity.
  - specialize (Acc eq_refl).
    exists A0. split; [lia |]. split; [exact Acc |].
    intros fuel. rewrite Head. cbn [bind].
    rewrite isZero_of_bits, Z.mod_small by lia.
    rewrite (proj2 (Z.eqb_neq A0 0)) by lia.
    rewrite add_of_bits, sub_of_bits. reflexivity.
Qed.

(** The loop ends, with the quotient added to the result. *)
Lemma divide_loop_spec this (u : bool) D :
  unsigned this = u -> 1 <= D < 2 ^ 32 ->
  forall R, 0 <= R -> R < (if u then 2 ^ 64 else 2 ^ 63) -> R < D * 2 ^ 62 ->
  forall Q, exists n : nat, forall fuel, (n <= fuel)%nat ->
    divide_loop w mlog fuel this (of_bits D u) (of_bits Q u) (of_bits R u)
    = Ret (of_bits (Q + R / D) u).
Proof.
  intros Hu HD R HR0. pattern R. revert R HR0.
  apply Zlt_0_ind. intros R IH HR0 HR HRD Q.
  destruct (Z.lt_ge_cases R D) as [Small | Large].
  - exists 1%nat. intros [| fuel] Hf; [lia |].
    rewrite divide_loop_unfold.
    rewrite gte_same; try apply wf_of_bits;
      rewrite ?unsigned_of_bits, ?nonneg_of_bits by (destruct u; lia);
      try reflexivity.
    rewrite !ubits_small by (destruct u; lia).
    rewrite (proj2 (Z.leb_gt D R) Small).
    rewrite Z.div_small, Z.add_0_r by lia. reflexivity.
  - destruct (divide_loop_step this u Q D R Hu HD Large HR HRD)
      as [A [HA [HP Step]]].
    assert (A * D >= 1) as P1.
    { apply Z.le_ge. change 1 with (1 * 1).
      apply Z.mul_le_mono_nonneg; lia. }
    destruct (IH (R - A * D) ltac:(lia) ltac:(lia) ltac:(lia) (Q + A))
      as [n Hn].
    exists (Nat.max (S n) 5). intros fuel Hf.
    destruct fuel as [| [| [| [| [| fuel]]]]]; try lia.
    rewrite Step, Hn by lia. f_equal. f_equal.
    replace R with ((R - A * D) + A * D) at 2 by ring.
    rewrite Z.div_add by lia. ring.
Qed.

End Division.

(** ** Shifts by one bit *)

Lemma testbit_toInt32 x i :
  0 <= i < 32 -> Z.testbit (Int32.toInt32 x) i = Z.testbit x i.
Proof.
  intros H. rewrite <- (Z.mod_pow2_bits_low (Int32.toInt32 x) 32 i) by lia.
  rewrite toInt32_mod. apply Z.mod_pow2_bits_low. lia.
Qed.

Lemma testbit_toUint32 x i :
  0 <= i -> Z.testbit (Int32.toUint32 x) i = (i <? 32) && Z.testbit x i.
Proof.
  intros H. unfold Int32.toUint32. destruct (Z.ltb_spec i 32).
  - rewrite Z.mod_pow2_bits_low by lia. reflexivity.
  - rewrite Z.mod_pow2_bits_high by lia. reflexivity.
Qed.

Lemma testbit_ubits v i :
  0 <= i ->
  Z.testbit (ubits v) i =
  if i <? 32 then Z.testbit (low v) i
  else (i <? 64) && Z.testbit (high v) (i - 32).
Proof.
  intros H. unfold ubits.
  rewrite (Z.mul_comm (2 ^ 32)), <- Z.shiftl_mul_pow2 by lia.
  rewrite <- Z.or_to_plus.
  - rewrite Z.lor_spec, Z.shiftl_spec, !testbit_toUint32 by lia.
    destruct (Z.ltb_spec i 32).
    + rewrite (Z.testbit_neg_r _ (i - 32)) by lia.
      rewrite orb_false_r. reflexivity.
    + rewrite testbit_toUint32 by lia. cbn [andb orb].
      destruct (Z.ltb_spec (i - 32) 32), (Z.ltb_spec i 64); try lia;
        reflexivity.
  - apply Z.bits_inj'. intros n Hn.
    rewrite Z.land_spec, Z.bits_0, Z.shiftl_spec, testbit_toUint32 by lia.
    destruct (Z.ltb_spec n 32); [| reflexivity].
    rewrite (Z.testbit_neg_r _ (n - 32)) by lia. apply andb_false_r.
Qed.

Lemma testbit_of_mod x i :
  0 <= i -> Z.testbit (x mod 2 ^ 64) i = (i <? 64) && Z.testbit x i.
Proof.
  intros H. destruct (Z.ltb_spec i 64).
  - rewrite Z.mod_pow2_bits_low by lia. reflexivity.
  - rewrite Z.mod_pow2_bits_high by lia. reflexivity.
Qed.

Lemma shru_1 v : wf v -> shru v 1 = of_bits (ubits v / 2) (unsigned v).
Proof.
  intros Hv. apply long_of_bits.
  - apply wf_fromBits.
  - reflexivity.
  - apply Z.bits_inj'. intros i Hi.
    rewrite testbit_of_mod, testbit_ubits by lia.
    replace (ubits v / 2) with (Z.shiftr (ubits v) 1)
      by (rewrite Z.shiftr_div_pow2 by lia; reflexivity).
    rewrite Z.shiftr_spec, testbit_ubits by lia.
    unfold shru, shiftRightUnsigned. change (Int32.and 1 63) with 1.
    cbv iota beta. change (1 =? 0) with false. change (1 <? 32) with true.
    cbv iota. cbn [low high fromBits new_Long].
    unfold Int32.or, Int32.shru, Int32.shl.
    change (Z.land 1 31) with 1. change (Z.land (32 - 1) 31) with 31.
    destruct (Z.ltb_spec i 32) as [L | L].
    + rewrite !testbit_toInt32, Z.lor_spec, !testbit_toInt32 by lia.
      rewrite Z.shiftr_spec, Z.shiftl_spec, testbit_toUint32 by lia.
      destruct (Z.ltb_spec (i + 1) 32) as [L1 | L1].
      * rewrite (Z.testbit_neg_r _ (i - 31)) by lia.
        rewrite (proj2 (Z.ltb_lt i 64)) by lia.
        rewrite orb_false_r. reflexivity.
      * assert (i = 31) as -> by lia. cbn [andb orb].
        rewrite testbit_toInt32 by lia. reflexivity.
    + destruct (Z.ltb_spec i 64) as [L6 | L6]; [| reflexivity].
      rewrite (proj2 (Z.ltb_ge (i + 1) 32)) by lia.
      rewrite !testbit_toInt32, Z.shiftr_spec, testbit_toUint32 by lia.
      replace (i + 1 - 32) with (i - 32 + 1) by lia.
      destruct (Z.ltb_spec (i - 32 + 1) 32), (Z.ltb_spec (i + 1) 64);
        try lia; reflexivity.
Qed.

Lemma shl_1 v : wf v -> shl v 1 = of_bits (2 * ubits v) (unsigned v).
Proof.
  intros Hv. apply long_of_bits.
  - apply wf_fromBits.
  - reflexivity.
  - apply Z.bits_inj'. intros i Hi.
    rewrite testbit_of_mod, testbit_ubits by lia.
    replace (2 * ubits v) with (Z.shiftl (ubits v) 1)
      by (rewrite Z.shiftl_mul_pow2 by lia; lia).
    rewrite Z.shiftl_spec by lia.
    unfold shl, shiftLeft. change (Int32.and 1 63) with 1.
    cbv iota beta. change (1 =? 0) with false. change (1 <? 32) with true.
    cbv iota. cbn [low high fromBits new_Long].
    unfold Int32.or, Int32.shru, Int32.shl.
    change (Z.land 1 31) with 1. change (Z.land (32 - 1) 31) with 31.
    destruct (Z.ltb_spec i 32) as [L | L].
    + rewrite !testbit_toInt32, Z.shiftl_spec, (proj2 (Z.ltb_lt i 64)) by lia.
      cbn [andb]. destruct (Z.eq_dec i 0) as [-> | NZ].
      * rewrite !Z.testbit_neg_r by lia. reflexivity.
      * rewrite testbit_toInt32, testbit_ubits by lia.
        rewrite (proj2 (Z.ltb_lt (i - 1) 32)) by lia. reflexivity.
    + destruct (Z.ltb_spec i 64) as [L6 | L6]; [| reflexivity].
      cbn [andb].
      rewrite !testbit_toInt32, Z.lor_spec, !testbit_toInt32 by lia.
      rewrite Z.shiftl_spec, Z.shiftr_spec, testbit_toUint32 by lia.
      rewrite testbit_ubits by lia.
      destruct (Z.eq_dec i 32) as [-> | N32].
      * rewrite Z.testbit_neg_r by lia. cbn [orb].
        change (32 - 32 + 31) with 31. change (32 - 1) with 31.
        reflexivity.
      * rewrite testbit_toInt32 by lia.
        rewrite (proj2 (Z.ltb_ge (i - 32 + 31) 32)) by lia.
        rewrite (proj2 (Z.ltb_ge (i - 1) 32)) by lia.
        rewrite (proj2 (Z.ltb_lt (i - 1) 64)) by lia.
        cbn [andb]. rewrite orb_false_r. f_equal. lia.
Qed.

(** ** Division *)

Lemma wasm_div_u_spec a b :
  ubits b <> 0 ->
  wasm_call Wasm.div_u a b = Ret (of_bits (ubits a / ubits b) (unsigned a)).
Proof.
  intros Hb. pose proof (ubits_range a) as Ra. pose proof (ubits_range b) as Rb.
  unfold wasm_call, Wasm.call. rewrite !operand_ubits. cbn [Wasm.exec].
  rewrite (proj2 (Z.eqb_neq (ubits b) 0) Hb).
  rewrite wasm_words; [reflexivity |].
  split; [apply Z.div_pos; lia |].
  apply Z.le_lt_trans with (ubits a); [| lia].
  apply Z.div_le_upper_bound; [lia |]. nia.
Qed.

Lemma wasm_div_s_spec a b :
  ubits b <> 0 -> Wasm.signed (ubits b) <> -1 ->
  wasm_call Wasm.div_s a b
  = Ret (of_bits (Z.quot (Wasm.signed (ubits a)) (Wasm.signed (ubits b)))
                 (unsigned a)).
Proof.
  intros Hb Hm.
  unfold wasm_call, Wasm.call. rewrite !operand_ubits. cbn [Wasm.exec].
  rewrite (proj2 (Z.eqb_neq (ubits b) 0) Hb).
  rewrite (proj2 (Z.eqb_neq (Wasm.signed (ubits b)) (-1)) Hm).
  rewrite andb_false_r.
  rewrite wasm_words by (apply Z.mod_pos_bound; lia).
  rewrite of_bits_mod. reflexivity.
Qed.

Lemma ZERO_of_bits : ZERO = of_bits 0 false.
Proof. reflexivity. Qed.

Lemma UZERO_of_bits : UZERO = of_bits 0 true.
Proof. reflexivity. Qed.

Lemma ONE_of_bits : ONE = of_bits 1 false.
Proof. reflexivity. Qed.

Lemma UONE_of_bits : UONE = of_bits 1 true.
Proof. reflexivity. Qed.

Lemma NEG_ONE_of_bits : NEG_ONE = of_bits (-1) false.
Proof. reflexivity. Qed.

Lemma MIN_VALUE_of_bits : MIN_VALUE = of_bits (- 2 ^ 63) false.
Proof. reflexivity. Qed.

Lemma eq_of_bits x y (u : bool) :
  eq (of_bits x u) (of_bits y u) = (x mod 2 ^ 64 =? y mod 2 ^ 64).
Proof.
  unfold eq. rewrite equals_same_flag by (rewrite !unsigned_of_bits; reflexivity).
  rewrite words_eq_ubits by apply wf_of_bits.
  rewrite !ubits_of_bits. reflexivity.
Qed.

Section DivisionSpec.

Variable mlog : number -> number.
Hypothesis Hlog : log_accurate mlog.

(** The emulated division of a non-negative dividend by a small positive
    divisor of the same signedness. *)
Lemma divide_emulated_nonneg (u : bool) R D :
  0 <= R < (if u then 2 ^ 64 else 2 ^ 63) -> 1 <= D < 2 ^ 32 ->
  R < D * 2 ^ 62 ->
  returns (fun fuel => divide false mlog fuel (of_bits R u) (of_bits D u))
          (of_bits (R / D) u).
Proof.
  intros HR HD HRD.
  assert (R < 2 ^ 64) as R64 by (destruct u; lia).
  assert (0 <= D < (if u then 2 ^ 64 else 2 ^ 63)) as HD' by (destruct u; lia).
  destruct (divide_loop_spec false mlog Hlog (of_bits R u) u D
              (unsigned_of_bits _ _) HD R ltac:(lia) ltac:(lia) HRD 0)
    as [n Hn].
  exists (S n). intros [| fuel] Hf; [lia |].
  cbn [divide]. rewrite !isZero_of_bits, !Z.mod_small by lia.
  rewrite (proj2 (Z.eqb_neq D 0)) by lia.
  destruct (Z.eqb_spec R 0) as [-> | NZ].
  { rewrite unsigned_of_bits, Z.div_0_l by lia.
    destruct u; reflexivity. }
  rewrite !unsigned_of_bits. destruct u; cbn [negb].
  - rewrite gt_same; try apply wf_of_bits;
      rewrite ?unsigned_of_bits, ?nonneg_of_bits by lia; try reflexivity.
    rewrite !ubits_small by lia.
    destruct (Z.ltb_spec R D) as [Small | Large].
    { rewrite Z.div_small by lia. reflexivity. }
    rewrite shru_1, unsigned_of_bits, ubits_small by (try apply wf_of_bits; lia).
    assert (0 <= R / 2 < 2 ^ 64) as H2
      by (split; [apply Z.div_pos; lia | apply Z.div_lt_upper_bound; lia]).
    rewrite gt_same; try apply wf_of_bits;
      rewrite ?unsigned_of_bits, ?nonneg_of_bits by lia; try reflexivity.
    rewrite !ubits_small by lia.
    destruct (Z.ltb_spec (R / 2) D) as [Half | Twice].
    + assert (R / D = 1) as ->; [| reflexivity].
      symmetry. apply Z.div_unique with (R - D); [left | ring].
      split; [lia |].
      pose proof (Z.div_mod R 2 ltac:(lia)) as E.
      pose proof (Z.mod_pos_bound R 2 ltac:(lia)). lia.
    + rewrite UZERO_of_bits, Hn by lia. reflexivity.
  - rewrite !eq_MIN_VALUE_ubits by apply wf_of_bits.
    rewrite !unsigned_of_bits, !ubits_small by lia. cbn [negb andb].
    rewrite (proj2 (Z.eqb_neq R (2 ^ 63))) by lia.
    rewrite (proj2 (Z.eqb_neq D (2 ^ 63))) by lia.
    rewrite !nonneg_of_bits by lia.
    rewrite ZERO_of_bits, Hn by lia. reflexivity.
Qed.

(** A negative dividend is negated, divided and the quotient negated. *)
Lemma divide_emulated_neg R D :
  0 <= R < 2 ^ 63 -> 1 <= D < 2 ^ 32 -> R < D * 2 ^ 62 ->
  returns (fun fuel => divide false mlog fuel (of_bits (- R) false)
                              (of_bits D false))
          (of_bits (- (R / D)) false).
Proof.
  intros HR HD HRD.
  destruct (divide_emulated_nonneg false R D HR HD HRD) as [n Hn].
  destruct (Z.eq_dec R 0) as [-> | NZ].
  { exists n. intros fuel Hf. rewrite Z.div_0_l in * by lia. apply Hn, Hf. }
  assert ((- R) mod 2 ^ 64 = 2 ^ 64 - R) as M
    by (symmetry; apply Z.mod_unique with (-1); lia).
  exists (S n). intros [| fuel] Hf; [lia |].
  cbn [divide]. rewrite !isZero_of_bits, M, (Z.mod_small D) by lia.
  rewrite (proj2 (Z.eqb_neq D 0)) by lia.
  rewrite (proj2 (Z.eqb_neq (2 ^ 64 - R) 0)) by lia.
  rewrite unsigned_of_bits. cbn [negb].
  rewrite !eq_MIN_VALUE_ubits by apply wf_of_bits.
  rewrite !unsigned_of_bits, !ubits_of_bits, M, (Z.mod_small D) by lia.
  cbn [negb andb].
  rewrite (proj2 (Z.eqb_neq (2 ^ 64 - R) (2 ^ 63))) by lia.
  rewrite (proj2 (Z.eqb_neq D (2 ^ 63))) by lia.
  rewrite !isNegative_of_bits, M, (Z.mod_small D) by lia. cbn [negb andb].
  rewrite (proj2 (Z.leb_le (2 ^ 63) (2 ^ 64 - R))) by lia.
  rewrite (proj2 (Z.leb_gt (2 ^ 63) D)) by lia.
  rewrite neg_of_bits, Z.opp_involutive, Hn by lia. cbn [bind].
  rewrite neg_of_bits. reflexivity.
Qed.

Lemma shr_MIN_VALUE : shr (of_bits (- 2 ^ 63) false) 1 = of_bits (- 2 ^ 62) false.
Proof. reflexivity. Qed.

Lemma shl_1_of_bits x (u : bool) : shl (of_bits x u) 1 = of_bits (2 * x) u.
Proof.
  rewrite shl_1, ubits_of_bits, unsigned_of_bits by apply wf_of_bits.
  apply of_bits_eq. rewrite Z.mul_mod_idemp_r by lia. reflexivity.
Qed.

Lemma multiply_returns w fuel x y (u u' : bool) :
  (3 <= fuel)%nat -> u = false \/ u' = true ->
  multiply w fuel (of_bits x u) (of_bits y u') = Ret (of_bits (x * y) u).
Proof.
  intros Hf H. destruct fuel as [| [| [| fuel]]]; try lia.
  apply multiply_of_bits, H.
Qed.

(** The least signed value is halved first, and the rest divided. *)
Lemma divide_emulated_MIN D :
  2 <= D < 2 ^ 32 ->
  returns (fun fuel => divide false mlog fuel MIN_VALUE (of_bits D false))
          (of_bits (- (2 ^ 63 / D)) false).
Proof.
  intros HD. set (c := 2 ^ 62 / D). set (r := 2 ^ 62 mod D).
  pose proof (Z.div_mod (2 ^ 62) D ltac:(lia)) as E. fold c r in E.
  pose proof (Z.mod_pos_bound (2 ^ 62) D ltac:(lia)) as Hr. fold r in Hr.
  assert (2 ^ 29 <= c <= 2 ^ 61) as Hc.
  { split.
    - apply Z.div_le_lower_bound; lia.
    - apply Z.div_le_upper_bound; lia. }
  destruct (divide_emulated_neg (2 ^ 62) D ltac:(lia) ltac:(lia) ltac:(lia))
    as [n1 H1]. fold c in H1.
  destruct (divide_emulated_neg (2 * r) D ltac:(lia) ltac:(lia) ltac:(lia))
    as [n2 H2].
  exists (S (Nat.max (Nat.max n1 n2) 3)). intros [| fuel] Hf; [lia |].
  rewrite MIN_VALUE_of_bits. cbn [divide].
  rewrite MIN_VALUE_of_bits, ONE_of_bits, NEG_ONE_of_bits, ZERO_of_bits.
  rewrite !isZero_of_bits, !eq_of_bits, unsigned_of_bits, (Z.mod_small D)
    by lia.
  change ((- 2 ^ 63) mod 2 ^ 64) with (2 ^ 63).
  change (1 mod 2 ^ 64) with 1. change (-1 mod 2 ^ 64) with (2 ^ 64 - 1).
  change (2 ^ 63 =? 0) with false. rewrite (Z.eqb_refl (2 ^ 63)).
  rewrite (proj2 (Z.eqb_neq D 0)) by lia.
  rewrite (proj2 (Z.eqb_neq D 1)) by lia.
  rewrite (proj2 (Z.eqb_neq D (2 ^ 64 - 1))) by lia.
  rewrite (proj2 (Z.eqb_neq D (2 ^ 63))) by lia.
  cbn [negb orb andb Z.eqb Pos.eqb].
  rewrite shr_MIN_VALUE, H1 by lia. cbn [bind].
  rewrite shl_1_of_bits, eq_of_bits.
  assert ((2 * - c) mod 2 ^ 64 = 2 ^ 64 - 2 * c) as M
    by (symmetry; apply Z.mod_unique with (-1); lia).
  rewrite M. change (0 mod 2 ^ 64) with 0.
  rewrite (proj2 (Z.eqb_neq (2 ^ 64 - 2 * c) 0)) by lia.
  unfold mul. rewrite multiply_returns by (try lia; left; reflexivity).
  cbn [bind]. rewrite sub_of_bits.
  replace (- 2 ^ 63 - D * (2 * - c)) with (- (2 * r)) by lia.
  rewrite H2 by lia. cbn [bind]. rewrite add_of_bits.
  do 2 f_equal.
  replace (2 ^ 63) with (2 * r + (2 * c) * D) by lia.
  rewrite Z.div_add by lia. ring.
Qed.

End DivisionSpec.

Lemma high_small D (u : bool) : 0 <= D < 2 ^ 32 -> high (of_bits D u) = 0.
Proof.
  intros H. unfold of_bits, fromBits, new_Long. cbn [high].
  rewrite Z.shiftr_div_pow2, Z.div_small by lia. reflexivity.
Qed.

(** Both ways of dividing agree on the divisions [toString] makes. *)
Lemma divide_nonneg_spec w mlog (u : bool) R D :
  (w = false -> log_accurate mlog) ->
  0 <= R < (if u then 2 ^ 64 else 2 ^ 63) -> 1 <= D < 2 ^ 32 ->
  R < D * 2 ^ 62 ->
  returns (fun fuel => divide w mlog fuel (of_bits R u) (of_bits D u))
          (of_bits (R / D) u).
Proof.
  intros Hlog HR HD HRD. destruct w.
  2:{ apply divide_emulated_nonneg; auto. }
  assert (R < 2 ^ 64) as R64 by (destruct u; lia).
  exists 1%nat. intros [| fuel] Hf; [lia |].
  cbn [divide]. rewrite isZero_of_bits, Z.mod_small by lia.
  rewrite (proj2 (Z.eqb_neq D 0)) by lia.
  rewrite (high_small D) by lia. change (0 =? -1) with false.
  rewrite andb_false_r, unsigned_of_bits.
  destruct u.
  - rewrite wasm_div_u_spec; rewrite ?ubits_of_bits, ?Z.mod_small by lia;
      [reflexivity | lia].
  - rewrite wasm_div_s_spec; rewrite ?ubits_of_bits, ?Z.mod_small by lia;
      rewrite ?signed_small by lia; try lia.
    rewrite Z.quot_div_nonneg by lia. reflexivity.
Qed.

Lemma divide_MIN_spec w mlog D :
  (w = false -> log_accurate mlog) -> 2 <= D < 2 ^ 32 ->
  returns (fun fuel => divide w mlog fuel MIN_VALUE (of_bits D false))
          (of_bits (- (2 ^ 63 / D)) false).
Proof.
  intros Hlog HD. destruct w.
  2:{ apply divide_emulated_MIN; auto. }
  exists 1%nat. intros [| fuel] Hf; [lia |].
  cbn [divide]. rewrite isZero_of_bits, Z.mod_small by lia.
  rewrite (proj2 (Z.eqb_neq D 0)) by lia.
  rewrite (high_small D) by lia. change (0 =? -1) with false.
  rewrite andb_false_r. change (unsigned MIN_VALUE) with false. cbv iota.
  rewrite wasm_div_s_spec; rewrite ?ubits_of_bits, ?Z.mod_small by lia;
    rewrite ?(signed_small D) by lia; try lia.
  rewrite ubits_MIN_VALUE. change (Wasm.signed (2 ^ 63)) with (- 2 ^ 63).
  rewrite Z.quot_opp_l, Z.quot_div_nonneg by lia. reflexivity.
Qed.

(** ** Digits *)

Lemma code_range c : 0 <= code c < 256.
Proof.
  unfold code. pose proof (nat_ascii_bounded c). lia.
Qed.

Lemma code_digitChar d :
  0 <= d < 36 -> code (JS.digitChar d) = if d <? 10 then 48 + d else 87 + d.
Proof.
  intros H. unfold code, JS.digitChar.
  rewrite nat_ascii_embedding; destruct (Z.ltb_spec d 10); lia.
Qed.

Lemma digitValue_code c :
  JS.digitValue c =
  if (48 <=? code c) && (code c <=? 57) then Some (code c - 48)
  else if (97 <=? code c) && (code c <=? 122) then Some (code c - 87)
  else if (65 <=? code c) && (code c <=? 90) then Some (code c - 55)
  else None.
Proof. reflexivity. Qed.

(** What a digit of [toString] is: a character from 0 to 9 or from a to
    z, of a value below the radix. *)
Lemma lower_digit_code r c :
  r <= 36 -> lower_digit r c = true ->
  JS.digitValue c = Some (digit_of c) /\ 0 <= digit_of c < r
  /\ code c = (if digit_of c <? 10 then 48 + digit_of c else 87 + digit_of c).
Proof.
  intros Hr. unfold lower_digit, digit_of.
  destruct (JS.digitValue c) as [d |] eqn:E; [| discriminate].
  intros H. apply andb_prop in H. destruct H as [Hd Hc].
  apply Z.ltb_lt in Hd. apply Ascii.eqb_eq in Hc.
  pose proof (code_range c) as Rc. rewrite digitValue_code in E.
  assert (0 <= d < 36) as R36.
  { destruct ((48 <=? code c) && (code c <=? 57)) eqn:C1;
      [injection E as <-; lia |].
    destruct ((97 <=? code c) && (code c <=? 122)) eqn:C2;
      [injection E as <-; lia |].
    destruct ((65 <=? code c) && (code c <=? 90)) eqn:C3;
      [injection E as <-; lia | discriminate]. }
  split; [reflexivity |]. split; [lia |].
  rewrite Hc at 1. apply code_digitChar. exact R36.
Qed.

Lemma lower_digit_digitChar r d :
  0 <= d < r -> r <= 36 ->
  lower_digit r (JS.digitChar d) = true /\ digit_of (JS.digitChar d) = d.
Proof.
  intros Hd Hr. pose proof (code_digitChar d ltac:(lia)) as C.
  unfold lower_digit, digit_of. rewrite digitValue_code, C.
  destruct (Z.ltb_spec d 10).
  - rewrite (proj2 (Z.leb_le 48 (48 + d))), (proj2 (Z.leb_le (48 + d) 57))
      by lia. cbn [andb].
    replace (48 + d - 48) with d by lia.
    rewrite (proj2 (Z.ltb_lt d r)), Ascii.eqb_refl by lia. split; reflexivity.
  - rewrite (proj2 (Z.leb_gt (87 + d) 57)) by lia. rewrite andb_false_r.
    rewrite (proj2 (Z.leb_le 97 (87 + d))), (proj2 (Z.leb_le (87 + d) 122))
      by lia. cbn [andb].
    replace (87 + d - 87) with d by lia.
    rewrite (proj2 (Z.ltb_lt d r)), Ascii.eqb_refl by lia. split; reflexivity.
Qed.

Lemma lower_digit_zero r : 2 <= r <= 36 -> lower_digit r "0" = true.
Proof.
  intros H. change "0"%char with (JS.digitChar 0).
  apply lower_digit_digitChar; lia.
Qed.

Lemma lower_digit_code_cases r c :
  r <= 36 -> lower_digit r c = true ->
  48 <= code c <= 57 \/ 97 <= code c <= 122.
Proof.
  intros Hr H. destruct (lower_digit_code r c Hr H) as [_ [R C]].
  destruct (Z.ltb_spec (digit_of c) 10); lia.
Qed.

(** ** Values of digit strings *)

Lemma val_acc_app r s1 s2 a :
  val_acc r (s1 ++ s2)%string a = val_acc r s2 (val_acc r s1 a).
Proof.
  revert a. induction s1 as [| c s1 IH]; intros a; [reflexivity |].
  cbn [String.append val_acc]. apply IH.
Qed.

Lemma val_acc_shift r s a :
  val_acc r s a = a * r ^ Z.of_nat (String.length s) + val_acc r s 0.
Proof.
  revert a. induction s as [| c s IH]; intros a.
  - cbn [val_acc String.length]. change (r ^ Z.of_nat 0) with 1. lia.
  - cbn [val_acc String.length]. rewrite (IH (a * r + digit_of c)).
    rewrite (IH (0 * r + digit_of c)).
    rewrite Nat2Z.inj_succ, Z.pow_succ_r by lia. ring.
Qed.

Lemma val_bound r s :
  2 <= r <= 36 -> digit_string r s = true ->
  0 <= val r s < r ^ Z.of_nat (String.length s).
Proof.
  intros Hr. unfold val. induction s as [| c s IH]; intros H.
  - cbn. lia.
  - cbn [digit_string] in H. apply andb_prop in H. destruct H as [Hc Hs].
    destruct (lower_digit_code r c ltac:(lia) Hc) as [_ [Rc _]].
    specialize (IH Hs). cbn [val_acc String.length].
    rewrite val_acc_shift. rewrite Nat2Z.inj_succ, Z.pow_succ_r by lia.
    set (p := r ^ Z.of_nat (String.length s)) in *.
    replace (0 * r + digit_of c) with (digit_of c) by ring.
    assert (0 < p) by (apply Z.pow_pos_nonneg; lia).
    split; [nia |].
    assert (digit_of c * p <= (r - 1) * p)
      by (apply Z.mul_le_mono_nonneg_r; lia). lia.
Qed.

Lemma digit_string_app r s1 s2 :
  digit_string r (s1 ++ s2)%string = digit_string r s1 && digit_string r s2.
Proof.
  induction s1 as [| c s1 IH]; [reflexivity |].
  cbn [String.append digit_string]. rewrite IH. apply andb_assoc.
Qed.

Lemma length_app s1 s2 :
  String.length (s1 ++ s2)%string = (String.length s1 + String.length s2)%nat.
Proof.
  induction s1 as [| c s1 IH]; [reflexivity |].
  cbn [String.append String.length]. rewrite IH. reflexivity.
Qed.

Lemma app_assoc_string s1 s2 s3 :
  ((s1 ++ s2) ++ s3 = s1 ++ (s2 ++ s3))%string.
Proof.
  induction s1 as [| c s1 IH]; [reflexivity |].
  cbn [String.append]. rewrite IH. reflexivity.
Qed.

(** ** [Number.prototype.toString] *)

Lemma digits_spec r :
  2 <= r <= 36 ->
  forall fuel n acc k,
    0 <= n < 2 ^ Z.of_nat fuel -> (1 <= fuel)%nat -> n < r ^ k -> 1 <= k ->
    exists pre,
      JS.digits fuel n r acc = (pre ++ acc)%string
      /\ digit_string r pre = true /\ val r pre = n
      /\ 1 <= Z.of_nat (String.length pre) <= k.
Proof.
  intros Hr. induction fuel as [| fuel IH]; intros n acc k Hn Hf Hk Hk1;
    [lia |].
  cbn [JS.digits].
  pose proof (Z.div_mod n r ltac:(lia)) as E.
  pose proof (Z.mod_pos_bound n r ltac:(lia)) as Hm.
  destruct (lower_digit_digitChar r (n mod r) Hm ltac:(lia)) as [Ld Dv].
  destruct (Z.eqb_spec (n / r) 0) as [Z0 | NZ].
  - exists (String (JS.digitChar (n mod r)) ""). 
    split; [reflexivity |]. split; [cbn [digit_string]; rewrite Ld; reflexivity |].
    split; [| cbn [String.length]; lia].
    unfold val. cbn [val_acc]. rewrite Dv. lia.
  - assert (0 < n / r) as Pq.
    { assert (0 <= n / r) by (apply Z.div_pos; lia). lia. }
    rewrite Nat2Z.inj_succ, Z.pow_succ_r in Hn by lia.
    assert (2 <= k) as K2.
    { destruct (Z.eq_dec k 1) as [-> |]; [| lia].
      rewrite Z.pow_1_r in Hk. rewrite Z.div_small in Pq; lia. }
    assert (n / r < r ^ (k - 1)) as Hq.
    { apply Z.div_lt_upper_bound; [lia |].
      rewrite <- Z.pow_succ_r by lia. replace (Z.succ (k - 1)) with k by lia.
      exact Hk. }
    assert (n / r < 2 ^ Z.of_nat fuel) as Hq2.
    { apply Z.div_lt_upper_bound; [lia |].
      assert (0 < 2 ^ Z.of_nat fuel) by (apply Z.pow_pos_nonneg; lia). nia. }
    assert (1 <= fuel)%nat as F1.
    { destruct fuel; [| lia]. change (2 ^ Z.of_nat 0) with 1 in Hq2. lia. }
    destruct (IH (n / r) (String (JS.digitChar (n mod r)) acc) (k - 1)
                ltac:(lia) F1 Hq ltac:(lia)) as [pre [E1 [D1 [V1 L1]]]].
    exists (pre ++ String (JS.digitChar (n mod r)) "")%string.
    split; [rewrite E1, app_assoc_string; reflexivity |].
    split.
    { rewrite digit_string_app, D1. cbn [digit_string]. rewrite Ld.
      reflexivity. }
    split.
    { unfold val in *. rewrite val_acc_app, V1. cbn [val_acc]. rewrite Dv.
      lia. }
    rewrite length_app. cbn [String.length]. lia.
Qed.

Lemma Number_toString_spec r n k :
  2 <= r <= 36 -> 0 <= n < r ^ k -> 1 <= k ->
  digit_string r (JS.Number_toString n r) = true
  /\ val r (JS.Number_toString n r) = n
  /\ 1 <= Z.of_nat (String.length (JS.Number_toString n r)) <= k.
Proof.
  intros Hr Hn Hk. unfold JS.Number_toString.
  destruct (Z.eqb_spec n 0) as [-> | NZ].
  - split; [| split; [reflexivity | cbn; lia]].
    cbn [digit_string]. rewrite lower_digit_zero by lia. reflexivity.
  - rewrite (proj2 (Z.ltb_ge n 0)) by lia.
    destruct (digits_spec r Hr (S (Z.to_nat (Z.log2 n))) n ""%string k)
      as [pre [E [D [V L]]]]; try lia.
    + rewrite Nat2Z.inj_succ, Z2Nat.id by apply Z.log2_nonneg.
      pose proof (Z.log2_spec n ltac:(lia)). lia.
    + rewrite E. 
      assert ((pre ++ "")%string = pre) as ->.
      { clear. induction pre as [| c p IH]; [reflexivity |].
        cbn [String.append]. rewrite IH. reflexivity. }
      auto.
Qed.

(** ** Padding *)

Lemma pad_spec r :
  2 <= r <= 36 ->
  forall n s,
    (String.length s <= 6)%nat -> (6 - String.length s <= n)%nat ->
    digit_string r s = true ->
    digit_string r (pad n s) = true /\ val r (pad n s) = val r s
    /\ String.length (pad n s) = 6%nat.
Proof.
  intros Hr. induction n as [| n IH]; intros s L6 Ln D.
  - cbn [pad]. repeat split; [exact D | lia].
  - cbn [pad]. unfold JS.length.
    destruct (Z.ltb_spec (Z.of_nat (String.length s)) 6) as [Lt | Ge].
    + destruct (IH (String "0" s)) as [D1 [V1 L1]].
      * cbn [String.length]. lia.
      * cbn [String.length]. lia.
      * cbn [digit_string]. rewrite D, lower_digit_zero by lia.
        reflexivity.
      * repeat split; [exact D1 | | exact L1].
        rewrite V1. unfold val. cbn [val_acc]. reflexivity.
    + repeat split; [exact D | lia].
Qed.

(** ** [parseInt] on digit strings *)

Lemma not_space c : 48 <= code c <= 122 -> JS.isWhiteSpace c = false.
Proof.
  intros H. unfold JS.isWhiteSpace. change (Z.of_nat (nat_of_ascii c)) with (code c).
  cbv zeta.
  rewrite (proj2 (Z.leb_gt (code c) 13)), (proj2 (Z.eqb_neq (code c) 32)),
    (proj2 (Z.eqb_neq (code c) 160)) by lia.
  rewrite andb_false_r. reflexivity.
Qed.

Lemma sign_skip c s :
  c <> "-"%char -> c <> "+"%char ->
  match String c s with
  | String "-"%char r => (-1, r)
  | String "+"%char r => (1, r)
  | _ => (1, String c s)
  end = (1, String c s).
Proof.
  intros H1 H2.
  destruct c as [[] [] [] [] [] [] [] []]; try reflexivity; congruence.
Qed.

Lemma prefix_skip c s :
  digit_string 16 (String c s) = true ->
  match String c s with
  | String "0"%char (String "x"%char r) => (16, r)
  | String "0"%char (String "X"%char r) => (16, r)
  | _ => (16, String c s)
  end = (16, String c s).
Proof.
  intros H.
  destruct c as [[] [] [] [] [] [] [] []]; try reflexivity.
  destruct s as [| c2 s]; [reflexivity |].
  destruct c2 as [[] [] [] [] [] [] [] []]; try reflexivity;
    vm_compute in H; discriminate.
Qed.

Lemma parseDigits_spec r s a :
  r <= 36 -> digit_string r s = true ->
  JS.parseDigits r s (Some a) = Some (val_acc r s a).
Proof.
  intros Hr. revert a. induction s as [| c s IH]; intros a H; [reflexivity |].
  cbn [digit_string] in H. apply andb_prop in H. destruct H as [Hc Hs].
  destruct (lower_digit_code r c Hr Hc) as [E [R _]].
  cbn [JS.parseDigits val_acc]. rewrite E.
  rewrite (proj2 (Z.ltb_lt (digit_of c) r)) by lia. apply IH, Hs.
Qed.

Lemma parseInt_digits r s :
  2 <= r <= 36 -> s <> ""%string -> digit_string r s = true ->
  JS.parseInt s r = Num.of_Z (val r s).
Proof.
  intros Hr NE D. destruct s as [| c s]; [congruence |].
  pose proof D as D'.
  cbn [digit_string] in D. apply andb_prop in D. destruct D as [Hc Hs].
  destruct (lower_digit_code r c ltac:(lia) Hc) as [E [R _]].
  pose proof (lower_digit_code_cases r c ltac:(lia) Hc) as Cc.
  unfold JS.parseInt. cbn [JS.trimStart].
  rewrite not_space by lia.
  rewrite sign_skip.
  2:{ intros ->. change (code "-") with 45 in Cc. lia. }
  2:{ intros ->. change (code "+") with 43 in Cc. lia. }
  rewrite toInt32_id by (unfold Int32.is_int32; lia).
  rewrite (proj2 (Z.eqb_neq r 0)) by lia.
  rewrite (proj2 (Z.ltb_ge r 2)), (proj2 (Z.ltb_ge 36 r)) by lia.
  cbn [negb andb orb].
  assert ((if r =? 16
           then match String c s with
                | String "0"%char (String "x"%char r0) => (16, r0)
                | String "0"%char (String "X"%char r0) => (16, r0)
                | _ => (r, String c s)
                end
           else (r, String c s)) = (r, String c s)) as ->.
  { destruct (Z.eqb_spec r 16) as [-> |]; [| reflexivity].
    apply prefix_skip. exact D'. }
  cbn [JS.parseDigits]. rewrite E.
  rewrite (proj2 (Z.ltb_lt (digit_of c) r)) by lia.
  rewrite parseDigits_spec by (try exact Hs; lia).
  rewrite Z.mul_1_l. unfold val. cbn [val_acc]. reflexivity.
Qed.

(** ** Substrings *)

Lemma take_drop k s : (take k s ++ drop k s)%string = s.
Proof.
  revert s. induction k as [| k IH]; intros [| c s]; try reflexivity.
  cbn [take drop String.append]. rewrite IH. reflexivity.
Qed.

Lemma length_take k s :
  String.length (take k s) = Nat.min k (String.length s).
Proof.
  revert s. induction k as [| k IH]; intros [| c s]; try reflexivity.
  cbn [take String.length]. rewrite IH. reflexivity.
Qed.

Lemma length_drop k s :
  String.length (drop k s) = (String.length s - k)%nat.
Proof.
  revert s. induction k as [| k IH]; intros [| c s]; try reflexivity.
  cbn [drop String.length]. rewrite IH. reflexivity.
Qed.

Lemma take_all k s : (String.length s <= k)%nat -> take k s = s.
Proof.
  revert s. induction k as [| k IH]; intros [| c s] H; try reflexivity.
  - cbn [String.length] in H. lia.
  - cbn [take]. rewrite IH; [reflexivity | cbn [String.length] in H; lia].
Qed.

Lemma substring_take k s : String.substring 0 k s = take k s.
Proof.
  revert s. induction k as [| k IH]; intros [| c s]; try reflexivity.
  cbn [String.substring take]. rewrite IH. reflexivity.
Qed.

Lemma substring_skip pre k s :
  String.substring (String.length pre) k (pre ++ s) = String.substring 0 k s.
Proof.
  induction pre as [| c pre IH]; [reflexivity |].
  cbn [String.length String.append String.substring]. exact IH.
Qed.

Lemma JS_substring_chunk pre s k :
  (k <= String.length s)%nat ->
  JS.substring (pre ++ s) (Z.of_nat (String.length pre))
               (Z.of_nat (String.length pre) + Z.of_nat k)
  = take k s.
Proof.
  intros H. unfold JS.substring, JS.length. cbv zeta.
  rewrite length_app, Nat2Z.inj_add.
  set (i := Z.of_nat (String.length pre)).
  assert (0 <= i) by (unfold i; lia).
  rewrite (Z.max_l i 0), (Z.max_l (i + Z.of_nat k) 0) by lia.
  rewrite (Z.min_l i), (Z.min_l (i + Z.of_nat k)) by lia.
  rewrite (Z.min_l i), (Z.max_r i) by lia.
  replace (i + Z.of_nat k - i) with (Z.of_nat k) by lia.
  unfold i. rewrite !Nat2Z.id, substring_skip. apply substring_take.
Qed.

Lemma digit_string_take r k s :
  digit_string r s = true -> digit_string r (take k s) = true.
Proof.
  revert s. induction k as [| k IH]; intros [| c s] H; try reflexivity.
  cbn [digit_string take] in *. apply andb_prop in H. destruct H as [Hc Hs].
  rewrite Hc, (IH s Hs). reflexivity.
Qed.

Lemma digit_string_drop r k s :
  digit_string r s = true -> digit_string r (drop k s) = true.
Proof.
  revert s. induction k as [| k IH]; intros [| c s] H; try exact H.
  cbn [digit_string drop] in *. apply andb_prop in H. destruct H as [Hc Hs].
  apply IH, Hs.
Qed.

(** ** [fromString] on digit strings *)

Lemma pow_int b j :
  0 <= j -> 0 <= b ^ j < 2 ^ 53 -> Num.pow b j = Fin (inject_Z (b ^ j)).
Proof.
  intros Hj H. unfold Num.pow.
  rewrite (fl_compat _ (inject_Z (b ^ j)))
    by (symmetry; apply (Zpower_Qpower b j); lia).
  apply fl_int. exact H.
Qed.

Lemma pow_radix_bound r j :
  2 <= r <= 36 -> 0 <= j <= 8 -> 0 < r ^ j < 2 ^ 53.
Proof.
  intros Hr Hj. split; [apply Z.pow_pos_nonneg; lia |].
  apply Z.le_lt_trans with (36 ^ 8); [| reflexivity].
  apply Z.le_trans with (36 ^ j).
  - apply Z.pow_le_mono_l. lia.
  - apply Z.pow_le_mono_r; lia.
Qed.

Lemma fromNumber_returns fuel A (u : bool) :
  (1 <= fuel)%nat ->
  0 <= A < (if u then 2 ^ 64 else 2 ^ 63) -> on_grid A ->
  fromNumber fuel (Fin (inject_Z A)) u = Ret (of_bits A u).
Proof.
  intros Hf. destruct fuel as [| fuel]; [lia |]. apply fromNumber_int.
Qed.

Lemma fromString_loop_unfold w fuel str radix rtp i result :
  fromString_loop w (S fuel) str radix rtp i result =
  if i <? JS.length str then
    let size := Z.min 8 (JS.length str - i) in
    let value := JS.parseInt (JS.substring str i (i + size)) radix in
    if size <? 8 then
      power <- fromNumber fuel (Num.pow radix size) false ;;
      m <- mul w fuel result power ;;
      v <- fromNumber fuel value false ;;
      fromString_loop w fuel str radix rtp (i + 8) (add m v)
    else
      m <- mul w fuel result rtp ;;
      v <- fromNumber fuel value false ;;
      fromString_loop w fuel str radix rtp (i + 8) (add m v)
  else Ret result.
Proof. reflexivity. Qed.

Lemma nonempty_length s : s <> ""%string -> (1 <= String.length s)%nat.
Proof. destruct s; [congruence | cbn; lia]. Qed.

(** The loop reads the digits eight at a time. *)
Lemma fromString_loop_spec w r :
  2 <= r <= 36 ->
  forall m rest pre acc fuel,
    (String.length rest <= m)%nat -> digit_string r rest = true ->
    (m + 4 <= fuel)%nat ->
    fromString_loop w fuel (pre ++ rest) r (of_bits (r ^ 8) false)
                    (Z.of_nat (String.length pre)) (of_bits acc false)
    = Ret (of_bits (val_acc r rest acc) false).
Proof.
  intros Hr. induction m as [| m IH]; intros rest pre acc fuel Hm D Hf.
  - destruct rest; [| cbn [String.length] in Hm; lia].
    destruct fuel as [| fuel]; [lia |]. rewrite fromString_loop_unfold.
    unfold JS.length. rewrite length_app. cbn [String.length].
    rewrite (proj2 (Z.ltb_ge _ _)) by lia. reflexivity.
  - destruct fuel as [| fuel]; [lia |]. rewrite fromString_loop_unfold.
    unfold JS.length. rewrite length_app, Nat2Z.inj_add.
    set (i := Z.of_nat (String.length pre)).
    destruct (Z.ltb_spec i (i + Z.of_nat (String.length rest))) as [Lt | Ge].
    2:{ destruct rest; [reflexivity | cbn [String.length] in Ge; lia]. }
    cbv zeta.
    replace (i + Z.of_nat (String.length rest) - i)
      with (Z.of_nat (String.length rest)) by lia.
    set (k := Nat.min 8 (String.length rest)).
    assert (Z.min 8 (Z.of_nat (String.length rest)) = Z.of_nat k) as ->
      by (unfold k; lia).
    unfold i. rewrite JS_substring_chunk by (unfold k; lia). fold i.
    assert (k <= 8 /\ k <= String.length rest /\ 1 <= k)%nat as Hk
      by (unfold k; lia).
    assert (Z.of_nat k < 8 -> k = String.length rest) as Hk8
      by (unfold k; lia).
    clearbody k.
    pose proof (digit_string_take r k rest D) as Dc.
    pose proof (length_take k rest) as Lc.
    assert (take k rest <> ""%string) as NE.
    { intros E. rewrite E in Lc. cbn [String.length] in Lc. lia. }
    pose proof (val_bound r (take k rest) Hr Dc) as Vb.
    pose proof (pow_radix_bound r (Z.of_nat (String.length (take k rest))) Hr
                  ltac:(lia)) as Pb.
    rewrite parseInt_digits by assumption.
    rewrite of_Z_int by lia.
    destruct (Z.ltb_spec (Z.of_nat k) 8) as [Short | Full].
    + specialize (Hk8 Short). subst k.
      assert (take (String.length rest) rest = rest) as Tk
        by (apply take_all; lia).
      rewrite Tk in *. rewrite pow_int by lia.
      rewrite fromNumber_returns by (try lia; left; lia).
      cbn [bind]. unfold mul.
      rewrite multiply_returns by (try lia; left; reflexivity).
      cbn [bind].
      rewrite fromNumber_returns by (try lia; left; lia).
      cbn [bind]. rewrite add_of_bits.
      destruct fuel as [| fuel]; [lia |]. rewrite fromString_loop_unfold.
      unfold JS.length. rewrite length_app, Nat2Z.inj_add. fold i.
      rewrite (proj2 (Z.ltb_ge _ _)) by lia.
      rewrite (val_acc_shift r rest acc). reflexivity.
    + assert (k = 8%nat) as K8 by lia.
      unfold mul. rewrite multiply_returns by (try lia; left; reflexivity).
      cbn [bind].
      rewrite fromNumber_returns by (try lia; left; lia).
      cbn [bind]. rewrite add_of_bits.
      rewrite <- (take_drop k rest) at 1. rewrite <- app_assoc_string.
      replace (i + 8) with (Z.of_nat (String.length (pre ++ take k rest)))
        by (rewrite length_app, Lc; unfold i; lia).
      rewrite IH.
      * replace (val_acc r rest acc)
          with (val_acc r (take k rest ++ drop k rest) acc)
          by (rewrite take_drop; reflexivity).
        rewrite val_acc_app.
        rewrite (val_acc_shift r (take k rest) acc), Lc.
        replace (Z.of_nat (Nat.min k (String.length rest))) with 8 by lia.
        reflexivity.
      * rewrite length_drop. lia.
      * apply digit_string_drop, D.
      * lia.
Qed.

Lemma indexOf_digits r s i :
  r <= 36 -> digit_string r s = true -> JS.indexOf_from "-" s i = -1.
Proof.
  intros Hr. revert i. induction s as [| c s IH]; intros i H; [reflexivity |].
  cbn [digit_string] in H. apply andb_prop in H. destruct H as [Hc Hs].
  cbn [JS.indexOf_from].
  destruct (Ascii.eqb_spec c "-") as [-> | NE]; [| apply IH, Hs].
  pose proof (lower_digit_code_cases r _ Hr Hc) as C.
  change (code "-") with 45 in C. lia.
Qed.

Lemma not_literal r c s :
  r <= 36 -> lower_digit r c = true -> is_literal (String c s) = false.
Proof.
  intros Hr Hc. pose proof (lower_digit_code_cases r c Hr Hc) as C.
  unfold is_literal. cbn [String.eqb].
  assert (forall a, code a < 48 \/ 57 < code a < 97 -> Ascii.eqb c a = false)
    as Ne.
  { intros a Ha. destruct (Ascii.eqb_spec c a) as [-> |]; [lia | reflexivity]. }
  rewrite (Ne "N"%char), (Ne "I"%char), (Ne "+"%char), (Ne "-"%char);
    [reflexivity | | | |]; vm_compute; intuition discriminate.
Qed.

Lemma flag_of_bits x (u u' : bool) :
  mkLong (low (of_bits x u)) (high (of_bits x u)) u' = of_bits x u'.
Proof. reflexivity. Qed.

(** [fromString] on a string of digits. *)
Lemma fromString_digits w r s (u : bool) fuel :
  2 <= r <= 36 -> s <> ""%string -> digit_string r s = true ->
  (String.length s + 5 <= fuel)%nat ->
  fromString w fuel s (inl u) (Some r) = Ret (of_bits (val r s) u).
Proof.
  intros Hr NE D Hf. destruct fuel as [| fuel]; [lia |].
  rewrite fromString_unfold.
  pose proof (nonempty_length s NE) as L1.
  unfold JS.length. rewrite (proj2 (Z.eqb_neq _ 0)) by lia.
  destruct s as [| c s']; [congruence |].
  pose proof D as D'. cbn [digit_string] in D'. apply andb_prop in D'.
  destruct D' as [Hc Hs].
  rewrite (not_literal r c s') by (try exact Hc; lia).
  unfold effective_radix, effective_unsigned.
  rewrite (proj2 (Z.eqb_neq r 0)) by lia.
  rewrite (proj2 (Z.ltb_ge r 2)), (proj2 (Z.ltb_ge 36 r)) by lia.
  cbn [orb]. unfold JS.indexOf.
  rewrite (indexOf_digits r) by (try exact D; lia).
  change (-1 >? 0) with false. change (-1 =? 0) with false. cbv iota.
  pose proof (pow_radix_bound r 8 Hr ltac:(lia)) as P8.
  rewrite pow_int by lia.
  rewrite fromNumber_returns by (try lia; left; lia).
  cbn [bind]. rewrite ZERO_of_bits.
  pose proof (fromString_loop_spec w r Hr (String.length (String c s'))
                (String c s') ""%string 0 fuel ltac:(lia) D ltac:(lia)) as E.
  cbn [String.append String.length Z.of_nat] in E.
  cbn [String.length] in *. rewrite E. cbn [bind].
  apply f_equal. apply flag_of_bits.
Qed.

Lemma substring_rest c s : JS.substring_from (String c s) 1 = s.
Proof.
  unfold JS.substring_from.
  pose proof (JS_substring_chunk (String c "") s (String.length s)
                ltac:(lia)) as E.
  cbn [String.append String.length] in E.
  transitivity (take (String.length s) s); [| apply take_all; lia].
  rewrite <- E. unfold JS.length. cbn [String.length].
  f_equal; lia.
Qed.

(** [fromString] on a hyphen and a string of digits. *)
Lemma fromString_negative w r s (u : bool) fuel :
  2 <= r <= 36 -> s <> ""%string -> digit_string r s = true ->
  (String.length s + 6 <= fuel)%nat ->
  fromString w fuel (String "-" s) (inl u) (Some r)
  = Ret (of_bits (- val r s) u).
Proof.
  intros Hr NE D Hf. destruct fuel as [| fuel]; [lia |].
  rewrite fromString_unfold.
  unfold JS.length. cbn [String.length].
  rewrite (proj2 (Z.eqb_neq _ 0)) by lia.
  assert (is_literal (String "-" s) = false) as ->.
  { destruct s as [| c s']; [congruence |].
    cbn [digit_string] in D. apply andb_prop in D. destruct D as [Hc Hs].
    pose proof (lower_digit_code_cases r c ltac:(lia) Hc) as C.
    unfold is_literal. cbn [String.eqb Ascii.eqb Bool.eqb andb orb].
    destruct (Ascii.eqb_spec c "I") as [-> |]; [| reflexivity].
    change (code "I") with 73 in C. lia. }
  unfold effective_radix, effective_unsigned.
  rewrite (proj2 (Z.eqb_neq r 0)) by lia.
  rewrite (proj2 (Z.ltb_ge r 2)), (proj2 (Z.ltb_ge 36 r)) by lia.
  cbn [orb]. unfold JS.indexOf. cbn [JS.indexOf_from Ascii.eqb Bool.eqb].
  cbv iota. change (0 >? 0) with false. change (0 =? 0) with true. cbv iota.
  rewrite substring_rest.
  rewrite (fromString_digits w r s u fuel Hr NE D) by lia.
  cbn [bind]. rewrite neg_of_bits. reflexivity.
Qed.

(** ** [toString] *)

Lemma toString_loop_unfold w mlog fuel radix rtp rem result :
  toString_loop w mlog (S fuel) radix rtp rem result =
  remDiv <- div w mlog fuel rem rtp ;;
  p <- mul w fuel remDiv rtp ;;
  if isZero remDiv
  then Ret (JS.Number_toString (Int32.shru (toInt (sub rem p)) 0) radix
              ++ result)%string
  else toString_loop w mlog fuel radix rtp remDiv
         (pad 6 (JS.Number_toString (Int32.shru (toInt (sub rem p)) 0) radix)
            ++ result)%string.
Proof. reflexivity. Qed.

Lemma toString_unfold w mlog fuel this r :
  2 <= r <= 36 ->
  toString w mlog (S fuel) this (Some r) =
  if isZero this then Ret "0"%string
  else if isNegative this then
    if eq this MIN_VALUE then
      radixLong <- fromNumber fuel (Num.of_Z r) false ;;
      d <- div w mlog fuel this radixLong ;;
      p <- mul w fuel d radixLong ;;
      s <- toString w mlog fuel d (Some r) ;;
      Ret (s ++ JS.Number_toString (toInt (sub p this)) r)%string
    else
      s <- toString w mlog fuel (neg this) (Some r) ;;
      Ret ("-" ++ s)%string
  else
    radixToPower <- fromNumber fuel (Num.pow r 6) (unsigned this) ;;
    toString_loop w mlog fuel r radixToPower this ""%string.
Proof.
  intros Hr. cbn [toString].
  rewrite (proj2 (Z.eqb_neq r 0)) by lia.
  rewrite (proj2 (Z.ltb_ge r 2)), (proj2 (Z.ltb_ge 36 r)) by lia.
  reflexivity.
Qed.

Lemma toInt_small m (u : bool) :
  0 <= m < 2 ^ 31 -> toInt (of_bits m u) = m.
Proof.
  intros H. unfold toInt. rewrite unsigned_of_bits.
  assert (low (of_bits m u) = m) as ->
    by (apply toInt32_id; unfold Int32.is_int32; lia).
  destruct u; [| reflexivity].
  rewrite shru_0. apply Z.mod_small. lia.
Qed.

Lemma intval_small m (u : bool) :
  0 <= m < 2 ^ 32 -> Int32.shru (toInt (of_bits m u)) 0 = m.
Proof.
  intros H. unfold toInt. rewrite unsigned_of_bits, !shru_0.
  assert (low (of_bits m u) mod 2 ^ 32 = m) as E.
  { change (low (of_bits m u)) with (Int32.toInt32 m).
    rewrite toInt32_mod. apply Z.mod_small. exact H. }
  destruct u; [rewrite Z.mod_mod by lia |]; exact E.
Qed.

Lemma app_empty s : (s ++ "")%string = s.
Proof.
  induction s as [| c s IH]; [reflexivity |].
  cbn [String.append]. rewrite IH. reflexivity.
Qed.

Lemma radix_pow6 r : 2 <= r <= 36 -> 64 <= r ^ 6 < 2 ^ 32.
Proof.
  intros H. split.
  - change 64 with (2 ^ 6). apply Z.pow_le_mono_l. lia.
  - apply Z.le_lt_trans with (36 ^ 6); [| reflexivity].
    apply Z.pow_le_mono_l. lia.
Qed.

Section Printing.

Variable w : bool.
Variable mlog : number -> number.
Hypothesis Hlog : w = false -> log_accurate mlog.
Variable r : Z.
Hypothesis Hr : 2 <= r <= 36.

(** The loop writes the digits of the remainder in front of the text. *)
Lemma toString_loop_spec (u : bool) :
  forall R, 0 <= R -> R < (if u then 2 ^ 64 else 2 ^ 63) ->
  forall acc, exists pre,
    digit_string r pre = true /\ pre <> ""%string /\ val r pre = R
    /\ returns (fun fuel => toString_loop w mlog fuel r (of_bits (r ^ 6) u)
                                          (of_bits R u) acc)
               (pre ++ acc)%string.
Proof.
  pose proof (radix_pow6 r Hr) as HD. set (D := r ^ 6) in *.
  intros R HR0. pattern R. revert R HR0. apply Zlt_0_ind.
  intros R IH HR0 HR acc.
  assert (R < 2 ^ 64) as R64 by (destruct u; lia).
  destruct (divide_nonneg_spec w mlog u R D Hlog ltac:(lia) ltac:(lia)
              ltac:(lia)) as [n1 H1].
  pose proof (Z.div_mod R D ltac:(lia)) as E.
  pose proof (Z.mod_pos_bound R D ltac:(lia)) as Hm.
  assert (0 <= R / D) as Hq by (apply Z.div_pos; lia).
  assert (R / D <= R) as HqR by (apply Z.div_le_upper_bound; nia).
  destruct (Number_toString_spec r (R mod D) 6 Hr ltac:(fold D; lia)
              ltac:(lia)) as [Dd [Vd Ld]].
  assert (forall fuel, (Nat.max n1 3 <= fuel)%nat ->
    toString_loop w mlog (S fuel) r (of_bits D u) (of_bits R u) acc =
    if R / D =? 0
    then Ret (JS.Number_toString (R mod D) r ++ acc)%string
    else toString_loop w mlog fuel r (of_bits D u) (of_bits (R / D) u)
           (pad 6 (JS.Number_toString (R mod D) r) ++ acc)%string) as Head.
  { intros fuel Hf. rewrite toString_loop_unfold. unfold div.
    rewrite H1 by lia. cbn [bind]. unfold mul.
    rewrite multiply_returns by first [lia | destruct u; [right | left]; reflexivity].
    cbn [bind]. rewrite sub_of_bits.
    replace (R - R / D * D) with (R mod D) by lia.
    rewrite intval_small by lia.
    rewrite isZero_of_bits, Z.mod_small by lia. reflexivity. }
  destruct (Z.eqb_spec (R / D) 0) as [Z0 | NZ].
  - exists (JS.Number_toString (R mod D) r).
    split; [exact Dd |]. split.
    { intros X. rewrite X in Ld. cbn [String.length] in Ld. lia. }
    split; [rewrite Vd; lia |].
    exists (S (Nat.max n1 3)). intros [| fuel] Hf; [lia |].
    apply Head. lia.
  - assert (R / D < R) as Lt by (apply Z.div_lt; lia).
    destruct (pad_spec r Hr 6 (JS.Number_toString (R mod D) r)
                ltac:(lia) ltac:(lia) Dd) as [Dp [Vp Lp]].
    destruct (IH (R / D) ltac:(lia) ltac:(destruct u; lia)
                (pad 6 (JS.Number_toString (R mod D) r) ++ acc)%string)
      as [pre [Dpre [NEpre [Vpre [n2 H2]]]]].
    exists (pre ++ pad 6 (JS.Number_toString (R mod D) r))%string.
    split; [rewrite digit_string_app, Dpre, Dp; reflexivity |].
    split.
    { intros X. apply (f_equal String.length) in X.
      rewrite length_app, Lp in X. cbn [String.length] in X. lia. }
    split.
    { unfold val in *. rewrite val_acc_app, val_acc_shift, Lp, Vpre, Vp, Vd.
      fold D. lia. }
    exists (S (Nat.max (Nat.max n1 3) n2)). intros [| fuel] Hf; [lia |].
    rewrite Head, H2, app_assoc_string by lia. reflexivity.
Qed.

(** A positive value is written as its digits. *)
Lemma toString_nonneg (u : bool) R :
  0 < R < (if u then 2 ^ 64 else 2 ^ 63) ->
  exists s,
    digit_string r s = true /\ s <> ""%string /\ val r s = R
    /\ returns (fun fuel => toString w mlog fuel (of_bits R u) (Some r)) s.
Proof.
  intros HR. pose proof (radix_pow6 r Hr) as HD.
  assert (R < 2 ^ 64) as R64 by (destruct u; lia).
  destruct (toString_loop_spec u R ltac:(lia) ltac:(lia) ""%string)
    as [pre [Dp [NE [Vp [n Hn]]]]].
  rewrite app_empty in Hn.
  exists pre. repeat split; try assumption.
  exists (S (S n)). intros [| fuel] Hf; [lia |].
  rewrite toString_unfold by exact Hr.
  rewrite isZero_of_bits, Z.mod_small by lia.
  rewrite (proj2 (Z.eqb_neq R 0)) by lia.
  rewrite nonneg_of_bits by lia. rewrite unsigned_of_bits.
  rewrite pow_int by lia.
  rewrite fromNumber_returns by (try lia; try (left; lia); destruct u; lia).
  cbn [bind]. apply Hn. lia.
Qed.

(** A negative value is written as a hyphen and the digits of its
    opposite. *)
Lemma toString_negative R :
  0 < R < 2 ^ 63 ->
  exists s,
    digit_string r s = true /\ s <> ""%string /\ val r s = R
    /\ returns (fun fuel => toString w mlog fuel (of_bits (- R) false)
                                     (Some r))
               (String "-" s).
Proof.
  intros HR.
  destruct (toString_nonneg false R ltac:(lia)) as [s [Ds [NE [Vs [n Hn]]]]].
  exists s. repeat split; try assumption.
  assert ((- R) mod 2 ^ 64 = 2 ^ 64 - R) as M
    by (symmetry; apply Z.mod_unique with (-1); lia).
  exists (S n). intros [| fuel] Hf; [lia |].
  rewrite toString_unfold by exact Hr.
  rewrite isZero_of_bits, M.
  rewrite (proj2 (Z.eqb_neq (2 ^ 64 - R) 0)) by lia.
  rewrite isNegative_of_bits, M. cbn [negb andb].
  rewrite (proj2 (Z.leb_le (2 ^ 63) (2 ^ 64 - R))) by lia.
  rewrite eq_MIN_VALUE_ubits, unsigned_of_bits, ubits_of_bits, M
    by apply wf_of_bits.
  cbn [negb andb].
  rewrite (proj2 (Z.eqb_neq (2 ^ 64 - R) (2 ^ 63))) by lia.
  rewrite neg_of_bits, Z.opp_involutive, Hn by lia. reflexivity.
Qed.

(** The least signed value is written from its quotient by the radix and
    the last digit. *)
Lemma toString_MIN_VALUE :
  exists s,
    digit_string r s = true /\ s <> ""%string /\ val r s = 2 ^ 63
    /\ returns (fun fuel => toString w mlog fuel MIN_VALUE (Some r))
               (String "-" s).
Proof.
  set (q := 2 ^ 63 / r). set (m := 2 ^ 63 mod r).
  pose proof (Z.div_mod (2 ^ 63) r ltac:(lia)) as E. fold q m in E.
  pose proof (Z.mod_pos_bound (2 ^ 63) r ltac:(lia)) as Hm. fold m in Hm.
  assert (2 ^ 57 <= q <= 2 ^ 62) as Hq.
  { split.
    - apply Z.div_le_lower_bound; lia.
    - apply Z.div_le_upper_bound; lia. }
  destruct (divide_MIN_spec w mlog r Hlog ltac:(lia)) as [n1 H1]. fold q in H1.
  destruct (toString_negative q ltac:(lia)) as [s [Ds [NE [Vs [n2 H2]]]]].
  destruct (Number_toString_spec r m 1 Hr ltac:(lia) ltac:(lia))
    as [Dd [Vd Ld]].
  exists (s ++ JS.Number_toString m r)%string.
  split; [rewrite digit_string_app, Ds, Dd; reflexivity |].
  split.
  { intros X. apply (f_equal String.length) in X.
    rewrite length_app in X. cbn [String.length] in X. lia. }
  split.
  { unfold val in *. rewrite val_acc_app, val_acc_shift, Vs, Vd.
    replace (Z.of_nat (String.length (JS.Number_toString m r))) with 1 by lia.
    lia. }
  exists (S (Nat.max (Nat.max n1 n2) 3)). intros [| fuel] Hf; [lia |].
  rewrite toString_unfold by exact Hr.
  change (isZero MIN_VALUE) with false.
  change (isNegative MIN_VALUE) with true.
  change (eq MIN_VALUE MIN_VALUE) with true. cbv iota.
  rewrite of_Z_int by lia.
  rewrite fromNumber_returns by (try lia; left; lia).
  cbn [bind]. unfold div. rewrite H1 by lia. cbn [bind]. unfold mul.
  rewrite multiply_returns by (try lia; left; reflexivity).
  cbn [bind]. rewrite H2 by lia. cbn [bind].
  rewrite MIN_VALUE_of_bits, sub_of_bits.
  replace (- q * r - - 2 ^ 63) with m by lia.
  rewrite toInt_small by lia. reflexivity.
Qed.

End Printing.

(** ** The round trip *)

Lemma step_ok_all : forallb step_ok (map Z.of_nat (seq 0 65)) = true.
Proof. vm_compute. reflexivity. Qed.

Lemma step_log_accurate : log_accurate step_log.
Proof.
  intros a Ha. unfold step_log. rewrite Qceiling_Z.
  set (k := Z.log2_up a).
  assert (0 <= k <= 64) as Hk.
  { split; [apply Z.log2_up_nonneg |].
    change 64 with (Z.log2_up (2 ^ 64)). apply Z.log2_up_le_mono. lia. }
  assert (step_ok k = true) as Ok.
  { pose proof step_ok_all as All. rewrite forallb_forall in All.
    apply All. rewrite <- (Z2Nat.id k) by lia.
    apply in_map, in_seq. lia. }
  unfold step_ok in Ok.
  destruct (Num.ceil (Num.div (Num.mul (Num.of_Z k) Num.LN2) Num.LN2))
    as [| s | [L d]]; try discriminate.
  apply andb_prop in Ok. destruct Ok as [Ok U].
  apply andb_prop in Ok. destruct Ok as [Dn Lo].
  cbn [Qnum Qden] in *.
  apply Pos.eqb_eq in Dn. subst d.
  apply Z.leb_le in Lo. apply Z.leb_le in U.
  exists L. split; [reflexivity |].
  assert (a <= 2 ^ k /\ 2 ^ k < 4 * a) as [Up Low].
  { destruct (Z.eq_dec a 1) as [-> | N1]; [subst k; cbn; lia |].
    pose proof (Z.log2_up_spec a ltac:(lia)) as S. fold k in S.
    split; [lia |].
    replace k with (Z.succ (Z.pred k)) at 1 by lia.
    rewrite Z.pow_succ_r; [lia |].
    assert (0 < k); [| lia]. apply Z.log2_up_pos. lia. }
  split.
  - apply Z.le_trans with (2 ^ k); [exact Up |].
    apply Z.pow_le_mono_r; lia.
  - apply Z.le_lt_trans with (2 ^ (k + 1)).
    + apply Z.pow_le_mono_r; lia.
    + rewrite Z.pow_add_r by lia.
      destruct (Z.eq_dec a 1) as [-> | N1]; [subst k; cbn; lia |].
      pose proof (Z.log2_up_spec a ltac:(lia)) as S. fold k in S.
      assert (0 < k) by (apply Z.log2_up_pos; lia).
      replace k with (Z.succ (Z.pred k)) at 1 by lia.
      rewrite Z.pow_succ_r by lia. lia.
Qed.

(** C4: for every radix from 2 to 36 and every Long [v],
    [fromString(v.toString(r), v.unsigned, r).equals(v)] returns [true],
    with WebAssembly and without; without it the division loop takes
    its step from [Math.log], which is assumed accurate to within one
    binary order of magnitude ([log_accurate]).  The call returns: enough
    fuel gives the result. *)
Theorem round_trip_identity (w : bool) (mlog : number -> number)
    (v : Long) (r : Z) :
  (w = false -> log_accurate mlog) -> wf v -> 2 <= r <= 36 ->
  returns (fun fuel => round_trip w mlog fuel v r) true.
Proof.
  intros Hlog Hv Hr.
  pose proof (ubits_range v) as HU.
  pose proof (of_bits_ubits v Hv) as Ev.
  set (U := ubits v) in *. set (u := unsigned v) in *.
  assert (forall s x n,
    returns (fun fuel => toString w mlog fuel v (Some r)) s ->
    (forall fuel, (n <= fuel)%nat ->
       fromString w fuel s (inl u) (Some r) = Ret x) ->
    x = v -> returns (fun fuel => round_trip w mlog fuel v r) true) as Close.
  { intros s x n [n1 H1] H2 ->. exists (Nat.max n1 n). intros fuel Hf.
    unfold round_trip. rewrite H1 by lia. cbn [bind]. fold u.
    rewrite H2 by lia. cbn [bind]. rewrite equals_refl. reflexivity. }
  destruct (Z.eq_dec U 0) as [Z0 | NZ].
  { apply (Close "0"%string (of_bits 0 u) 6%nat).
    - exists 1%nat. intros [| fuel] Hf; [lia |].
      rewrite toString_unfold by exact Hr.
      rewrite (proj2 (isZero_ubits v Hv)) by exact Z0. reflexivity.
    - intros fuel Hf.
      rewrite (fromString_digits w r "0" u fuel Hr); try reflexivity.
      + discriminate.
      + cbn [digit_string]. rewrite lower_digit_zero by exact Hr. reflexivity.
      + cbn [String.length]. lia.
    - rewrite <- Ev, Z0. reflexivity. }
  destruct (Z.lt_ge_cases U (if u then 2 ^ 64 else 2 ^ 63)) as [Pos | Neg].
  { destruct (toString_nonneg w mlog Hlog r Hr u U ltac:(lia))
      as [s [Ds [NE [Vs Rs]]]].
    rewrite Ev in Rs.
    apply (Close s (of_bits (val r s) u) (String.length s + 5)%nat Rs).
    - intros fuel Hf. apply fromString_digits; assumption.
    - rewrite Vs. exact Ev. }
  assert (u = false) as Eu by (destruct u; [lia | reflexivity]).
  rewrite Eu in *.
  destruct (Z.eq_dec U (2 ^ 63)) as [Min | NMin].
  { assert (v = MIN_VALUE) as EM by (rewrite <- Ev, Min; reflexivity).
    destruct (toString_MIN_VALUE w mlog Hlog r Hr) as [s [Ds [NE [Vs Rs]]]].
    rewrite <- EM in Rs.
    apply (Close (String "-" s) (of_bits (- val r s) false)
                 (String.length s + 6)%nat Rs).
    - intros fuel Hf. apply fromString_negative; assumption.
    - rewrite Vs, EM. reflexivity. }
  assert (v = of_bits (- (2 ^ 64 - U)) false) as EN.
  { rewrite <- Ev. apply of_bits_eq. rewrite Z.mod_small by lia.
    apply Z.mod_unique with (-1); lia. }
  destruct (toString_negative w mlog Hlog r Hr (2 ^ 64 - U) ltac:(lia))
    as [s [Ds [NE [Vs Rs]]]].
  rewrite <- EN in Rs.
  apply (Close (String "-" s) (of_bits (- val r s) false)
               (String.length s + 6)%nat Rs).
  - intros fuel Hf. apply fromString_negative; assumption.
  - rewrite Vs. symmetry. exact EN.
Qed.

Lemma round_trip_identity_witness :
  returns (fun fuel => round_trip false step_log fuel MIN_VALUE 36) true.
Proof.
  apply round_trip_identity.
  - intros _. exact step_log_accurate.
  - unfold wf, Int32.is_int32. vm_compute. intuition discriminate.
  - lia.
Defined.

(** * The rest of the class *)

(** ** Values *)

Lemma value_range v :
  min_of (unsigned v) <= value v <= max_of (unsigned v).
Proof.
  pose proof (ubits_range v) as R. unfold value, min_of, max_of, Wasm.signed.
  destruct (unsigned v); [lia |].
  pose proof (Z.mod_pos_bound (ubits v + 2 ^ 63) (2 ^ 64) ltac:(lia)). lia.
Qed.

Lemma value_mod v : value v mod 2 ^ 64 = ubits v.
Proof.
  pose proof (ubits_range v) as R. unfold value.
  destruct (unsigned v); [apply Z.mod_small; lia |].
  destruct (Z.lt_ge_cases (ubits v) (2 ^ 63)).
  - rewrite signed_small by lia. apply Z.mod_small. lia.
  - rewrite signed_big by lia. symmetry. apply Z.mod_unique with (-1); lia.
Qed.

(** The value is the one integer of the range of the signedness that has
    the bit pattern. *)
Lemma value_unique v x :
  x mod 2 ^ 64 = ubits v ->
  min_of (unsigned v) <= x <= max_of (unsigned v) ->
  value v = x.
Proof.
  intros E R. pose proof (value_range v) as Rv.
  pose proof (value_mod v) as Ev. rewrite <- E in Ev.
  unfold min_of, max_of in *.
  pose proof (Z.div_mod (value v) (2 ^ 64) ltac:(lia)) as D1.
  pose proof (Z.div_mod x (2 ^ 64) ltac:(lia)) as D2.
  rewrite Ev in D1.
  pose proof (Z.mod_pos_bound x (2 ^ 64) ltac:(lia)) as B.
  destruct (unsigned v); lia.
Qed.

Lemma value_inj a b :
  wf a -> wf b -> unsigned a = unsigned b -> value a = value b -> a = b.
Proof.
  intros Ha Hb Hu E. apply long_ext; try assumption.
  rewrite <- (value_mod a), <- (value_mod b), E. reflexivity.
Qed.

(** ** Addition, subtraction, multiplication *)

(** [add] is addition modulo 2^64 on the bit patterns, with the
    signedness of the receiver; when the sum of two values of the same
    signedness is in range, it is the value of the result. *)
Theorem add_wraps (a b : Long) :
  wf (add a b) /\ unsigned (add a b) = unsigned a
  /\ ubits (add a b) = (ubits a + ubits b) mod 2 ^ 64
  /\ (unsigned b = unsigned a ->
      min_of (unsigned a) <= value a + value b <= max_of (unsigned a) ->
      value (add a b) = value a + value b).
Proof.
  split; [apply wf_add |]. split; [apply unsigned_add |].
  split; [apply add_ubits |]. intros Hu R.
  apply value_unique.
  - rewrite add_ubits, <- (value_mod a), <- (value_mod b).
    rewrite <- Z.add_mod by lia. reflexivity.
  - rewrite unsigned_add. exact R.
Qed.

(** [subtract] is subtraction modulo 2^64 on the bit patterns; when the
    difference of two values of the same signedness is in range, it is
    the value of the result. *)
Theorem subtract_wraps (a b : Long) :
  wf b ->
  wf (subtract a b) /\ unsigned (subtract a b) = unsigned a
  /\ ubits (subtract a b) = (ubits a - ubits b) mod 2 ^ 64
  /\ (unsigned b = unsigned a ->
      min_of (unsigned a) <= value a - value b <= max_of (unsigned a) ->
      value (subtract a b) = value a - value b).
Proof.
  intros Hb. change (subtract a b) with (sub a b).
  split; [apply wf_sub |]. split; [apply unsigned_sub |].
  split; [apply sub_ubits, Hb |]. intros Hu R.
  apply value_unique.
  - rewrite sub_ubits, <- (value_mod a), <- (value_mod b) by exact Hb.
    rewrite <- Zminus_mod. reflexivity.
  - rewrite unsigned_sub. exact R.
Qed.

Lemma subtract_wraps_witness :
  wf ONE /\
  (wf (subtract ZERO ONE) /\ unsigned (subtract ZERO ONE) = unsigned ZERO
   /\ ubits (subtract ZERO ONE) = (ubits ZERO - ubits ONE) mod 2 ^ 64
   /\ (unsigned ONE = unsigned ZERO ->
       min_of (unsigned ZERO) <= value ZERO - value ONE
         <= max_of (unsigned ZERO) ->
       value (subtract ZERO ONE) = value ZERO - value ONE)).
Proof.
  assert (wf ONE) as H by (unfold wf, Int32.is_int32; cbn; lia).
  split; [exact H | exact (subtract_wraps ZERO ONE H)].
Defined.

(** [add] is associative, and commutative on the bit patterns; adding
    zero of either signedness changes nothing; addition and subtraction
    undo each other, whatever the signedness of the operands. *)
Theorem add_laws (a b c : Long) :
  wf a -> wf b ->
  add (add a b) c = add a (add b c)
  /\ ubits (add a b) = ubits (add b a)
  /\ add a ZERO = a /\ add a UZERO = a
  /\ subtract (add a b) b = a /\ add (subtract a b) b = a.
Proof.
  intros Ha Hb. pose proof (ubits_range a) as Ra. change subtract with sub.
  split; [| split; [| split; [| split; [| split]]]].
  - apply long_ext; try apply wf_add.
    + rewrite !add_ubits. rewrite Zplus_mod_idemp_l, Zplus_mod_idemp_r.
      f_equal. ring.
    + rewrite !unsigned_add. reflexivity.
  - rewrite !add_ubits. f_equal. ring.
  - apply long_ext; [apply wf_add | exact Ha | | apply unsigned_add].
    rewrite add_ubits. change (ubits ZERO) with 0.
    rewrite Z.add_0_r. apply Z.mod_small. lia.
  - apply long_ext; [apply wf_add | exact Ha | | apply unsigned_add].
    rewrite add_ubits. change (ubits UZERO) with 0.
    rewrite Z.add_0_r. apply Z.mod_small. lia.
  - apply long_ext; [apply wf_sub | exact Ha | |].
    + rewrite sub_ubits, add_ubits by exact Hb.
      rewrite Zminus_mod_idemp_l.
      replace (ubits a + ubits b - ubits b) with (ubits a) by ring.
      apply Z.mod_small. lia.
    + rewrite unsigned_sub, unsigned_add. reflexivity.
  - apply long_ext; [apply wf_add | exact Ha | |].
    + rewrite add_ubits, sub_ubits by exact Hb.
      rewrite Zplus_mod_idemp_l.
      replace (ubits a - ubits b + ubits b) with (ubits a) by ring.
      apply Z.mod_small. lia.
    + rewrite unsigned_add, unsigned_sub. reflexivity.
Qed.

Lemma add_laws_witness :
  add (add MAX_VALUE UONE) NEG_ONE = add MAX_VALUE (add UONE NEG_ONE)
  /\ ubits (add MAX_VALUE UONE) = ubits (add UONE MAX_VALUE)
  /\ add MAX_VALUE ZERO = MAX_VALUE /\ add MAX_VALUE UZERO = MAX_VALUE
  /\ subtract (add MAX_VALUE UONE) UONE = MAX_VALUE
  /\ add (subtract MAX_VALUE UONE) UONE = MAX_VALUE.
Proof.
  apply add_laws; unfold wf, Int32.is_int32; cbn; lia.
Defined.

(** [multiply] returns the product modulo 2^64 on the bit patterns, with
    the accelerator and without it, when the receiver is signed or the
    multiplier unsigned; when the product of two values of the same
    signedness is in range, it is the value of the result. *)
Theorem multiply_wraps (w : bool) (fuel : nat) (a b : Long) :
  wf a -> wf b -> unsigned a = false \/ unsigned b = true ->
  (3 <= fuel)%nat ->
  exists p,
    multiply w fuel a b = Ret p
    /\ wf p /\ unsigned p = unsigned a
    /\ ubits p = (ubits a * ubits b) mod 2 ^ 64
    /\ (unsigned b = unsigned a ->
        min_of (unsigned a) <= value a * value b <= max_of (unsigned a) ->
        value p = value a * value b).
Proof.
  intros Ha Hb Hf F3. destruct fuel as [| [| [| fuel]]]; try lia.
  exists (of_bits (ubits a * ubits b) (unsigned a)).
  split; [apply multiply_spec; assumption |].
  split; [apply wf_of_bits |]. split; [apply unsigned_of_bits |].
  split; [apply ubits_of_bits |]. intros Hu R.
  apply value_unique.
  - rewrite ubits_of_bits, <- (value_mod a), <- (value_mod b).
    rewrite <- Z.mul_mod by lia. reflexivity.
  - rewrite unsigned_of_bits. exact R.
Qed.

Lemma multiply_wraps_witness :
  exists p,
    multiply false 3 NEG_ONE MAX_VALUE = Ret p
    /\ wf p /\ unsigned p = unsigned NEG_ONE
    /\ ubits p = (ubits NEG_ONE * ubits MAX_VALUE) mod 2 ^ 64
    /\ (unsigned MAX_VALUE = unsigned NEG_ONE ->
        min_of (unsigned NEG_ONE) <= value NEG_ONE * value MAX_VALUE
          <= max_of (unsigned NEG_ONE) ->
        value p = value NEG_ONE * value MAX_VALUE).
Proof.
  apply multiply_wraps.
  - unfold wf, Int32.is_int32. cbn. lia.
  - unfold wf, Int32.is_int32. cbn. lia.
  - left. reflexivity.
  - lia.
Defined.

(** Without the accelerator, the product of a receiver that is not zero
    by [MIN_VALUE] is the signed [MIN_VALUE] or [ZERO], also for an
    unsigned receiver; with the accelerator it has the bit pattern of the
    same product and the signedness of the receiver. *)
Theorem multiply_by_MIN_VALUE (fuel : nat) (a : Long) :
  wf a -> isZero a = false ->
  multiply false (S fuel) a MIN_VALUE
    = Ret (if isOdd a then MIN_VALUE else ZERO)
  /\ multiply true (S fuel) a MIN_VALUE
    = Ret (of_bits (if isOdd a then 2 ^ 63 else 0) (unsigned a)).
Proof.
  intros Ha Za. rewrite !multiply_unfold, Za.
  change (isZero MIN_VALUE) with false. change (isOdd MIN_VALUE) with false.
  change (eq MIN_VALUE MIN_VALUE) with true. cbv iota. split.
  - destruct (eq a MIN_VALUE) eqn:E; [| reflexivity].
    rewrite eq_MIN_VALUE_ubits in E by exact Ha.
    apply andb_prop in E. destruct E as [_ E]. apply Z.eqb_eq in E.
    rewrite isOdd_ubits, E. reflexivity.
  - rewrite wasm_mul_spec. f_equal. apply of_bits_eq.
    rewrite ubits_MIN_VALUE, isOdd_ubits.
    pose proof (ubits_range a) as R.
    pose proof (Zdiv2_odd_eqn (ubits a)) as E.
    destruct (Z.odd (ubits a)); rewrite E.
    + replace ((2 * Z.div2 (ubits a) + 1) * 2 ^ 63)
        with (2 ^ 63 + Z.div2 (ubits a) * 2 ^ 64) by ring.
      rewrite Z.mod_add by lia. reflexivity.
    + replace ((2 * Z.div2 (ubits a) + 0) * 2 ^ 63)
        with (0 + Z.div2 (ubits a) * 2 ^ 64) by ring.
      rewrite Z.mod_add by lia. reflexivity.
Qed.

Lemma multiply_by_MIN_VALUE_witness :
  multiply false 1 UONE MIN_VALUE
    = Ret (if isOdd UONE then MIN_VALUE else ZERO)
  /\ multiply true 1 UONE MIN_VALUE
    = Ret (of_bits (if isOdd UONE then 2 ^ 63 else 0) (unsigned UONE)).
Proof.
  apply multiply_by_MIN_VALUE.
  - unfold wf, Int32.is_int32. cbn. lia.
  - reflexivity.
Defined.

(** ** Equality and order *)

Lemma value_ubits v :
  value v = if unsigned v then ubits v
            else if ubits v <? 2 ^ 63 then ubits v else ubits v - 2 ^ 64.
Proof.
  pose proof (ubits_range v) as R. unfold value.
  destruct (unsigned v); [reflexivity |].
  destruct (Z.ltb_spec (ubits v) (2 ^ 63)).
  - apply signed_small. lia.
  - apply signed_big. lia.
Qed.

Lemma equals_value_eq a b :
  wf a -> wf b -> equals a b = (value a =? value b).
Proof.
  intros Ha Hb.
  rewrite (equals_ubits a b Ha Hb), !value_ubits.
  pose proof (ubits_range a) as Ra. pose proof (ubits_range b) as Rb.
  destruct (unsigned a), (unsigned b); cbn [Bool.eqb negb andb];
    destruct (Z.ltb_spec (ubits a) (2 ^ 63)),
             (Z.ltb_spec (ubits b) (2 ^ 63)),
             (Z.leb_spec (2 ^ 63) (ubits a)),
             (Z.leb_spec (2 ^ 63) (ubits b)); try lia; cbn [andb];
    try reflexivity;
    repeat match goal with
           | |- context [?x =? ?y] => destruct (Z.eqb_spec x y)
           end; try reflexivity; lia.
Qed.

(** [equals] holds exactly when the two values are the same integer,
    whatever the signedness of each; [notEquals] is its negation. *)
Theorem equals_value (a b : Long) :
  wf a -> wf b ->
  equals a b = (value a =? value b)
  /\ notEquals a b = negb (value a =? value b).
Proof.
  intros Ha Hb. pose proof (equals_value_eq a b Ha Hb) as E.
  split; [exact E |]. unfold notEquals, eq. rewrite E. reflexivity.
Qed.

Lemma equals_value_witness :
  equals NEG_ONE MAX_UNSIGNED_VALUE
    = (value NEG_ONE =? value MAX_UNSIGNED_VALUE)
  /\ notEquals NEG_ONE MAX_UNSIGNED_VALUE
    = negb (value NEG_ONE =? value MAX_UNSIGNED_VALUE).
Proof.
  apply equals_value; unfold wf, Int32.is_int32; cbn; lia.
Defined.

Lemma compare_value_same a b :
  wf a -> wf b -> unsigned a = unsigned b ->
  compare a b = match value a ?= value b with
                | Eq => 0 | Lt => -1 | Gt => 1
                end.
Proof.
  intros Ha Hb Hu. rewrite (compare_ubits a b Ha Hb).
  rewrite (equals_value_eq a b Ha Hb).
  rewrite (isNegative_ubits a Ha), (isNegative_ubits b Hb), !value_ubits, Hu.
  pose proof (ubits_range a) as Ra. pose proof (ubits_range b) as Rb.
  destruct (unsigned b); cbn [negb andb].
  - destruct (Z.compare_spec (ubits a) (ubits b)) as [C | C | C].
    + rewrite (proj2 (Z.eqb_eq _ _) C). reflexivity.
    + rewrite (proj2 (Z.eqb_neq _ _)), (proj2 (Z.ltb_lt _ _)) by lia.
      reflexivity.
    + rewrite (proj2 (Z.eqb_neq _ _)), (proj2 (Z.ltb_ge _ _)) by lia.
      reflexivity.
  - destruct (Z.ltb_spec (ubits a) (2 ^ 63)), (Z.ltb_spec (ubits b) (2 ^ 63)),
      (Z.leb_spec (2 ^ 63) (ubits a)), (Z.leb_spec (2 ^ 63) (ubits b));
      try lia; cbn [negb andb].
    + destruct (Z.compare_spec (ubits a) (ubits b)) as [C | C | C].
      * rewrite (proj2 (Z.eqb_eq _ _) C). reflexivity.
      * rewrite (proj2 (Z.eqb_neq _ _)) by lia.
        replace ((ubits a - ubits b) mod 2 ^ 64)
          with (ubits a - ubits b + 2 ^ 64)
          by (apply Z.mod_unique with (-1); lia).
        rewrite (proj2 (Z.leb_le _ _)) by lia. reflexivity.
      * rewrite (proj2 (Z.eqb_neq _ _)) by lia.
        rewrite Z.mod_small by lia.
        rewrite (proj2 (Z.leb_gt _ _)) by lia. reflexivity.
    + rewrite (proj2 (Z.eqb_neq _ _)) by lia.
      destruct (Z.compare_spec (ubits a) (ubits b - 2 ^ 64));
        first [lia | reflexivity].
    + rewrite (proj2 (Z.eqb_neq _ _)) by lia.
      destruct (Z.compare_spec (ubits a - 2 ^ 64) (ubits b));
        first [lia | reflexivity].
    + destruct (Z.compare_spec (ubits a - 2 ^ 64) (ubits b - 2 ^ 64))
        as [C | C | C].
      * rewrite (proj2 (Z.eqb_eq _ _)) by lia. reflexivity.
      * rewrite (proj2 (Z.eqb_neq _ _)) by lia.
        replace ((ubits a - ubits b) mod 2 ^ 64)
          with (ubits a - ubits b + 2 ^ 64)
          by (apply Z.mod_unique with (-1); lia).
        rewrite (proj2 (Z.leb_le _ _)) by lia. reflexivity.
      * rewrite (proj2 (Z.eqb_neq _ _)) by lia.
        rewrite Z.mod_small by lia.
        rewrite (proj2 (Z.leb_gt _ _)) by lia. reflexivity.
Qed.

(** Between two values of the same signedness [compare] is the sign of
    the comparison of the integers, and [lessThan], [lessThanOrEqual],
    [greaterThan] and [greaterThanOrEqual] are their order. *)
Theorem compare_value (a b : Long) :
  wf a -> wf b -> unsigned a = unsigned b ->
  compare a b = match value a ?= value b with
                | Eq => 0 | Lt => -1 | Gt => 1
                end
  /\ lessThan a b = (value a <? value b)
  /\ lessThanOrEqual a b = (value a <=? value b)
  /\ greaterThan a b = (value b <? value a)
  /\ greaterThanOrEqual a b = (value b <=? value a).
Proof.
  intros Ha Hb Hu. pose proof (compare_value_same a b Ha Hb Hu) as C.
  unfold lessThan, lessThanOrEqual, greaterThan, greaterThanOrEqual, comp.
  rewrite C. rewrite Z.gtb_ltb, Z.geb_leb.
  destruct (Z.compare_spec (value a) (value b)) as [E | L | G].
  - repeat split; try reflexivity;
      symmetry; first [apply Z.ltb_ge | apply Z.leb_le]; lia.
  - repeat split; try reflexivity;
      symmetry; first [apply Z.ltb_lt | apply Z.leb_le | apply Z.ltb_ge
                      | apply Z.leb_gt]; lia.
  - repeat split; try reflexivity;
      symmetry; first [apply Z.ltb_lt | apply Z.leb_le | apply Z.ltb_ge
                      | apply Z.leb_gt]; lia.
Qed.

Lemma compare_value_witness :
  compare MIN_VALUE ONE = match value MIN_VALUE ?= value ONE with
                          | Eq => 0 | Lt => -1 | Gt => 1
                          end
  /\ lessThan MIN_VALUE ONE = (value MIN_VALUE <? value ONE)
  /\ lessThanOrEqual MIN_VALUE ONE = (value MIN_VALUE <=? value ONE)
  /\ greaterThan MIN_VALUE ONE = (value ONE <? value MIN_VALUE)
  /\ greaterThanOrEqual MIN_VALUE ONE = (value ONE <=? value MIN_VALUE).
Proof.
  apply compare_value; try reflexivity; unfold wf, Int32.is_int32; cbn; lia.
Defined.

(** ** Predicates *)

Lemma and_1_bit x : Int32.and x 1 = x mod 2.
Proof.
  unfold Int32.and. rewrite (toInt32_id 1) by (unfold Int32.is_int32; lia).
  change 1 with (Z.ones 1) at 1. rewrite Z.land_ones by lia.
  change (2 ^ 1) with 2. pose proof (toInt32_mod x) as T.
  change (2 ^ 32) with (2 * 2 ^ 31) in T.
  rewrite !Z.rem_mul_r in T by lia.
  pose proof (Z.mod_pos_bound (Int32.toInt32 x) 2 ltac:(lia)).
  pose proof (Z.mod_pos_bound x 2 ltac:(lia)).
  pose proof (Z.mod_pos_bound (Int32.toInt32 x / 2) (2 ^ 31) ltac:(lia)).
  pose proof (Z.mod_pos_bound (x / 2) (2 ^ 31) ltac:(lia)).
  lia.
Qed.

Lemma odd_value v : Z.odd (value v) = Z.odd (ubits v).
Proof.
  rewrite value_ubits. destruct (unsigned v); [reflexivity |].
  destruct (ubits v <? 2 ^ 63); [reflexivity |].
  replace (ubits v - 2 ^ 64) with (ubits v + 2 * (- 2 ^ 63)) by lia.
  apply Z.odd_add_mul_2.
Qed.

(** The predicates read the integer the Long stands for: [isZero] and
    [eqz] test it against zero, [isNegative] and [isPositive] its sign
    (zero counts as positive), [isOdd] and [isEven] its parity. *)
Theorem predicates_value (v : Long) :
  wf v ->
  isZero v = (value v =? 0) /\ eqz v = (value v =? 0)
  /\ isNegative v = (value v <? 0) /\ isPositive v = (0 <=? value v)
  /\ isOdd v = Z.odd (value v) /\ isEven v = Z.even (value v).
Proof.
  intros Hv. pose proof (ubits_range v) as R.
  assert (isZero v = (value v =? 0)) as Z0.
  { rewrite value_ubits. destruct (isZero v) eqn:E.
    - apply (isZero_ubits v Hv) in E. rewrite E.
      destruct (unsigned v); reflexivity.
    - apply (isZero_false_ubits v Hv) in E. symmetry. apply Z.eqb_neq.
      destruct (unsigned v); [exact E |].
      destruct (Z.ltb_spec (ubits v) (2 ^ 63)); lia. }
  assert (isNegative v = (value v <? 0)) as N.
  { rewrite (isNegative_ubits v Hv), value_ubits.
    destruct (unsigned v); cbn [negb andb].
    - symmetry. apply Z.ltb_ge. lia.
    - destruct (Z.ltb_spec (ubits v) (2 ^ 63)),
        (Z.leb_spec (2 ^ 63) (ubits v)); try lia; symmetry;
        first [apply Z.ltb_ge; lia | apply Z.ltb_lt; lia]. }
  split; [exact Z0 |]. split; [exact Z0 |]. split; [exact N |].
  split.
  { unfold isPositive. rewrite Z.geb_leb.
    assert ((0 <=? high v) = negb (high v <? 0)) as ->
      by (destruct (Z.leb_spec 0 (high v)), (Z.ltb_spec (high v) 0);
          try lia; reflexivity).
    rewrite (high_neg_ubits v Hv), value_ubits.
    destruct (unsigned v); cbn [orb].
    - symmetry. apply Z.leb_le. lia.
    - destruct (Z.ltb_spec (ubits v) (2 ^ 63)),
        (Z.leb_spec (2 ^ 63) (ubits v)); try lia; symmetry;
        first [apply Z.leb_le; lia | apply Z.leb_gt; lia]. }
  split; [rewrite odd_value; apply isOdd_ubits |].
  rewrite <- Z.negb_odd, odd_value, <- isOdd_ubits.
  unfold isEven, isOdd. rewrite and_1_bit.
  pose proof (Z.mod_pos_bound (low v) 2 ltac:(lia)).
  destruct (Z.eqb_spec (low v mod 2) 0), (Z.eqb_spec (low v mod 2) 1);
    try reflexivity; lia.
Qed.

Lemma predicates_value_witness :
  isZero MIN_VALUE = (value MIN_VALUE =? 0)
  /\ eqz MIN_VALUE = (value MIN_VALUE =? 0)
  /\ isNegative MIN_VALUE = (value MIN_VALUE <? 0)
  /\ isPositive MIN_VALUE = (0 <=? value MIN_VALUE)
  /\ isOdd MIN_VALUE = Z.odd (value MIN_VALUE)
  /\ isEven MIN_VALUE = Z.even (value MIN_VALUE).
Proof.
  apply predicates_value. unfold wf, Int32.is_int32. cbn. lia.
Defined.

(** ** Bitwise operations *)

Lemma low_fromBits l h u : low (fromBits l h u) = Int32.toInt32 l.
Proof. reflexivity. Qed.

Lemma high_fromBits l h u : high (fromBits l h u) = Int32.toInt32 h.
Proof. reflexivity. Qed.

Ltac bitwise_word :=
  rewrite ?low_fromBits, ?high_fromBits;
  unfold Int32.and, Int32.or, Int32.xor;
  rewrite testbit_toInt32 by lia;
  rewrite ?Z.land_spec, ?Z.lor_spec, ?Z.lxor_spec;
  rewrite !testbit_toInt32 by lia; reflexivity.

(** [and], [or] and [xor] act bit by bit on the 64-bit patterns and
    keep the signedness of the receiver. *)
Theorem bitwise_ops (a b : Long) :
  ubits (and a b) = Z.land (ubits a) (ubits b)
  /\ ubits (or a b) = Z.lor (ubits a) (ubits b)
  /\ ubits (xor a b) = Z.lxor (ubits a) (ubits b)
  /\ unsigned (and a b) = unsigned a /\ unsigned (or a b) = unsigned a
  /\ unsigned (xor a b) = unsigned a
  /\ wf (and a b) /\ wf (or a b) /\ wf (xor a b).
Proof.
  repeat split; try (apply wf_fromBits).
  - apply Z.bits_inj'. intros i Hi.
    rewrite Z.land_spec, !testbit_ubits by lia. unfold and.
    destruct (Z.ltb_spec i 32); [bitwise_word |].
    destruct (Z.ltb_spec i 64); [cbn [andb]; bitwise_word | reflexivity].
  - apply Z.bits_inj'. intros i Hi.
    rewrite Z.lor_spec, !testbit_ubits by lia. unfold or.
    destruct (Z.ltb_spec i 32); [bitwise_word |].
    destruct (Z.ltb_spec i 64); [cbn [andb]; bitwise_word | reflexivity].
  - apply Z.bits_inj'. intros i Hi.
    rewrite Z.lxor_spec, !testbit_ubits by lia. unfold xor.
    destruct (Z.ltb_spec i 32); [bitwise_word |].
    destruct (Z.ltb_spec i 64); [cbn [andb]; bitwise_word | reflexivity].
Qed.

(** [not] is the complement of the value, and undoes itself. *)
Theorem not_complement (a : Long) :
  wf a ->
  not (not a) = a
  /\ value (not a) = (if unsigned a then 2 ^ 64 - 1 else -1) - value a.
Proof.
  intros Ha. pose proof (ubits_range a) as R. split.
  - apply long_ext; [apply wf_fromBits | exact Ha | | reflexivity].
    rewrite !not_ubits. lia.
  - apply value_unique.
    + rewrite not_ubits, value_ubits. change (unsigned (not a)) with (unsigned a).
      destruct (unsigned a).
      * apply Z.mod_small. lia.
      * destruct (Z.ltb_spec (ubits a) (2 ^ 63)).
        -- symmetry. apply Z.mod_unique with (-1); lia.
        -- symmetry. apply Z.mod_unique with 0; lia.
    + change (unsigned (not a)) with (unsigned a).
      pose proof (value_range a) as Rv. unfold min_of, max_of in *.
      destruct (unsigned a); lia.
Qed.

Lemma not_complement_witness :
  not (not MAX_VALUE) = MAX_VALUE
  /\ value (not MAX_VALUE)
     = (if unsigned MAX_VALUE then 2 ^ 64 - 1 else -1) - value MAX_VALUE.
Proof.
  apply not_complement. unfold wf, Int32.is_int32. cbn. lia.
Defined.

(** ** Signedness *)

Lemma ubits_same_words v u :
  ubits (fromBits (low v) (high v) u) = ubits v.
Proof.
  rewrite ubits_fromBits. reflexivity.
Qed.

(** [toSigned] and [toUnsigned] keep the bit pattern and set the flag:
    the unsigned reading is the value modulo 2^64, and converting there
    and back gives the Long again. *)
Theorem signedness_conversions (v : Long) :
  wf v ->
  ubits (toSigned v) = ubits v /\ unsigned (toSigned v) = false
  /\ ubits (toUnsigned v) = ubits v /\ unsigned (toUnsigned v) = true
  /\ value (toUnsigned v) = value v mod 2 ^ 64
  /\ (unsigned v = false -> toSigned (toUnsigned v) = v)
  /\ (unsigned v = true -> toUnsigned (toSigned v) = v).
Proof.
  intros Hv.
  assert (forall u, fromBits (low v) (high v) u
                    = mkLong (low v) (high v) u) as F.
  { intros u. unfold fromBits, new_Long. destruct Hv as [Hl Hh].
    rewrite !toInt32_id by assumption. reflexivity. }
  unfold toSigned, toUnsigned. rewrite !F.
  destruct v as [l h u]. cbn [low high unsigned] in *.
  destruct u; cbn [negb unsigned low high]; rewrite ?F;
    cbn [negb unsigned low high].
  - repeat split; try reflexivity; try discriminate.
    unfold value. cbn [unsigned]. symmetry. apply Z.mod_small, ubits_range.
  - repeat split; try reflexivity; try discriminate.
    rewrite value_mod. reflexivity.
Qed.

Lemma signedness_conversions_witness :
  ubits (toSigned NEG_ONE) = ubits NEG_ONE
  /\ unsigned (toSigned NEG_ONE) = false
  /\ ubits (toUnsigned NEG_ONE) = ubits NEG_ONE
  /\ unsigned (toUnsigned NEG_ONE) = true
  /\ value (toUnsigned NEG_ONE) = value NEG_ONE mod 2 ^ 64
  /\ (unsigned NEG_ONE = false -> toSigned (toUnsigned NEG_ONE) = NEG_ONE)
  /\ (unsigned NEG_ONE = true -> toUnsigned (toSigned NEG_ONE) = NEG_ONE).
Proof.
  apply signedness_conversions. unfold wf, Int32.is_int32. cbn. lia.
Defined.

(** ** Shifts and rotations *)

Lemma and_63 n : Int32.and n 63 = n mod 64.
Proof.
  unfold Int32.and. rewrite (toInt32_id 63) by (unfold Int32.is_int32; lia).
  change 63 with (Z.ones 6). rewrite Z.land_ones by lia.
  change (2 ^ 6) with 64. pose proof (toInt32_mod n) as T.
  change (2 ^ 32) with (64 * 2 ^ 26) in T.
  rewrite !Z.rem_mul_r in T by lia.
  pose proof (Z.mod_pos_bound (Int32.toInt32 n) 64 ltac:(lia)).
  pose proof (Z.mod_pos_bound n 64 ltac:(lia)).
  pose proof (Z.mod_pos_bound (Int32.toInt32 n / 64) (2 ^ 26) ltac:(lia)).
  pose proof (Z.mod_pos_bound (n / 64) (2 ^ 26) ltac:(lia)).
  lia.
Qed.

Lemma land_31 k : 0 <= k < 32 -> Z.land k 31 = k.
Proof.
  intros H. change 31 with (Z.ones 5). rewrite Z.land_ones by lia.
  apply Z.mod_small. exact H.
Qed.

Lemma tb_shl x k i :
  0 <= k < 32 -> 0 <= i < 32 ->
  Z.testbit (Int32.shl x k) i = (k <=? i) && Z.testbit x (i - k).
Proof.
  intros Hk Hi. unfold Int32.shl. rewrite land_31 by exact Hk.
  rewrite testbit_toInt32, Z.shiftl_spec by lia.
  destruct (Z.leb_spec k i).
  - rewrite testbit_toInt32 by lia. reflexivity.
  - apply Z.testbit_neg_r. lia.
Qed.

Lemma tb_shru x k i :
  0 <= k < 32 -> 0 <= i ->
  Z.testbit (Int32.shru x k) i = (i + k <? 32) && Z.testbit x (i + k).
Proof.
  intros Hk Hi. unfold Int32.shru. rewrite land_31 by exact Hk.
  rewrite Z.shiftr_spec, testbit_toUint32 by lia. reflexivity.
Qed.

Lemma tb_int32_high a i :
  Int32.is_int32 a -> 31 <= i -> Z.testbit a i = (a <? 0).
Proof.
  unfold Int32.is_int32. intros Ha Hi. destruct (Z.ltb_spec a 0).
  - apply Z.bits_above_log2_neg; [lia |].
    destruct (Z.eq_dec a (-1)) as [-> | N]; [cbn; lia |].
    apply Z.lt_le_trans with 31; [| lia].
    apply Z.log2_lt_pow2; unfold Z.lnot in *; lia.
  - destruct (Z.eq_dec a 0) as [-> | N]; [apply Z.bits_0 |].
    apply Z.bits_above_log2; [lia |].
    apply Z.lt_le_trans with 31; [| lia].
    apply Z.log2_lt_pow2; lia.
Qed.

Lemma tb_sign x i :
  31 <= i -> Z.testbit (Int32.toInt32 x) i = Z.testbit x 31.
Proof.
  intros Hi. rewrite (tb_int32_high _ i (toInt32_range x) Hi).
  rewrite <- (testbit_toInt32 x 31) by lia.
  symmetry. apply tb_int32_high; [apply toInt32_range | lia].
Qed.

Lemma tb_shr x k i :
  0 <= k < 32 -> 0 <= i ->
  Z.testbit (Int32.shr x k) i
  = Z.testbit x (if i + k <? 32 then i + k else 31).
Proof.
  intros Hk Hi. unfold Int32.shr. rewrite land_31 by exact Hk.
  rewrite Z.shiftr_spec by lia.
  destruct (Z.ltb_spec (i + k) 32).
  - apply testbit_toInt32. lia.
  - apply tb_sign. lia.
Qed.

Lemma tb_or x y i :
  0 <= i < 32 ->
  Z.testbit (Int32.or x y) i = Z.testbit x i || Z.testbit y i.
Proof.
  intros Hi. unfold Int32.or.
  rewrite Z.lor_spec, !testbit_toInt32 by lia. reflexivity.
Qed.

Lemma tb_low l h u i :
  0 <= i < 32 -> Z.testbit (low (fromBits l h u)) i = Z.testbit l i.
Proof. intros H. apply testbit_toInt32, H. Qed.

Lemma tb_high l h u i :
  0 <= i < 32 -> Z.testbit (high (fromBits l h u)) i = Z.testbit h i.
Proof. intros H. apply testbit_toInt32, H. Qed.

Ltac split_bits :=
  repeat match goal with
         | |- context [?a <? ?b] => destruct (Z.ltb_spec a b)
         | |- context [?a <=? ?b] => destruct (Z.leb_spec a b)
         | |- context [?a =? ?b] => destruct (Z.eqb_spec a b)
         end;
  cbn [andb orb negb]; rewrite ?andb_false_r, ?orb_false_r, ?andb_true_r;
  first [lia | reflexivity | f_equal; lia].

Lemma shiftLeft_bits v n :
  wf v ->
  shiftLeft v n = of_bits (ubits v * 2 ^ (n mod 64)) (unsigned v).
Proof.
  intros Hv. unfold shiftLeft. cbv zeta. rewrite and_63.
  pose proof (Z.mod_pos_bound n 64 ltac:(lia)) as Hk.
  set (k := n mod 64) in *.
  destruct (Z.eqb_spec k 0) as [-> | NZ].
  { rewrite Z.mul_1_r. symmetry. apply of_bits_ubits, Hv. }
  rewrite <- Z.shiftl_mul_pow2 by lia.
  destruct (Z.ltb_spec k 32) as [Lt | Ge];
    (apply long_of_bits; [apply wf_fromBits | reflexivity |]);
    apply Z.bits_inj'; intros i Hi;
    rewrite testbit_of_mod, testbit_ubits, Z.shiftl_spec by lia.
  - destruct (Z.ltb_spec i 32).
    + rewrite tb_low, tb_shl by lia.
      destruct (Z.leb_spec k i); cbn [andb].
      * rewrite testbit_ubits by lia. split_bits.
      * rewrite Z.testbit_neg_r by lia. split_bits.
    + destruct (Z.ltb_spec i 64); cbn [andb]; [| reflexivity].
      rewrite tb_high, tb_or, tb_shl, tb_shru by lia.
      rewrite testbit_ubits by lia. split_bits.
  - destruct (Z.ltb_spec i 32).
    + rewrite tb_low by lia. rewrite Z.bits_0.
      destruct (Z.leb_spec k i); [lia |].
      rewrite Z.testbit_neg_r by lia. split_bits.
    + destruct (Z.ltb_spec i 64); cbn [andb]; [| reflexivity].
      rewrite tb_high, tb_shl by lia.
      destruct (Z.leb_spec (k - 32) (i - 32)); cbn [andb].
      * rewrite testbit_ubits by lia. split_bits.
      * symmetry. apply Z.testbit_neg_r. lia.
Qed.

Lemma shiftRightUnsigned_bits v n :
  wf v ->
  shiftRightUnsigned v n = of_bits (ubits v / 2 ^ (n mod 64)) (unsigned v).
Proof.
  intros Hv. unfold shiftRightUnsigned. cbv zeta. rewrite and_63.
  pose proof (Z.mod_pos_bound n 64 ltac:(lia)) as Hk.
  set (k := n mod 64) in *.
  destruct (Z.eqb_spec k 0) as [-> | NZ].
  { rewrite Z.div_1_r. symmetry. apply of_bits_ubits, Hv. }
  rewrite <- Z.shiftr_div_pow2 by lia.
  destruct (Z.ltb_spec k 32) as [Lt | Ge]; [| destruct (Z.eqb_spec k 32)];
    (apply long_of_bits; [apply wf_fromBits | reflexivity |]);
    apply Z.bits_inj'; intros i Hi;
    rewrite testbit_of_mod, testbit_ubits, Z.shiftr_spec, testbit_ubits by lia.
  - destruct (Z.ltb_spec i 32).
    + rewrite tb_low, tb_or, tb_shl, tb_shru by lia. split_bits.
    + destruct (Z.ltb_spec i 64); cbn [andb]; [| reflexivity].
      rewrite tb_high, tb_shru by lia. split_bits.
  - destruct (Z.ltb_spec i 32).
    + rewrite tb_low by lia. split_bits.
    + destruct (Z.ltb_spec i 64); cbn [andb]; [| reflexivity].
      rewrite tb_high, Z.bits_0 by lia. split_bits.
  - destruct (Z.ltb_spec i 32).
    + rewrite tb_low, tb_shru by lia. split_bits.
    + destruct (Z.ltb_spec i 64); cbn [andb]; [| reflexivity].
      rewrite tb_high, Z.bits_0 by lia. split_bits.
Qed.

Lemma signed_ubits v :
  wf v -> Wasm.signed (ubits v) = Int32.toUint32 (low v) + 2 ^ 32 * high v.
Proof.
  intros [Hl Hh]. pose proof (ubits_range v) as R.
  unfold ubits in *. unfold Int32.is_int32, Int32.toUint32 in *.
  pose proof (Z.mod_pos_bound (low v) (2 ^ 32) ltac:(lia)) as Bl.
  destruct (Z.ltb_spec (high v) 0).
  - assert (high v mod 2 ^ 32 = high v + 2 ^ 32) as E
      by (symmetry; apply Z.mod_unique with (-1); lia).
    rewrite E in *. rewrite signed_big by lia. lia.
  - rewrite (Z.mod_small (high v)) in * by lia.
    rewrite signed_small by lia. reflexivity.
Qed.

Lemma signed_mod x : 0 <= x < 2 ^ 64 -> Wasm.signed x mod 2 ^ 64 = x.
Proof.
  intros H. destruct (Z.lt_ge_cases x (2 ^ 63)).
  - rewrite signed_small by lia. apply Z.mod_small. lia.
  - rewrite signed_big by lia. symmetry. apply Z.mod_unique with (-1); lia.
Qed.

Lemma testbit_signed_ubits v j :
  wf v -> 0 <= j ->
  Z.testbit (Wasm.signed (ubits v)) j =
  if j <? 32 then Z.testbit (low v) j
  else Z.testbit (high v) (Z.min (j - 32) 31).
Proof.
  intros Hv Hj. rewrite (signed_ubits v Hv).
  rewrite (Z.mul_comm (2 ^ 32)), <- Z.shiftl_mul_pow2 by lia.
  rewrite <- Z.or_to_plus.
  - rewrite Z.lor_spec, Z.shiftl_spec, testbit_toUint32 by lia.
    destruct (Z.ltb_spec j 32).
    + rewrite (Z.testbit_neg_r _ (j - 32)) by lia.
      rewrite orb_false_r. reflexivity.
    + cbn [andb orb]. destruct Hv as [_ Hh].
      destruct (Z.le_gt_cases (j - 32) 31).
      * rewrite Z.min_l by lia. reflexivity.
      * rewrite Z.min_r by lia.
        rewrite !(tb_int32_high (high v)) by (try exact Hh; lia).
        reflexivity.
  - apply Z.bits_inj'. intros i Hi.
    rewrite Z.land_spec, Z.bits_0, Z.shiftl_spec, testbit_toUint32 by lia.
    destruct (Z.ltb_spec i 32); [| reflexivity].
    rewrite (Z.testbit_neg_r _ (i - 32)) by lia. apply andb_false_r.
Qed.

Lemma tb_sign_word h i :
  Int32.is_int32 h -> 0 <= i ->
  Z.testbit (if h >=? 0 then 0 else -1) i = Z.testbit h 31.
Proof.
  intros Hh Hi. rewrite (tb_int32_high h 31 Hh) by lia.
  rewrite Z.geb_leb.
  destruct (Z.leb_spec 0 h), (Z.ltb_spec h 0); try lia.
  - apply Z.bits_0.
  - apply Z.bits_m1. lia.
Qed.

Lemma shiftRight_bits v n :
  wf v ->
  shiftRight v n
  = of_bits (Wasm.signed (ubits v) / 2 ^ (n mod 64)) (unsigned v).
Proof.
  intros Hv. unfold shiftRight. cbv zeta. rewrite and_63.
  pose proof (Z.mod_pos_bound n 64 ltac:(lia)) as Hk.
  set (k := n mod 64) in *.
  destruct (Z.eqb_spec k 0) as [-> | NZ].
  { rewrite Z.div_1_r. apply long_of_bits; [exact Hv | reflexivity |].
    symmetry. apply signed_mod, ubits_range. }
  rewrite <- Z.shiftr_div_pow2 by lia. pose proof Hv as [Hl Hh].
  destruct (Z.ltb_spec k 32) as [Lt | Ge];
    (apply long_of_bits; [apply wf_fromBits | reflexivity |]);
    apply Z.bits_inj'; intros i Hi;
    rewrite testbit_of_mod, testbit_ubits, Z.shiftr_spec,
      testbit_signed_ubits by (try exact Hv; lia).
  - destruct (Z.ltb_spec i 32).
    + rewrite tb_low, tb_or, tb_shl, tb_shru by lia. split_bits.
    + destruct (Z.ltb_spec i 64); cbn [andb]; [| reflexivity].
      rewrite tb_high, tb_shr by lia.
      destruct (Z.ltb_spec (i + k) 32); [lia |]. cbv iota.
      destruct (Z.ltb_spec (i - 32 + k) 32).
      * f_equal. lia.
      * f_equal. lia.
  - destruct (Z.ltb_spec i 32).
    + rewrite tb_low, tb_shr by lia.
      rewrite (proj2 (Z.ltb_lt i 64)) by lia. cbn [andb].
      destruct (Z.ltb_spec (i + k) 32); [lia |]. cbv iota.
      destruct (Z.ltb_spec (i + (k - 32)) 32); f_equal; lia.
    + destruct (Z.ltb_spec i 64); cbn [andb]; [| reflexivity].
      rewrite tb_high, tb_sign_word by (try exact Hh; lia).
      destruct (Z.ltb_spec (i + k) 32); [lia |]. f_equal. lia.
Qed.

(** [shiftLeft] multiplies the bit pattern by 2^(n mod 64), modulo 2^64;
    the count is taken modulo 64, whatever its sign. *)
Theorem shiftLeft_spec (v : Long) (n : Z) :
  wf v ->
  wf (shiftLeft v n) /\ unsigned (shiftLeft v n) = unsigned v
  /\ ubits (shiftLeft v n) = (ubits v * 2 ^ (n mod 64)) mod 2 ^ 64.
Proof.
  intros Hv. rewrite (shiftLeft_bits v n Hv).
  split; [apply wf_of_bits |]. split; [apply unsigned_of_bits |].
  apply ubits_of_bits.
Qed.

Lemma shiftLeft_spec_witness :
  wf (shiftLeft MAX_VALUE 65)
  /\ unsigned (shiftLeft MAX_VALUE 65) = unsigned MAX_VALUE
  /\ ubits (shiftLeft MAX_VALUE 65)
     = (ubits MAX_VALUE * 2 ^ (65 mod 64)) mod 2 ^ 64.
Proof.
  apply shiftLeft_spec. unfold wf, Int32.is_int32. cbn. lia.
Defined.

(** [shiftRightUnsigned] divides the bit pattern by 2^(n mod 64): zeros
    come in from the left, also for a signed Long. *)
Theorem shiftRightUnsigned_spec (v : Long) (n : Z) :
  wf v ->
  wf (shiftRightUnsigned v n)
  /\ unsigned (shiftRightUnsigned v n) = unsigned v
  /\ ubits (shiftRightUnsigned v n) = ubits v / 2 ^ (n mod 64).
Proof.
  intros Hv. rewrite (shiftRightUnsigned_bits v n Hv).
  split; [apply wf_of_bits |]. split; [apply unsigned_of_bits |].
  rewrite ubits_of_bits. apply Z.mod_small.
  pose proof (ubits_range v) as R.
  pose proof (Z.mod_pos_bound n 64 ltac:(lia)) as Hk.
  assert (0 < 2 ^ (n mod 64)) by (apply Z.pow_pos_nonneg; lia).
  split; [apply Z.div_pos; lia |].
  apply Z.div_lt_upper_bound; [lia |]. nia.
Qed.

Lemma shiftRightUnsigned_spec_witness :
  wf (shiftRightUnsigned NEG_ONE 1)
  /\ unsigned (shiftRightUnsigned NEG_ONE 1) = unsigned NEG_ONE
  /\ ubits (shiftRightUnsigned NEG_ONE 1) = ubits NEG_ONE / 2 ^ (1 mod 64).
Proof.
  apply shiftRightUnsigned_spec. unfold wf, Int32.is_int32. cbn. lia.
Defined.

(** [shiftRight] is the arithmetic shift: the bit pattern read as a
    signed integer is divided by 2^(n mod 64), rounding down, also for an
    unsigned Long; on a signed Long it divides the value. *)
Theorem shiftRight_spec (v : Long) (n : Z) :
  wf v ->
  wf (shiftRight v n) /\ unsigned (shiftRight v n) = unsigned v
  /\ Wasm.signed (ubits (shiftRight v n))
     = Wasm.signed (ubits v) / 2 ^ (n mod 64)
  /\ (unsigned v = false -> value (shiftRight v n) = value v / 2 ^ (n mod 64)).
Proof.
  intros Hv. rewrite (shiftRight_bits v n Hv).
  pose proof (ubits_range v) as R.
  pose proof (Z.mod_pos_bound n 64 ltac:(lia)) as Hk.
  assert (0 < 2 ^ (n mod 64)) as P by (apply Z.pow_pos_nonneg; lia).
  set (s := Wasm.signed (ubits v)).
  assert (- 2 ^ 63 <= s < 2 ^ 63) as Rs.
  { unfold s, Wasm.signed.
    pose proof (Z.mod_pos_bound (ubits v + 2 ^ 63) (2 ^ 64) ltac:(lia)). lia. }
  assert (- 2 ^ 63 <= s / 2 ^ (n mod 64) < 2 ^ 63) as Rq.
  { split.
    - apply Z.div_le_lower_bound; [lia |]. nia.
    - apply Z.div_lt_upper_bound; [lia |]. nia. }
  assert (Wasm.signed (ubits (of_bits (s / 2 ^ (n mod 64)) (unsigned v)))
          = s / 2 ^ (n mod 64)) as E.
  { rewrite ubits_of_bits. unfold Wasm.signed.
    rewrite Zplus_mod_idemp_l. rewrite Z.mod_small by lia. lia. }
  split; [apply wf_of_bits |]. split; [apply unsigned_of_bits |].
  split; [exact E |]. intros U.
  unfold value. rewrite unsigned_of_bits, U. exact E.
Qed.

Lemma shiftRight_spec_witness :
  wf (shiftRight MIN_VALUE 3)
  /\ unsigned (shiftRight MIN_VALUE 3) = unsigned MIN_VALUE
  /\ Wasm.signed (ubits (shiftRight MIN_VALUE 3))
     = Wasm.signed (ubits MIN_VALUE) / 2 ^ (3 mod 64)
  /\ (unsigned MIN_VALUE = false ->
      value (shiftRight MIN_VALUE 3) = value MIN_VALUE / 2 ^ (3 mod 64)).
Proof.
  apply shiftRight_spec. unfold wf, Int32.is_int32. cbn. lia.
Defined.

Lemma rot_index i n :
  0 <= i < 64 ->
  (i + n) mod 64
  = if i + n mod 64 <? 64 then i + n mod 64 else i + n mod 64 - 64.
Proof.
  intros Hi. pose proof (Z.mod_pos_bound n 64 ltac:(lia)) as Hk.
  rewrite <- Z.add_mod_idemp_r by lia.
  destruct (Z.ltb_spec (i + n mod 64) 64).
  - apply Z.mod_small. lia.
  - symmetry. apply Z.mod_unique with 1; lia.
Qed.

Lemma rotateRight_bits v n i :
  wf v -> 0 <= i < 64 ->
  Z.testbit (ubits (rotateRight v n)) i
  = Z.testbit (ubits v) ((i + n) mod 64).
Proof.
  intros Hv Hi. rewrite (rot_index i n Hi).
  unfold rotateRight. cbv zeta. rewrite and_63.
  pose proof (Z.mod_pos_bound n 64 ltac:(lia)) as Hk.
  set (k := n mod 64) in *.
  destruct (Z.eqb_spec k 0) as [-> | NZ].
  { rewrite Z.add_0_r. rewrite (proj2 (Z.ltb_lt i 64)) by lia. reflexivity. }
  destruct (Z.eqb_spec k 32) as [-> | N32].
  { destruct (Z.ltb_spec (i + 32) 64); rewrite !testbit_ubits by lia;
      destruct (Z.ltb_spec i 32); rewrite ?tb_low, ?tb_high by lia;
      split_bits. }
  destruct (Z.ltb_spec k 32) as [Lt | Ge]; rewrite !testbit_ubits by lia.
  - destruct (Z.ltb_spec i 32).
    + rewrite tb_low, tb_or, tb_shl, tb_shru by lia.
      destruct (Z.ltb_spec (i + k) 64); [| lia].
      rewrite testbit_ubits by lia. split_bits.
    + rewrite tb_high, tb_or, tb_shl, tb_shru by lia.
      destruct (Z.ltb_spec (i + k) 64); rewrite testbit_ubits by lia;
        split_bits.
  - destruct (Z.ltb_spec i 32).
    + rewrite tb_low, tb_or, tb_shl, tb_shru by lia.
      destruct (Z.ltb_spec (i + k) 64); rewrite testbit_ubits by lia;
        split_bits.
    + rewrite tb_high, tb_or, tb_shl, tb_shru by lia.
      destruct (Z.ltb_spec (i + k) 64); [lia |].
      rewrite testbit_ubits by lia. split_bits.
Qed.

Lemma rotl_index i n :
  0 <= i < 64 ->
  (i - n) mod 64
  = if n mod 64 <=? i then i - n mod 64 else i - n mod 64 + 64.
Proof.
  intros Hi. pose proof (Z.mod_pos_bound n 64 ltac:(lia)) as Hk.
  rewrite <- Zminus_mod_idemp_r.
  destruct (Z.leb_spec (n mod 64) i).
  - apply Z.mod_small. lia.
  - symmetry. apply Z.mod_unique with (-1); lia.
Qed.

Lemma rotateLeft_bits v n :
  wf v -> n mod 64 <= 32 ->
  exists r, rotateLeft v n = Some r /\ wf r /\ unsigned r = unsigned v
    /\ forall i, 0 <= i < 64 ->
         Z.testbit (ubits r) i = Z.testbit (ubits v) ((i - n) mod 64).
Proof.
  intros Hv H32. unfold rotateLeft. cbv zeta. rewrite and_63.
  pose proof (Z.mod_pos_bound n 64 ltac:(lia)) as Hk.
  destruct (Z.eqb_spec (n mod 64) 0) as [E0 | NZ].
  { exists v. repeat split; try apply Hv. intros i Hi.
    rewrite (rotl_index i n Hi), E0.
    rewrite (proj2 (Z.leb_le 0 i)) by lia. f_equal. lia. }
  destruct (Z.eqb_spec (n mod 64) 32) as [E32 | N32].
  { eexists. split; [reflexivity |]. split; [apply wf_fromBits |].
    split; [reflexivity |]. intros i Hi.
    rewrite (rotl_index i n Hi), E32.
    destruct (Z.leb_spec 32 i); rewrite !testbit_ubits by lia;
      destruct (Z.ltb_spec i 32); rewrite ?tb_low, ?tb_high by lia;
      split_bits. }
  rewrite (proj2 (Z.ltb_lt (n mod 64) 32)) by lia.
  eexists. split; [reflexivity |]. split; [apply wf_fromBits |].
  split; [reflexivity |]. intros i Hi.
  rewrite (rotl_index i n Hi). set (k := n mod 64) in *.
  destruct (Z.leb_spec k i); rewrite !testbit_ubits by lia;
    destruct (Z.ltb_spec i 32);
    rewrite ?tb_low, ?tb_high by lia;
    rewrite tb_or, tb_shl, tb_shru by lia; split_bits.
Qed.

Lemma wf_rotateRight v n : wf v -> wf (rotateRight v n).
Proof.
  intros Hv. unfold rotateRight. cbv zeta.
  repeat match goal with
         | |- wf (if ?c then _ else _) => destruct c
         end; first [exact Hv | apply wf_fromBits].
Qed.

Lemma unsigned_rotateRight v n : unsigned (rotateRight v n) = unsigned v.
Proof.
  unfold rotateRight. cbv zeta.
  repeat match goal with
         | |- unsigned (if ?c then _ else _) = _ => destruct c
         end; reflexivity.
Qed.

(** [rotateRight] rotates the 64-bit pattern: bit [i] of the result is
    bit [(i + n) mod 64] of the receiver. *)
Theorem rotateRight_spec (v : Long) (n : Z) :
  wf v ->
  wf (rotateRight v n) /\ unsigned (rotateRight v n) = unsigned v
  /\ forall i, 0 <= i < 64 ->
       Z.testbit (ubits (rotateRight v n)) i
       = Z.testbit (ubits v) ((i + n) mod 64).
Proof.
  intros Hv. split; [apply wf_rotateRight, Hv |].
  split; [apply unsigned_rotateRight |].
  intros i Hi. apply rotateRight_bits; assumption.
Qed.

Lemma rotateRight_spec_witness :
  wf (rotateRight MAX_VALUE 40)
  /\ unsigned (rotateRight MAX_VALUE 40) = unsigned MAX_VALUE
  /\ forall i, 0 <= i < 64 ->
       Z.testbit (ubits (rotateRight MAX_VALUE 40)) i
       = Z.testbit (ubits MAX_VALUE) ((i + 40) mod 64).
Proof.
  apply rotateRight_spec. unfold wf, Int32.is_int32. cbn. lia.
Defined.

Lemma ubits_ext a b :
  (forall i, 0 <= i < 64 -> Z.testbit (ubits a) i = Z.testbit (ubits b) i) ->
  ubits a = ubits b.
Proof.
  intros H. apply Z.bits_inj'. intros i Hi.
  destruct (Z.lt_ge_cases i 64); [apply H; lia |].
  rewrite !testbit_ubits by lia.
  rewrite !(proj2 (Z.ltb_ge i 32)), !(proj2 (Z.ltb_ge i 64)) by lia.
  reflexivity.
Qed.

(** For a count that is at most 32 after masking, [rotateLeft] returns
    the 64-bit pattern rotated to the left, bit [i] of the result being
    bit [(i - n) mod 64] of the receiver, and [rotateRight] by the same
    count gives the receiver back. *)
Theorem rotateLeft_spec (v : Long) (n : Z) :
  wf v -> n mod 64 <= 32 ->
  exists r,
    rotateLeft v n = Some r /\ wf r /\ unsigned r = unsigned v
    /\ (forall i, 0 <= i < 64 ->
          Z.testbit (ubits r) i = Z.testbit (ubits v) ((i - n) mod 64))
    /\ rotateRight r n = v.
Proof.
  intros Hv H32.
  destruct (rotateLeft_bits v n Hv H32) as [r [E [Hr [U B]]]].
  exists r. repeat split; try assumption; try apply Hr.
  apply long_ext; [apply wf_rotateRight, Hr | exact Hv | |].
  2:{ rewrite unsigned_rotateRight. exact U. }
  apply ubits_ext. intros i Hi.
  rewrite (rotateRight_bits r n i Hr Hi).
  pose proof (Z.mod_pos_bound (i + n) 64 ltac:(lia)) as Hm.
  rewrite B by exact Hm. f_equal.
  rewrite Zminus_mod_idemp_l.
  replace (i + n - n) with i by ring. apply Z.mod_small. exact Hi.
Qed.

Lemma rotateLeft_spec_witness :
  exists r,
    rotateLeft MAX_VALUE 7 = Some r /\ wf r /\ unsigned r = unsigned MAX_VALUE
    /\ (forall i, 0 <= i < 64 ->
          Z.testbit (ubits r) i
          = Z.testbit (ubits MAX_VALUE) ((i - 7) mod 64))
    /\ rotateRight r 7 = MAX_VALUE.
Proof.
  apply rotateLeft_spec.
  - unfold wf, Int32.is_int32. cbn. lia.
  - cbn. lia.
Defined.

(** ** Bytes *)

Lemma tb_and_ff x t :
  0 <= t < 32 -> Z.testbit (Int32.and x 255) t = (t <? 8) && Z.testbit x t.
Proof.
  intros Ht. unfold Int32.and.
  rewrite (toInt32_id 255) by (unfold Int32.is_int32; lia).
  rewrite Z.land_spec, testbit_toInt32 by lia.
  change 255 with (Z.ones 8).
  destruct (Z.ltb_spec t 8).
  - rewrite Z.ones_spec_low by lia. rewrite andb_true_r. reflexivity.
  - rewrite Z.ones_spec_high by lia. rewrite andb_false_r. reflexivity.
Qed.

Lemma tb_digit x k t :
  0 <= k -> 0 <= t ->
  Z.testbit ((x / 2 ^ k) mod 256) t = (t <? 8) && Z.testbit x (t + k).
Proof.
  intros Hk Ht. change 256 with (2 ^ 8).
  rewrite <- Z.shiftr_div_pow2 by lia.
  destruct (Z.ltb_spec t 8).
  - rewrite Z.mod_pow2_bits_low, Z.shiftr_spec by lia. reflexivity.
  - rewrite Z.mod_pow2_bits_high by lia. reflexivity.
Qed.

Lemma tb_byte_high b t : 0 <= b < 256 -> 8 <= t -> Z.testbit b t = false.
Proof.
  intros Hb Ht. rewrite <- (Z.mod_small b (2 ^ 8)) by lia.
  apply Z.mod_pow2_bits_high. lia.
Qed.

Lemma tb_high_zero x t : 0 <= x < 2 ^ 32 -> 32 <= t -> Z.testbit x t = false.
Proof.
  intros Hx Ht. rewrite <- (Z.mod_small x (2 ^ 32)) by lia.
  apply Z.mod_pow2_bits_high. lia.
Qed.

Lemma shru_range x k : 0 <= k < 32 -> 0 <= Int32.shru x k < 2 ^ 32.
Proof.
  intros Hk. unfold Int32.shru, Int32.toUint32. rewrite land_31 by exact Hk.
  rewrite Z.shiftr_div_pow2 by lia.
  pose proof (Z.mod_pos_bound x (2 ^ 32) ltac:(lia)) as B.
  assert (0 < 2 ^ k) by (apply Z.pow_pos_nonneg; lia).
  split; [apply Z.div_pos; lia |].
  apply Z.div_lt_upper_bound; [lia |]. nia.
Qed.

(** The bytes of the two words. *)
Ltac byte_bits :=
  apply Z.bits_inj'; intros t Ht;
  rewrite tb_digit by lia;
  destruct (Z.ltb_spec t 32) as [T32 | T32];
  [ rewrite ?tb_and_ff by lia; rewrite tb_shru by lia;
    rewrite testbit_ubits by lia; split_bits
  | rewrite (proj2 (Z.ltb_ge t 8)) by lia; cbn [andb];
    first [ apply tb_high_zero; [apply shru_range; lia | lia]
          | unfold Int32.and; rewrite Z.land_spec,
              (tb_high_zero (Int32.toInt32 255))
              by (try (cbn; lia); lia);
            apply andb_false_r ] ].

Lemma toBytesLE_bytes_of v : toBytesLE v = bytes_of (ubits v).
Proof.
  assert (Int32.and (low v) 255 = Int32.and (Int32.shru (low v) 0) 255) as L0.
  { apply Z.bits_inj'. intros t Ht. destruct (Z.ltb_spec t 32).
    - rewrite !tb_and_ff, tb_shru by lia. split_bits.
    - unfold Int32.and. rewrite !Z.land_spec.
      rewrite (tb_high_zero (Int32.toInt32 255)) by (try (cbn; lia); lia).
      rewrite !andb_false_r. reflexivity. }
  assert (Int32.and (high v) 255 = Int32.and (Int32.shru (high v) 0) 255)
    as H0.
  { apply Z.bits_inj'. intros t Ht. destruct (Z.ltb_spec t 32).
    - rewrite !tb_and_ff, tb_shru by lia. split_bits.
    - unfold Int32.and. rewrite !Z.land_spec.
      rewrite (tb_high_zero (Int32.toInt32 255)) by (try (cbn; lia); lia).
      rewrite !andb_false_r. reflexivity. }
  unfold toBytesLE, bytes_of. cbv zeta. cbn [map seq].
  rewrite L0, H0.
  repeat (f_equal; [byte_bits |]). f_equal. byte_bits.
Qed.

Lemma toBytesBE_rev v : toBytesBE v = rev (toBytesLE v).
Proof. reflexivity. Qed.

(** [toBytesLE] lists the eight base-256 digits of the bit pattern from
    the least significant, [toBytesBE] from the most significant, and
    [toBytes] chooses between them. *)
Theorem toBytes_digits (v : Long) :
  toBytesLE v = bytes_of (ubits v)
  /\ toBytesBE v = rev (bytes_of (ubits v))
  /\ toBytes v true = toBytesLE v /\ toBytes v false = toBytesBE v.
Proof.
  split; [apply toBytesLE_bytes_of |]. split; [| split; reflexivity].
  rewrite toBytesBE_rev, toBytesLE_bytes_of. reflexivity.
Qed.

Lemma low_new_Long l h u : low (new_Long l h u) = Int32.toInt32 l.
Proof. reflexivity. Qed.

Lemma high_new_Long l h u : high (new_Long l h u) = Int32.toInt32 h.
Proof. reflexivity. Qed.

Lemma octet i :
  0 <= i < 64 ->
  exists q r, i = 8 * q + r /\ 0 <= r < 8 /\ i / 8 = q /\ i mod 8 = r
    /\ (q = 0 \/ q = 1 \/ q = 2 \/ q = 3 \/ q = 4 \/ q = 5 \/ q = 6 \/ q = 7).
Proof.
  intros Hi. exists (i / 8), (i mod 8).
  pose proof (Z.div_mod i 8 ltac:(lia)) as E.
  pose proof (Z.mod_pos_bound i 8 ltac:(lia)) as B.
  repeat split; try lia.
Qed.

(** Bit [i] of the Long made of eight bytes is bit [i mod 8] of the byte
    of index [i / 8]. *)
Lemma fromBytesLE_bits l u i :
  (forall j, 0 <= byteAt l j < 256) -> 0 <= i < 64 ->
  Z.testbit (ubits (fromBytesLE l u)) i
  = Z.testbit (byteAt l (Z.to_nat (i / 8))) (i mod 8).
Proof.
  intros Hb Hi. destruct (octet i Hi) as [q [r [E [Hr [Eq [Er Cq]]]]]].
  rewrite Eq, Er. rewrite testbit_ubits by lia. unfold fromBytesLE.
  rewrite low_new_Long, high_new_Long.
  destruct Cq as [-> | [-> | [-> | [-> | [-> | [-> | [-> | ->]]]]]]];
    subst i; cbn [Z.to_nat Pos.to_nat Pos.iter_op Nat.add];
    match goal with
    | |- context [8 * ?c + r <? 32] =>
        destruct (Z.ltb_spec (8 * c + r) 32); try lia
    end;
    rewrite ?(proj2 (Z.ltb_lt _ 64)) by lia; cbn [andb];
    rewrite testbit_toInt32 by lia;
    rewrite !tb_or by lia; rewrite !tb_shl by lia;
    rewrite ?(tb_byte_high (byteAt l 0)), ?(tb_byte_high (byteAt l 1)),
      ?(tb_byte_high (byteAt l 2)), ?(tb_byte_high (byteAt l 4)),
      ?(tb_byte_high (byteAt l 5)), ?(tb_byte_high (byteAt l 6))
      by (try apply Hb; lia);
    split_bits.
Qed.

Lemma byteAt_bytes_of x j :
  byteAt (bytes_of x) j
  = if (j <? 8)%nat then (x / 2 ^ (8 * Z.of_nat j)) mod 256 else 0.
Proof.
  unfold byteAt, bytes_of.
  do 8 (destruct j as [| j]; [reflexivity |]).
  cbn [map seq nth]. destruct j; reflexivity.
Qed.

Lemma byteAt_bytes_of_range x j : 0 <= byteAt (bytes_of x) j < 256.
Proof.
  rewrite byteAt_bytes_of. destruct (j <? 8)%nat; [| lia].
  apply Z.mod_pos_bound. lia.
Qed.

Lemma fromBytesLE_toBytesLE v :
  wf v -> fromBytesLE (toBytesLE v) (unsigned v) = v.
Proof.
  intros Hv. rewrite toBytesLE_bytes_of.
  apply long_ext; [| exact Hv | | reflexivity].
  - unfold fromBytesLE, new_Long. split; apply toInt32_range.
  - apply ubits_ext. intros i Hi.
    rewrite fromBytesLE_bits by (try apply byteAt_bytes_of_range; lia).
    destruct (octet i Hi) as [q [r [E [Hr [Eq [Er Cq]]]]]].
    rewrite Eq, Er, byteAt_bytes_of.
    assert ((Z.to_nat q <? 8)%nat = true) as -> by (apply Nat.ltb_lt; lia).
    rewrite tb_digit by lia. rewrite Z2Nat.id by lia.
    rewrite (proj2 (Z.ltb_lt r 8)) by lia. cbn [andb]. f_equal. lia.
Qed.

Lemma toBytesLE_fromBytesLE b0 b1 b2 b3 b4 b5 b6 b7 u :
  let l := [b0; b1; b2; b3; b4; b5; b6; b7] in
  Forall (fun b => 0 <= b < 256) l -> toBytesLE (fromBytesLE l u) = l.
Proof.
  intros l F. rewrite toBytesLE_bytes_of.
  assert (forall j, 0 <= byteAt l j < 256) as Hb.
  { intros j. unfold byteAt.
    destruct (Nat.lt_ge_cases j (List.length l)) as [Lt | Ge].
    - rewrite Forall_forall in F. apply F, nth_In, Lt.
    - rewrite nth_overflow by exact Ge. lia. }
  assert (forall j, (j < 8)%nat ->
            (ubits (fromBytesLE l u) / 2 ^ (8 * Z.of_nat j)) mod 256
            = byteAt l j) as D.
  { intros j Hj. apply Z.bits_inj'. intros t Ht. rewrite tb_digit by lia.
    destruct (Z.ltb_spec t 8); cbn [andb].
    - rewrite fromBytesLE_bits by (try exact Hb; lia).
      replace ((t + 8 * Z.of_nat j) / 8) with (Z.of_nat j)
        by (apply Z.div_unique with t; lia).
      replace ((t + 8 * Z.of_nat j) mod 8) with t
        by (apply Z.mod_unique with (Z.of_nat j); lia).
      rewrite Nat2Z.id. reflexivity.
    - symmetry. apply tb_byte_high; [apply Hb | lia]. }
  unfold bytes_of. cbn [map seq].
  rewrite !D by lia. reflexivity.
Qed.

Lemma fromBytesBE_rev b0 b1 b2 b3 b4 b5 b6 b7 u :
  fromBytesBE [b0; b1; b2; b3; b4; b5; b6; b7] u
  = fromBytesLE [b7; b6; b5; b4; b3; b2; b1; b0] u.
Proof.
  unfold fromBytesBE, fromBytesLE, byteAt. cbn [nth].
  unfold new_Long. f_equal; apply int32_eq_mod; try apply toInt32_range;
    rewrite !toInt32_mod; apply Z.bits_inj'; intros t Ht;
    (destruct (Z.ltb_spec t 32);
     [ rewrite !Z.mod_pow2_bits_low by lia; rewrite !tb_or by lia;
       repeat match goal with
              | |- context [Z.testbit ?a t] => destruct (Z.testbit a t)
              end; reflexivity
     | rewrite !Z.mod_pow2_bits_high by lia; reflexivity ]).
Qed.

(** Writing a Long to bytes and reading them back, in either byte
    order, gives the Long again. *)
Theorem fromBytes_toBytes (v : Long) (le : bool) :
  wf v ->
  fromBytes (toBytes v le) (unsigned v) le = v
  /\ fromBytesLE (toBytesLE v) (unsigned v) = v
  /\ fromBytesBE (toBytesBE v) (unsigned v) = v.
Proof.
  intros Hv. pose proof (fromBytesLE_toBytesLE v Hv) as LE.
  assert (fromBytesBE (toBytesBE v) (unsigned v) = v) as BE.
  { unfold toBytesBE. cbv zeta. rewrite fromBytesBE_rev. exact LE. }
  split; [| split; assumption].
  unfold fromBytes, toBytes. destruct le; assumption.
Qed.

Lemma fromBytes_toBytes_witness :
  fromBytes (toBytes MIN_VALUE false) (unsigned MIN_VALUE) false = MIN_VALUE
  /\ fromBytesLE (toBytesLE MIN_VALUE) (unsigned MIN_VALUE) = MIN_VALUE
  /\ fromBytesBE (toBytesBE MIN_VALUE) (unsigned MIN_VALUE) = MIN_VALUE.
Proof.
  apply fromBytes_toBytes. unfold wf, Int32.is_int32. cbn. lia.
Defined.

(** Reading eight bytes, each from 0 to 255, and writing the Long back
    in the same byte order gives the eight bytes again. *)
Theorem toBytes_fromBytes (l : list Z) (u le : bool) :
  List.length l = 8%nat -> Forall (fun b => 0 <= b < 256) l ->
  toBytes (fromBytes l u le) le = l.
Proof.
  intros Hl F.
  destruct l as [| b0 [| b1 [| b2 [| b3 [| b4 [| b5 [| b6 [| b7 [| b8 l]]]]]]]]];
    try discriminate. clear Hl.
  unfold toBytes, fromBytes. destruct le.
  - apply toBytesLE_fromBytesLE. exact F.
  - rewrite fromBytesBE_rev.
    rewrite toBytesBE_rev, toBytesLE_fromBytesLE; [reflexivity |].
    repeat match goal with
           | H : Forall _ (_ :: _) |- _ => inversion H; clear H; subst
           end.
    repeat (apply Forall_cons; [assumption |]). apply Forall_nil.
Qed.

Lemma toBytes_fromBytes_witness :
  toBytes (fromBytes [1; 2; 3; 4; 5; 6; 7; 255] true false) false
  = [1; 2; 3; 4; 5; 6; 7; 255].
Proof.
  apply toBytes_fromBytes; [reflexivity |].
  repeat (apply Forall_cons; [lia |]). apply Forall_nil.
Defined.

(** Only the first eight entries of the array are read, and an array
    that is shorter reads as if zeros followed it. *)
Theorem fromBytes_short (l : list Z) (u le : bool) :
  fromBytes l u le = fromBytes (firstn 8 (l ++ repeat 0 8)) u le.
Proof.
  assert (forall j, (j < 8)%nat ->
            byteAt (firstn 8 (l ++ repeat 0 8)) j = byteAt l j) as E.
  { intros j Hj. unfold byteAt. rewrite nth_firstn.
    assert ((j <? 8)%nat = true) as -> by (apply Nat.ltb_lt; exact Hj).
    destruct (Nat.lt_ge_cases j (List.length l)) as [Lt | Ge].
    - apply app_nth1, Lt.
    - rewrite app_nth2 by exact Ge. rewrite (nth_overflow l) by exact Ge.
      apply nth_repeat. }
  unfold fromBytes, fromBytesLE, fromBytesBE.
  rewrite !E by lia. reflexivity.
Qed.

(** ** Bit counts *)

Lemma toUint32_zero h : Int32.is_int32 h -> (Int32.toUint32 h = 0 <-> h = 0).
Proof.
  unfold Int32.is_int32, Int32.toUint32. intros H. split.
  - intros E. destruct (Z.lt_ge_cases h 0).
    + assert (h mod 2 ^ 32 = h + 2 ^ 32)
        by (symmetry; apply Z.mod_unique with (-1); lia). lia.
    + rewrite Z.mod_small in E by lia. exact E.
  - intros ->. reflexivity.
Qed.

Lemma log2_shift32 h l :
  0 < h -> 0 <= l < 2 ^ 32 -> Z.log2 (l + 2 ^ 32 * h) = Z.log2 h + 32.
Proof.
  intros Hh Hl. pose proof (Z.log2_spec h Hh) as [Lo Hi].
  pose proof (Z.log2_nonneg h) as N.
  rewrite Z.pow_succ_r in Hi by lia.
  apply Z.log2_unique; [lia |].
  rewrite Z.pow_succ_r, Z.pow_add_r by lia.
  set (p := 2 ^ Z.log2 h) in *. lia.
Qed.

(** [countLeadingZeros] is the number of zero bits in front of the
    64-bit pattern: 64 less the number of bits of the pattern. *)
Theorem countLeadingZeros_spec (v : Long) :
  wf v -> countLeadingZeros v = 64 - bit_length (ubits v).
Proof.
  intros [Hl Hh]. unfold countLeadingZeros, clz32, bit_length, ubits.
  cbv zeta.
  pose proof (toUint32_zero (high v) Hh) as Zh.
  pose proof (toUint32_zero (low v) Hl) as Zl.
  pose proof (Z.mod_pos_bound (low v) (2 ^ 32) ltac:(lia)) as Bl.
  pose proof (Z.mod_pos_bound (high v) (2 ^ 32) ltac:(lia)) as Bh.
  unfold Int32.toUint32 in *.
  destruct (Z.eqb_spec (high v) 0) as [E | N]; cbn [negb].
  - rewrite E. change (0 mod 2 ^ 32) with 0. rewrite Z.mul_0_r, Z.add_0_r.
    destruct (Z.eqb_spec (low v mod 2 ^ 32) 0); lia.
  - destruct (Z.eqb_spec (high v mod 2 ^ 32) 0) as [E0 | N0];
      [apply Zh in E0; contradiction |].
    destruct (Z.eqb_spec (low v mod 2 ^ 32 + 2 ^ 32 * (high v mod 2 ^ 32)) 0);
      [lia |].
    rewrite log2_shift32 by lia. lia.
Qed.

Lemma countLeadingZeros_spec_witness :
  countLeadingZeros ONE = 64 - bit_length (ubits ONE).
Proof.
  apply countLeadingZeros_spec. unfold wf, Int32.is_int32. cbn. lia.
Defined.

(** A positive number is an odd number times a power of two. *)
Lemma odd_factor_pos p :
  exists t m, 0 <= t /\ Z.odd m = true /\ Z.pos p = 2 ^ t * m.
Proof.
  induction p as [p IH | p IH |].
  - exists 0, (Z.pos p~1).
    split; [lia | split; [reflexivity | rewrite Z.pow_0_r; lia]].
  - destruct IH as [t [m [Ht [Om E]]]].
    exists (t + 1), m. split; [lia | split; [exact Om |]].
    rewrite Pos2Z.inj_xO, E, Z.pow_add_r by lia. ring.
  - exists 0, 1. split; [lia | split; reflexivity].
Qed.

Lemma odd_factor a :
  a <> 0 -> exists t m, 0 <= t /\ Z.odd m = true /\ a = 2 ^ t * m.
Proof.
  intros Ha. destruct a as [| p | p]; [congruence | apply odd_factor_pos |].
  destruct (odd_factor_pos p) as [t [m [Ht [Om E]]]].
  exists t, (- m). split; [exact Ht | split; [rewrite Z.odd_opp; exact Om |]].
  rewrite <- Pos2Z.opp_pos, E. ring.
Qed.

Lemma land_odd_opp m : Z.odd m = true -> Z.land m (- m) = 1.
Proof.
  intros Om. apply Z.bits_inj'. intros i Hi.
  rewrite Z.land_spec.
  replace (- m) with (Z.lnot (m - 1)) by (unfold Z.lnot; lia).
  rewrite Z.lnot_spec by lia.
  destruct (Z.eq_dec i 0) as [-> | NZ].
  - rewrite !Z.bit0_odd, Om. replace (m - 1) with (Z.pred m) by lia.
    rewrite Z.odd_pred, <- Z.negb_odd, Om. reflexivity.
  - rewrite (Z.bits_above_log2 1 i) by (cbn; lia).
    rewrite (Zdiv2_odd_eqn m), Om.
    replace (2 * Z.div2 m + 1 - 1) with (2 * Z.div2 m) by lia.
    replace i with (Z.succ (i - 1)) by lia.
    rewrite Z.testbit_odd_succ, Z.testbit_even_succ by lia.
    apply andb_negb_r.
Qed.

Lemma land_opp_pow2 t m :
  0 <= t -> Z.odd m = true -> Z.land (2 ^ t * m) (- (2 ^ t * m)) = 2 ^ t.
Proof.
  intros Ht Om.
  replace (- (2 ^ t * m)) with ((- m) * 2 ^ t) by ring.
  rewrite (Z.mul_comm (2 ^ t) m).
  rewrite <- !Z.shiftl_mul_pow2, <- Z.shiftl_land by lia.
  rewrite land_odd_opp by exact Om. rewrite Z.shiftl_mul_pow2 by lia. ring.
Qed.

(** [ctz32] on a word that is not zero: the index of its lowest bit that
    is set. *)
Lemma ctz32_word x :
  Int32.is_int32 x -> x <> 0 ->
  0 <= ctz32 x < 32 /\ Z.testbit x (ctz32 x) = true
  /\ forall i, 0 <= i < ctz32 x -> Z.testbit x i = false.
Proof.
  intros Hx NZ. destruct (odd_factor x NZ) as [t [m [Ht [Om E]]]].
  assert (0 < 2 ^ t) as P by (apply Z.pow_pos_nonneg; lia).
  assert (t < 32) as T32.
  { unfold Int32.is_int32 in Hx.
    assert (m <> 0) by (intros ->; discriminate).
    assert (2 ^ t <= 2 ^ 31) as B by nia.
    apply Z.pow_le_mono_r_iff in B; lia. }
  assert (Int32.toUint32 (Int32.and x (- x)) = 2 ^ t) as EA.
  { unfold Int32.toUint32, Int32.and.
    rewrite <- (Z.mod_small (2 ^ t) (2 ^ 32))
      by (split; [lia | apply Z.pow_lt_mono_r; lia]).
    rewrite <- (land_opp_pow2 t m Ht Om), <- E.
    apply Z.bits_inj'. intros i Hi.
    destruct (Z.lt_ge_cases i 32).
    - rewrite !Z.mod_pow2_bits_low, !Z.land_spec, !testbit_toInt32 by lia.
      reflexivity.
    - rewrite !Z.mod_pow2_bits_high by lia. reflexivity. }
  assert (ctz32 x = t) as ->.
  { unfold ctz32, clz32. cbv zeta. rewrite EA.
    rewrite (proj2 (Z.eqb_neq x 0) NZ), (proj2 (Z.eqb_neq (2 ^ t) 0)) by lia.
    cbn [negb]. rewrite Z.log2_pow2 by lia. lia. }
  split; [lia |]. split.
  - rewrite E, Z.mul_comm, Z.mul_pow2_bits by lia.
    rewrite Z.sub_diag, Z.bit0_odd. exact Om.
  - intros i Hi. rewrite E, Z.mul_comm. apply Z.mul_pow2_bits_low. lia.
Qed.

(** [countTrailingZeros] is 64 on zero; otherwise it is the index of the
    lowest bit of the 64-bit pattern that is set. *)
Theorem countTrailingZeros_spec (v : Long) :
  wf v ->
  (ubits v = 0 -> countTrailingZeros v = 64)
  /\ (ubits v <> 0 ->
      0 <= countTrailingZeros v < 64
      /\ Z.testbit (ubits v) (countTrailingZeros v) = true
      /\ forall i, 0 <= i < countTrailingZeros v ->
           Z.testbit (ubits v) i = false).
Proof.
  intros Hv. pose proof Hv as [Hl Hh]. unfold countTrailingZeros. split.
  - intros Z0. apply (isZero_ubits v Hv) in Z0. unfold isZero in Z0.
    apply andb_prop in Z0. destruct Z0 as [Eh El].
    apply Z.eqb_eq in Eh, El. rewrite El, Eh. reflexivity.
  - intros NZ. destruct (Z.eqb_spec (low v) 0) as [El | Nl]; cbn [negb].
    + assert (high v <> 0) as Nh.
      { intros Eh. apply NZ. apply (isZero_ubits v Hv). unfold isZero.
        rewrite El, Eh. reflexivity. }
      destruct (ctz32_word (high v) Hh Nh) as [R [T F]].
      split; [lia |]. split.
      * rewrite testbit_ubits by lia.
        rewrite (proj2 (Z.ltb_ge _ 32)), (proj2 (Z.ltb_lt _ 64)) by lia.
        cbn [andb]. rewrite <- T. f_equal. lia.
      * intros i Hi. rewrite testbit_ubits by lia.
        destruct (Z.ltb_spec i 32); [rewrite El; apply Z.bits_0 |].
        rewrite F by lia. apply andb_false_r.
    + destruct (ctz32_word (low v) Hl Nl) as [R [T F]].
      split; [lia |]. split.
      * rewrite testbit_ubits by lia.
        rewrite (proj2 (Z.ltb_lt _ 32)) by lia. exact T.
      * intros i Hi. rewrite testbit_ubits by lia.
        rewrite (proj2 (Z.ltb_lt _ 32)) by lia. apply F. lia.
Qed.

Lemma countTrailingZeros_spec_witness :
  (ubits MIN_VALUE = 0 -> countTrailingZeros MIN_VALUE = 64)
  /\ (ubits MIN_VALUE <> 0 ->
      0 <= countTrailingZeros MIN_VALUE < 64
      /\ Z.testbit (ubits MIN_VALUE) (countTrailingZeros MIN_VALUE) = true
      /\ forall i, 0 <= i < countTrailingZeros MIN_VALUE ->
           Z.testbit (ubits MIN_VALUE) i = false).
Proof.
  apply countTrailingZeros_spec. unfold wf, Int32.is_int32. cbn. lia.
Defined.

(** The test of the loop of [getNumBitsAbs]. *)
Lemma and_bit val b :
  0 <= b < 32 ->
  (Int32.and val (Int32.shl 1 b) =? 0) = negb (Z.testbit val b).
Proof.
  intros Hb. unfold Int32.and.
  rewrite (toInt32_id (Int32.shl 1 b)) by apply toInt32_range.
  destruct (Z.testbit val b) eqn:T; cbn [negb].
  - apply Z.eqb_neq. intros E.
    apply (f_equal (fun z => Z.testbit z b)) in E.
    rewrite Z.land_spec, Z.bits_0, testbit_toInt32, T, tb_shl in E by lia.
    rewrite Z.sub_diag, (proj2 (Z.leb_le b b)) in E by lia.
    discriminate.
  - apply Z.eqb_eq. apply Z.bits_inj'. intros i Hi.
    rewrite Z.land_spec, Z.bits_0.
    destruct (Z.lt_ge_cases i 32).
    + rewrite testbit_toInt32, tb_shl by lia.
      destruct (Z.eq_dec i b) as [-> | N]; [rewrite T; reflexivity |].
      destruct (Z.leb_spec b i); cbn [andb]; [| apply andb_false_r].
      rewrite (Z.bits_above_log2 1 (i - b))
        by (try change (Z.log2 1) with 0; lia).
      apply andb_false_r.
    + rewrite tb_sign by lia.
      rewrite (tb_int32_high (Int32.shl 1 b) i) by (try apply toInt32_range; lia).
      rewrite <- (tb_int32_high (Int32.shl 1 b) 31)
        by (try apply toInt32_range; lia).
      rewrite tb_shl by lia.
      destruct (Z.eq_dec b 31) as [-> | N]; [rewrite T; reflexivity |].
      rewrite (Z.bits_above_log2 1 (31 - b))
        by (try change (Z.log2 1) with 0; lia).
      rewrite andb_false_r. apply andb_false_r.
Qed.

(** The loop ends at the highest bit of the word that is set, the lowest
    bit apart: at the binary logarithm of the word. *)
Lemma getNumBitsAbs_loop_high val n :
  (n <= 31)%nat ->
  (forall i, Z.of_nat n < i < 32 -> Z.testbit val i = false) ->
  getNumBitsAbs_loop val n = Z.log2 (Int32.toUint32 val).
Proof.
  intros Hn. induction n as [| n IH]; intros Hi.
  - cbn [getNumBitsAbs_loop]. unfold Int32.toUint32.
    pose proof (Z.mod_pos_bound val (2 ^ 32) ltac:(lia)) as B.
    destruct (Z.eq_dec (val mod 2 ^ 32) 0) as [-> | NZ]; [reflexivity |].
    symmetry. apply Z.log2_null.
    destruct (Z.le_gt_cases (val mod 2 ^ 32) 1); [assumption |].
    exfalso.
    pose proof (Z.bit_log2 (val mod 2 ^ 32) ltac:(lia)) as T.
    pose proof (Z.log2_pos (val mod 2 ^ 32) ltac:(lia)) as P.
    assert (Z.log2 (val mod 2 ^ 32) < 32) as L32
      by (apply Z.log2_lt_pow2; lia).
    rewrite Z.mod_pow2_bits_low in T by lia.
    rewrite Hi in T by lia. discriminate.
  - cbn [getNumBitsAbs_loop]. rewrite and_bit by lia.
    rewrite Bool.negb_involutive.
    destruct (Z.testbit val (Z.of_nat (S n))) eqn:T.
    + symmetry. set (k := Z.of_nat (S n)) in *.
      set (X := Int32.toUint32 val).
      assert (forall i, 0 <= i ->
                Z.testbit X i = (i <? 32) && Z.testbit val i) as TX
        by (intros i Hi0; apply testbit_toUint32; exact Hi0).
      assert (Z.testbit X k = true) as Tk.
      { rewrite TX by lia. rewrite T.
        rewrite (proj2 (Z.ltb_lt k 32)) by lia. reflexivity. }
      assert (0 < X) as PX.
      { assert (0 <= X) by (apply Z.mod_pos_bound; lia).
        destruct (Z.eq_dec X 0) as [E0 | N0]; [| lia].
        rewrite E0, Z.bits_0 in Tk. discriminate. }
      destruct (Z.lt_trichotomy (Z.log2 X) k) as [L | [E | G]].
      * rewrite (Z.bits_above_log2 X k) in Tk by lia. discriminate.
      * exact E.
      * pose proof (Z.bit_log2 X PX) as TL.
        rewrite TX in TL by (apply Z.log2_nonneg).
        destruct (Z.ltb_spec (Z.log2 X) 32); [| discriminate].
        rewrite Hi in TL by lia. discriminate.
    + apply IH; [lia |]. intros i Hr.
      destruct (Z.eq_dec i (Z.of_nat (S n))) as [-> | N]; [exact T |].
      apply Hi. lia.
Qed.

Lemma getNumBitsAbs_nonneg fuel v :
  wf v -> isNegative v = false ->
  getNumBitsAbs (S fuel) v = Ret (Z.max 1 (bit_length (ubits v))).
Proof.
  intros Hv N. pose proof Hv as [Hl Hh]. cbn [getNumBitsAbs]. rewrite N.
  cbv zeta. rewrite getNumBitsAbs_loop_high by lia. f_equal.
  pose proof (toUint32_zero (high v) Hh) as Zh.
  pose proof (toUint32_zero (low v) Hl) as Zl.
  unfold bit_length, ubits. unfold Int32.toUint32 in *.
  pose proof (Z.mod_pos_bound (low v) (2 ^ 32) ltac:(lia)) as Bl.
  pose proof (Z.mod_pos_bound (high v) (2 ^ 32) ltac:(lia)) as Bh.
  destruct (Z.eqb_spec (high v) 0) as [E | NZ]; cbn [negb].
  - rewrite E. change (0 mod 2 ^ 32) with 0. rewrite Z.mul_0_r, Z.add_0_r.
    pose proof (Z.log2_nonneg (low v mod 2 ^ 32)).
    destruct (Z.eqb_spec (low v mod 2 ^ 32) 0) as [E0 | N0].
    + rewrite E0. reflexivity.
    + lia.
  - assert (high v mod 2 ^ 32 <> 0) as N0 by (intros E0; apply NZ, Zh, E0).
    destruct (Z.eqb_spec (low v mod 2 ^ 32 + 2 ^ 32 * (high v mod 2 ^ 32)) 0);
      [lia |].
    rewrite log2_shift32 by lia.
    pose proof (Z.log2_nonneg (high v mod 2 ^ 32)). lia.
Qed.

(** [getNumBitsAbs] returns the number of bits of the absolute value,
    and 1 for zero. *)
Theorem getNumBitsAbs_spec (fuel : nat) (v : Long) :
  wf v -> (2 <= fuel)%nat ->
  getNumBitsAbs fuel v = Ret (Z.max 1 (bit_length (Z.abs (value v)))).
Proof.
  intros Hv Hf. destruct fuel as [| fuel]; [lia |].
  pose proof (ubits_range v) as R.
  destruct (isNegative v) eqn:N.
  - rewrite (isNegative_ubits v Hv) in N. apply andb_prop in N.
    destruct N as [U B]. apply Z.leb_le in B.
    apply negb_true_iff in U.
    assert (value v = ubits v - 2 ^ 64) as Ev.
    { rewrite value_ubits, U.
      rewrite (proj2 (Z.ltb_ge (ubits v) (2 ^ 63))) by lia. reflexivity. }
    rewrite Ev. cbn [getNumBitsAbs].
    rewrite (isNegative_ubits v Hv), U.
    rewrite (proj2 (Z.leb_le (2 ^ 63) (ubits v))) by lia. cbn [negb andb].
    rewrite (eq_MIN_VALUE_ubits v Hv), U. cbn [negb andb].
    destruct (Z.eqb_spec (ubits v) (2 ^ 63)) as [E | NE].
    + rewrite E. reflexivity.
    + destruct fuel as [| fuel]; [lia |].
      rewrite getNumBitsAbs_nonneg.
      * unfold neg. rewrite (negate_ubits v Hv).
        replace ((- ubits v) mod 2 ^ 64) with (2 ^ 64 - ubits v)
          by (apply Z.mod_unique with (-1); lia).
        do 3 f_equal. lia.
      * apply wf_negate.
      * rewrite isNegative_ubits by apply wf_negate.
        unfold neg. rewrite unsigned_negate, U, (negate_ubits v Hv).
        replace ((- ubits v) mod 2 ^ 64) with (2 ^ 64 - ubits v)
          by (apply Z.mod_unique with (-1); lia).
        cbn [negb andb]. apply Z.leb_gt. lia.
  - rewrite (getNumBitsAbs_nonneg fuel v Hv N).
    rewrite (isNegative_ubits v Hv) in N.
    rewrite value_ubits. destruct (unsigned v); cbn [negb andb] in N.
    + rewrite Z.abs_eq by lia. reflexivity.
    + apply Z.leb_gt in N.
      rewrite (proj2 (Z.ltb_lt (ubits v) (2 ^ 63))) by lia.
      rewrite Z.abs_eq by lia. reflexivity.
Qed.

Lemma getNumBitsAbs_spec_witness :
  getNumBitsAbs 2 NEG_ONE = Ret (Z.max 1 (bit_length (Z.abs (value NEG_ONE)))).
Proof.
  apply getNumBitsAbs_spec; [unfold wf, Int32.is_int32; cbn; lia | lia].
Defined.

(** ** Words and small integers *)

Lemma ubits_fromInt x (u : bool) :
  ubits (fromInt x u)
  = if u then x mod 2 ^ 32 else Int32.toInt32 x mod 2 ^ 64.
Proof.
  unfold fromInt. destruct u; cbv zeta; rewrite ubits_fromBits.
  - unfold Int32.toUint32. rewrite Z.mod_mod by lia.
    change (0 mod 2 ^ 32) with 0. lia.
  - pose proof (toInt32_range x) as R. unfold Int32.is_int32 in R.
    destruct (Z.ltb_spec (Int32.toInt32 x) 0).
    + change (-1 mod 2 ^ 32) with (2 ^ 32 - 1).
      assert (Int32.toInt32 x mod 2 ^ 32 = Int32.toInt32 x + 2 ^ 32) as ->
        by (symmetry; apply Z.mod_unique with (-1); lia).
      apply Z.mod_unique with (-1); lia.
    + change (0 mod 2 ^ 32) with 0. rewrite !Z.mod_small by lia. lia.
Qed.

(** [fromInt] makes the Long of a 32-bit integer, sign-extended when
    signed: its value is the argument wrapped to 32 bits, and [toInt]
    gives it back. *)
Theorem fromInt_value (x : Z) (u : bool) :
  wf (fromInt x u) /\ unsigned (fromInt x u) = u
  /\ value (fromInt x u) = (if u then x mod 2 ^ 32 else Int32.toInt32 x)
  /\ toInt (fromInt x u) = value (fromInt x u).
Proof.
  assert (wf (fromInt x u)) as W
    by (unfold fromInt; destruct u; apply wf_fromBits).
  assert (unsigned (fromInt x u) = u) as U
    by (unfold fromInt; destruct u; reflexivity).
  assert (value (fromInt x u)
          = if u then x mod 2 ^ 32 else Int32.toInt32 x) as V.
  { apply value_unique.
    - rewrite ubits_fromInt. destruct u; [| reflexivity].
      rewrite Z.mod_small; [reflexivity |].
      pose proof (Z.mod_pos_bound x (2 ^ 32) ltac:(lia)). lia.
    - rewrite U. unfold min_of, max_of.
      pose proof (toInt32_range x) as R. unfold Int32.is_int32 in R.
      pose proof (Z.mod_pos_bound x (2 ^ 32) ltac:(lia)).
      destruct u; lia. }
  split; [exact W |]. split; [exact U |]. split; [exact V |].
  rewrite V. unfold toInt. rewrite U.
  unfold fromInt. destruct u; cbv zeta; cbn [low fromBits new_Long].
  - rewrite shru_0, toInt32_mod. unfold Int32.toUint32.
    apply Z.mod_mod. lia.
  - apply toInt32_id, toInt32_range.
Qed.

(** [toInt] is the value wrapped to 32 bits: onto the signed range for a
    signed Long, onto the unsigned range for an unsigned one. *)
Theorem toInt_value (v : Long) :
  wf v ->
  toInt v = if unsigned v then value v mod 2 ^ 32
            else Int32.toInt32 (value v).
Proof.
  intros [Hl Hh]. unfold toInt. rewrite shru_0.
  assert (value v mod 2 ^ 32 = low v mod 2 ^ 32) as E.
  { pose proof (value_mod v) as M.
    pose proof (Z.div_mod (value v) (2 ^ 64) ltac:(lia)) as D.
    rewrite M in D. unfold ubits, Int32.toUint32 in D.
    pose proof (Z.mod_pos_bound (low v) (2 ^ 32) ltac:(lia)) as Bl.
    symmetry.
    apply Z.mod_unique
      with (2 ^ 32 * (value v / 2 ^ 64) + high v mod 2 ^ 32); lia. }
  destruct (unsigned v); [symmetry; exact E |].
  apply int32_eq_mod; [exact Hl | apply toInt32_range |].
  rewrite toInt32_mod. symmetry. exact E.
Qed.

Lemma toInt_value_witness :
  toInt MAX_UNSIGNED_VALUE
  = if unsigned MAX_UNSIGNED_VALUE then value MAX_UNSIGNED_VALUE mod 2 ^ 32
    else Int32.toInt32 (value MAX_UNSIGNED_VALUE).
Proof.
  apply toInt_value. unfold wf, Int32.is_int32. cbn. lia.
Defined.

(** ** Conversion to a number *)

Lemma fl_opp q : (q < 0)%Q -> Num.fl q = Num.neg (Num.fl (- q)).
Proof.
  intros H. unfold Num.fl.
  destruct (Qcompare_spec q 0) as [E | L | G]; try (exfalso; lra).
  destruct (Qcompare_spec (- q) 0) as [E | L' | G]; try (exfalso; lra).
  reflexivity.
Qed.

Lemma fl_int_neg z :
  - 2 ^ 53 < z < 0 -> Num.fl (inject_Z z) = Fin (inject_Z z).
Proof.
  intros H. rewrite fl_opp
    by (change 0%Q with (inject_Z 0); rewrite <- Zlt_Qlt; lia).
  rewrite (fl_compat _ (inject_Z (- z)))
    by (rewrite inject_Z_opp; reflexivity).
  rewrite fl_int by lia. cbn [Num.neg]. f_equal.
  rewrite <- (Qred_inject z). apply Qred_complete.
  rewrite inject_Z_opp. ring.
Qed.

Lemma fl_grid_neg m e :
  0 < m < 2 ^ 53 -> 0 <= e <= 960 ->
  Num.fl (inject_Z (- (m * 2 ^ e))) = Fin (inject_Z (- (m * 2 ^ e))).
Proof.
  intros Hm He.
  assert (0 < m * 2 ^ e) as P
    by (apply Z.mul_pos_pos; [lia | apply Z.pow_pos_nonneg; lia]).
  rewrite fl_opp
    by (change 0%Q with (inject_Z 0); rewrite <- Zlt_Qlt; lia).
  rewrite (fl_compat _ (inject_Z (m * 2 ^ e)))
    by (rewrite inject_Z_opp; ring).
  rewrite fl_grid by lia. cbn [Num.neg]. f_equal.
  rewrite <- (Qred_inject (- (m * 2 ^ e))). apply Qred_complete.
  rewrite !inject_Z_opp. ring.
Qed.

Lemma signed_value v :
  wf v -> unsigned v = false ->
  value v = low v mod 2 ^ 32 + 2 ^ 32 * high v.
Proof.
  intros Hv U. unfold value. rewrite U. apply signed_ubits, Hv.
Qed.

Lemma toNumber_fl v : wf v -> toNumber v = Num.fl (inject_Z (value v)).
Proof.
  intros Hv. destruct (isNegative v) eqn:N.
  - pose proof Hv as [Hl Hh]. unfold isNegative in N.
    apply andb_prop in N. destruct N as [U Hn].
    apply negb_true_iff in U. apply Z.ltb_lt in Hn.
    rewrite (signed_value v Hv U). unfold toNumber. rewrite U, shru_0.
    pose proof (Z.mod_pos_bound (low v) (2 ^ 32) ltac:(lia)) as Bl.
    unfold Int32.is_int32 in Hh.
    unfold Num.of_Z. rewrite (fl_int_neg (high v)) by lia.
    rewrite fl_int by lia. rewrite TWO_PWR_32_DBL_eq.
    unfold Num.mul. rewrite <- inject_Z_mult.
    replace (high v * 2 ^ 32) with (- ((- high v) * 2 ^ 32)) by ring.
    rewrite (fl_grid_neg (- high v) 32) by lia.
    unfold Num.add. apply fl_compat. rewrite <- inject_Z_plus.
    replace (- (- high v * 2 ^ 32) + low v mod 2 ^ 32)
      with (low v mod 2 ^ 32 + 2 ^ 32 * high v) by ring.
    reflexivity.
  - rewrite (toNumber_nonneg v Hv N). do 2 f_equal.
    rewrite (isNegative_ubits v Hv) in N. rewrite value_ubits.
    destruct (unsigned v); [reflexivity |]. cbn [negb andb] in N.
    apply Z.leb_gt in N.
    rewrite (proj2 (Z.ltb_lt (ubits v) (2 ^ 63))) by lia. reflexivity.
Qed.

(** [toNumber] is the value rounded to binary64, to the nearest number
    and to the even one of two that are as near. *)
Theorem toNumber_value (v : Long) :
  wf v -> toNumber v = Num.fl (inject_Z (value v)).
Proof. exact (toNumber_fl v). Qed.

Lemma toNumber_value_witness :
  toNumber MIN_VALUE = Num.fl (inject_Z (value MIN_VALUE)).
Proof.
  apply toNumber_value. unfold wf, Int32.is_int32. cbn. lia.
Defined.

(** A Long whose value is below 2^53 in absolute value converts to the
    number of that value, and [fromNumber] gives the Long back. *)
Theorem fromNumber_toNumber (fuel : nat) (v : Long) :
  wf v -> Z.abs (value v) < 2 ^ 53 -> (2 <= fuel)%nat ->
  toNumber v = Fin (inject_Z (value v))
  /\ fromNumber fuel (toNumber v) (unsigned v) = Ret v.
Proof.
  intros Hv B Hf. rewrite (toNumber_fl v Hv).
  pose proof (value_mod v) as M. pose proof (ubits_range v) as R.
  pose proof (value_range v) as Rv. unfold min_of, max_of in Rv.
  destruct (Z.lt_ge_cases (value v) 0) as [Neg | Pos].
  - rewrite fl_int_neg by lia. split; [reflexivity |].
    assert (unsigned v = false) as U by (destruct (unsigned v); [lia | reflexivity]).
    rewrite U. destruct fuel as [| [| fuel]]; try lia.
    set (F := - value v) in *.
    assert ((- inject_Z (value v) == inject_Z F)%Q) as E
      by (unfold F; rewrite inject_Z_opp; reflexivity).
    assert (0 < - inject_Z (value v))%Q as P.
    { rewrite E. change 0%Q with (inject_Z 0). rewrite <- Zlt_Qlt.
      unfold F. lia. }
    rewrite fromNumber_negative.
    + rewrite (Qfloor_comp _ _ E), Qfloor_Z.
      rewrite neg_of_bits. f_equal. symmetry.
      apply long_of_bits; [exact Hv | exact U |].
      unfold F. rewrite Z.opp_involutive. symmetry. exact M.
    + change 0%Q with (inject_Z 0). rewrite <- Zlt_Qlt. lia.
    + rewrite (rnd_compat _ _ P E), E. symmetry.
      apply rnd_exact_Z. unfold F. lia.
    + rewrite <- Zlt_Qlt. lia.
  - rewrite fl_int by lia. split; [reflexivity |].
    rewrite fromNumber_returns.
    + f_equal. symmetry. apply long_of_bits; [exact Hv | reflexivity |].
      symmetry. exact M.
    + lia.
    + destruct (unsigned v); lia.
    + left. lia.
Qed.

Lemma fromNumber_toNumber_witness :
  toNumber NEG_ONE = Fin (inject_Z (value NEG_ONE))
  /\ fromNumber 2 (toNumber NEG_ONE) (unsigned NEG_ONE) = Ret NEG_ONE.
Proof.
  apply fromNumber_toNumber.
  - unfold wf, Int32.is_int32. cbn. lia.
  - cbn. lia.
  - lia.
Defined.

(** ** Printing, parsing and division *)

(** [toString] in a radix from 2 to 36 returns, also for [MIN_VALUE], a
    hyphen when the value is negative and then the digits of the
    absolute value: a string of the characters 0-9 and a-z that is not
    empty and denotes that number. *)
Theorem toString_value (w : bool) (mlog : number -> number)
    (v : Long) (r : Z) :
  (w = false -> log_accurate mlog) -> wf v -> 2 <= r <= 36 ->
  exists s,
    digit_string r s = true /\ s <> ""%string
    /\ val r s = Z.abs (value v)
    /\ returns (fun fuel => toString w mlog fuel v (Some r))
               (if value v <? 0 then String "-" s else s).
Proof.
  intros Hlog Hv Hr. pose proof (ubits_range v) as R.
  pose proof (of_bits_ubits v Hv) as Ev. rewrite value_ubits.
  destruct (Z.eq_dec (ubits v) 0) as [Z0 | NZ].
  { exists "0"%string. rewrite Z0.
    split; [cbn [digit_string]; rewrite lower_digit_zero by exact Hr;
            reflexivity |].
    split; [discriminate |]. split; [destruct (unsigned v); reflexivity |].
    assert ((if (if unsigned v then 0
                 else if 0 <? 2 ^ 63 then 0 else 0 - 2 ^ 64) <? 0
             then String "-" "0" else "0"%string) = "0"%string) as ->
      by (destruct (unsigned v); reflexivity).
    exists 1%nat. intros [| fuel] Hf; [lia |].
    rewrite toString_unfold by exact Hr.
    rewrite (proj2 (isZero_ubits v Hv)) by exact Z0. reflexivity. }
  destruct (Z.lt_ge_cases (ubits v)
              (if unsigned v then 2 ^ 64 else 2 ^ 63)) as [Pos | Neg].
  { destruct (toString_nonneg w mlog Hlog r Hr (unsigned v) (ubits v)
                ltac:(lia)) as [s [Ds [NE [Vs Rs]]]].
    rewrite Ev in Rs. exists s.
    assert ((if unsigned v then ubits v
             else if ubits v <? 2 ^ 63 then ubits v else ubits v - 2 ^ 64)
            = ubits v) as ->.
    { destruct (unsigned v); [reflexivity |].
      rewrite (proj2 (Z.ltb_lt _ _)) by lia. reflexivity. }
    rewrite (proj2 (Z.ltb_ge (ubits v) 0)) by lia.
    rewrite Z.abs_eq by lia. repeat split; assumption. }
  assert (unsigned v = false) as U
    by (destruct (unsigned v); [lia | reflexivity]).
  rewrite U in *. rewrite (proj2 (Z.ltb_ge (ubits v) (2 ^ 63))) by lia.
  rewrite (proj2 (Z.ltb_lt (ubits v - 2 ^ 64) 0)) by lia.
  rewrite Z.abs_neq by lia.
  destruct (Z.eq_dec (ubits v) (2 ^ 63)) as [Min | NMin].
  { assert (v = MIN_VALUE) as EM by (rewrite <- Ev, Min; reflexivity).
    destruct (toString_MIN_VALUE w mlog Hlog r Hr) as [s [Ds [NE [Vs Rs]]]].
    rewrite <- EM in Rs. exists s. rewrite Min.
    repeat split; assumption. }
  assert (v = of_bits (- (2 ^ 64 - ubits v)) false) as EN.
  { rewrite <- Ev at 1. apply of_bits_eq. rewrite Z.mod_small by lia.
    apply Z.mod_unique with (-1); lia. }
  destruct (toString_negative w mlog Hlog r Hr (2 ^ 64 - ubits v) ltac:(lia))
    as [s [Ds [NE [Vs Rs]]]].
  rewrite <- EN in Rs. exists s.
  replace (- (ubits v - 2 ^ 64)) with (2 ^ 64 - ubits v) by ring.
  repeat split; assumption.
Qed.

Lemma toString_value_witness :
  exists s,
    digit_string 7 s = true /\ s <> ""%string
    /\ val 7 s = Z.abs (value MAX_UNSIGNED_VALUE)
    /\ returns (fun fuel => toString false step_log fuel MAX_UNSIGNED_VALUE
                                     (Some 7))
               (if value MAX_UNSIGNED_VALUE <? 0 then String "-" s else s).
Proof.
  apply toString_value.
  - intros _. exact step_log_accurate.
  - unfold wf, Int32.is_int32. cbn. lia.
  - lia.
Defined.

(** [fromString] in a radix from 2 to 36 reads a string of digits 0-9
    and a-z of that radix that is not empty as the number it denotes,
    and as its opposite after a hyphen; a number out of range wraps
    around modulo 2^64 without an error. *)
Theorem fromString_value (w : bool) (r : Z) (s : string) (u : bool)
    (fuel : nat) :
  2 <= r <= 36 -> s <> ""%string -> digit_string r s = true ->
  (String.length s + 6 <= fuel)%nat ->
  fromString w fuel s (inl u) (Some r) = Ret (of_bits (val r s) u)
  /\ fromString w fuel (String "-" s) (inl u) (Some r)
     = Ret (of_bits (- val r s) u)
  /\ ubits (of_bits (val r s) u) = val r s mod 2 ^ 64.
Proof.
  intros Hr NE D Hf. split; [| split].
  - apply fromString_digits; try assumption. lia.
  - apply fromString_negative; assumption.
  - apply ubits_of_bits.
Qed.

Lemma fromString_value_witness :
  fromString false 9 "zz" (inl true) (Some 36)
    = Ret (of_bits (val 36 "zz") true)
  /\ fromString false 9 (String "-" "zz") (inl true) (Some 36)
     = Ret (of_bits (- val 36 "zz") true)
  /\ ubits (of_bits (val 36 "zz") true) = val 36 "zz" mod 2 ^ 64.
Proof.
  apply fromString_value.
  - lia.
  - discriminate.
  - reflexivity.
  - cbn. lia.
Defined.

Lemma wasm_rem_u_spec a b :
  ubits b <> 0 ->
  wasm_call Wasm.rem_u a b
  = Ret (of_bits (ubits a mod ubits b) (unsigned a)).
Proof.
  intros Hb. pose proof (ubits_range a) as Ra. pose proof (ubits_range b) as Rb.
  unfold wasm_call, Wasm.call. rewrite !operand_ubits. cbn [Wasm.exec].
  rewrite (proj2 (Z.eqb_neq (ubits b) 0) Hb).
  rewrite wasm_words; [reflexivity |].
  pose proof (Z.mod_pos_bound (ubits a) (ubits b) ltac:(lia)). lia.
Qed.

Lemma wasm_rem_s_spec a b :
  ubits b <> 0 ->
  wasm_call Wasm.rem_s a b
  = Ret (of_bits (Z.rem (Wasm.signed (ubits a)) (Wasm.signed (ubits b)))
                 (unsigned a)).
Proof.
  intros Hb.
  unfold wasm_call, Wasm.call. rewrite !operand_ubits. cbn [Wasm.exec].
  rewrite (proj2 (Z.eqb_neq (ubits b) 0) Hb).
  rewrite wasm_words by (apply Z.mod_pos_bound; lia).
  rewrite of_bits_mod. reflexivity.
Qed.

(** For a dividend that is not negative and a divisor of the same
    signedness from 1 to 2^32 - 1 (at least 4 for a dividend of 2^62 or
    more), [divide] returns the quotient and [modulo] the remainder, with
    the accelerator and without it. *)
Theorem divide_small_divisor (w : bool) (mlog : number -> number)
    (a b : Long) :
  (w = false -> log_accurate mlog) ->
  wf a -> wf b -> unsigned b = unsigned a ->
  0 <= value a -> 1 <= value b < 2 ^ 32 -> value a < value b * 2 ^ 62 ->
  exists q m,
    returns (fun fuel => divide w mlog fuel a b) q
    /\ returns (fun fuel => modulo w mlog fuel a b) m
    /\ unsigned q = unsigned a /\ unsigned m = unsigned a
    /\ value q = value a / value b /\ value m = value a mod value b.
Proof.
  intros Hlog Ha Hb Hu Pa Pb Pab.
  pose proof (value_range a) as Ra. pose proof (value_range b) as Rb.
  rewrite Hu in Rb. unfold min_of, max_of in *.
  remember (unsigned a) as u eqn:Eu. set (R := value a) in *.
  set (D := value b) in *.
  assert (a = of_bits R u) as Ea.
  { apply long_of_bits; [exact Ha | symmetry; exact Eu |].
    symmetry. apply value_mod. }
  assert (b = of_bits D u) as Eb.
  { apply long_of_bits; [exact Hb | exact Hu |].
    symmetry. apply value_mod. }
  assert (0 <= R < (if u then 2 ^ 64 else 2 ^ 63)) as HR
    by (destruct u; lia).
  assert (0 <= R / D <= R) as Hq.
  { split; [apply Z.div_pos; lia |].
    apply Z.div_le_upper_bound; [lia |]. nia. }
  pose proof (Z.mod_pos_bound R D ltac:(lia)) as Hm.
  pose proof (Z.div_mod R D ltac:(lia)) as DM.
  destruct (divide_nonneg_spec w mlog u R D Hlog HR Pb Pab) as [n Hn].
  exists (of_bits (R / D) u), (of_bits (R mod D) u).
  split; [exists n; rewrite Ea, Eb; exact Hn |]. split.
  - rewrite Ea, Eb. destruct w.
    + exists 0%nat. intros fuel _. unfold modulo.
      rewrite unsigned_of_bits.
      destruct u.
      * rewrite wasm_rem_u_spec;
          rewrite ?ubits_of_bits, ?(Z.mod_small R (2 ^ 64)),
            ?(Z.mod_small D (2 ^ 64)) by lia;
          [reflexivity | lia].
      * rewrite wasm_rem_s_spec;
          rewrite ?ubits_of_bits, ?(Z.mod_small R (2 ^ 64)),
            ?(Z.mod_small D (2 ^ 64)) by lia;
          [| lia].
        rewrite !signed_small by lia.
        rewrite Z.rem_mod_nonneg by lia. reflexivity.
    + exists (Nat.max n 3). intros fuel Hf. unfold modulo, div, mul.
      rewrite Hn by lia. cbn [bind].
      rewrite multiply_returns
        by first [lia | destruct u; [right | left]; reflexivity].
      cbn [bind]. rewrite sub_of_bits. do 2 f_equal. lia.
  - rewrite !unsigned_of_bits.
    rewrite !value_of_bits by (destruct u; lia).
    repeat split; reflexivity.
Qed.

Lemma divide_small_divisor_witness :
  exists q m,
    returns (fun fuel => divide false step_log fuel MAX_UNSIGNED_VALUE
                                (fromInt 10 true)) q
    /\ returns (fun fuel => modulo false step_log fuel MAX_UNSIGNED_VALUE
                                   (fromInt 10 true)) m
    /\ unsigned q = unsigned MAX_UNSIGNED_VALUE
    /\ unsigned m = unsigned MAX_UNSIGNED_VALUE
    /\ value q = value MAX_UNSIGNED_VALUE / value (fromInt 10 true)
    /\ value m = value MAX_UNSIGNED_VALUE mod value (fromInt 10 true).
Proof.
  apply divide_small_divisor.
  - intros _. exact step_log_accurate.
  - unfold wf, Int32.is_int32. cbn. lia.
  - unfold wf, Int32.is_int32. cbn. lia.
  - reflexivity.
  - cbn. lia.
  - cbn. lia.
  - cbn. lia.
Defined.
